(** * Testability project: logic evaluation, event-driven simulation, SCOAP and PODEM

    A shallow embedding of the three revisions of the workbench:
    - [Step1]: the zero-delay evaluator (step1/step1.py);
    - [Step2]: the event-driven timing simulator (step2/step2.py);
    - [Step3]: the ATPG stage (step3/Gate.py, Circuit.py, Podem.py).

    Gate objects are shared and mutated in place by the Python code.  Here a
    netlist is a list of gate declarations, a gate reference is the position
    of the gate in that list, and the fields a run mutates ([output], the
    SCOAP numbers, the fault flags, the scheduled events) live in a store
    indexed by the same references. *)

From stdpp Require Import base numbers list strings gmap pretty.
From Stdlib Require Import ZArith Lia Sorted.

Open Scope Z_scope.

(** ** Gate kinds and declarations *)

(** [Gate.type]; [Kother] stands for any string that is none of the ten
    known kinds. *)
Inductive Kind :=
  | Kinpt | Kand | Kor | Knand | Knor | Kxor | Kxnor | Knot | Kbuf | Kfanout
  | Kother.

Global Instance Kind_eq_dec : EqDecision Kind.
Proof. solve_decision. Defined.

(** The fields of a gate that are fixed once the netlist is loaded.
    [inputs] holds references (positions in the gate list). *)
Record Gate := mkGate {
  address : Z;
  name : string;
  gate_type : Kind;
  fanout : Z;
  fanin : Z;
  delay : Z;
  inputs : list nat
}.

Global Instance Gate_inhabited : Inhabited Gate :=
  populate (mkGate 0 "" Kother 0 0 0 []).

(** Values of the binary/unknown mode used by the two simulators. *)
Inductive Logic := L0 | L1 | LU | LZ.

Global Instance Logic_eq_dec : EqDecision Logic.
Proof. solve_decision. Defined.

(** A gate reference always points at a gate; the default is what a fresh
    gate holds. *)
Global Instance Logic_inhabited : Inhabited Logic := populate LU.

(** [x in l] of Python, on lists. *)
Definition py_in `{EqDecision A} (x : A) (l : list A) : bool :=
  bool_decide (x ∈ l).

(** [int(inp)] on the characters ['0'] and ['1']; the callers exclude
    ['U'] and ['Z'] before converting. *)
Definition int_of (v : Logic) : Z :=
  match v with L1 => 1 | _ => 0 end.

Definition sum_ints (vs : list Logic) : Z :=
  foldr (fun v acc => int_of v + acc) 0 vs.

(** [str(xor_sum)] for a sum taken modulo 2. *)
Definition str_bit (z : Z) : Logic := if decide (z = 0) then L0 else L1.

Definition is_binary (v : Logic) : bool :=
  match v with L0 | L1 => true | _ => false end.

(** ** Step 1: the zero-delay evaluator *)

Module Step1.

(** The value [Gate.evaluate] assigns to [self.output], for a gate that
    is not of kind [inpt]. *)
Definition eval_kind (k : Kind) (input_values : list Logic) : Logic :=
  let has_U := py_in LU input_values in
  let has_Z := py_in LZ input_values in
  let clean_inputs := filter (fun v => is_binary v = true) input_values in
  match k with
  | Knand =>
      if py_in L0 clean_inputs then L1
      else if has_U then LU
      else if has_Z then LZ
      else L0
  | Kand =>
      if py_in L0 clean_inputs then L0
      else if has_U || has_Z then LU
      else L1
  | Kor =>
      if py_in L1 clean_inputs then L1
      else if has_U || has_Z then LU
      else L0
  | Knor =>
      if py_in L1 clean_inputs then L0
      else if has_U || has_Z then LU
      else L1
  | Kxor =>
      if has_U || has_Z then LU
      else str_bit (sum_ints input_values mod 2)
  | Kxnor =>
      if has_U || has_Z then LU
      else if decide (sum_ints input_values mod 2 = 0) then L1 else L0
  | Knot =>
      match input_values with
      | [] => LU
      | v :: _ =>
          if py_in v [LU; LZ] then LU
          else if decide (v = L1) then L0 else L1
      end
  | Kbuf | Kfanout =>
      match input_values with
      | [] => LU
      | v :: _ => v
      end
  | Kinpt | Kother => LU
  end.

(** [[gate.output for gate in self.inputs]]. *)
Definition input_values (outs : list Logic) (g : Gate) : list Logic :=
  map (fun r => outs !!! r) (inputs g).

(** [Gate.evaluate]: gates of kind [inpt] are skipped. *)
Definition evaluate (outs : list Logic) (r : nat) (g : Gate) : list Logic :=
  match gate_type g with
  | Kinpt => outs
  | k => <[r := eval_kind k (input_values outs g)]> outs
  end.

(** One test vector of [run_simulation_for_vectors]: the primary inputs
    take their value from the vector (['U'] when absent), then every
    gate is evaluated once, in the order of the gate map. *)
Fixpoint set_inputs (vec : gmap Z Logic) (r : nat) (gs : list Gate)
    (outs : list Logic) : list Logic :=
  match gs with
  | [] => outs
  | g :: gs' =>
      set_inputs vec (S r) gs'
        (if decide (gate_type g = Kinpt)
         then <[r := default LU (vec !! address g)]> outs
         else outs)
  end.

Fixpoint evaluate_all (r : nat) (gs : list Gate) (outs : list Logic)
    : list Logic :=
  match gs with
  | [] => outs
  | g :: gs' => evaluate_all (S r) gs' (evaluate outs r g)
  end.

Definition simulate_vector (gates : list Gate) (vec : gmap Z Logic)
    (outs : list Logic) : list Logic :=
  evaluate_all 0 gates (set_inputs vec 0 gates outs).

(** [run_simulation_for_vectors]: the snapshot taken after each vector,
    with its time step, and the gate outputs left at the end. *)
Fixpoint run_simulation_for_vectors (gates : list Gate)
    (test_vectors : list (Z * gmap Z Logic)) (outs : list Logic)
    : list (Z * list Logic) * list Logic :=
  match test_vectors with
  | [] => ([], outs)
  | (time_step, vec) :: tvs =>
      let outs' := simulate_vector gates vec outs in
      let '(log, final) := run_simulation_for_vectors gates tvs outs' in
      ((time_step, outs') :: log, final)
  end.

(** Every gate starts with [output = 'U']. *)
Definition initial_outputs (gates : list Gate) : list Logic :=
  replicate (length gates) LU.

End Step1.

(** ** Step 2: the event-driven simulator *)

Module Step2.

(** [pending_output] of [Gate.evaluate]. *)
Definition eval_kind (k : Kind) (input_values : list Logic) : Logic :=
  let has_U := py_in LU input_values in
  let has_Z := py_in LZ input_values in
  let clean_inputs := filter (fun v => is_binary v = true) input_values in
  match k with
  | Knand =>
      if py_in L0 clean_inputs then L1
      else if has_U then LU
      else if has_Z then LZ
      else L0
  | Kand =>
      if py_in L0 clean_inputs then L0
      else if py_in LU input_values then LU
      else if py_in LZ input_values then LZ
      else L1
  | Kor =>
      if py_in L1 clean_inputs then L1
      else if py_in LU input_values then LU
      else if py_in LZ input_values then LZ
      else L0
  | Knor =>
      if py_in L1 clean_inputs then L0
      else if py_in LU input_values then LU
      else if py_in LZ input_values then LZ
      else L1
  | Kxor =>
      if has_U || has_Z then LU
      else str_bit (sum_ints input_values mod 2)
  | Kxnor =>
      if has_U || has_Z then LU
      else if decide (sum_ints input_values mod 2 = 0) then L1 else L0
  | Knot =>
      match input_values with
      | [] => LU
      | v :: _ =>
          if decide (v = LU) then LU
          else if decide (v = LZ) then LU
          else if decide (v = L1) then L0 else L1
      end
  | Kbuf =>
      match input_values with
      | [] => LU
      | v :: _ => if py_in v [LU; LZ] then v else v
      end
  | Kfanout =>
      match input_values with
      | [] => LU
      | v :: _ => v
      end
  | Kinpt | Kother => LU
  end.

(** A scheduled output change [(event_time, pending_output)]. *)
Definition Event : Type := Z * Logic.

(** The two effects of the simulator that the timing claims speak about:
    a gate being scheduled, and a scheduled event being committed to
    [output].  The simulator state carries their log (latest first); the
    Python code performs them without recording them. *)
Inductive Effect :=
  | Scheduled (now : Z) (gate : nat) (event_time : Z) (value : Logic)
  | Committed (now : Z) (gate : nat) (event_time : Z) (value : Logic).

Global Instance Effect_eq_dec : EqDecision Effect.
Proof. solve_decision. Defined.

(** The mutable part of the circuit and of a simulation run.  A [heapq]
    queue is kept as the sorted list of its contents: [heappop] yields
    the least element, and elements that compare equal are the same
    tuple.  ([last_input_event_time] is written and never read; it is
    left out.) *)
Record State := mkState {
  outs : list Logic;
  scheduled_events : list (list Event);
  timing_queue : list (Z * Z * nat);
  trace : list Effect
}.

(** Order of the characters ['0' < '1' < 'U' < 'Z']. *)
Definition logic_code (v : Logic) : Z :=
  match v with L0 => 48 | L1 => 49 | LU => 85 | LZ => 90 end.

(** Tuple comparison [e1 <= e2] on [(event_time, pending_output)]. *)
Definition event_le (e1 e2 : Event) : bool :=
  bool_decide (e1.1 < e2.1) ||
  (bool_decide (e1.1 = e2.1) && bool_decide (logic_code e1.2 ≤ logic_code e2.2)).

(** Tuple comparison on [(fire_time, address, gate)]; two entries with the
    same time and address hold the same gate. *)
Definition timing_le (x y : Z * Z * nat) : bool :=
  bool_decide (x.1.1 < y.1.1) ||
  (bool_decide (x.1.1 = y.1.1) && bool_decide (x.1.2 ≤ y.1.2)).

(** [heapq.heappush] on the sorted contents. *)
Fixpoint heappush {A} (le : A -> A -> bool) (x : A) (q : list A) : list A :=
  match q with
  | [] => [x]
  | y :: q' => if le x y then x :: y :: q' else y :: heappush le x q'
  end.

Definition input_values (st : State) (g : Gate) : list Logic :=
  map (fun r => outs st !!! r) (inputs g).

(** [Gate.evaluate(current_time)] for the gate at reference [r]. *)
Definition evaluate (r : nat) (g : Gate) (current_time : Z) (st : State)
    : State :=
  match gate_type g with
  | Kinpt => st
  | k =>
      let pending_output := eval_kind k (input_values st g) in
      let event_time := current_time + delay g in
      let kept :=
        filter (fun e : Event => e.1 ≠ event_time)
               (scheduled_events st !!! r) in
      mkState (outs st)
        (<[r := heappush event_le (event_time, pending_output) kept]>
           (scheduled_events st))
        (timing_queue st)
        (Scheduled current_time r event_time pending_output :: trace st)
  end.

(** The loop of [Gate.update_output]: the events popped, in order, and
    the events left. *)
Fixpoint pop_due (current_time : Z) (q : list Event)
    : list Event * list Event :=
  match q with
  | e :: q' =>
      if decide (e.1 ≤ current_time)
      then let '(popped, rest) := pop_due current_time q' in
           (e :: popped, rest)
      else ([], q)
  | [] => ([], [])
  end.

(** [Gate.update_output(current_time)]. *)
Definition update_output (r : nat) (current_time : Z) (st : State) : State :=
  let '(popped, rest) := pop_due current_time (scheduled_events st !!! r) in
  mkState
    (match last popped with
     | Some e => <[r := e.2]> (outs st)
     | None => outs st
     end)
    (<[r := rest]> (scheduled_events st))
    (timing_queue st)
    (rev (map (fun e : Event => Committed current_time r e.1 e.2) popped)
       ++ trace st).

Definition push_timing (x : Z * Z * nat) (st : State) : State :=
  mkState (outs st) (scheduled_events st)
    (heappush timing_le x (timing_queue st)) (trace st).

(** [for fanout_gate in self.gates.values(): if gate in fanout_gate.inputs:
    evaluate it and push it on the timing queue]; [r] is the reference of
    the first gate of [gs]. *)
Fixpoint schedule_fanouts (gate : nat) (current_time : Z) (r : nat)
    (gs : list Gate) (st : State) : State :=
  match gs with
  | [] => st
  | fanout_gate :: gs' =>
      schedule_fanouts gate current_time (S r) gs'
        (if py_in gate (inputs fanout_gate)
         then push_timing
                (current_time + delay fanout_gate, address fanout_gate, r)
                (evaluate r fanout_gate current_time st)
         else st)
  end.

Definition set_output (r : nat) (v : Logic) (st : State) : State :=
  mkState (<[r := v]> (outs st)) (scheduled_events st)
    (timing_queue st) (trace st).

(** Processing a test vector that fires at [current_time]. *)
Fixpoint apply_vector (gates : list Gate) (vec : gmap Z Logic)
    (current_time : Z) (r : nat) (gs : list Gate) (st : State) : State :=
  match gs with
  | [] => st
  | g :: gs' =>
      apply_vector gates vec current_time (S r) gs'
        (match (if decide (gate_type g = Kinpt)
                then vec !! address g else None) with
         | Some v =>
             if decide (outs st !!! r ≠ v)
             then schedule_fanouts r current_time 0 gates
                    (set_output r v st)
             else st
         | None => st
         end)
  end.

(** One turn of the loop draining the events that fire at
    [current_time]. *)
Definition process_event (gates : list Gate) (current_time : Z)
    (gate : nat) (st : State) : State :=
  schedule_fanouts gate current_time 0 gates
    (update_output gate current_time st).

Definition pop_timing (st : State) : State :=
  mkState (outs st) (scheduled_events st) (tail (timing_queue st))
    (trace st).

(** [while timing_queue and timing_queue[0][0] == current_time].  [None]
    when the fuel does not suffice. *)
Fixpoint drain (fuel : nat) (gates : list Gate) (current_time : Z)
    (st : State) : option State :=
  match fuel with
  | O => None
  | S fuel' =>
      match timing_queue st with
      | (t, _, gate) :: _ =>
          if decide (t = current_time)
          then drain fuel' gates current_time
                 (process_event gates current_time gate (pop_timing st))
          else Some st
      | [] => Some st
      end
  end.

(** The main loop of [run_simulation_for_vectors]; [test_vectors] are the
    vectors from [current_test_index] on.  [float('inf')] never wins the
    [min] because one of the two times is finite inside the loop. *)
Definition next_time (test_vectors : list (Z * gmap Z Logic))
    (st : State) : option Z :=
  match test_vectors, timing_queue st with
  | (nt, _) :: _, (qt, _, _) :: _ => Some (Z.min nt qt)
  | (nt, _) :: _, [] => Some nt
  | [], (qt, _, _) :: _ => Some qt
  | [], [] => None
  end.

Fixpoint run_simulation_for_vectors (fuel : nat) (gates : list Gate)
    (test_vectors : list (Z * gmap Z Logic)) (st : State) : option State :=
  match fuel with
  | O => None
  | S fuel' =>
      match next_time test_vectors st with
      | None => Some st
      | Some current_time =>
          let '(st1, rest) :=
            match test_vectors with
            | (nt, vec) :: rest =>
                if decide (current_time = nt)
                then (apply_vector gates vec current_time 0 gates st, rest)
                else (st, test_vectors)
            | [] => (st, [])
            end in
          match drain fuel' gates current_time st1 with
          | None => None
          | Some st2 => run_simulation_for_vectors fuel' gates rest st2
          end
      end
  end.

Definition initial_state (gates : list Gate) : State :=
  mkState (replicate (length gates) LU) (replicate (length gates) []) [] [].

End Step2.

(** ** Step 3: D-algebra, SCOAP and PODEM *)

(** Values of the D-algebra.  [VNone] is Python's [None], which
    [evaluate_and], [evaluate_or] and [oppositeVal] return when no branch
    applies, and which [fault_value] holds on a gate without a fault. *)
Inductive DValue := V0 | V1 | VX | VU | VZ | VD | VDbar | VNone.

Global Instance DValue_eq_dec : EqDecision DValue.
Proof. solve_decision. Defined.

(** Testability measures: Python integers, [float('inf')] and (as the
    starting point of a maximum search) [-math.inf]. *)
Inductive Cost := NegInf | Fin (z : Z) | Inf.

Global Instance Cost_eq_dec : EqDecision Cost.
Proof. solve_decision. Defined.

Definition cost_add (a b : Cost) : Cost :=
  match a, b with
  | Fin x, Fin y => Fin (x + y)
  | Inf, _ | _, Inf => Inf
  | NegInf, _ | _, NegInf => NegInf
  end.

Definition cost_lt (a b : Cost) : bool :=
  match a, b with
  | NegInf, NegInf => false
  | NegInf, _ => true
  | Fin x, Fin y => bool_decide (x < y)
  | Fin _, Inf => true
  | _, _ => false
  end.

Definition cost_le (a b : Cost) : bool := negb (cost_lt b a).

(** [min(a, b)]: the first argument unless the second is smaller. *)
Definition cost_min (a b : Cost) : Cost := if cost_lt b a then b else a.

(** [min(...)] over a generator: [None] is the [ValueError] on an empty
    sequence. *)
Definition py_min (l : list Cost) : option Cost :=
  match l with
  | [] => None
  | x :: l' => Some (foldl cost_min x l')
  end.

(** [sum(...)] over a generator. *)
Definition py_sum (l : list Cost) : Cost := foldl cost_add (Fin 0) l.

(** The outcome of code with unbounded loops or recursion: a value, a Python
    exception, or not enough fuel to reach either. *)
Inductive Result (A : Type) :=
  | Ok (a : A)
  | Raised
  | OutOfFuel.
Arguments Ok {A} a.
Arguments Raised {A}.
Arguments OutOfFuel {A}.

Global Instance Result_eq_dec `{EqDecision A} : EqDecision (Result A).
Proof. solve_decision. Defined.

Global Instance Result_bind : MBind Result := fun A B f m =>
  match m with
  | Ok a => f a
  | Raised => Raised
  | OutOfFuel => OutOfFuel
  end.

(** An operation that can only raise. *)
Definition or_raise {A} (o : option A) : Result A :=
  match o with
  | Some a => Ok a
  | None => Raised
  end.

Module Step3.

(** The mutable fields of a gate object. *)
Record GateState := mkGateState {
  output : DValue;
  faulty : bool;
  fault_value : DValue;
  CC0 : Cost;
  CC1 : Cost;
  CO : Cost
}.

(** What [Gate.__init__] sets. *)
Definition fresh_gate : GateState := mkGateState VU false VNone Inf Inf Inf.

Global Instance GateState_inhabited : Inhabited GateState :=
  populate fresh_gate.

Definition set_output_field (v : DValue) (s : GateState) : GateState :=
  mkGateState v (faulty s) (fault_value s) (CC0 s) (CC1 s) (CO s).
Definition set_fault (f : bool) (v : DValue) (s : GateState) : GateState :=
  mkGateState (output s) f v (CC0 s) (CC1 s) (CO s).
Definition set_CC (c0 c1 : Cost) (s : GateState) : GateState :=
  mkGateState (output s) (faulty s) (fault_value s) c0 c1 (CO s).
Definition set_CO_field (c : Cost) (s : GateState) : GateState :=
  mkGateState (output s) (faulty s) (fault_value s) (CC0 s) (CC1 s) c.

(** [GATE_PROPERTIES]. *)
Definition inversion (k : Kind) : bool :=
  match k with
  | Knot | Knand | Knor | Kxnor => true
  | _ => false
  end.

Definition non_controlling_value (k : Kind) : DValue :=
  match k with
  | Knot | Knand | Kand | Kbuf | Kfanout => V1
  | Knor | Kxnor | Kor | Kxor => V0
  | Kinpt | Kother => VX
  end.

(** *** Gate.py: evaluation in the D-algebra *)

(** [input_values.count(v)]. *)
Definition count (v : DValue) (l : list DValue) : Z :=
  Z.of_nat (length (filter (fun x => x = v) l)).

(** [all(val in allowed for val in input_values)]. *)
Definition all_in (allowed l : list DValue) : bool :=
  forallb (fun v => py_in v allowed) l.

(** [None] is the [IndexError] of [input_values[0]] on an empty list. *)
Definition evaluate_not (input_values : list DValue)
    (has_X has_U has_Z : bool) : option DValue :=
  match input_values with
  | [] => None
  | input_val :: _ =>
      Some (if has_Z || has_U then VU
            else match input_val with
                 | VD => VDbar
                 | VDbar => VD
                 | V1 => V0
                 | V0 => V1
                 | _ => VX
                 end)
  end.

Definition evaluate_xor (input_values : list DValue)
    (has_X has_U has_Z : bool) : DValue :=
  if has_Z || has_U then VU
  else if has_X then VX
  else
    let d_count := count VD input_values in
    let d_prime_count := count VDbar input_values in
    let one_count := count V1 input_values in
    if bool_decide (d_count = 0) && bool_decide (d_prime_count = 0)
    then (if bool_decide (one_count mod 2 = 1) then V1 else V0)
    else if bool_decide (d_count mod 2 = 1)
            && bool_decide (d_prime_count mod 2 = 0)
    then (if bool_decide (one_count mod 2 = 1) then VDbar else VD)
    else if bool_decide (d_count mod 2 = 1)
            && bool_decide (d_prime_count mod 2 = 1)
    then (if bool_decide (one_count mod 2 = 1) then V0 else V1)
    else if bool_decide (d_count mod 2 = 0)
            && bool_decide (d_prime_count mod 2 = 1)
    then (if bool_decide (one_count mod 2 = 1) then VD else VDbar)
    else V0.

Definition evaluate_or (input_values : list DValue)
    (has_X has_U has_Z : bool) : DValue :=
  if has_Z || has_U then VU
  else if py_in V1 input_values then V1
  else if has_X then VX
  else if py_in VD input_values && py_in VDbar input_values then V1
  else if py_in VD input_values && all_in [V0; VD] input_values then VD
  else if py_in VDbar input_values && all_in [V0; VDbar] input_values
  then VDbar
  else if forallb (fun v => bool_decide (v = V0)) input_values then V0
  else VNone.

Definition evaluate_and (input_values : list DValue)
    (has_X has_U has_Z : bool) : DValue :=
  if has_Z || has_U then VU
  else if py_in V0 input_values then V0
  else if has_X then VX
  else if py_in VD input_values && py_in VDbar input_values then V0
  else if py_in VD input_values && all_in [V1; VD] input_values then VD
  else if py_in VDbar input_values && all_in [V1; VDbar] input_values
  then VDbar
  else if forallb (fun v => bool_decide (v = V1)) input_values then V1
  else VNone.

Definition evaluate_xnor (input_values : list DValue)
    (has_X has_U has_Z : bool) : option DValue :=
  evaluate_not [evaluate_xor input_values has_X has_U has_Z]
    has_X has_U has_Z.

Definition evaluate_nor (input_values : list DValue)
    (has_X has_U has_Z : bool) : option DValue :=
  evaluate_not [evaluate_or input_values has_X has_U has_Z]
    has_X has_U has_Z.

Definition evaluate_nand (input_values : list DValue)
    (has_X has_U has_Z : bool) : option DValue :=
  evaluate_not [evaluate_and input_values has_X has_U has_Z]
    has_X has_U has_Z.

Definition evaluate_buf (input_values : list DValue)
    (has_X has_U has_Z : bool) : option DValue := head input_values.

Definition evaluate_fanout (input_values : list DValue)
    (has_X has_U has_Z : bool) : option DValue := head input_values.

(** The fault injection at the end of [d_algebra_evaluate]. *)
Definition inject_fault (s : GateState) (out : DValue) : DValue :=
  if faulty s then
    if bool_decide (fault_value s = V1) && bool_decide (out = V0) then VDbar
    else if bool_decide (fault_value s = V0) && bool_decide (out = V1)
    then VD
    else out
  else out.

(** [Gate.d_algebra_evaluate] on the gate at reference [r]; [None] when
    the Python code raises. *)
Definition d_algebra_evaluate (g : Gate) (r : nat) (st : list GateState)
    : option (list GateState) :=
  let input_values := map (fun i => output (st !!! i)) (inputs g) in
  let has_X := py_in VX input_values in
  let has_U := py_in VU input_values in
  let has_Z := py_in VZ input_values in
  out ← match gate_type g with
        | Kinpt => Some (output (st !!! r))
        | Kand => Some (evaluate_and input_values has_X has_U has_Z)
        | Kor => Some (evaluate_or input_values has_X has_U has_Z)
        | Kxor => Some (evaluate_xor input_values has_X has_U has_Z)
        | Knot => evaluate_not input_values has_X has_U has_Z
        | Kbuf => evaluate_buf input_values has_X has_U has_Z
        | Knand => evaluate_nand input_values has_X has_U has_Z
        | Knor => evaluate_nor input_values has_X has_U has_Z
        | Kxnor => evaluate_xnor input_values has_X has_U has_Z
        | Kfanout => evaluate_fanout input_values has_X has_U has_Z
        | Kother => Some VX
        end;
  Some (alter (set_output_field (inject_fault (st !!! r) out)) r st).

(** *** Circuit.py: the netlist and the SCOAP measures *)

(** [self.gates] after loading is a dictionary from net name to gate
    object, kept here in insertion order as pairs of a key and a
    reference into [heap], the list of every gate object created. *)
Record Circuit := mkCircuit {
  heap : list Gate;
  gates : list (string * nat);
  primary_inputs : list nat;
  primary_outputs : list nat
}.

(** [self.gates.values()]. *)
Definition values (c : Circuit) : list nat := (gates c).*2.

(** Assignment [d[k] = v] on an insertion-ordered dictionary: an existing
    key keeps its place. *)
Fixpoint dict_set {K V} `{EqDecision K} (k : K) (v : V)
    (d : list (K * V)) : list (K * V) :=
  match d with
  | [] => [(k, v)]
  | (k', v') :: d' =>
      if decide (k' = k) then (k, v) :: d' else (k', v') :: dict_set k v d'
  end.

(** [d.get(k, None)]; also [d[k]], whose [KeyError] is [None]. *)
Fixpoint dict_get {K V} `{EqDecision K} (k : K) (d : list (K * V))
    : option V :=
  match d with
  | [] => None
  | (k', v) :: d' => if decide (k' = k) then Some v else dict_get k d'
  end.

(** The lines of an ISCAS file as the three patterns of
    [load_iscas_file] tell them apart (comments and blank lines are
    skipped; the fault names of a line play no part). *)
Inductive Line :=
  | GateLine (addr : Z) (declared_name : string) (kind : Kind)
      (fanout_n fanin_n : Z)
  | BranchLine (branch_address : Z) (branch_name : string)
      (source_address : Z)
  | InputsLine (parts : list Z).

(** [name[:-3]]. *)
Definition drop_last3 (s : string) : string :=
  String.substring 0 (String.length s - 3) s.

(** The state of the loop of [load_iscas_file]: the gate objects created
    so far, the address-keyed dictionary, [current_gate] and
    [fanout_counter]. *)
Record Loader := mkLoader {
  objects : list Gate;
  by_address : list (Z * nat);
  current_gate : option nat;
  fanout_counter : gmap string nat
}.

Definition set_inputs_delay (ins : list nat) (d : Z) (g : Gate) : Gate :=
  mkGate (address g) (name g) (gate_type g) (fanout g) (fanin g) d ins.

(** [[self.gates[a] for a in parts]]. *)
Definition resolve (d : list (Z * nat)) (parts : list Z)
    : option (list nat) :=
  mapM (fun a => dict_get a d) parts.

(** [str(n)] for a branch index. *)
Definition str_nat (n : nat) : string := pretty n.

Definition load_line (l : Line) (ld : Loader) : option Loader :=
  match l with
  | GateLine addr declared_name kind fanout_n fanin_n =>
      let gate :=
        mkGate addr (drop_last3 declared_name) kind fanout_n fanin_n 0 [] in
      let r := length (objects ld) in
      Some (mkLoader (objects ld ++ [gate])
              (dict_set addr r (by_address ld)) (Some r)
              (fanout_counter ld))
  | BranchLine branch_address _ source_address =>
      src ← dict_get source_address (by_address ld);
      let base_name := name (objects ld !!! src) in
      let k := S (default 0%nat (fanout_counter ld !! base_name)) in
      let branch_name := base_name +:+ "_" +:+ str_nat k in
      let branch_gate :=
        mkGate branch_address branch_name Kfanout 1 1 0 [src] in
      let r := length (objects ld) in
      Some (mkLoader (objects ld ++ [branch_gate])
              (dict_set branch_address r (by_address ld))
              (current_gate ld)
              (<[base_name := k]> (fanout_counter ld)))
  | InputsLine parts =>
      match current_gate ld with
      | None => Some ld
      | Some cur =>
          let g := objects ld !!! cur in
          let '(parts', delay') :=
            if decide (Z.of_nat (length parts) = fanin g + 1)
            then (removelast parts, List.last parts 0)
            else (parts, 0) in
          ins ← resolve (by_address ld) parts';
          Some (mkLoader (alter (set_inputs_delay ins delay') cur
                            (objects ld))
                  (by_address ld) (current_gate ld) (fanout_counter ld))
      end
  end.

Fixpoint load_lines (ls : list Line) (ld : Loader) : option Loader :=
  match ls with
  | [] => Some ld
  | l :: ls' => ld' ← load_line l ld; load_lines ls' ld'
  end.

(** [{value.name: value for key, value in self.gates.items()}]. *)
Definition rekey (objs : list Gate) (d : list (Z * nat))
    : list (string * nat) :=
  foldl (fun acc kv => dict_set (name (objs !!! kv.2)) kv.2 acc) [] d.

(** [identify_primary_ios]. *)
Definition identify_inputs (objs : list Gate) (vals : list nat) : list nat :=
  filter (fun r => gate_type (objs !!! r) = Kinpt) vals.

Definition identify_outputs (objs : list Gate) (vals : list nat)
    : list nat :=
  filter (fun r => fanout (objs !!! r) = 0) vals.

(** [Circuit.__init__] on the lines of the file. *)
Definition load_iscas_file (ls : list Line) : option Circuit :=
  ld ← load_lines ls (mkLoader [] [] None ∅);
  let named := rekey (objects ld) (by_address ld) in
  Some (mkCircuit (objects ld) named
          (identify_inputs (objects ld) named.*2)
          (identify_outputs (objects ld) named.*2)).

(** Every gate object as its constructor leaves it. *)
Definition initial_store (c : Circuit) : list GateState :=
  replicate (length (heap c)) fresh_gate.

(** A [for] loop whose body may raise. *)
Fixpoint for_each {A S} (body : A -> S -> option S) (l : list A) (s : S)
    : option S :=
  match l with
  | [] => Some s
  | x :: l' => s' ← body x s; for_each body l' s'
  end.

Definition set_CC0 (c : Cost) (s : GateState) : GateState :=
  set_CC c (CC1 s) s.
Definition set_CC1 (c : Cost) (s : GateState) : GateState :=
  set_CC (CC0 s) c s.

Definition one : Cost := Fin 1.

Section Scoap.
Variable c : Circuit.

Definition gate_of (r : nat) : Gate := heap c !!! r.

Definition CC0s (st : list GateState) (rs : list nat) : list Cost :=
  map (fun i => CC0 (st !!! i)) rs.
Definition CC1s (st : list GateState) (rs : list nat) : list Cost :=
  map (fun i => CC1 (st !!! i)) rs.

(** The first loop of [compute_scoap]. *)
Definition init_input (r : nat) (st : list GateState) : list GateState :=
  if decide (gate_type (gate_of r) = Kinpt)
  then alter (set_CC one one) r st
  else st.

(** The two assignments [gate.CC0 = e0; gate.CC1 = e1], in this order;
    [e1] is read after the first assignment. *)
Definition assign_CC (r : nat)
    (e0 e1 : list GateState -> option Cost) (st : list GateState)
    : option (list GateState) :=
  c0 ← e0 st;
  let st1 := alter (set_CC0 c0) r st in
  c1 ← e1 st1;
  Some (alter (set_CC1 c1) r st1).

Definition min_plus_1 (l : list Cost) : option Cost :=
  m ← py_min l; Some (cost_add m one).
Definition sum_plus_1 (l : list Cost) : option Cost :=
  Some (cost_add (py_sum l) one).

(** [min(a.X + b.Y, a.Z + b.W) + 1] on the first two inputs. *)
Definition xor_cost (ins : list nat)
    (f1 f2 f3 f4 : GateState -> Cost) (st : list GateState)
    : option Cost :=
  a ← ins !! 0%nat; b ← ins !! 1%nat;
  Some (cost_add
          (cost_min (cost_add (f1 (st !!! a)) (f2 (st !!! b)))
                    (cost_add (f3 (st !!! a)) (f4 (st !!! b))))
          one).

(** The body of the forward pass. *)
Definition forward_step (r : nat) (st : list GateState)
    : option (list GateState) :=
  let ins := inputs (gate_of r) in
  match gate_type (gate_of r) with
  | Kand =>
      assign_CC r (fun s => min_plus_1 (CC0s s ins))
                  (fun s => sum_plus_1 (CC1s s ins)) st
  | Kor =>
      assign_CC r (fun s => sum_plus_1 (CC0s s ins))
                  (fun s => min_plus_1 (CC1s s ins)) st
  | Knand =>
      assign_CC r (fun s => sum_plus_1 (CC1s s ins))
                  (fun s => min_plus_1 (CC0s s ins)) st
  | Knor =>
      assign_CC r (fun s => min_plus_1 (CC1s s ins))
                  (fun s => sum_plus_1 (CC0s s ins)) st
  | Kxor =>
      assign_CC r (xor_cost ins CC0 CC0 CC1 CC1)
                  (xor_cost ins CC1 CC0 CC0 CC1) st
  | Kxnor =>
      assign_CC r (xor_cost ins CC1 CC0 CC0 CC1)
                  (xor_cost ins CC0 CC0 CC1 CC1) st
  | Knot =>
      assign_CC r (fun s => a ← ins !! 0%nat;
                            Some (cost_add (CC1 (s !!! a)) one))
                  (fun s => a ← ins !! 0%nat;
                            Some (cost_add (CC0 (s !!! a)) one)) st
  | Kbuf | Kfanout =>
      assign_CC r (fun s => a ← ins !! 0%nat; Some (CC0 (s !!! a)))
                  (fun s => a ← ins !! 0%nat; Some (CC1 (s !!! a))) st
  | Kinpt | Kother => Some st
  end.

(** [gate in other_gate.inputs] for some gate of the map. *)
Definition consumed (r : nat) : bool :=
  existsb (fun o => py_in r (inputs (gate_of o))) (values c).

Definition set_CO (r : nat) (v : Cost) (st : list GateState)
    : list GateState :=
  alter (set_CO_field v) r st.

(** [a.CO = gate.CO + b.F + 1; b.CO = gate.CO + a.F + 1] on the first
    two inputs. *)
Definition pair_CO (r : nat) (F : GateState -> Cost)
    (st : list GateState) : option (list GateState) :=
  let ins := inputs (gate_of r) in
  b ← ins !! 1%nat; a ← ins !! 0%nat;
  let st1 :=
    set_CO a (cost_add (cost_add (CO (st !!! r)) (F (st !!! b))) one)
      st in
  Some (set_CO b
          (cost_add (cost_add (CO (st1 !!! r)) (F (st1 !!! a))) one)
          st1).

(** [[gate.inputs[j] for j in range(len(gate.inputs)) if j != i]]. *)
Definition other_inputs (ins : list nat) (i : nat) : list nat :=
  take i ins ++ drop (S i) ins.

(** The loop over the inputs of an xor or xnor gate. *)
Definition xor_CO (r : nat) (st : list GateState)
    : option (list GateState) :=
  let ins := inputs (gate_of r) in
  for_each
    (fun i s =>
       let others := other_inputs ins i in
       m0 ← py_min (CC0s s others);
       m1 ← py_min (CC1s s others);
       target ← ins !! i;
       Some (set_CO target
               (cost_add (cost_add (CO (s !!! r)) (cost_add m0 m1)) one)
               s))
    (seq 0 (length ins)) st.

(** The body of the backward pass: first [if gate.fanout == 0:
    gate.CO = 0], then the case distinction on the kind. *)
Definition mark_output (r : nat) (st : list GateState) : list GateState :=
  if decide (fanout (gate_of r) = 0) then set_CO r (Fin 0) st else st.

Definition backward_kind (r : nat) (st : list GateState)
    : option (list GateState) :=
  let g := gate_of r in
  match gate_type g with
  | Kfanout =>
      if consumed r
      then stem ← inputs g !! 0%nat;
           Some (if cost_lt (CO (st !!! r)) (CO (st !!! stem))
                 then set_CO stem (CO (st !!! r)) st
                 else st)
      else Some (set_CO r (Fin 0) st)
  | Kand | Knand => pair_CO r CC1 st
  | Kor | Knor => pair_CO r CC0 st
  | Kxor | Kxnor => xor_CO r st
  | Knot | Kbuf =>
      a ← inputs g !! 0%nat;
      Some (set_CO a (cost_add (CO (st !!! r)) one) st)
  | Kinpt | Kother => Some st
  end.

Definition backward_step (r : nat) (st : list GateState)
    : option (list GateState) :=
  backward_kind r (mark_output r st).

(** [compute_scoap], without the report it writes at the end. *)
Definition compute_scoap (st : list GateState)
    : option (list GateState) :=
  let st0 := foldl (fun s r => init_input r s) st (values c) in
  st1 ← for_each forward_step (values c) st0;
  for_each backward_step (rev (values c)) st1.

End Scoap.

(** *** Podem.py *)

(** The fields of the [PODEM] object ([self.fault_value] is never
    assigned after [__init__] and is left out). *)
Record Podem := mkPodem {
  fault_is_activated : bool;
  D_Frontier : list nat;
  fault_gate : option nat
}.

(** [PODEM.__init__], also [podem_reset]. *)
Definition podem_new : Podem := mkPodem false [] None.

Definition is_D (v : DValue) : bool := py_in v [VD; VDbar].

Definition oppositeVal (value : DValue) : DValue :=
  match value with
  | V0 => V1
  | V1 => V0
  | _ => VNone
  end.

(** [check_imply_gate]; Python's [None] (no branch taken) counts as
    false where it is tested. *)
Definition check_imply_gate (k : Kind) (value : DValue) : bool :=
  match value with
  | V1 => match k with Kor | Knand => false | _ => true end
  | V0 => match k with Kand | Knor => false | _ => true end
  | _ => false
  end.

(** Stable sort by address, as [sorted(..., key=lambda g: g.address)]. *)
Fixpoint insert_sorted (key : nat -> Z) (x : nat) (l : list nat)
    : list nat :=
  match l with
  | [] => [x]
  | y :: l' =>
      if bool_decide (key x ≤ key y) then x :: y :: l'
      else y :: insert_sorted key x l'
  end.

Definition sorted_by (key : nat -> Z) (l : list nat) : list nat :=
  foldr (insert_sorted key) [] l.

Section Podem.
Variable c : Circuit.

Definition podem_init (st : list GateState) : list GateState :=
  foldl (fun s g => alter (set_output_field VX) g s) st (values c).

(** The loop of [x_path_check]: [visited] and the queue. *)
Fixpoint x_path_loop (fuel : nat) (st : list GateState)
    (visited queue : list nat) : Result bool :=
  match fuel with
  | O => OutOfFuel
  | S fuel' =>
      match queue with
      | [] => Ok false
      | node :: queue' =>
          if py_in node visited
          then x_path_loop fuel' st visited queue'
          else if py_in node (primary_outputs c) then Ok true
          else
            x_path_loop fuel' st (node :: visited)
              (queue' ++
               filter (fun g =>
                         py_in node (inputs (gate_of c g)) = true
                         /\ py_in (output (st !!! g)) [VX; VD; VDbar]
                            = true)
                      (values c))
      end
  end.

Definition x_path_check (fuel : nat) (st : list GateState) (gate : nat)
    : Result bool :=
  x_path_loop fuel st [] [gate].

(** The loop of [generate_d_frontier] over the gates still to visit;
    the result is the new [D_Frontier].  The [break] ends the loop at the
    first gate whose output is X and that has an input at D or D',
    whether or not that gate passes the X-path check. *)
Fixpoint generate_d_frontier_loop (fuel : nat) (st : list GateState)
    (gs : list nat) : Result (list nat) :=
  match gs with
  | [] => Ok []
  | g :: gs' =>
      if decide (output (st !!! g) = VX)
      then
        if existsb (fun inp => is_D (output (st !!! inp)))
             (inputs (gate_of c g))
        then ok ← x_path_check fuel st g;
             Ok (if ok : bool then [g] else [])
        else generate_d_frontier_loop fuel st gs'
      else generate_d_frontier_loop fuel st gs'
  end.

Definition generate_d_frontier (fuel : nat) (st : list GateState)
    : Result (list nat) :=
  generate_d_frontier_loop fuel st (values c).

Definition success (st : list GateState) : bool :=
  existsb (fun po => is_D (output (st !!! po))) (primary_outputs c).

(** [min(self.D_Frontier, key=lambda gate: gate.CO)] on a non-empty
    list: the first gate of least [CO]. *)
Definition min_by_CO (st : list GateState) (g0 : nat) (gs : list nat)
    : nat :=
  foldl (fun best g =>
           if cost_lt (CO (st !!! g)) (CO (st !!! best)) then g else best)
        g0 gs.

(** [get_objective]: the objective gate (if any), the objective value,
    and the updated [PODEM] fields. *)
Definition get_objective (fuel : nat) (st : list GateState) (p : Podem)
    : Result (option nat * DValue * Podem) :=
  fg ← or_raise (fault_gate p);
  let p1 :=
    if is_D (output (st !!! fg))
    then mkPodem true (D_Frontier p) (fault_gate p)
    else p in
  if negb (fault_is_activated p1)
  then
    if py_in (output (st !!! fg)) [V1; V0] then Ok (None, VNone, p1)
    else Ok (Some fg, oppositeVal (fault_value (st !!! fg)), p1)
  else
    frontier ← generate_d_frontier fuel st;
    let p2 := mkPodem (fault_is_activated p1) frontier (fault_gate p1) in
    match frontier with
    | [] => Ok (None, VX, p2)
    | g0 :: gs =>
        let g := min_by_CO st g0 gs in
        match filter (fun inp => output (st !!! inp) = VX)
                (inputs (gate_of c g)) with
        | inp :: _ =>
            Ok (Some inp, non_controlling_value (gate_type (gate_of c g)),
                p2)
        | [] => Ok (None, VX, p2)
        end
    end.

(** The controllability the two searches compare, chosen by
    [objective_value]; [None] when it is neither ['0'] nor ['1']. *)
Definition target_CC (objective_value : DValue) (s : GateState)
    : option Cost :=
  match objective_value with
  | V0 => Some (CC0 s)
  | V1 => Some (CC1 s)
  | _ => None
  end.

Definition get_easiest_to_satisfy_gate (st : list GateState)
    (objective_gate : nat) (objective_value : DValue) : option nat :=
  (foldl (fun (acc : option nat * Cost) gate =>
            if decide (output (st !!! gate) = VX)
            then match target_CC objective_value (st !!! gate) with
                 | Some cc =>
                     if cost_lt cc acc.2 then (Some gate, cc) else acc
                 | None => acc
                 end
            else acc)
         (None, Inf) (inputs (gate_of c objective_gate))).1.

Definition get_hardest_to_satisfy_gate (st : list GateState)
    (objective_gate : nat) (objective_value : DValue) : option nat :=
  (foldl (fun (acc : option nat * Cost) gate =>
            if decide (output (st !!! gate) = VX)
            then match target_CC objective_value (st !!! gate) with
                 | Some cc =>
                     if cost_lt acc.2 cc then (Some gate, cc) else acc
                 | None => acc
                 end
            else acc)
         (None, NegInf) (inputs (gate_of c objective_gate))).1.

(** One turn of the loop of [backtrace] at a gate that is not a primary
    input: the value handed down and the input the walk descends to
    ([None] when no input qualifies). *)
Definition backtrace_step (st : list GateState) (objective_gate : nat)
    (objective_value : DValue) : option nat * DValue :=
  let k := gate_type (gate_of c objective_gate) in
  let target_pi_value :=
    if inversion k then oppositeVal objective_value
    else objective_value in
  (if check_imply_gate k target_pi_value
   then get_hardest_to_satisfy_gate st objective_gate objective_value
   else get_easiest_to_satisfy_gate st objective_gate objective_value,
   target_pi_value).

(** [backtrace].  The recursive call returns a primary input, which
    ends the loop; descending to [None] raises [AttributeError]. *)
Fixpoint backtrace (fuel : nat) (st : list GateState)
    (objective_gate : nat) (objective_value : DValue)
    : Result (nat * DValue) :=
  match fuel with
  | O => OutOfFuel
  | S fuel' =>
      if decide (gate_type (gate_of c objective_gate) = Kinpt)
      then Ok (objective_gate, objective_value)
      else
        match backtrace_step st objective_gate objective_value with
        | (Some target_pi, target_pi_value) =>
            backtrace fuel' st target_pi target_pi_value
        | (None, _) => Raised
        end
  end.

Definition sorted_gates : list nat :=
  sorted_by (fun g => address (gate_of c g)) (values c).

Definition evaluate_pass (st : list GateState)
    : option (list GateState) :=
  for_each (fun g s => d_algebra_evaluate (gate_of c g) g s)
    sorted_gates st.

Definition outputs_of (st : list GateState) : list DValue :=
  map (fun g => output (st !!! g)) sorted_gates.

(** [imply]: passes over the gates until one changes no output. *)
Fixpoint imply (fuel : nat) (st : list GateState)
    : Result (list GateState) :=
  match fuel with
  | O => OutOfFuel
  | S fuel' =>
      st' ← or_raise (evaluate_pass st);
      if decide (outputs_of st' ≠ outputs_of st)
      then imply fuel' st'
      else Ok st'
  end.

Definition assign (target_pi : nat) (v : DValue) (st : list GateState)
    : list GateState :=
  alter (set_output_field v) target_pi st.

(** [podem_recursive]. *)
Fixpoint podem_recursive (fuel : nat) (st : list GateState) (p : Podem)
    : Result (list GateState * Podem * bool) :=
  match fuel with
  | O => OutOfFuel
  | S fuel' =>
      if success st then Ok (st, p, true)
      else
        '(objective_gate, objective_value, p1) ←
          get_objective fuel' st p;
        match objective_gate with
        | None => Ok (st, p1, false)
        | Some objective_gate =>
            '(target_pi, target_pi_value) ←
              backtrace fuel' st objective_gate objective_value;
            st1 ← imply fuel' (assign target_pi target_pi_value st);
            '(st2, p2, found) ← podem_recursive fuel' st1 p1;
            if found : bool then Ok (st2, p2, true)
            else
              st3 ← imply fuel'
                     (assign target_pi (oppositeVal target_pi_value) st2);
              '(st4, p4, found') ← podem_recursive fuel' st3 p2;
              if found' : bool then Ok (st4, p4, true)
              else
                st5 ← imply fuel' (assign target_pi VX st4);
                Ok (st5, p4, false)
        end
  end.

(** The pattern read off the primary inputs. *)
Definition pattern_value (v : DValue) : DValue :=
  match v with
  | VD => V1
  | VDbar => V0
  | _ => v
  end.

Definition test_vector_of (st : list GateState) : list DValue :=
  map (fun g => pattern_value (output (st !!! g))) (primary_inputs c).

(** [generate_test_vector] for the fault [(net name, stuck value)], on
    a freshly reset [PODEM] object: the gate store it leaves and the
    vector it returns ([None] for Python's [None]). *)
Definition generate_test_vector (fuel : nat) (st : list GateState)
    (fault : string * Z) : Result (list GateState * option (list DValue)) :=
  let st1 := podem_init st in
  fg ← or_raise (dict_get fault.1 (gates c));
  let st2 :=
    alter (set_fault true (if decide (fault.2 = 1) then V1 else V0)) fg
      st1 in
  '(st3, _, found) ← podem_recursive fuel st2 (mkPodem false [] (Some fg));
  let st4 := alter (set_fault false VNone) fg st3 in
  Ok (st4, if found : bool then Some (test_vector_of st4) else None).

End Podem.

End Step3.

(** ** The rules the specification states, in its own words *)

(** The table of controlling values: [and]/[nand] are controlled by 0,
    [or]/[nor] by 1; [nand] and [nor] invert. *)
Definition controlling_value (k : Kind) : Logic :=
  match k with
  | Kor | Knor => L1
  | _ => L0
  end.

Definition inverting (k : Kind) : bool :=
  match k with
  | Knand | Knor => true
  | _ => false
  end.

Definition invert (v : Logic) : Logic :=
  match v with
  | L0 => L1
  | L1 => L0
  | _ => v
  end.

Definition through_inversion (k : Kind) (v : Logic) : Logic :=
  if inverting k then invert v else v.

(** The rule for and/or/nand/nor in binary/unknown mode.  [reports_Z]
    tells which kinds answer [Z] rather than [U] when a [Z] is present
    without a [U] and without a controlling input. *)
Definition binary_rule (reports_Z : Kind -> bool) (k : Kind)
    (input_values : list Logic) : Logic :=
  if py_in (controlling_value k) input_values
  then through_inversion k (controlling_value k)
  else if py_in LU input_values || py_in LZ input_values
  then (if reports_Z k && py_in LZ input_values
           && negb (py_in LU input_values)
        then LZ else LU)
  else through_inversion k (invert (controlling_value k)).

(** The exception as the specification has it: only [nand]. *)
Definition only_nand (k : Kind) : bool := bool_decide (k = Knand).

(** The standard parity rule for xor in the D-algebra: the fault-free and
    the faulty circuit each see the parity of their own ones, and the pair
    is encoded as 0, 1, D (1/0) or D' (0/1). *)
Definition encode_pair (good bad : Z) : DValue :=
  match bool_decide (good = 1), bool_decide (bad = 1) with
  | false, false => V0
  | true, true => V1
  | true, false => VD
  | false, true => VDbar
  end.

Definition parity_xor (input_values : list DValue) : DValue :=
  encode_pair
    ((Step3.count VD input_values + Step3.count V1 input_values) mod 2)
    ((Step3.count VDbar input_values + Step3.count V1 input_values) mod 2).

Definition d_not (v : DValue) : DValue :=
  match v with
  | V0 => V1
  | V1 => V0
  | VD => VDbar
  | VDbar => VD
  | _ => v
  end.

(** [evaluate_xor] as [d_algebra_evaluate] calls it. *)
Definition xor_of (input_values : list DValue) : DValue :=
  Step3.evaluate_xor input_values (py_in VX input_values)
    (py_in VU input_values) (py_in VZ input_values).

Definition xnor_of (input_values : list DValue) : option DValue :=
  Step3.evaluate_xnor input_values (py_in VX input_values)
    (py_in VU input_values) (py_in VZ input_values).

(** The D-frontier as the specification defines it: every gate of the
    circuit whose output is X, with an input at D or D', that passes the
    X-path check. *)
Definition d_frontier_spec (c : Step3.Circuit) (fuel : nat)
    (st : list Step3.GateState) : list nat :=
  filter (fun g =>
            Step3.output (st !!! g) = VX
            /\ existsb (fun inp => Step3.is_D (Step3.output (st !!! inp)))
                 (inputs (Step3.gate_of c g)) = true
            /\ Step3.x_path_check c fuel st g = Ok true)
         (Step3.values c).

(** A two-input and gate: nets 1 and 2 are the primary inputs, net 3 the
    primary output (what [load_iscas_file] builds from the three gate
    lines and the input line [1 2]). *)
Definition and2 : Step3.Circuit :=
  Step3.mkCircuit
    [mkGate 1 "1" Kinpt 1 0 0 [];
     mkGate 2 "2" Kinpt 1 0 0 [];
     mkGate 3 "3" Kand 0 2 0 [0%nat; 1%nat]]
    [("1", 0%nat); ("2", 1%nat); ("3", 2%nat)]
    [0%nat; 1%nat] [2%nat].

Definition and2_lines : list Step3.Line :=
  [Step3.GateLine 1 "1gat" Kinpt 1 0;
   Step3.GateLine 2 "2gat" Kinpt 1 0;
   Step3.GateLine 3 "3gat" Kand 0 2;
   Step3.InputsLine [1; 2]].

(** The gates the loop of [generate_d_frontier] can stop at: output at X
    and an input at D or D'. *)
Definition d_candidates (c : Step3.Circuit) (st : list Step3.GateState)
    : list nat :=
  filter (fun g =>
            Step3.output (st !!! g) = VX
            /\ existsb (fun inp => Step3.is_D (Step3.output (st !!! inp)))
                 (inputs (Step3.gate_of c g)) = true)
         (Step3.values c).

(** The first such gate alone, when it passes the X-path check. *)
Definition first_candidate (c : Step3.Circuit) (fuel : nat)
    (st : list Step3.GateState) : Result (list nat) :=
  match d_candidates c st with
  | [] => Ok []
  | g :: _ =>
      ok ← Step3.x_path_check c fuel st g;
      Ok (if ok : bool then [g] else [])
  end.

(** A netlist with two ways out for a fault on net 4 (the buffer of the
    first branch of net 1): through the and gates 6 and 7, and through the
    and gate 12.  Net 7 also takes the inverse of net 1, so driving net 1
    to 1 -- which the fault "net 4 stuck at 0" needs -- closes the first
    way. *)
Definition blocked_lines : list Step3.Line :=
  [Step3.GateLine 1 "1gat" Kinpt 2 0;
   Step3.BranchLine 8 "8fan" 1;
   Step3.BranchLine 9 "9fan" 1;
   Step3.GateLine 2 "2gat" Kinpt 1 0;
   Step3.GateLine 3 "3gat" Kinpt 1 0;
   Step3.GateLine 4 "4gat" Kbuf 2 1;
   Step3.InputsLine [8];
   Step3.BranchLine 10 "10fan" 4;
   Step3.BranchLine 11 "11fan" 4;
   Step3.GateLine 5 "5gat" Knot 1 1;
   Step3.InputsLine [9];
   Step3.GateLine 6 "6gat" Kand 1 2;
   Step3.InputsLine [10; 2];
   Step3.GateLine 7 "7gat" Kand 0 2;
   Step3.InputsLine [6; 5];
   Step3.GateLine 12 "12gat" Kand 0 2;
   Step3.InputsLine [11; 3]].

Definition blocked : Step3.Circuit :=
  Eval vm_compute in
    default (Step3.mkCircuit [] [] [] [])
      (Step3.load_iscas_file blocked_lines).

Definition blocked_measured : list Step3.GateState :=
  Eval vm_compute in
    default [] (Step3.compute_scoap blocked (Step3.initial_store blocked)).

(** The store once net 4 is marked stuck at 0 and net 1 is driven to 1:
    D on net 4 and its branches, 0 on nets 5 and 7, X on nets 2, 3, 6
    and 12. *)
Definition blocked_activated : list Step3.GateState :=
  Eval vm_compute in
    match Step3.imply blocked 10
            (Step3.assign 0%nat V1
               (alter (Step3.set_fault true V0) 5%nat
                  (Step3.podem_init blocked blocked_measured))) with
    | Ok st => st
    | _ => []
    end.

(** The pairs of gate kind and wanted value for which the specification
    sends the backtrace through the hardest input. *)
Definition claimed_hardest (k : Kind) (v : DValue) : bool :=
  py_in (k, v) [(Kand, V1); (Kor, V0); (Knand, V0); (Knor, V1)].

(** The pairs for which [check_imply_gate] sends it through the easiest
    input, when the wanted value is 0 or 1. *)
Definition descends_hardest (k : Kind) (v : DValue) : bool :=
  py_in v [V0; V1]
  && negb (py_in (k, v) [(Kor, V1); (Knand, V1); (Kand, V0); (Knor, V0)]).

(** The inputs of a gate whose output is still X. *)
Definition X_children (c : Step3.Circuit) (st : list Step3.GateState)
    (g : nat) : list nat :=
  filter (fun ch => Step3.output (st !!! ch) = VX)
         (inputs (Step3.gate_of c g)).

(** An xor gate (net 5) fed by the primary input net 1 and by the and of
    the primary inputs 2 and 3 (net 4); the store is the one
    [compute_scoap] and [podem_init] leave. *)
Definition xor_and_lines : list Step3.Line :=
  [Step3.GateLine 1 "1gat" Kinpt 1 0;
   Step3.GateLine 2 "2gat" Kinpt 1 0;
   Step3.GateLine 3 "3gat" Kinpt 1 0;
   Step3.GateLine 4 "4gat" Kand 1 2;
   Step3.InputsLine [2; 3];
   Step3.GateLine 5 "5gat" Kxor 0 2;
   Step3.InputsLine [1; 4]].

Definition xor_and : Step3.Circuit :=
  Step3.mkCircuit
    [mkGate 1 "1" Kinpt 1 0 0 [];
     mkGate 2 "2" Kinpt 1 0 0 [];
     mkGate 3 "3" Kinpt 1 0 0 [];
     mkGate 4 "4" Kand 1 2 0 [1%nat; 2%nat];
     mkGate 5 "5" Kxor 0 2 0 [0%nat; 3%nat]]
    [("1", 0%nat); ("2", 1%nat); ("3", 2%nat); ("4", 3%nat); ("5", 4%nat)]
    [0%nat; 1%nat; 2%nat] [4%nat].

Definition xor_and_store : list Step3.GateState :=
  Eval vm_compute in
    Step3.podem_init xor_and
      (default [] (Step3.compute_scoap xor_and (Step3.initial_store xor_and))).

(** The address a line declares a gate under, if it declares one. *)
Definition line_address (l : Step3.Line) : option Z :=
  match l with
  | Step3.GateLine a _ _ _ _ => Some a
  | Step3.BranchLine a _ _ => Some a
  | Step3.InputsLine _ => None
  end.

(** The gate objects that bear a given name, in the order of creation. *)
Definition named (objs : list Gate) (nm : string) (rs : list nat) : list nat :=
  filter (fun r => name (objs !!! r) = nm) rs.

(** Two gate declarations whose names collide once the last three
    characters are dropped. *)
Definition colliding_lines : list Step3.Line :=
  [Step3.GateLine 1 "10gat" Kinpt 1 0;
   Step3.GateLine 2 "10fan" Kinpt 1 0;
   Step3.GateLine 3 "11gat" Kand 0 2;
   Step3.InputsLine [1; 2]].

(** The netlists [compute_scoap] is meant for: every gate of the map is
    a gate object of the netlist, has the inputs its kind needs (two for
    and, or, nand, nor, xor, xnor; one for not, buf and fanout branches),
    and a gate that no gate consumes is a branch or is declared with
    [fanout = 0]. *)
Definition arity_ok (g : Gate) : bool :=
  match gate_type g with
  | Kand | Kor | Knand | Knor | Kxor | Kxnor =>
      bool_decide (2 <= length (inputs g))%nat
  | Knot | Kbuf | Kfanout => bool_decide (1 <= length (inputs g))%nat
  | Kinpt | Kother => true
  end.

Definition well_formed (c : Step3.Circuit) : bool :=
  forallb (fun r =>
             bool_decide (r < length (Step3.heap c))%nat
             && arity_ok (Step3.gate_of c r)
             && (Step3.consumed c r
                 || bool_decide (gate_type (Step3.gate_of c r) = Kfanout)
                 || bool_decide (fanout (Step3.gate_of c r) = 0)))
          (Step3.values c).

(** [x >= 1] and [x >= 0] on measures. *)
Definition ge1 (x : Cost) : Prop := cost_le (Fin 1) x = true.
Definition ge0 (x : Cost) : Prop := cost_le (Fin 0) x = true.

Definition measures_ok (s : Step3.GateState) : Prop :=
  ge1 (Step3.CC0 s) /\ ge1 (Step3.CC1 s) /\ ge0 (Step3.CO s).

(** The c17 benchmark: six nand gates, three stems with two branches
    each (nets 3, 11 and 16), outputs 22 and 23. *)
Definition c17_lines : list Step3.Line :=
  [Step3.GateLine 1 "1gat" Kinpt 1 0;
   Step3.GateLine 2 "2gat" Kinpt 1 0;
   Step3.GateLine 3 "3gat" Kinpt 2 0;
   Step3.BranchLine 8 "8fan" 3;
   Step3.BranchLine 9 "9fan" 3;
   Step3.GateLine 6 "6gat" Kinpt 1 0;
   Step3.GateLine 7 "7gat" Kinpt 1 0;
   Step3.GateLine 10 "10gat" Knand 1 2;
   Step3.InputsLine [1; 8];
   Step3.GateLine 11 "11gat" Knand 2 2;
   Step3.InputsLine [9; 6];
   Step3.BranchLine 14 "14fan" 11;
   Step3.BranchLine 15 "15fan" 11;
   Step3.GateLine 16 "16gat" Knand 2 2;
   Step3.InputsLine [2; 14];
   Step3.BranchLine 20 "20fan" 16;
   Step3.BranchLine 21 "21fan" 16;
   Step3.GateLine 19 "19gat" Knand 1 2;
   Step3.InputsLine [15; 7];
   Step3.GateLine 22 "22gat" Knand 0 2;
   Step3.InputsLine [10; 20];
   Step3.GateLine 23 "23gat" Knand 0 2;
   Step3.InputsLine [21; 19]].

Definition c17 : Step3.Circuit :=
  Eval vm_compute in
    default (Step3.mkCircuit [] [] [] []) (Step3.load_iscas_file c17_lines).

Definition c17_measured : list Step3.GateState :=
  Eval vm_compute in
    default [] (Step3.compute_scoap c17 (Step3.initial_store c17)).

(** A netlist without branch nodes in which net 1 feeds two gates
    directly: the and gate 3 (observed through the inverter 4) and the
    inverter 5. *)
Definition two_consumers_lines : list Step3.Line :=
  [Step3.GateLine 1 "1gat" Kinpt 2 0;
   Step3.GateLine 2 "2gat" Kinpt 1 0;
   Step3.GateLine 3 "3gat" Kand 1 2;
   Step3.InputsLine [1; 2];
   Step3.GateLine 4 "4gat" Knot 0 1;
   Step3.InputsLine [3];
   Step3.GateLine 5 "5gat" Knot 0 1;
   Step3.InputsLine [1]].

Definition two_consumers : Step3.Circuit :=
  Eval vm_compute in
    default (Step3.mkCircuit [] [] [] [])
      (Step3.load_iscas_file two_consumers_lines).

(** The gates of the map that take [s] as an input. *)
Definition consumers (c : Step3.Circuit) (s : nat) : list nat :=
  filter (fun x => s ∈ inputs (Step3.gate_of c x)) (Step3.values c).

(** The order in which the backward pass may meet the gates: no gate
    twice, no gate feeding itself, and no gate after a gate it feeds (which
    holds for the reverse of a declaration order that lists the inputs of a
    gate before the gate). *)
Fixpoint consumers_first (c : Step3.Circuit) (l : list nat) : bool :=
  match l with
  | [] => true
  | x :: l' =>
      negb (py_in x (inputs (Step3.gate_of c x)))
      && forallb (fun z => negb (bool_decide (z = x))
                           && negb (py_in x (inputs (Step3.gate_of c z)))) l'
      && consumers_first c l'
  end.

(** The netlists on which the two simulators are compared: the inputs of
    a gate are declared before the gate, and a gate that is not a primary
    input has at least one input. *)
Fixpoint netlist_ok_from (r : nat) (gs : list Gate) : bool :=
  match gs with
  | [] => true
  | g :: gs' =>
      forallb (fun i => bool_decide (i < r)%nat) (inputs g)
      && (bool_decide (gate_type g = Kinpt)
          || negb (bool_decide (inputs g = [])))
      && netlist_ok_from (S r) gs'
  end.

Definition netlist_ok (gates : list Gate) : bool := netlist_ok_from 0 gates.

Definition zero_delay (gates : list Gate) : bool :=
  forallb (fun g => bool_decide (delay g = 0)) gates.

(** A small netlist with an and gate over two primary inputs, and a vector
    that drives the first input to Z. *)
Definition and_netlist : list Gate :=
  [mkGate 1 "1gat" Kinpt 1 0 0 [];
   mkGate 2 "2gat" Kinpt 1 0 0 [];
   mkGate 3 "3gat" Kand 0 2 0 [0%nat; 1%nat]].

Definition vector_Z1 : gmap Z Logic := {[ 1 := LZ; 2 := L1 ]}.
Definition vector_01 : gmap Z Logic := {[ 1 := L0; 2 := L1 ]}.
Definition vector_11 : gmap Z Logic := {[ 1 := L1; 2 := L1 ]}.

(** The stimuli on which the two simulators are compared: no vector holds
    a Z, and all vectors name the same primary inputs (the header of the
    stimulus file fixes them). *)
Definition stimuli_ok (test_vectors : list (Z * gmap Z Logic)) : bool :=
  forallb (fun tv : Z * gmap Z Logic =>
             bool_decide (map_Forall (fun _ v => v <> LZ) tv.2)
             && bool_decide (dom tv.2 =@{gset Z}
                             dom (default ∅ (snd <$> head test_vectors))))
          test_vectors.

(** The events scheduled for a gate, and the value its kind gives on the
    current outputs of its inputs. *)
Definition pending (st : Step2.State) (r : nat) : list Step2.Event :=
  Step2.scheduled_events st !!! r.

Definition eval2 (outs : list Logic) (g : Gate) : Logic :=
  Step2.eval_kind (gate_type g) (map (fun i => outs !!! i) (inputs g)).

(** The entry [schedule_fanouts] pushes on the timing queue for gate [r]. *)
Definition entry_of (gates : list Gate) (t : Z) (r : nat) : Z * Z * nat :=
  (t + delay (gates !!! r), address (gates !!! r), r).

(** A bound on the events one queue entry can still cause in a netlist of
    [n] gates declared inputs-first. *)
Definition weight (n : nat) (e : Z * Z * nat) : nat := (2 ^ (n - e.2))%nat.

Definition queue_weight (n : nat) (q : list (Z * Z * nat)) : nat :=
  sum_list_with (weight n) q.

(** The invariant of a simulation step at time [t] on a netlist without
    delays.  Every gate either has no event scheduled, or exactly one, for
    [t], carrying the value its kind gives on the current outputs; a gate
    that is not a primary input and has no event scheduled already shows
    that value; every gate with an event scheduled has an entry in the
    timing queue, and the queue holds entries for [t] only.  The gates in
    [X] are excused: their scheduled value or output may be out of date. *)
Definition settled_except (gates : list Gate) (t : Z) (X : nat -> Prop)
    (st : Step2.State) : Prop :=
  length (Step2.outs st) = length gates /\
  length (Step2.scheduled_events st) = length gates /\
  (forall r g, gates !! r = Some g ->
     pending st r = [] \/
     (gate_type g <> Kinpt /\
      exists v, pending st r = [(t, v)] /\
                (~ X r -> v = eval2 (Step2.outs st) g))) /\
  (forall r g, gates !! r = Some g -> pending st r = [] ->
     gate_type g <> Kinpt -> ~ X r ->
     Step2.outs st !!! r = eval2 (Step2.outs st) g) /\
  (forall r, pending st r <> [] ->
     exists e, e ∈ Step2.timing_queue st /\ e.2 = r) /\
  (forall e, e ∈ Step2.timing_queue st ->
     e.1.1 = t /\ (e.2 < length gates)%nat).

Definition settled (gates : list Gate) (t : Z) (st : Step2.State) : Prop :=
  settled_except gates t (fun _ => False) st.

(** The gates that take [x] as an input. *)
Definition consumes (gates : list Gate) (x r : nat) : Prop :=
  x ∈ inputs (gates !!! r).

Global Instance consumes_dec gates x r : Decision (consumes gates x r).
Proof. unfold consumes. apply _. Defined.

(** ** The log of the event-driven simulator *)

Definition effect_gate (e : Step2.Effect) : nat :=
  match e with
  | Step2.Scheduled _ r _ _ | Step2.Committed _ r _ _ => r
  end.

Definition effect_time (e : Step2.Effect) : Z :=
  match e with
  | Step2.Scheduled _ _ T _ | Step2.Committed _ _ T _ => T
  end.

(** The effect concerns gate [r] and fire-time [T]. *)
Definition about (r : nat) (T : Z) (e : Step2.Effect) : bool :=
  bool_decide (effect_gate e = r) && bool_decide (effect_time e = T).

(** The most recent effect of the log about gate [r] and fire-time [T]. *)
Fixpoint latest (r : nat) (T : Z) (tr : list Step2.Effect)
    : option Step2.Effect :=
  match tr with
  | [] => None
  | e :: tr' => if about r T e then Some e else latest r T tr'
  end.

Definition scheduled_value (o : option Step2.Effect) : option Logic :=
  match o with
  | Some (Step2.Scheduled _ _ _ v) => Some v
  | _ => None
  end.

(** The value a local queue holds for fire-time [T]. *)
Fixpoint pending_value (T : Z) (q : list Step2.Event) : option Logic :=
  match q with
  | [] => None
  | e :: q' => if decide (e.1 = T) then Some e.2 else pending_value T q'
  end.

(** A local queue in order of fire-time, no two events at the same time. *)
Fixpoint timed (q : list Step2.Event) : Prop :=
  match q with
  | [] => True
  | e :: q' => Forall (fun e' : Step2.Event => e.1 < e'.1) q' /\ timed q'
  end.

(** Every commit of the log commits the value of the scheduling that is
    the most recent effect before it for the same gate and fire-time: the
    schedulings for one fire-time that are not separated by a commit end
    in one commit, of the value scheduled last. *)
Fixpoint paired (tr : list Step2.Effect) : bool :=
  match tr with
  | [] => true
  | Step2.Committed _ r T v :: tr' =>
      bool_decide (scheduled_value (latest r T tr') = Some v) && paired tr'
  | Step2.Scheduled _ _ _ _ :: tr' => paired tr'
  end.

(** The value of the most recent commit on gate [r]. *)
Fixpoint last_committed (r : nat) (tr : list Step2.Effect)
    : option Logic :=
  match tr with
  | [] => None
  | Step2.Committed _ r' _ v :: tr' =>
      if decide (r' = r) then Some v else last_committed r tr'
  | Step2.Scheduled _ _ _ _ :: tr' => last_committed r tr'
  end.

(** A commit happens at or after the fire-time of its event. *)
Definition due (e : Step2.Effect) : bool :=
  match e with
  | Step2.Committed now _ T _ => bool_decide (T ≤ now)
  | Step2.Scheduled _ _ _ _ => true
  end.

(** The commits of one call of [update_output], latest first. *)
Definition commits (now : Z) (r : nat) (popped : list Step2.Event)
    : list Step2.Effect :=
  rev (map (fun e : Step2.Event => Step2.Committed now r e.1 e.2) popped).

(** What the simulator keeps true of its queues, its log and the outputs
    of the gates that are not primary inputs. *)
Definition coalesced (gates : list Gate) (st : Step2.State) : Prop :=
  (forall r, timed (pending st r)) /\
  (forall r T, pending_value T (pending st r)
               = scheduled_value (latest r T (Step2.trace st))) /\
  paired (Step2.trace st) = true /\
  forallb due (Step2.trace st) = true /\
  (forall r g, gates !! r = Some g -> gate_type g <> Kinpt ->
     Step2.outs st !!! r
     = default LU (last_committed r (Step2.trace st))).

(** The steps of the simulator: a test vector is applied at some time, or
    the first entry of the timing queue is handled at its fire-time. *)
Inductive Action :=
  | Stimulus (t : Z) (vec : gmap Z Logic)
  | Fire.

Definition step (gates : list Gate) (st : Step2.State) (a : Action)
    : Step2.State :=
  match a with
  | Stimulus t vec => Step2.apply_vector gates vec t 0 gates st
  | Fire =>
      match Step2.timing_queue st with
      | (t, _, gate) :: _ =>
          Step2.process_event gates t gate (Step2.pop_timing st)
      | [] => st
      end
  end.

Definition run_steps (gates : list Gate) (acts : list Action)
    (st : Step2.State) : Step2.State :=
  foldl (step gates) st acts.

(** A netlist with a static hazard: the and gate sees its first input
    change before the inverter does, and it is declared with the smaller
    address. *)
Definition glitch : list Gate :=
  [mkGate 1 "1gat" Kinpt 2 0 0 [];
   mkGate 3 "3gat" Knot 1 1 0 [0%nat];
   mkGate 2 "2gat" Kand 0 2 0 [0%nat; 1%nat]].

Definition glitch_stimuli : list (Z * gmap Z Logic) :=
  [(0, {[ 1 := L0 ]}); (5, {[ 1 := L1 ]})].

(** The invariant of the simulator's steps: [coalesced], and the two
    stores have an entry per gate. *)
Definition sim_inv (gates : list Gate) (st : Step2.State) : Prop :=
  length (Step2.outs st) = length gates /\
  length (Step2.scheduled_events st) = length gates /\
  coalesced gates st.

(** ** Relations used in the proofs *)

(** The gate objects already created keep their place, name and address
    while further lines are read. *)
Definition extends (objs objs' : list Gate) : Prop :=
  forall r g, objs !! r = Some g ->
    exists g', objs' !! r = Some g' /\ name g' = name g /\
               address g' = address g.

(** The addresses the lines of a file declare, in order. *)
Definition line_addresses (ls : list Step3.Line) : list Z :=
  omap line_address ls.

(** Every gate of the store has measures within their bounds. *)
Definition store_ok (st : list Step3.GateState) : Prop :=
  Forall measures_ok st.

(** [st'] differs from [st] at most in the [CO] of the gates in [T]. *)
Definition co_only (T : nat -> Prop) (st st' : list Step3.GateState) : Prop :=
  length st' = length st /\
  forall y,
    Step3.CC0 (st' !!! y) = Step3.CC0 (st !!! y) /\
    Step3.CC1 (st' !!! y) = Step3.CC1 (st !!! y) /\
    (~ T y -> Step3.CO (st' !!! y) = Step3.CO (st !!! y)).

(** The gates whose [CO] the case distinction of the backward pass may
    write when it handles gate [x]: the inputs of [x], and [x] itself when
    it is a fanout branch that nothing consumes. *)
Definition written_by (c : Step3.Circuit) (x y : nat) : Prop :=
  y ∈ inputs (Step3.gate_of c x) \/
  (y = x /\ gate_type (Step3.gate_of c x) = Kfanout /\
   Step3.consumed c x = false).

(** The forward pass and the first loop leave every [CO] alone, and touch
    the controllabilities of the gate they handle only. *)
Definition cc_only (x : nat) (st st' : list Step3.GateState) : Prop :=
  length st' = length st /\
  forall y,
    Step3.CO (st' !!! y) = Step3.CO (st !!! y) /\
    (y <> x -> Step3.CC0 (st' !!! y) = Step3.CC0 (st !!! y) /\
               Step3.CC1 (st' !!! y) = Step3.CC1 (st !!! y)).

(** Gate [r] holds the controllabilities of a primary input. *)
Definition inputs_set (r : nat) (st : list Step3.GateState) : Prop :=
  Step3.CC0 (st !!! r) = Fin 1 /\ Step3.CC1 (st !!! r) = Fin 1.

(** ** Boolean reading of the binary/unknown values *)

Definition of_bool (b : bool) : Logic := if b then L1 else L0.

(** The Boolean function of each gate kind; the unary kinds read their
    first input. *)
Definition boolean_function (k : Kind) (bs : list bool) : bool :=
  match k with
  | Kand => forallb id bs
  | Kor => existsb id bs
  | Knand => negb (forallb id bs)
  | Knor => negb (existsb id bs)
  | Kxor => foldr xorb false bs
  | Kxnor => negb (foldr xorb false bs)
  | Knot => negb (default false (head bs))
  | _ => default false (head bs)
  end.

(** [v'] is [v] with an unknown possibly resolved. *)
Definition refines (v v' : Logic) : Prop := v = LU \/ v' = v.

(** ** The pairs behind the D-algebra *)

(** A value of the D-algebra that stands for a pair (value in the
    fault-free circuit, value in the faulty circuit): D is 1/0 and D' is
    0/1, as the fault injection of [d_algebra_evaluate] writes them. *)
Definition of_pair (p : bool * bool) : DValue :=
  match p with
  | (false, false) => V0
  | (true, true) => V1
  | (true, false) => VD
  | (false, true) => VDbar
  end.

(** ** What PODEM leaves alone *)

(** [st'] differs from [st] in outputs only: the fault flags and the
    testability measures of every gate are the same. *)
Definition outputs_only (st st' : list Step3.GateState) : Prop :=
  length st' = length st /\
  forall r,
    Step3.faulty (st' !!! r) = Step3.faulty (st !!! r) /\
    Step3.fault_value (st' !!! r) = Step3.fault_value (st !!! r) /\
    Step3.CC0 (st' !!! r) = Step3.CC0 (st !!! r) /\
    Step3.CC1 (st' !!! r) = Step3.CC1 (st !!! r) /\
    Step3.CO (st' !!! r) = Step3.CO (st !!! r).

(** The primary inputs without a fault hold the same value in [st'] as in
    [st]. *)
Definition inputs_kept (c : Step3.Circuit) (st st' : list Step3.GateState)
    : Prop :=
  forall r, gate_type (Step3.gate_of c r) = Kinpt ->
    Step3.faulty (st !!! r) = false ->
    Step3.output (st' !!! r) = Step3.output (st !!! r).

(** ** Paths through the netlist *)

(** [b] is an input of [a]. *)
Definition feeds_back (c : Step3.Circuit) (a b : nat) : Prop :=
  b ∈ inputs (Step3.gate_of c a).

(** One step of the X-path search: [b] is a gate of the map that takes [a]
    as an input and whose output is X, D or D'. *)
Definition x_step (c : Step3.Circuit) (st : list Step3.GateState)
    (a b : nat) : Prop :=
  b ∈ Step3.values c /\ a ∈ inputs (Step3.gate_of c b) /\
  Step3.output (st !!! b) ∈ [VX; VD; VDbar].

(** A chain of such steps from [a] to [d] none of whose gates is in [V]. *)
Inductive avoids (c : Step3.Circuit) (st : list Step3.GateState)
    (V : list nat) : nat -> nat -> Prop :=
  | avoids_refl a : a ∉ V -> avoids c st V a a
  | avoids_step a b d :
      a ∉ V -> x_step c st a b -> avoids c st V b d -> avoids c st V a d.

(** The gates the X-path search has not visited yet. *)
Definition unvisited (c : Step3.Circuit) (gate : nat) (visited : list nat)
    : list nat :=
  list_difference (remove_dups (gate :: Step3.values c)) visited.

(** The loader's state is closed: the inputs of the gate objects, the
    values of the address-keyed map and [current_gate] all refer to gate
    objects created so far, and the map holds distinct objects under
    distinct addresses. *)
Definition loader_closed (ld : Step3.Loader) : Prop :=
  (forall r g, Step3.objects ld !! r = Some g ->
     Forall (fun i => (i < length (Step3.objects ld))%nat) (inputs g)) /\
  Forall (fun kv : Z * nat => (kv.2 < length (Step3.objects ld))%nat)
    (Step3.by_address ld) /\
  NoDup (Step3.by_address ld).*1 /\
  NoDup (Step3.by_address ld).*2.

(** [e] reads nothing of a store but the controllabilities of the gates in
    [ins]. *)
Definition reads_inputs (ins : list nat)
    (e : list Step3.GateState -> option Cost) : Prop :=
  forall t t',
    (forall y, y ∈ ins ->
       Step3.CC0 (t !!! y) = Step3.CC0 (t' !!! y) /\
       Step3.CC1 (t !!! y) = Step3.CC1 (t' !!! y)) ->
    e t = e t'.

(** ** Stimuli and declaration order *)

(** The gates are declared after their inputs. *)
Fixpoint inputs_first_from (r : nat) (gs : list Gate) : bool :=
  match gs with
  | [] => true
  | g :: gs' =>
      forallb (fun i => bool_decide (i < r)%nat) (inputs g)
      && inputs_first_from (S r) gs'
  end.

Definition inputs_first (gates : list Gate) : bool :=
  inputs_first_from 0 gates.

(** The value the stimuli applied so far give the primary input declared
    with address [a], starting from [v0]: that of the latest stimulus that
    names [a]. *)
Fixpoint stimulus_value (acts : list Action) (a : Z) (v0 : Logic) : Logic :=
  match acts with
  | [] => v0
  | Stimulus _ vec :: acts' =>
      stimulus_value acts' a (default v0 (vec !! a))
  | Fire :: acts' => stimulus_value acts' a v0
  end.

(** The stores of the simulator have an entry per gate, and no event is
    scheduled on a primary input. *)
Definition inputs_idle (gates : list Gate) (st : Step2.State) : Prop :=
  length (Step2.outs st) = length gates /\
  length (Step2.scheduled_events st) = length gates /\
  forall r g, gates !! r = Some g -> gate_type g = Kinpt ->
    pending st r = [].

(** ** What a returned pattern promises *)

(** The pair (value in the fault-free circuit, value in the faulty
    circuit) that a value of the D-algebra stands for; X, U, Z and None
    stand for no pair. *)
Definition pair_of (v : DValue) : option (bool * bool) :=
  match v with
  | V0 => Some (false, false)
  | V1 => Some (true, true)
  | VD => Some (true, false)
  | VDbar => Some (false, true)
  | _ => None
  end.

(** [v] claims nothing false about a line that carries [g] in the
    fault-free circuit and [b] in the faulty one. *)
Definition sound_value (v : DValue) (g b : bool) : Prop :=
  forall p, pair_of v = Some p -> p = (g, b).

(** The netlists of gates and, or, nand, nor, not, buf, fanout and inpt in
    which the map lists every gate after its inputs, the inputs of a gate
    of the map are gates of the map, the gates of kind inpt are among the
    primary inputs and the primary outputs among the gates of the map. *)
Definition combinational (c : Step3.Circuit) : bool :=
  consumers_first c (rev (Step3.values c))
  && forallb (fun r =>
                let g := Step3.gate_of c r in
                forallb (fun i => py_in i (Step3.values c)) (inputs g)
                && negb (py_in (gate_type g) [Kxor; Kxnor; Kother])
                && (negb (bool_decide (gate_type g = Kinpt))
                    || py_in r (Step3.primary_inputs c)))
             (Step3.values c)
  && forallb (fun po => py_in po (Step3.values c))
       (Step3.primary_outputs c).

(** [good] gives every gate of the map its value in the fault-free
    circuit and [bad] its value in the circuit whose gate [fg] is stuck at
    [stuck], both under the same values of the primary inputs. *)
Definition simulates (c : Step3.Circuit) (fg : nat) (stuck : bool)
    (good bad : nat -> bool) : bool :=
  forallb (fun r =>
             let g := Step3.gate_of c r in
             (bool_decide (gate_type g = Kinpt)
              || eqb (good r)
                   (boolean_function (gate_type g) (map good (inputs g))))
             && eqb (bad r)
                  (if decide (r = fg) then stuck
                   else if decide (gate_type g = Kinpt) then good r
                   else boolean_function (gate_type g)
                          (map bad (inputs g))))
          (Step3.values c).

(** The primary inputs take the values of the pattern [tv] where it holds
    0 or 1. *)
Definition applies (c : Step3.Circuit) (tv : list DValue)
    (good : nat -> bool) : bool :=
  forallb (fun rv : nat * DValue =>
             match rv.2 with
             | V0 => negb (good rv.1)
             | V1 => good rv.1
             | _ => true
             end)
          (zip (Step3.primary_inputs c) tv).

(** A primary input of the map carries D or D' only as the fault
    injection writes it. *)
Definition pi_clean (c : Step3.Circuit) (st : list Step3.GateState)
    : Prop :=
  forall r, r ∈ Step3.values c -> gate_type (Step3.gate_of c r) = Kinpt ->
    (Step3.output (st !!! r) = VD ->
     Step3.faulty (st !!! r) = true /\ Step3.fault_value (st !!! r) = V0) /\
    (Step3.output (st !!! r) = VDbar ->
     Step3.faulty (st !!! r) = true /\ Step3.fault_value (st !!! r) = V1).

(** The values of the lines of c17 under the inputs 1, 0, 1, 1, 0 (nets
    1, 2, 3, 6, 7), without a fault and with net 10 stuck at 1. *)
Definition c17_good (r : nat) : bool :=
  nth r [true; false; true; true; true; true; false; false; false; false;
         false; true; true; true; true; true; false] false.

Definition c17_bad (r : nat) : bool :=
  nth r [true; false; true; true; true; true; false; true; false; false;
         false; true; true; true; true; false; false] false.

(** The test vectors among the steps taken. *)
Definition stimuli_of (acts : list Action) : list (Z * gmap Z Logic) :=
  omap (fun a => match a with
                 | Stimulus t vec => Some (t, vec)
                 | Fire => None
                 end) acts.

(** The value the test vectors leave at address [a]: that of the last
    vector that names [a], ['U'] when none does. *)
Definition last_stimulus (test_vectors : list (Z * gmap Z Logic)) (a : Z)
    : Logic :=
  foldl (fun v (tv : Z * gmap Z Logic) => default v (tv.2 !! a)) LU
    test_vectors.

(** ** The table of the event-driven run *)

Module Step2Log.

(** [all_outputs], a dictionary from time to snapshot kept in insertion
    order, and [last_logged_time].  A snapshot
    [{gate.address: (gate.output, gate)}] is kept as the list of the
    outputs by gate reference. *)
Record Log := mkLog {
  all_outputs : list (Z * list Logic);
  last_logged_time : Z
}.

Definition empty_log : Log := mkLog [] (-1).

(** [for t in range(first, stop): all_outputs[t] = all_outputs[t-1]];
    [None] is a [KeyError]. *)
Definition fill_gap (first stop : Z) (d : list (Z * list Logic))
    : option (list (Z * list Logic)) :=
  Step3.for_each
    (fun t d => v ← Step3.dict_get (t - 1) d; Some (Step3.dict_set t v d))
    (seqZ first (stop - first)) d.

(** The block that logs the results for [current_time]. *)
Definition log_results (current_time : Z) (st : Step2.State) (lg : Log)
    : option Log :=
  if decide (current_time = last_logged_time lg) then Some lg
  else
    d ← (if decide (last_logged_time lg ≠ -1
                    /\ last_logged_time lg + 1 < current_time)
         then fill_gap (last_logged_time lg + 1) current_time
                (all_outputs lg)
         else Some (all_outputs lg));
    Some (mkLog (Step3.dict_set current_time (Step2.outs st) d)
            current_time).

(** The main loop of [run_simulation_for_vectors] together with the
    table it fills. *)
Fixpoint run_simulation_for_vectors (fuel : nat) (gates : list Gate)
    (test_vectors : list (Z * gmap Z Logic)) (st : Step2.State) (lg : Log)
    : option (Step2.State * Log) :=
  match fuel with
  | O => None
  | S fuel' =>
      match Step2.next_time test_vectors st with
      | None => Some (st, lg)
      | Some current_time =>
          let '(st1, rest) :=
            match test_vectors with
            | (nt, vec) :: rest =>
                if decide (current_time = nt)
                then (Step2.apply_vector gates vec current_time 0 gates st,
                      rest)
                else (st, test_vectors)
            | [] => (st, [])
            end in
          match Step2.drain fuel' gates current_time st1 with
          | None => None
          | Some st2 =>
              lg' ← log_results current_time st2 lg;
              run_simulation_for_vectors fuel' gates rest st2 lg'
          end
      end
  end.

End Step2Log.

(** The time stamps of the test vectors increase, from above [lb]. *)
Fixpoint increasing_from (lb : Z) (test_vectors : list (Z * gmap Z Logic))
    : bool :=
  match test_vectors with
  | [] => true
  | (t, _) :: rest => bool_decide (lb < t) && increasing_from t rest
  end.

Definition delays_ok (gates : list Gate) : bool :=
  forallb (fun g => bool_decide (0 ≤ delay g)) gates.

(** The timing queue is in the order of its fire-times, none of them
    before [lb]. *)
Definition queue_from (lb : Z) (q : list (Z * Z * nat)) : Prop :=
  StronglySorted (fun x y : Z * Z * nat => x.1.1 ≤ y.1.1) q /\
  Forall (fun x : Z * Z * nat => lb ≤ x.1.1) q.

(** The table holds one column for every time from [t0] to the time
    logged last, in this order, and the last column is [snapshot]. *)
Definition log_ok (t0 : Z) (snapshot : list Logic) (lg : Step2Log.Log)
    : Prop :=
  t0 ≤ Step2Log.last_logged_time lg /\
  (Step2Log.all_outputs lg).*1
  = seqZ t0 (Step2Log.last_logged_time lg - t0 + 1) /\
  Step3.dict_get (Step2Log.last_logged_time lg) (Step2Log.all_outputs lg)
  = Some snapshot.

(** ** The passes of [imply] *)

(** The gates that read [input_values[0]] have an input. *)
Definition unary_ok (c : Step3.Circuit) : bool :=
  forallb (fun r =>
             negb (py_in (gate_type (Step3.gate_of c r))
                     [Knot; Kbuf; Kfanout])
             || negb (bool_decide (inputs (Step3.gate_of c r) = [])))
          (Step3.values c).

(** The output [d_algebra_evaluate] writes, from the state of the gate
    itself and the outputs of its inputs. *)
Definition gate_output (g : Gate) (own : Step3.GateState)
    (input_values : list DValue) : option DValue :=
  let has_X := py_in VX input_values in
  let has_U := py_in VU input_values in
  let has_Z := py_in VZ input_values in
  out ← match gate_type g with
        | Kinpt => Some (Step3.output own)
        | Kand => Some (Step3.evaluate_and input_values has_X has_U has_Z)
        | Kor => Some (Step3.evaluate_or input_values has_X has_U has_Z)
        | Kxor => Some (Step3.evaluate_xor input_values has_X has_U has_Z)
        | Knot => Step3.evaluate_not input_values has_X has_U has_Z
        | Kbuf => Step3.evaluate_buf input_values has_X has_U has_Z
        | Knand => Step3.evaluate_nand input_values has_X has_U has_Z
        | Knor => Step3.evaluate_nor input_values has_X has_U has_Z
        | Kxnor => Step3.evaluate_xnor input_values has_X has_U has_Z
        | Kfanout => Step3.evaluate_fanout input_values has_X has_U has_Z
        | Kother => Some VX
        end;
  Some (Step3.inject_fault own out).

(** [k] passes over the gates, one after the other. *)
Fixpoint passes (c : Step3.Circuit) (k : nat) (st : list Step3.GateState)
    : option (list Step3.GateState) :=
  match k with
  | O => Some st
  | S k' => st1 ← Step3.evaluate_pass c st; passes c k' st1
  end.

(** No number of further passes changes the output of a gate of [E]. *)
Definition at_rest (c : Step3.Circuit) (E : list nat)
    (st : list Step3.GateState) : Prop :=
  forall m st', passes c m st = Some st' ->
    forall x, x ∈ E -> Step3.output (st' !!! x) = Step3.output (st !!! x).

(** ** The search of PODEM *)

(** The netlists on which the search is followed: the map lists every
    gate after its inputs, which are gates of the map; the not, buf and
    fanout gates have an input and the gates of kind inpt none; no gate
    is of an unknown kind. *)
Definition podem_shape (c : Step3.Circuit) : bool :=
  consumers_first c (rev (Step3.values c))
  && unary_ok c
  && forallb (fun r =>
                let g := Step3.gate_of c r in
                forallb (fun i => py_in i (Step3.values c)) (inputs g)
                && negb (bool_decide (gate_type g = Kother))
                && (negb (bool_decide (gate_type g = Kinpt))
                    || bool_decide (inputs g = [])))
             (Step3.values c).

(** The gates of kind inpt of the map. *)
Definition map_inputs (c : Step3.Circuit) : list nat :=
  filter (fun r => gate_type (Step3.gate_of c r) = Kinpt) (Step3.values c).

(** Those still at X. *)
Definition open_inputs (c : Step3.Circuit) (st : list Step3.GateState)
    : list nat :=
  filter (fun r => Step3.output (st !!! r) = VX) (map_inputs c).

(** What the search keeps true of the store and of the [PODEM] object for
    the fault at gate [fg]. *)
Definition search_inv (c : Step3.Circuit) (fg : nat)
    (st : list Step3.GateState) (p : Step3.Podem) : Prop :=
  Step3.fault_gate p = Some fg /\
  fg ∈ Step3.values c /\
  Step3.fault_value (st !!! fg) ∈ [V0; V1] /\
  Forall (fun r => (r < length st)%nat) (Step3.values c) /\
  forall r, r ∈ map_inputs c ->
    Step3.output (st !!! r) ∈ [VX; V0; V1; VD; VDbar].

(** No input that holds a value in [st] is at X in [st']. *)
Definition closed_kept (c : Step3.Circuit) (st st' : list Step3.GateState)
    : Prop :=
  forall r, r ∈ map_inputs c ->
    Step3.output (st !!! r) <> VX -> Step3.output (st' !!! r) <> VX.

(** * Properties *)

(** ** Binary/unknown mode *)

Lemma py_in_true `{EqDecision A} (x : A) l : py_in x l = true <-> x ∈ l.
Proof. unfold py_in. apply bool_decide_eq_true. Qed.

Lemma py_in_false `{EqDecision A} (x : A) l : py_in x l = false <-> x ∉ l.
Proof. unfold py_in. apply bool_decide_eq_false. Qed.

Lemma py_in_clean (v : Logic) (l : list Logic) :
  is_binary v = true ->
  py_in v (filter (fun v => is_binary v = true) l) = py_in v l.
Proof.
  intros Hv. unfold py_in. apply bool_decide_ext.
  rewrite list_elem_of_filter. tauto.
Qed.

(** C2, zero-delay evaluator: the rule holds with [nand] as the only kind
    that reports [Z]. *)
Lemma step1_binary_rule k ins :
  k ∈ [Kand; Kor; Knand; Knor] ->
  Step1.eval_kind k ins = binary_rule only_nand k ins.
Proof.
  intros Hk. unfold Step1.eval_kind, binary_rule.
  rewrite !py_in_clean by reflexivity.
  set_unfold in Hk.
  destruct Hk as [-> | [-> | [-> | [-> | []]]]]; cbn;
    destruct (py_in L0 ins), (py_in L1 ins), (py_in LU ins), (py_in LZ ins);
    reflexivity.
Qed.

(** C2, event-driven simulator: all four kinds report [Z]. *)
Lemma step2_binary_rule k ins :
  k ∈ [Kand; Kor; Knand; Knor] ->
  Step2.eval_kind k ins = binary_rule (fun _ => true) k ins.
Proof.
  intros Hk. unfold Step2.eval_kind, binary_rule.
  rewrite !py_in_clean by reflexivity.
  set_unfold in Hk.
  destruct Hk as [-> | [-> | [-> | [-> | []]]]]; cbn;
    destruct (py_in L0 ins), (py_in L1 ins), (py_in LU ins), (py_in LZ ins);
    reflexivity.
Qed.

(** C2 as stated fails for the event-driven simulator: an [and] gate whose
    only input is [Z] is scheduled with [Z], where the stated rule gives
    [U]. *)
Lemma C2_step2_and_reports_Z :
  Step2.eval_kind Kand [LZ] = LZ /\
  binary_rule only_nand Kand [LZ] = LU /\
  ~ (forall k ins, k ∈ [Kand; Kor; Knand; Knor] ->
       Step1.eval_kind k ins = binary_rule only_nand k ins /\
       Step2.eval_kind k ins = binary_rule only_nand k ins).
Proof.
  split; [reflexivity | split; [reflexivity |]].
  intros H. destruct (H Kand [LZ]) as [_ H2]; [by left |].
  discriminate H2.
Qed.

(** C2 (amended): for and, or, nand and nor gates and every list of input
    values, a controlling input gives the constant dictated by it (inverted
    for nand/nor); otherwise a [U] or [Z] input gives [U], except that a
    [Z] without any [U] gives [Z] -- for [nand] only in the zero-delay
    evaluator, for all four kinds in the event-driven simulator; otherwise
    the output is the non-controlling result. *)
Theorem C2_binary_mode_rule k ins :
  k ∈ [Kand; Kor; Knand; Knor] ->
  Step1.eval_kind k ins = binary_rule only_nand k ins /\
  Step2.eval_kind k ins = binary_rule (fun _ => true) k ins.
Proof.
  intros Hk. split; [apply step1_binary_rule | apply step2_binary_rule]; done.
Qed.

Lemma C2_binary_mode_rule_witness :
  Knand ∈ [Kand; Kor; Knand; Knor] /\
  Step1.eval_kind Knand [L1; LZ] = binary_rule only_nand Knand [L1; LZ] /\
  Step2.eval_kind Knand [L1; LZ] = binary_rule (fun _ => true) Knand [L1; LZ].
Proof.
  assert (H : Knand ∈ [Kand; Kor; Knand; Knor]) by (do 2 right; left).
  split; [exact H | exact (C2_binary_mode_rule Knand [L1; LZ] H)].
Defined.

(** ** xor in the D-algebra *)

Lemma mod2_cases (z : Z) : z mod 2 = 0 \/ z mod 2 = 1.
Proof. pose proof (Z.mod_pos_bound z 2). lia. Qed.

Lemma count_nonneg v l : 0 <= Step3.count v l.
Proof. unfold Step3.count. lia. Qed.

(** Where [evaluate_xor] and the parity rule agree: everywhere except when
    the numbers of D and of D' are both even, not both zero, and the number
    of ones is odd. *)
Lemma evaluate_xor_parity ins :
  py_in VX ins = false -> py_in VU ins = false -> py_in VZ ins = false ->
  xor_of ins =
    if bool_decide (Step3.count VD ins mod 2 = 0)
       && bool_decide (Step3.count VDbar ins mod 2 = 0)
       && negb (bool_decide (Step3.count VD ins = 0)
                && bool_decide (Step3.count VDbar ins = 0))
    then V0
    else parity_xor ins.
Proof.
  intros HX HU HZ. unfold xor_of, Step3.evaluate_xor, parity_xor, encode_pair.
  rewrite HX, HU, HZ. cbn [orb].
  pose proof (count_nonneg VD ins) as Hd.
  pose proof (count_nonneg VDbar ins) as Hp.
  pose proof (count_nonneg V1 ins) as Ho.
  set (d := Step3.count VD ins) in *.
  set (p := Step3.count VDbar ins) in *.
  set (o := Step3.count V1 ins) in *.
  clearbody d p o.
  assert (Hadd : forall a b, (a + b) mod 2 = (a mod 2 + b mod 2) mod 2)
    by (intros; apply Z.add_mod; lia).
  rewrite (Hadd d o), (Hadd p o).
  assert (Hzero : forall z, z mod 2 = 1 -> bool_decide (z = 0) = false).
  { intros z Hz. apply bool_decide_eq_false. intros ->. discriminate Hz. }
  destruct (mod2_cases d) as [Hd2 | Hd2], (mod2_cases p) as [Hp2 | Hp2],
           (mod2_cases o) as [Ho2 | Ho2];
    rewrite Hd2, Hp2, Ho2, ?(Hzero d Hd2), ?(Hzero p Hp2);
    change ((0 + 0) mod 2) with 0; change ((0 + 1) mod 2) with 1;
    change ((1 + 0) mod 2) with 1; change ((1 + 1) mod 2) with 0;
    cbn; try reflexivity;
    destruct (bool_decide (d = 0)), (bool_decide (p = 0)); reflexivity.
Qed.

(** C3: a three-input xor with inputs D, D, 1 evaluates to 0, where the
    parity rule gives 1 (both circuits see an odd number of ones); the xnor
    of the same inputs gives 1 where the inverted parity is 0. *)
Theorem C3_xor_even_D_odd_ones :
  xor_of [VD; VD; V1] = V0 /\
  parity_xor [VD; VD; V1] = V1 /\
  xnor_of [VD; VD; V1] = Some V1 /\
  d_not (parity_xor [VD; VD; V1]) = V0.
Proof. repeat split. Qed.

(** ** The D-frontier *)

Lemma and2_is_loaded : Step3.load_iscas_file and2_lines = Some and2.
Proof. reflexivity. Qed.

Lemma blocked_is_loaded :
  Step3.load_iscas_file blocked_lines = Some blocked /\
  Step3.compute_scoap blocked (Step3.initial_store blocked)
  = Some blocked_measured.
Proof. split; vm_compute; reflexivity. Qed.

Lemma blocked_activated_is_implied :
  Step3.imply blocked 10
    (Step3.assign 0%nat V1
       (alter (Step3.set_fault true V0) 5%nat
          (Step3.podem_init blocked blocked_measured)))
  = Ok blocked_activated /\
  map Step3.output blocked_activated
  = [V1; V1; V1; VX; VX; VD; VD; VD; V0; VX; V0; VX].
Proof. split; vm_compute; reflexivity. Qed.

(** What [generate_d_frontier] computes on any circuit and store: the
    first gate, in the order of the gate map, with output X and an input at
    D or D', if that gate passes the X-path check, and nothing otherwise. *)
Lemma generate_d_frontier_first_candidate c fuel st :
  Step3.generate_d_frontier c fuel st = first_candidate c fuel st.
Proof.
  unfold Step3.generate_d_frontier, first_candidate, d_candidates.
  induction (Step3.values c) as [| g gs IH]; [done |].
  cbn [Step3.generate_d_frontier_loop]. rewrite filter_cons.
  destruct (decide (Step3.output (st !!! g) = VX)) as [HX | HX].
  - destruct (existsb _ (inputs (Step3.gate_of c g))) eqn:HD.
    + by rewrite decide_True.
    + rewrite decide_False by (intros [_ ?]; done). exact IH.
  - rewrite decide_False by (intros [? _]; done). exact IH.
Qed.

(** C4: [generate_d_frontier] leaves at most one gate in the D-frontier,
    and none when the first candidate fails the X-path check.  With net 4
    stuck at 0 and net 1 driven to 1, the loop stops at net 6 (output X,
    input at D), whose only way out is closed by the 0 on net 7, and leaves
    the D-frontier empty, although net 12 has output X, an input at D and
    is a primary output.  In consequence the fault is reported as not
    found, although driving net 3 to 1 as well shows it on net 12. *)
Theorem C4_d_frontier_stops_at_first_candidate :
  (forall c fuel st,
     Step3.generate_d_frontier c fuel st = first_candidate c fuel st) /\
  Step3.generate_d_frontier blocked 10 blocked_activated = Ok [] /\
  d_frontier_spec blocked 10 blocked_activated = [11%nat] /\
  (exists st,
     Step3.generate_test_vector blocked 30 blocked_measured ("4", 0)
     = Ok (st, None)) /\
  (exists st,
     Step3.imply blocked 10 (Step3.assign 4%nat V1 blocked_activated)
     = Ok st /\
     Step3.success blocked st = true).
Proof.
  split; [apply generate_d_frontier_first_candidate |].
  split; [vm_compute; reflexivity |].
  split; [vm_compute; reflexivity |].
  split; eexists; [| split]; vm_compute; reflexivity.
Qed.

(** ** The order on testability measures *)

Ltac cost_cases :=
  unfold cost_le, cost_lt, cost_min in *;
  repeat match goal with
         | x : Cost |- _ => destruct x
         end;
  cbn in *; repeat case_bool_decide; cbn in *;
  try done; try lia.

Lemma cost_le_refl a : cost_le a a = true.
Proof. cost_cases. Qed.

Lemma cost_le_trans a b c :
  cost_le a b = true -> cost_le b c = true -> cost_le a c = true.
Proof. cost_cases. Qed.

Lemma cost_lt_le a b : cost_lt a b = true -> cost_le a b = true.
Proof. cost_cases. Qed.

Lemma cost_le_NegInf a : cost_le a NegInf = true -> a = NegInf.
Proof. cost_cases. Qed.

Lemma cost_le_Inf a : cost_le Inf a = true -> a = Inf.
Proof. cost_cases. Qed.

(** ** Backtrace *)

Section Backtrace.
Variable c : Step3.Circuit.
Variable st : list Step3.GateState.
Variable v : DValue.

Let candidate (ch : nat) (cc : Cost) : Prop :=
  Step3.output (st !!! ch) = VX /\ Step3.target_CC v (st !!! ch) = Some cc.

Let hard_step (acc : option nat * Cost) (gate : nat) : option nat * Cost :=
  if decide (Step3.output (st !!! gate) = VX)
  then match Step3.target_CC v (st !!! gate) with
       | Some cc => if cost_lt acc.2 cc then (Some gate, cc) else acc
       | None => acc
       end
  else acc.

Let easy_step (acc : option nat * Cost) (gate : nat) : option nat * Cost :=
  if decide (Step3.output (st !!! gate) = VX)
  then match Step3.target_CC v (st !!! gate) with
       | Some cc => if cost_lt cc acc.2 then (Some gate, cc) else acc
       | None => acc
       end
  else acc.

Lemma hard_fold ins acc :
  let res := foldl hard_step acc ins in
  cost_le acc.2 res.2 = true /\
  (forall ch cc, ch ∈ ins -> candidate ch cc -> cost_le cc res.2 = true) /\
  (res = acc \/
   exists ch, ch ∈ ins /\ candidate ch res.2 /\ res.1 = Some ch).
Proof.
  revert acc. induction ins as [| x ins IH]; intros acc; cbn.
  - split; [apply cost_le_refl |]. split; [| by left].
    intros ch cc Hin. by apply elem_of_nil in Hin.
  - destruct (IH (hard_step acc x)) as (Hle & Hmax & Hres).
    assert (Hstep : cost_le acc.2 (hard_step acc x).2 = true).
    { unfold hard_step. repeat case_match; cbn;
        auto using cost_le_refl, cost_lt_le. }
    split; [eauto using cost_le_trans |]. split.
    + intros ch cc Hin Hc. apply elem_of_cons in Hin as [-> | Hin];
        [| by eapply Hmax].
      eapply cost_le_trans; [| exact Hle].
      destruct Hc as [HX Hcc]. unfold hard_step.
      rewrite decide_True by done. rewrite Hcc.
      destruct (cost_lt acc.2 cc) eqn:Hlt; cbn; [apply cost_le_refl |].
      unfold cost_le. by rewrite Hlt.
    + destruct Hres as [Hres | (ch & Hin & Hc & Hsome)].
      * rewrite Hres. unfold hard_step.
        destruct (decide (Step3.output (st !!! x) = VX)) as [HX |];
          [| by left].
        destruct (Step3.target_CC v (st !!! x)) as [cc |] eqn:Hcc;
          [| by left].
        destruct (cost_lt acc.2 cc); [| by left].
        right. exists x. cbn. split; [by left |]. by repeat split.
      * right. exists ch. split; [by right |]. by split.
Qed.

Lemma easy_fold ins acc :
  let res := foldl easy_step acc ins in
  cost_le res.2 acc.2 = true /\
  (forall ch cc, ch ∈ ins -> candidate ch cc -> cost_le res.2 cc = true) /\
  (res = acc \/
   exists ch, ch ∈ ins /\ candidate ch res.2 /\ res.1 = Some ch).
Proof.
  revert acc. induction ins as [| x ins IH]; intros acc; cbn.
  - split; [apply cost_le_refl |]. split; [| by left].
    intros ch cc Hin. by apply elem_of_nil in Hin.
  - destruct (IH (easy_step acc x)) as (Hle & Hmin & Hres).
    assert (Hstep : cost_le (easy_step acc x).2 acc.2 = true).
    { unfold easy_step. repeat case_match; cbn;
        auto using cost_le_refl, cost_lt_le. }
    split; [eauto using cost_le_trans |]. split.
    + intros ch cc Hin Hc. apply elem_of_cons in Hin as [-> | Hin];
        [| by eapply Hmin].
      eapply cost_le_trans; [exact Hle |].
      destruct Hc as [HX Hcc]. unfold easy_step.
      rewrite decide_True by done. rewrite Hcc.
      destruct (cost_lt cc acc.2) eqn:Hlt; cbn; [apply cost_le_refl |].
      unfold cost_le. by rewrite Hlt.
    + destruct Hres as [Hres | (ch & Hin & Hc & Hsome)].
      * rewrite Hres. unfold easy_step.
        destruct (decide (Step3.output (st !!! x) = VX)) as [HX |];
          [| by left].
        destruct (Step3.target_CC v (st !!! x)) as [cc |] eqn:Hcc;
          [| by left].
        destruct (cost_lt cc acc.2); [| by left].
        right. exists x. cbn. split; [by left |]. by repeat split.
      * right. exists ch. split; [by right |]. by split.
Qed.

(** [get_hardest_to_satisfy_gate] returns an input at X whose
    controllability no other input at X exceeds; it returns nothing only
    when no input at X has a controllability to compare. *)
Lemma get_hardest_spec g :
  match Step3.get_hardest_to_satisfy_gate c st g v with
  | Some ch =>
      ch ∈ X_children c st g /\
      exists cc, Step3.target_CC v (st !!! ch) = Some cc /\
        forall ch' cc', ch' ∈ X_children c st g ->
          Step3.target_CC v (st !!! ch') = Some cc' -> cost_le cc' cc = true
  | None =>
      forall ch cc, ch ∈ X_children c st g ->
        Step3.target_CC v (st !!! ch) = Some cc -> cc = NegInf
  end.
Proof.
  unfold Step3.get_hardest_to_satisfy_gate, X_children.
  destruct (hard_fold (inputs (Step3.gate_of c g)) (None, NegInf))
    as (_ & Hmax & Hres).
  fold hard_step.
  set (res := foldl hard_step (None, NegInf) (inputs (Step3.gate_of c g))) in *.
  destruct Hres as [Hres | (ch & Hin & [HX Hcc] & Hsome)].
  - rewrite Hres. cbn. intros ch cc [HX Hin]%list_elem_of_filter Hcc.
    apply cost_le_NegInf. rewrite Hres in Hmax. by eapply Hmax.
  - rewrite Hsome. split; [by apply list_elem_of_filter |].
    exists res.2. split; [done |].
    intros ch' cc' [HX' Hin']%list_elem_of_filter Hcc'. by eapply Hmax.
Qed.

(** [get_easiest_to_satisfy_gate] returns an input at X whose
    controllability is finite and least among the inputs at X; it returns
    nothing only when every input at X has an infinite one. *)
Lemma get_easiest_spec g :
  match Step3.get_easiest_to_satisfy_gate c st g v with
  | Some ch =>
      ch ∈ X_children c st g /\
      exists cc, Step3.target_CC v (st !!! ch) = Some cc /\
        forall ch' cc', ch' ∈ X_children c st g ->
          Step3.target_CC v (st !!! ch') = Some cc' -> cost_le cc cc' = true
  | None =>
      forall ch cc, ch ∈ X_children c st g ->
        Step3.target_CC v (st !!! ch) = Some cc -> cc = Inf
  end.
Proof.
  unfold Step3.get_easiest_to_satisfy_gate, X_children.
  destruct (easy_fold (inputs (Step3.gate_of c g)) (None, Inf))
    as (_ & Hmin & Hres).
  fold easy_step.
  set (res := foldl easy_step (None, Inf) (inputs (Step3.gate_of c g))) in *.
  destruct Hres as [Hres | (ch & Hin & [HX Hcc] & Hsome)].
  - rewrite Hres. cbn. intros ch cc [HX Hin]%list_elem_of_filter Hcc.
    apply cost_le_Inf. rewrite Hres in Hmin. by eapply Hmin.
  - rewrite Hsome. split; [by apply list_elem_of_filter |].
    exists res.2. split; [done |].
    intros ch' cc' [HX' Hin']%list_elem_of_filter Hcc'. by eapply Hmin.
Qed.

End Backtrace.

Lemma xor_and_is_loaded : Step3.load_iscas_file xor_and_lines = Some xor_and.
Proof. reflexivity. Qed.

(** C5 as stated fails at an xor gate: wanting 1 on net 5, the walk
    descends to net 4, the input at X with the largest CC1 (3, against 1
    for net 1), although xor wanting 1 is none of the four listed pairs. *)
Lemma C5_xor_descends_hardest :
  Step3.backtrace_step xor_and xor_and_store 4 V1 = (Some 3%nat, V1) /\
  claimed_hardest Kxor V1 = false /\
  Step3.get_easiest_to_satisfy_gate xor_and xor_and_store 4 V1 = Some 0%nat /\
  Step3.CC1 (xor_and_store !!! 3%nat) = Fin 3 /\
  Step3.CC1 (xor_and_store !!! 0%nat) = Fin 1 /\
  ~ (forall c st g v,
       gate_type (Step3.gate_of c g) <> Kinpt ->
       let k := gate_type (Step3.gate_of c g) in
       let v' := if Step3.inversion k then Step3.oppositeVal v else v in
       (Step3.backtrace_step c st g v).1 =
         if claimed_hardest k v'
         then Step3.get_hardest_to_satisfy_gate c st g v
         else Step3.get_easiest_to_satisfy_gate c st g v).
Proof.
  repeat (split; [vm_compute; reflexivity |]).
  intros H. specialize (H xor_and xor_and_store 4%nat V1).
  vm_compute in H. discriminate H. discriminate.
Qed.

(** C5 (amended): at a gate that is not a primary input, with [v'] the
    wanted value after the flip of an inverting gate, [backtrace] descends
    through [get_hardest_to_satisfy_gate] exactly when [v'] is 0 or 1 and
    the pair is none of or/1, nand/1, and/0, nor/0 -- that is for and
    wanting 1, or wanting 0, nand wanting 0, nor wanting 1, and for every
    other kind of gate -- and through [get_easiest_to_satisfy_gate]
    otherwise.  The first returns an input at X whose controllability no
    input at X exceeds, the second one whose controllability none falls
    below; the controllability compared is CC0 when the value the step was
    entered with is 0 and CC1 when it is 1. *)
Theorem C5_backtrace_choice c st g v :
  gate_type (Step3.gate_of c g) <> Kinpt ->
  let k := gate_type (Step3.gate_of c g) in
  let v' := if Step3.inversion k then Step3.oppositeVal v else v in
  Step3.backtrace_step c st g v =
    (if descends_hardest k v'
     then Step3.get_hardest_to_satisfy_gate c st g v
     else Step3.get_easiest_to_satisfy_gate c st g v, v') /\
  (forall fuel,
     Step3.backtrace c (S fuel) st g v =
       match (Step3.backtrace_step c st g v).1 with
       | Some child => Step3.backtrace c fuel st child v'
       | None => Raised
       end) /\
  (k ∈ [Kand; Kor; Knand; Knor] -> v' ∈ [V0; V1] ->
     descends_hardest k v' = claimed_hardest k v') /\
  (k ∉ [Kand; Kor; Knand; Knor] -> v' ∈ [V0; V1] ->
     descends_hardest k v' = true) /\
  (v' ∉ [V0; V1] -> descends_hardest k v' = false) /\
  match Step3.get_hardest_to_satisfy_gate c st g v with
  | Some ch =>
      ch ∈ X_children c st g /\
      exists cc, Step3.target_CC v (st !!! ch) = Some cc /\
        forall ch' cc', ch' ∈ X_children c st g ->
          Step3.target_CC v (st !!! ch') = Some cc' -> cost_le cc' cc = true
  | None =>
      forall ch cc, ch ∈ X_children c st g ->
        Step3.target_CC v (st !!! ch) = Some cc -> cc = NegInf
  end /\
  match Step3.get_easiest_to_satisfy_gate c st g v with
  | Some ch =>
      ch ∈ X_children c st g /\
      exists cc, Step3.target_CC v (st !!! ch) = Some cc /\
        forall ch' cc', ch' ∈ X_children c st g ->
          Step3.target_CC v (st !!! ch') = Some cc' -> cost_le cc cc' = true
  | None =>
      forall ch cc, ch ∈ X_children c st g ->
        Step3.target_CC v (st !!! ch) = Some cc -> cc = Inf
  end.
Proof.
  intros Hk k v'. split; [| split; [| split; [| split; [| split; [| split]]]]].
  - unfold Step3.backtrace_step. fold k. fold v'. f_equal.
    unfold descends_hardest, Step3.check_imply_gate.
    destruct k, v'; reflexivity.
  - intros fuel. cbn [Step3.backtrace]. rewrite decide_False by done.
    unfold Step3.backtrace_step. fold k. fold v'. cbn [fst].
    by destruct (if Step3.check_imply_gate k v' then _ else _).
  - intros Hin Hv. set_unfold in Hin. set_unfold in Hv.
    destruct Hin as [-> | [-> | [-> | [-> | []]]]],
             Hv as [-> | [-> | []]]; reflexivity.
  - intros Hin Hv. set_unfold in Hv.
    destruct Hv as [-> | [-> | []]]; destruct k; try reflexivity;
      exfalso; apply Hin; set_solver.
  - intros Hv. unfold descends_hardest.
    destruct v'; try reflexivity; exfalso; apply Hv; set_solver.
  - apply get_hardest_spec.
  - apply get_easiest_spec.
Qed.

Lemma C5_backtrace_choice_witness :
  gate_type (Step3.gate_of xor_and 3%nat) <> Kinpt /\
  Step3.backtrace_step xor_and xor_and_store 3%nat V1 = (Some 1%nat, V1).
Proof.
  assert (H : gate_type (Step3.gate_of xor_and 3%nat) <> Kinpt)
    by discriminate.
  split; [exact H |].
  exact (eq_trans (proj1 (C5_backtrace_choice xor_and xor_and_store 3%nat V1 H))
                  eq_refl).
Defined.

(** ** PODEM *)

Lemma lookup_alter_field {B} (proj : Step3.GateState -> B)
    (f : Step3.GateState -> Step3.GateState) i (l : list Step3.GateState) j :
  (forall s, proj (f s) = proj s) ->
  proj (alter f i l !!! j) = proj (l !!! j).
Proof.
  intros Hf. rewrite list_lookup_total_alter.
  case_decide as H; [destruct H as [-> _]; apply Hf | done].
Qed.

(** Peel one [bind] of the [Result] monad off a hypothesis. *)
Ltac result_bind H :=
  match type of H with
  | context [mbind _ ?m] =>
      let E := fresh "E" in
      destruct m as [? | |] eqn:E; cbn in H; try discriminate H
  end.

(** [podem_recursive] answers true only in a state where some primary
    output carries D or D'. *)
Lemma podem_recursive_success c fuel : forall st p st' p',
  Step3.podem_recursive c fuel st p = Ok (st', p', true) ->
  Step3.success c st' = true.
Proof.
  induction fuel as [| fuel IH]; intros st p st' p' H; [discriminate H |].
  cbn [Step3.podem_recursive] in H.
  destruct (Step3.success c st) eqn:Hs.
  { by injection H as <- <-. }
  result_bind H. destruct a as [[og ov] p1]. cbn in H.
  destruct og as [og |]; [| discriminate H].
  result_bind H. destruct a as [tpi tv]. cbn in H.
  result_bind H.
  result_bind H. destruct a0 as [[st2 p2] found]. cbn in H.
  destruct found.
  { injection H as <- <-. eauto. }
  result_bind H.
  result_bind H. destruct a1 as [[st4 p4] found']. cbn in H.
  destruct found'.
  { injection H as <- <-. eauto. }
  result_bind H.
Qed.

Lemma success_alter_fault c f v fg st :
  Step3.success c (alter (Step3.set_fault f v) fg st) = Step3.success c st.
Proof.
  unfold Step3.success.
  induction (Step3.primary_outputs c) as [| po pos IH]; [done |].
  cbn. rewrite IH. f_equal. f_equal.
  by apply (lookup_alter_field Step3.output).
Qed.

Lemma test_vector_alter_fault c f v fg st :
  Step3.test_vector_of c (alter (Step3.set_fault f v) fg st)
  = Step3.test_vector_of c st.
Proof.
  unfold Step3.test_vector_of. apply map_ext. intros g. f_equal.
  by apply (lookup_alter_field Step3.output).
Qed.

(** C1: when [generate_test_vector] returns a pattern, [podem_recursive]
    answered true in a state [st_s] where a primary output carries D or
    D'.  The pattern has one entry per primary input, in their order: 1
    where the input carries D in that state, 0 where it carries D', and
    the output of the input itself otherwise.  The store left behind has
    the outputs of [st_s], so that it still shows a D or D' on a primary
    output. *)
Theorem C1_test_vector_on_success c fuel st fault st' tv :
  Step3.generate_test_vector c fuel st fault = Ok (st', Some tv) ->
  exists fg st_s p,
    Step3.dict_get fault.1 (Step3.gates c) = Some fg /\
    Step3.podem_recursive c fuel
      (alter (Step3.set_fault true (if decide (fault.2 = 1) then V1 else V0))
         fg (Step3.podem_init c st))
      (Step3.mkPodem false [] (Some fg)) = Ok (st_s, p, true) /\
    Step3.success c st_s = true /\
    tv = map (fun g => match Step3.output (st_s !!! g) with
                       | VD => V1
                       | VDbar => V0
                       | v => v
                       end)
           (Step3.primary_inputs c) /\
    (forall i g, Step3.primary_inputs c !! i = Some g ->
       (Step3.output (st_s !!! g) = VD -> tv !! i = Some V1) /\
       (Step3.output (st_s !!! g) = VDbar -> tv !! i = Some V0) /\
       (Step3.output (st_s !!! g) <> VD ->
        Step3.output (st_s !!! g) <> VDbar ->
        tv !! i = Some (Step3.output (st_s !!! g)))) /\
    (forall g, Step3.output (st' !!! g) = Step3.output (st_s !!! g)) /\
    Step3.success c st' = true.
Proof.
  unfold Step3.generate_test_vector. intros H.
  destruct (Step3.dict_get fault.1 (Step3.gates c)) as [fg |] eqn:Hfg;
    [| discriminate H].
  cbn in H. result_bind H. destruct a as [[st3 p3] found]. cbn in H.
  destruct found; [| discriminate H].
  injection H as <- <-.
  pose proof (podem_recursive_success _ _ _ _ _ _ E) as Hs.
  assert (Htv : Step3.test_vector_of c
                  (alter (Step3.set_fault false VNone) fg st3)
                = map (fun g => match Step3.output (st3 !!! g) with
                                | VD => V1
                                | VDbar => V0
                                | v => v
                                end)
                    (Step3.primary_inputs c)).
  { rewrite test_vector_alter_fault. unfold Step3.test_vector_of.
    apply map_ext. intros g. by destruct (Step3.output (st3 !!! g)). }
  exists fg, st3, p3.
  split; [done |]. split; [done |]. split; [done |]. split; [exact Htv |].
  split; [| split].
  - intros i g Hi. rewrite Htv.
    assert (Hlook : forall f : nat -> DValue,
              map f (Step3.primary_inputs c) !! i = Some (f g)).
    { intros f. change (map f (Step3.primary_inputs c))
        with (f <$> Step3.primary_inputs c).
      by rewrite list_lookup_fmap, Hi. }
    rewrite Hlook. split; [by intros -> |]. split; [by intros -> |].
    intros HD HDb. by destruct (Step3.output (st3 !!! g)).
  - intros g. by apply (lookup_alter_field Step3.output).
  - by rewrite success_alter_fault.
Qed.

Lemma C1_test_vector_on_success_witness :
  (exists st',
     Step3.generate_test_vector and2 20
       (default [] (Step3.compute_scoap and2 (Step3.initial_store and2)))
       ("1", 0) = Ok (st', Some [V1; V1]) /\
     Step3.output (st' !!! 0%nat) = VD /\
     Step3.success and2 st' = true) /\
  (exists st',
     Step3.generate_test_vector and2 20
       (default [] (Step3.compute_scoap and2 (Step3.initial_store and2)))
       ("2", 1) = Ok (st', Some [V1; V0]) /\
     Step3.output (st' !!! 1%nat) = VDbar /\
     Step3.success and2 st' = true).
Proof.
  split.
  - eexists. split; [vm_compute; reflexivity |].
    split; [vm_compute; reflexivity |].
    match goal with
    | |- Step3.success _ ?s = true =>
        destruct (C1_test_vector_on_success and2 20
                    (default [] (Step3.compute_scoap and2
                                   (Step3.initial_store and2)))
                    ("1", 0) s [V1; V1] eq_refl)
          as (fg & st_s & p & _ & _ & _ & _ & _ & _ & Hs)
    end.
    exact Hs.
  - eexists. split; [vm_compute; reflexivity |].
    split; [vm_compute; reflexivity |].
    match goal with
    | |- Step3.success _ ?s = true =>
        destruct (C1_test_vector_on_success and2 20
                    (default [] (Step3.compute_scoap and2
                                   (Step3.initial_store and2)))
                    ("2", 1) s [V1; V0] eq_refl)
          as (fg & st_s & p & _ & _ & _ & _ & _ & _ & Hs)
    end.
    exact Hs.
Defined.

(** ** Loading a netlist *)

Section Dict.
Context {K V : Type} `{EqDecision K}.

Lemma dict_get_set_eq (k : K) (v : V) d :
  Step3.dict_get k (Step3.dict_set k v d) = Some v.
Proof.
  induction d as [| [k' v'] d IH]; cbn.
  - by rewrite decide_True.
  - destruct (decide (k' = k)) as [-> | Hne]; cbn.
    + by rewrite decide_True.
    + by rewrite decide_False.
Qed.

Lemma dict_get_set_ne (k k' : K) (v : V) d :
  k <> k' -> Step3.dict_get k' (Step3.dict_set k v d) = Step3.dict_get k' d.
Proof.
  intros Hne. induction d as [| [k0 v0] d IH]; cbn.
  - by rewrite decide_False.
  - destruct (decide (k0 = k)) as [-> | Hne0]; cbn.
    + by rewrite !decide_False.
    + destruct (decide (k0 = k')); [done | apply IH].
Qed.

Lemma dict_set_fresh (k : K) (v : V) d :
  k ∉ d.*1 -> Step3.dict_set k v d = d ++ [(k, v)].
Proof.
  induction d as [| [k0 v0] d IH]; cbn; [done |].
  intros Hk. apply not_elem_of_cons in Hk as [Hne Hk].
  rewrite decide_False by done. by rewrite IH.
Qed.

End Dict.

(** After re-keying, a name leads to the gate that comes last, in the
    order of the address-keyed map, among the gates bearing that name. *)
Lemma rekey_lookup objs nm d :
  Step3.dict_get nm (Step3.rekey objs d) = last (named objs nm d.*2).
Proof.
  unfold Step3.rekey.
  assert (Hgen : forall acc,
    Step3.dict_get nm
      (foldl (fun acc kv =>
                Step3.dict_set (name (objs !!! kv.2)) kv.2 acc) acc d)
    = match last (named objs nm d.*2) with
      | Some r => Some r
      | None => Step3.dict_get nm acc
      end).
  { induction d as [| [a r] d IH]; intros acc; [done |].
    cbn [foldl]. rewrite IH. unfold named. cbn [fmap list_fmap snd].
    rewrite filter_cons. cbn [snd].
    destruct (decide (name (objs !!! r) = nm)) as [Hr | Hr].
    - rewrite last_cons.
      destruct (last (filter _ d.*2)); [done |].
      rewrite <- Hr. apply dict_get_set_eq.
    - destruct (last (filter _ d.*2)); [done |].
      by apply dict_get_set_ne. }
  rewrite Hgen. by destruct (last _).
Qed.

Lemma extends_refl objs : extends objs objs.
Proof. intros r g H. eauto. Qed.

Lemma extends_trans o1 o2 o3 : extends o1 o2 -> extends o2 o3 -> extends o1 o3.
Proof.
  intros H12 H23 r g H. destruct (H12 r g H) as (g' & H' & Hn & Ha).
  destruct (H23 r g' H') as (g'' & H'' & Hn' & Ha').
  exists g''. repeat split; congruence.
Qed.

Lemma extends_app objs g : extends objs (objs ++ [g]).
Proof.
  intros r g0 H. exists g0. split; [| done]. by apply lookup_app_l_Some.
Qed.

Lemma extends_alter objs ins d r :
  extends objs (alter (Step3.set_inputs_delay ins d) r objs).
Proof.
  intros r' g H. rewrite list_lookup_alter. case_decide as Hr.
  - subst r'. rewrite H. cbn. eauto.
  - eauto.
Qed.

Lemma load_line_extends l ld ld' :
  Step3.load_line l ld = Some ld' ->
  extends (Step3.objects ld) (Step3.objects ld').
Proof.
  destruct l as [a nm k fo fi | a nm src | parts]; cbn; intros H.
  - injection H as <-. apply extends_app.
  - destruct (Step3.dict_get src (Step3.by_address ld)); [| discriminate H].
    injection H as <-. apply extends_app.
  - destruct (Step3.current_gate ld) as [cur |];
      [| injection H as <-; apply extends_refl].
    destruct (decide _); cbn in H;
      (destruct (Step3.resolve _ _); [| discriminate H]);
      injection H as <-; apply extends_alter.
Qed.

Lemma load_lines_extends ls : forall ld ld',
  Step3.load_lines ls ld = Some ld' ->
  extends (Step3.objects ld) (Step3.objects ld').
Proof.
  induction ls as [| l ls IH]; intros ld ld' H; cbn in H.
  - injection H as <-. apply extends_refl.
  - destruct (Step3.load_line l ld) as [ld1 |] eqn:H1; [| discriminate H].
    cbn in H. eapply extends_trans; [by eapply load_line_extends | eauto].
Qed.

(** Every gate line leaves a gate object under the declared address whose
    name is the declared name without its last three characters. *)
Lemma load_lines_gate_names ls : forall ld ld' a nm k fo fi,
  Step3.load_lines ls ld = Some ld' ->
  Step3.GateLine a nm k fo fi ∈ ls ->
  exists r g, Step3.objects ld' !! r = Some g /\
              address g = a /\ name g = Step3.drop_last3 nm.
Proof.
  induction ls as [| l ls IH]; intros ld ld' a nm k fo fi H Hin.
  { by apply elem_of_nil in Hin. }
  cbn in H.
  destruct (Step3.load_line l ld) as [ld1 |] eqn:H1; [| discriminate H].
  cbn in H. apply elem_of_cons in Hin as [<- | Hin]; [| eauto].
  cbn in H1. injection H1 as <-.
  destruct (load_lines_extends _ _ _ H (length (Step3.objects ld))
              (mkGate a (Step3.drop_last3 nm) k fo fi 0 []))
    as (g' & Hg' & Hn & Ha).
  { cbn. by rewrite lookup_app_r, Nat.sub_diag by lia. }
  eauto.
Qed.

(** With pairwise distinct addresses, the address-keyed map lists the gate
    objects in the order of their declaration. *)
Lemma load_lines_by_address ls : forall ld ld',
  Step3.load_lines ls ld = Some ld' ->
  NoDup (line_addresses ls) ->
  (forall a, a ∈ line_addresses ls -> a ∉ (Step3.by_address ld).*1) ->
  (Step3.by_address ld).*2 = seq 0 (length (Step3.objects ld)) ->
  (Step3.by_address ld').*2 = seq 0 (length (Step3.objects ld')).
Proof.
  induction ls as [| l ls IH]; intros ld ld' H Hnd Hfresh Hseq; cbn in H.
  { by injection H as <-. }
  destruct (Step3.load_line l ld) as [ld1 |] eqn:H1; [| discriminate H].
  cbn in H.
  assert (Hnew : forall a g cur fc,
    line_address l = Some a ->
    ld1 = Step3.mkLoader (Step3.objects ld ++ [g])
            (Step3.dict_set a (length (Step3.objects ld))
               (Step3.by_address ld)) cur fc ->
    (Step3.by_address ld').*2 = seq 0 (length (Step3.objects ld'))).
  { intros a g cur fc Ha ->.
    unfold line_addresses in Hnd, Hfresh. cbn in Hnd, Hfresh.
    rewrite Ha in Hnd, Hfresh. cbn in Hnd, Hfresh.
    apply NoDup_cons in Hnd as [Hnotin Hnd].
    assert (Hfa : a ∉ (Step3.by_address ld).*1)
      by (apply Hfresh; by left).
    apply (IH _ _ H Hnd); cbn.
    - intros b Hb. rewrite dict_set_fresh by done.
      rewrite fmap_app. cbn. intros [Hin | Hin]%elem_of_app.
      + revert Hin. apply Hfresh. by right.
      + apply list_elem_of_singleton in Hin. by subst b.
    - rewrite dict_set_fresh by done. rewrite fmap_app, Hseq, length_app.
      cbn. rewrite Nat.add_1_r, seq_S. done. }
  destruct l as [a nm k fo fi | a nm src | parts]; cbn in H1.
  - injection H1 as <-. by eapply Hnew.
  - destruct (Step3.dict_get src (Step3.by_address ld)); [| discriminate H1].
    injection H1 as <-. by eapply Hnew.
  - unfold line_addresses in Hnd, Hfresh. cbn in Hnd, Hfresh.
    destruct (Step3.current_gate ld) as [cur |].
    + destruct (decide _); cbn in H1;
        (destruct (Step3.resolve _ _); [| discriminate H1]);
        injection H1 as <-; apply (IH _ _ H Hnd); cbn; try done;
        by rewrite length_alter.
    + injection H1 as <-. by apply (IH _ _ H Hnd).
Qed.

Lemma last_filter_seq (P : nat -> Prop) `{forall x, Decision (P x)} n r :
  last (filter P (seq 0 n)) = Some r ->
  P r /\ (r < n)%nat /\ forall r', (r' < n)%nat -> P r' -> (r' <= r)%nat.
Proof.
  revert r. induction n as [| n IH]; intros r; [discriminate |].
  rewrite seq_S, filter_app, last_app, filter_cons, filter_nil.
  rewrite Nat.add_0_l.
  destruct (decide (P n)) as [Hn | Hn]; cbn.
  - intros [= <-]. split; [done |]. split; [lia |]. intros; lia.
  - intros Hr. destruct (IH r Hr) as (HP & Hlt & Hmax).
    split; [done |]. split; [lia |]. intros r' Hr' HP'.
    destruct (decide (r' = n)) as [-> | Hne]; [done |].
    apply Hmax; [lia | done].
Qed.

(** C10: every gate line stores its gate under the declared name without
    its last three characters; the gate map is re-keyed by these names, so
    that a fault is looked up by the truncated name only (a lookup that
    succeeds yields a gate of that name, one that fails makes
    [generate_test_vector] raise); and when names collide the map holds the
    gate declared last. *)
Theorem C10_names_and_rekeying ls c :
  Step3.load_iscas_file ls = Some c ->
  (forall a nm k fo fi, Step3.GateLine a nm k fo fi ∈ ls ->
     exists r g, Step3.heap c !! r = Some g /\ address g = a /\
                 name g = Step3.drop_last3 nm) /\
  (forall nm r, Step3.dict_get nm (Step3.gates c) = Some r ->
     name (Step3.heap c !!! r) = nm) /\
  (forall nm fuel st sv,
     Step3.dict_get nm (Step3.gates c) = None ->
     Step3.generate_test_vector c fuel st (nm, sv) = Raised) /\
  (NoDup (line_addresses ls) ->
   (forall nm,
      Step3.dict_get nm (Step3.gates c)
      = last (named (Step3.heap c) nm (seq 0 (length (Step3.heap c))))) /\
   (forall r1 r2,
      (r1 < r2 < length (Step3.heap c))%nat ->
      name (Step3.heap c !!! r1) = name (Step3.heap c !!! r2) ->
      Step3.dict_get (name (Step3.heap c !!! r1)) (Step3.gates c)
      <> Some r1)).
Proof.
  unfold Step3.load_iscas_file. intros H.
  destruct (Step3.load_lines ls _) as [ld |] eqn:Hld; [| discriminate H].
  cbn in H. injection H as <-. cbn.
  split; [| split; [| split]].
  - intros a nm k fo fi Hin. by eapply load_lines_gate_names.
  - intros nm r Hget. rewrite rekey_lookup in Hget.
    apply last_Some_elem_of in Hget.
    by apply list_elem_of_filter in Hget as [Hn _].
  - intros nm fuel st sv Hget. unfold Step3.generate_test_vector. cbn.
    by rewrite Hget.
  - intros Hnd.
    assert (Hseq : (Step3.by_address ld).*2
                   = seq 0 (length (Step3.objects ld))).
    { apply (load_lines_by_address _ _ _ Hld Hnd); cbn; [| done].
      intros a _ Hin. by apply elem_of_nil in Hin. }
    split.
    + intros nm. by rewrite rekey_lookup, Hseq.
    + intros r1 r2 Hlt Hname Hget. rewrite rekey_lookup, Hseq in Hget.
      apply last_filter_seq in Hget as (_ & _ & Hmax).
      assert (r2 <= r1)%nat by (apply Hmax; [lia | done]). lia.
Qed.

Lemma C10_names_and_rekeying_witness :
  exists c,
    Step3.load_iscas_file colliding_lines = Some c /\
    NoDup (line_addresses colliding_lines) /\
    Step3.dict_get "10" (Step3.gates c) = Some 1%nat /\
    Step3.dict_get "10" (Step3.gates c) <> Some 0%nat.
Proof.
  eexists. split; [vm_compute; reflexivity |].
  assert (Hnd : NoDup (line_addresses colliding_lines)).
  { apply (bool_decide_unpack _). vm_compute. exact I. }
  split; [exact Hnd |]. split; [reflexivity |].
  refine (proj2 (proj2 (proj2 (proj2
            (C10_names_and_rekeying colliding_lines _ eq_refl))) Hnd)
            0%nat 1%nat _ eq_refl).
  cbn. lia.
Defined.

(** ** SCOAP: bounds on the measures *)

Lemma ge1_ge0 x : ge1 x -> ge0 x.
Proof. unfold ge1, ge0. cost_cases. Qed.

Lemma ge0_add a b : ge0 a -> ge0 b -> ge0 (cost_add a b).
Proof. unfold ge0, cost_add. cost_cases. Qed.

Lemma ge1_add_one a : ge0 a -> ge1 (cost_add a Step3.one).
Proof. unfold ge0, ge1, cost_add, Step3.one. cost_cases. Qed.

Lemma ge0_add_one a : ge0 a -> ge0 (cost_add a Step3.one).
Proof. intros. by apply ge1_ge0, ge1_add_one. Qed.

Lemma ge0_min a b : ge0 a -> ge0 b -> ge0 (cost_min a b).
Proof. unfold cost_min. by destruct (cost_lt b a). Qed.

Lemma ge0_py_min l m : Forall ge0 l -> py_min l = Some m -> ge0 m.
Proof.
  destruct l as [| x l]; [discriminate |]. cbn. intros Hl [= <-].
  apply Forall_cons in Hl as [Hx Hl]. revert x Hx.
  induction Hl as [| y l Hy Hl IH]; intros x Hx; cbn; [done |].
  apply IH. by apply ge0_min.
Qed.

Lemma ge0_py_sum l : Forall ge0 l -> ge0 (py_sum l).
Proof.
  unfold py_sum. assert (H0 : ge0 (Fin 0)) by done. revert H0.
  generalize (Fin 0). intros acc Hacc Hl. revert acc Hacc.
  induction Hl as [| y l Hy Hl IH]; intros acc Hacc; cbn; [done |].
  apply IH. by apply ge0_add.
Qed.

Lemma measures_ok_fresh : measures_ok Step3.fresh_gate.
Proof. by repeat split. Qed.

Lemma store_ok_lookup st r : store_ok st -> measures_ok (st !!! r).
Proof.
  intros H. rewrite list_lookup_total_alt.
  destruct (st !! r) as [s |] eqn:Hr; cbn.
  - by eapply Forall_lookup_1.
  - apply measures_ok_fresh.
Qed.

Lemma store_ok_alter f r st :
  store_ok st -> (forall s, measures_ok s -> measures_ok (f s)) ->
  store_ok (alter f r st).
Proof.
  intros H Hf. apply Forall_lookup_2. intros i s.
  rewrite list_lookup_alter. case_decide as Hi.
  - subst i. destruct (st !! r) as [s0 |] eqn:Hr; [| discriminate].
    intros [= <-]. apply Hf. by eapply Forall_lookup_1.
  - intros Hs. by eapply Forall_lookup_1.
Qed.

Lemma store_ok_CC0s st rs : store_ok st -> Forall ge0 (Step3.CC0s st rs).
Proof.
  intros H. unfold Step3.CC0s. apply Forall_forall. intros x Hx.
  apply list_elem_of_In, in_map_iff in Hx as (i & <- & _).
  apply ge1_ge0, (store_ok_lookup st i H).
Qed.

Lemma store_ok_CC1s st rs : store_ok st -> Forall ge0 (Step3.CC1s st rs).
Proof.
  intros H. unfold Step3.CC1s. apply Forall_forall. intros x Hx.
  apply list_elem_of_In, in_map_iff in Hx as (i & <- & _).
  apply ge1_ge0, (store_ok_lookup st i H).
Qed.

(** Peel one [bind] of the option monad off a hypothesis. *)
Ltac option_bind H :=
  match type of H with
  | context [mbind _ ?m] =>
      let E := fresh "E" in
      destruct m as [? |] eqn:E; cbn in H; try discriminate H
  end.

Lemma measures_ok_set_CC0 x s :
  ge1 x -> measures_ok s -> measures_ok (Step3.set_CC0 x s).
Proof. intros Hx (H0 & H1 & H2). by repeat split. Qed.

Lemma measures_ok_set_CC1 x s :
  ge1 x -> measures_ok s -> measures_ok (Step3.set_CC1 x s).
Proof. intros Hx (H0 & H1 & H2). by repeat split. Qed.

Lemma measures_ok_set_CO x s :
  ge0 x -> measures_ok s -> measures_ok (Step3.set_CO_field x s).
Proof. intros Hx (H0 & H1 & H2). by repeat split. Qed.

Lemma store_ok_set_CO r x st :
  ge0 x -> store_ok st -> store_ok (Step3.set_CO r x st).
Proof.
  intros Hx H. apply store_ok_alter; [done |].
  intros s. by apply measures_ok_set_CO.
Qed.

Lemma init_input_ok c r st : store_ok st -> store_ok (Step3.init_input c r st).
Proof.
  intros H. unfold Step3.init_input. case_decide; [| done].
  apply store_ok_alter; [done |]. intros s (A0 & A1 & A2). by repeat split.
Qed.

Lemma assign_CC_ok r e0 e1 st st' :
  store_ok st ->
  (forall s x, store_ok s -> e0 s = Some x -> ge1 x) ->
  (forall s x, store_ok s -> e1 s = Some x -> ge1 x) ->
  Step3.assign_CC r e0 e1 st = Some st' ->
  store_ok st'.
Proof.
  intros Hst H0 H1 H. unfold Step3.assign_CC in H.
  option_bind H. option_bind H. injection H as <-.
  assert (Hst1 : store_ok (alter (Step3.set_CC0 c) r st)).
  { apply store_ok_alter; [done |]. intros s.
    apply measures_ok_set_CC0. by eapply H0. }
  apply store_ok_alter; [done |]. intros s.
  apply measures_ok_set_CC1. by eapply H1.
Qed.

Lemma min_plus_1_ge1 l x :
  Forall ge0 l -> Step3.min_plus_1 l = Some x -> ge1 x.
Proof.
  intros Hl H. unfold Step3.min_plus_1 in H. option_bind H.
  injection H as <-. apply ge1_add_one. by eapply ge0_py_min.
Qed.

Lemma sum_plus_1_ge1 l x :
  Forall ge0 l -> Step3.sum_plus_1 l = Some x -> ge1 x.
Proof.
  intros Hl [= <-]. apply ge1_add_one. by apply ge0_py_sum.
Qed.

Lemma xor_cost_ge1 ins f1 f2 f3 f4 st x :
  (forall s, measures_ok s ->
     ge0 (f1 s) /\ ge0 (f2 s) /\ ge0 (f3 s) /\ ge0 (f4 s)) ->
  store_ok st ->
  Step3.xor_cost ins f1 f2 f3 f4 st = Some x -> ge1 x.
Proof.
  intros Hf Hst H. unfold Step3.xor_cost in H.
  option_bind H. option_bind H. injection H as <-.
  destruct (Hf _ (store_ok_lookup st n Hst)) as (A1 & _ & A3 & _).
  destruct (Hf _ (store_ok_lookup st n0 Hst)) as (_ & B2 & _ & B4).
  apply ge1_add_one, ge0_min; by apply ge0_add.
Qed.

Lemma forward_step_ok c r st st' :
  store_ok st -> Step3.forward_step c r st = Some st' -> store_ok st'.
Proof.
  intros Hst H. unfold Step3.forward_step in H.
  assert (HCC : forall s, measures_ok s ->
            ge0 (Step3.CC0 s) /\ ge0 (Step3.CC1 s))
    by (intros s (H0 & H1 & _); split; by apply ge1_ge0).
  destruct (gate_type (Step3.gate_of c r));
    try (by injection H as <-);
    (eapply assign_CC_ok; [exact Hst | | | exact H]);
    intros s x Hs Hx;
    try (eapply min_plus_1_ge1; [| exact Hx];
         auto using store_ok_CC0s, store_ok_CC1s);
    try (eapply sum_plus_1_ge1; [| exact Hx];
         auto using store_ok_CC0s, store_ok_CC1s);
    try (eapply xor_cost_ge1; [| exact Hs | exact Hx];
         intros s0 Hs0; destruct (HCC s0 Hs0); by repeat split);
    try (option_bind Hx; injection Hx as <-;
         first [ apply ge1_add_one, (HCC _ (store_ok_lookup s n Hs))
               | apply (store_ok_lookup s n Hs) ]).
Qed.

Lemma for_each_inv {A S} (P : S -> Prop) (Q : A -> Prop)
    (body : A -> S -> option S) l s s' :
  (forall x s s', Q x -> P s -> body x s = Some s' -> P s') ->
  Forall Q l -> P s -> Step3.for_each body l s = Some s' -> P s'.
Proof.
  intros Hbody Hl. revert s. induction Hl as [| x l Hx Hl IH];
    intros s Hs H; cbn in H.
  - by injection H as <-.
  - option_bind H. eauto.
Qed.

Lemma for_each_total {A S} (Q : A -> Prop) (P : S -> Prop)
    (body : A -> S -> option S) l s :
  (forall x s, Q x -> P s -> exists s', body x s = Some s' /\ P s') ->
  Forall Q l -> P s -> exists s', Step3.for_each body l s = Some s' /\ P s'.
Proof.
  intros Hbody Hl. revert s. induction Hl as [| x l Hx Hl IH];
    intros s Hs; cbn.
  - eauto.
  - destruct (Hbody x s Hx Hs) as (s1 & -> & Hs1). cbn. eauto.
Qed.

Lemma pair_CO_ok c r F st st' :
  (forall s, measures_ok s -> ge0 (F s)) ->
  store_ok st -> Step3.pair_CO c r F st = Some st' -> store_ok st'.
Proof.
  intros HF Hst H. unfold Step3.pair_CO in H.
  option_bind H. option_bind H. injection H as <-.
  assert (Hco : forall s x, store_ok s -> ge0 (Step3.CO (s !!! x)))
    by (intros s x Hs; apply (store_ok_lookup s x Hs)).
  assert (Hst1 : store_ok
            (Step3.set_CO n0
               (cost_add (cost_add (Step3.CO (st !!! r)) (F (st !!! n)))
                  Step3.one) st)).
  { apply store_ok_set_CO; [| done].
    apply ge0_add_one, ge0_add; [by apply Hco |].
    apply HF, store_ok_lookup, Hst. }
  apply store_ok_set_CO; [| done].
  apply ge0_add_one, ge0_add; [by apply Hco |].
  apply HF, store_ok_lookup, Hst1.
Qed.

Lemma xor_CO_ok c r st st' :
  store_ok st -> Step3.xor_CO c r st = Some st' -> store_ok st'.
Proof.
  intros Hst H. unfold Step3.xor_CO in H.
  revert H. apply (for_each_inv store_ok (fun _ => True));
    [| by apply Forall_forall | exact Hst].
  intros i s s' _ Hs Hb. option_bind Hb. option_bind Hb. option_bind Hb.
  injection Hb as <-. apply store_ok_set_CO; [| done].
  apply ge0_add_one, ge0_add; [apply (store_ok_lookup s r Hs) |].
  apply ge0_add;
    [eapply ge0_py_min; [| exact E] | eapply ge0_py_min; [| exact E0]];
    auto using store_ok_CC0s, store_ok_CC1s.
Qed.

Lemma backward_step_ok c r st st' :
  store_ok st -> Step3.backward_step c r st = Some st' -> store_ok st'.
Proof.
  intros Hst H. unfold Step3.backward_step, Step3.backward_kind in H.
  set (st0 := Step3.mark_output c r st) in H.
  assert (Hst0 : store_ok st0).
  { unfold st0, Step3.mark_output.
    case_decide; [by apply store_ok_set_CO | done]. }
  clearbody st0.
  assert (HCC : forall s, measures_ok s ->
            ge0 (Step3.CC0 s) /\ ge0 (Step3.CC1 s))
    by (intros s (A0 & A1 & _); split; by apply ge1_ge0).
  destruct (gate_type (Step3.gate_of c r)).
  - by injection H as <-.
  - eapply pair_CO_ok; [| exact Hst0 | exact H]. intros s Hs. by apply HCC.
  - eapply pair_CO_ok; [| exact Hst0 | exact H]. intros s Hs. by apply HCC.
  - eapply pair_CO_ok; [| exact Hst0 | exact H]. intros s Hs. by apply HCC.
  - eapply pair_CO_ok; [| exact Hst0 | exact H]. intros s Hs. by apply HCC.
  - by eapply xor_CO_ok.
  - by eapply xor_CO_ok.
  - option_bind H. injection H as <-. apply store_ok_set_CO; [| done].
    apply ge0_add_one, (store_ok_lookup st0 r Hst0).
  - option_bind H. injection H as <-. apply store_ok_set_CO; [| done].
    apply ge0_add_one, (store_ok_lookup st0 r Hst0).
  - destruct (Step3.consumed c r).
    + option_bind H. injection H as <-.
      destruct (cost_lt _ _); [| done].
      apply store_ok_set_CO; [| done]. apply (store_ok_lookup st0 r Hst0).
    + injection H as <-. by apply store_ok_set_CO.
  - by injection H as <-.
Qed.

(** ** SCOAP: what each pass touches *)

Lemma co_only_refl T st : co_only T st st.
Proof. by split. Qed.

Lemma co_only_trans T s1 s2 s3 :
  co_only T s1 s2 -> co_only T s2 s3 -> co_only T s1 s3.
Proof.
  intros [L12 H12] [L23 H23]. split; [congruence |]. intros y.
  destruct (H12 y) as (A & B & C), (H23 y) as (A' & B' & C').
  repeat split; try congruence. intros Hy. rewrite C', C; auto.
Qed.

Lemma co_only_weaken (T T' : nat -> Prop) st st' :
  (forall y, T y -> T' y) -> co_only T st st' -> co_only T' st st'.
Proof.
  intros HT [L H]. split; [done |]. intros y.
  destruct (H y) as (A & B & C). repeat split; auto.
Qed.

Lemma co_only_set_CO (T : nat -> Prop) r x st :
  T r -> co_only T st (Step3.set_CO r x st).
Proof.
  intros Hr. unfold Step3.set_CO. split; [apply length_alter |].
  intros y. repeat split.
  - by apply (lookup_alter_field Step3.CC0).
  - by apply (lookup_alter_field Step3.CC1).
  - intros Hy. rewrite list_lookup_total_alter_ne; [done |].
    intros ->. by apply Hy.
Qed.

Lemma backward_kind_frame c x st st' :
  Step3.backward_kind c x st = Some st' -> co_only (written_by c x) st st'.
Proof.
  unfold Step3.backward_kind. intros H.
  assert (Hin : forall i y, inputs (Step3.gate_of c x) !! i = Some y ->
                            written_by c x y).
  { intros i y Hy. left. by eapply list_elem_of_lookup_2. }
  assert (Hpair : forall F, Step3.pair_CO c x F st = Some st' ->
                            co_only (written_by c x) st st').
  { intros F HF. unfold Step3.pair_CO in HF.
    option_bind HF. option_bind HF. injection HF as <-.
    eapply co_only_trans; apply co_only_set_CO; eauto. }
  assert (Hxor : Step3.xor_CO c x st = Some st' ->
                 co_only (written_by c x) st st').
  { unfold Step3.xor_CO.
    apply (for_each_inv (co_only (written_by c x) st) (fun _ => True));
      [| by apply Forall_forall | apply co_only_refl].
    intros i s s' _ Hs Hb. option_bind Hb. option_bind Hb. option_bind Hb.
    injection Hb as <-.
    eapply co_only_trans; [exact Hs |]. apply co_only_set_CO; eauto. }
  destruct (gate_type (Step3.gate_of c x)) eqn:Hk; eauto.
  - injection H as <-. apply co_only_refl.
  - option_bind H. injection H as <-. apply co_only_set_CO; eauto.
  - option_bind H. injection H as <-. apply co_only_set_CO; eauto.
  - destruct (Step3.consumed c x) eqn:Hcons.
    + option_bind H. injection H as <-.
      destruct (cost_lt _ _); [| apply co_only_refl].
      apply co_only_set_CO; eauto.
    + injection H as <-. apply co_only_set_CO. by right.
  - injection H as <-. apply co_only_refl.
Qed.

Lemma backward_step_frame c x st st' :
  Step3.backward_step c x st = Some st' ->
  co_only (fun y => y = x \/ written_by c x y) st st'.
Proof.
  unfold Step3.backward_step. intros H.
  apply (co_only_trans _ _ (Step3.mark_output c x st)).
  - unfold Step3.mark_output. case_decide; [| apply co_only_refl].
    apply co_only_set_CO. by left.
  - eapply co_only_weaken; [| by eapply backward_kind_frame]. tauto.
Qed.

Lemma forward_step_frame c x st st' :
  Step3.forward_step c x st = Some st' ->
  cc_only x st st' /\ (gate_type (Step3.gate_of c x) = Kinpt -> st' = st).
Proof.
  unfold Step3.forward_step. intros H.
  assert (Hassign : forall e0 e1,
            Step3.assign_CC x e0 e1 st = Some st' -> cc_only x st st').
  { intros e0 e1 Ha. unfold Step3.assign_CC in Ha.
    option_bind Ha. option_bind Ha. injection Ha as <-.
    split; [by rewrite !length_alter |]. intros y. split.
    - rewrite (lookup_alter_field Step3.CO) by done.
      by rewrite (lookup_alter_field Step3.CO).
    - intros Hy. by rewrite !list_lookup_total_alter_ne. }
  destruct (gate_type (Step3.gate_of c x)) eqn:Hk;
    try (split; [by eapply Hassign | discriminate]).
  - injection H as <-. by repeat split.
  - injection H as <-. by repeat split.
Qed.

(** ** SCOAP: the passes complete on a well-formed netlist *)

Lemma py_min_is_Some l : l <> [] -> is_Some (py_min l).
Proof. destruct l; [done | by eexists]. Qed.

Lemma assign_CC_total x e0 e1 st :
  (forall s, is_Some (e0 s)) -> (forall s, is_Some (e1 s)) ->
  is_Some (Step3.assign_CC x e0 e1 st).
Proof.
  intros H0 H1. unfold Step3.assign_CC.
  destruct (H0 st) as [c0 ->]. cbn.
  destruct (H1 (alter (Step3.set_CC0 c0) x st)) as [c1 ->]. by eexists.
Qed.

Lemma forward_step_total c r st :
  arity_ok (Step3.gate_of c r) = true ->
  is_Some (Step3.forward_step c r st).
Proof.
  unfold arity_ok, Step3.forward_step. intros Ha.
  destruct (gate_type (Step3.gate_of c r));
    try (by eexists);
    apply bool_decide_eq_true in Ha;
    destruct (inputs (Step3.gate_of c r)) as [| a [| b l]];
    cbn in Ha; try lia;
    apply assign_CC_total; intros s; by eexists.
Qed.

Lemma other_inputs_nonempty (ins : list nat) i :
  (2 <= length ins)%nat -> (i < length ins)%nat ->
  Step3.other_inputs ins i <> [].
Proof.
  intros H2 Hi Hnil. apply (f_equal length) in Hnil.
  unfold Step3.other_inputs in Hnil.
  rewrite length_app, length_take, length_drop in Hnil. cbn in Hnil. lia.
Qed.

Lemma backward_step_total c r st :
  arity_ok (Step3.gate_of c r) = true ->
  is_Some (Step3.backward_step c r st).
Proof.
  unfold arity_ok, Step3.backward_step, Step3.backward_kind, Step3.pair_CO.
  generalize (Step3.mark_output c r st). clear st. intros st Ha.
  assert (Hxor : (2 <= length (inputs (Step3.gate_of c r)))%nat ->
                 is_Some (Step3.xor_CO c r st)).
  { intros H2. unfold Step3.xor_CO.
    destruct (for_each_total
                (fun i => (i < length (inputs (Step3.gate_of c r)))%nat)
                (fun _ => True)
                (fun i s =>
                   let others :=
                     Step3.other_inputs (inputs (Step3.gate_of c r)) i in
                   m0 ← py_min (Step3.CC0s s others);
                   m1 ← py_min (Step3.CC1s s others);
                   target ← inputs (Step3.gate_of c r) !! i;
                   Some (Step3.set_CO target
                           (cost_add
                              (cost_add (Step3.CO (s !!! r)) (cost_add m0 m1))
                              Step3.one) s))
                (seq 0 (length (inputs (Step3.gate_of c r)))) st)
      as (s' & Hs' & _); [| | done | by eexists].
    - intros i s Hi _. cbn.
      pose proof (other_inputs_nonempty _ i H2 Hi) as Hne.
      destruct (py_min_is_Some (Step3.CC0s s
                  (Step3.other_inputs (inputs (Step3.gate_of c r)) i)))
        as [m0 ->].
      { unfold Step3.CC0s. intros Hnil. apply Hne.
        by apply map_eq_nil in Hnil. }
      destruct (py_min_is_Some (Step3.CC1s s
                  (Step3.other_inputs (inputs (Step3.gate_of c r)) i)))
        as [m1 ->].
      { unfold Step3.CC1s. intros Hnil. apply Hne.
        by apply map_eq_nil in Hnil. }
      destruct (lookup_lt_is_Some_2 _ _ Hi) as [t ->]. cbn. eauto.
    - apply Forall_forall. intros i Hi%elem_of_seq. lia. }
  destruct (gate_type (Step3.gate_of c r));
    try (by eexists);
    apply bool_decide_eq_true in Ha;
    try (by apply Hxor);
    destruct (inputs (Step3.gate_of c r)) as [| a [| b l]];
    cbn in Ha; try lia; try (by eexists);
    destruct (Step3.consumed c r); by eexists.
Qed.

(** ** SCOAP: primary inputs and primary outputs *)

Lemma init_loop_spec c l : forall st,
  let st0 := foldl (fun s r => Step3.init_input c r s) st l in
  length st0 = length st /\
  (store_ok st -> store_ok st0) /\
  (forall y, Step3.CO (st0 !!! y) = Step3.CO (st !!! y)) /\
  forall q, (q < length st)%nat ->
    gate_type (Step3.gate_of c q) = Kinpt ->
    q ∈ l \/ inputs_set q st -> inputs_set q st0.
Proof.
  induction l as [| x l IH]; intros st; cbn.
  { split; [done | split; [done | split; [done |]]].
    intros q _ _ [Hin | H]; [| done]. by apply elem_of_nil in Hin. }
  destruct (IH (Step3.init_input c x st)) as (HL & Hok & HCO & HPI).
  assert (Hlen : length (Step3.init_input c x st) = length st).
  { unfold Step3.init_input. case_decide; [apply length_alter | done]. }
  split; [congruence |]. split; [auto using init_input_ok |]. split.
  { intros y. rewrite HCO. unfold Step3.init_input.
    case_decide; [| done]. by apply (lookup_alter_field Step3.CO). }
  intros r Hr Hk Hcase. apply HPI; [lia | done |].
  destruct (decide (r = x)) as [-> | Hne].
  - right. unfold Step3.init_input, inputs_set.
    rewrite decide_True by done.
    by rewrite list_lookup_total_alter_eq.
  - destruct Hcase as [Hin | Hset].
    + left. apply elem_of_cons in Hin as [-> | Hin]; done.
    + right. unfold Step3.init_input, inputs_set in *.
      case_decide; [| done]. by rewrite list_lookup_total_alter_ne.
Qed.

Lemma consumed_false c r x :
  Step3.consumed c r = false -> x ∈ Step3.values c ->
  r ∉ inputs (Step3.gate_of c x).
Proof.
  unfold Step3.consumed. intros Hc Hx Hin.
  apply not_true_iff_false in Hc. apply Hc.
  apply existsb_exists. exists x. split; [by apply list_elem_of_In |].
  by apply py_in_true.
Qed.

(** A gate that nothing consumes, and that is a branch or declares
    [fanout = 0], leaves its own backward step with [CO = 0]. *)
Lemma backward_step_self c r st st' :
  Step3.backward_step c r st = Some st' ->
  (r < length st)%nat ->
  r ∉ inputs (Step3.gate_of c r) ->
  Step3.consumed c r = false ->
  gate_type (Step3.gate_of c r) = Kfanout \/ fanout (Step3.gate_of c r) = 0 ->
  Step3.CO (st' !!! r) = Fin 0.
Proof.
  unfold Step3.backward_step. intros H Hr Hself Hcons Hk.
  assert (Hlen : length (Step3.mark_output c r st) = length st).
  { unfold Step3.mark_output. case_decide; [apply length_alter | done]. }
  destruct (decide (gate_type (Step3.gate_of c r) = Kfanout)) as [Hf | Hnf].
  - unfold Step3.backward_kind in H. rewrite Hf, Hcons in H.
    injection H as <-. unfold Step3.set_CO.
    by rewrite list_lookup_total_alter_eq by lia.
  - destruct Hk as [Hk | Hk]; [done |].
    destruct (backward_kind_frame _ _ _ _ H) as [_ Hframe].
    destruct (Hframe r) as (_ & _ & HCO). rewrite HCO.
    + unfold Step3.mark_output, Step3.set_CO. rewrite decide_True by done.
      by rewrite list_lookup_total_alter_eq.
    + intros [Hin | (_ & Hf & _)]; done.
Qed.

Lemma backward_loop_output c r l : forall st st',
  Step3.for_each (Step3.backward_step c) l st = Some st' ->
  r ∈ l -> (r < length st)%nat ->
  Forall (fun x => x ∈ Step3.values c) l ->
  Step3.consumed c r = false ->
  gate_type (Step3.gate_of c r) = Kfanout \/ fanout (Step3.gate_of c r) = 0 ->
  Step3.CO (st' !!! r) = Fin 0.
Proof.
  induction l as [| x l IH]; intros st st' H Hin Hr Hvals Hcons Hk.
  { by apply elem_of_nil in Hin. }
  cbn in H. option_bind H. rename l0 into st1.
  apply Forall_cons in Hvals as [Hx Hvals].
  destruct (backward_step_frame _ _ _ _ E) as [Hlen1 Hframe1].
  destruct (decide (r ∈ l)) as [Hl | Hl].
  { eapply IH; eauto. lia. }
  apply elem_of_cons in Hin as [-> | Hin]; [| done].
  assert (H0 : Step3.CO (st1 !!! x) = Fin 0).
  { eapply backward_step_self; eauto. by eapply consumed_false. }
  revert H.
  apply (for_each_inv (fun s => Step3.CO (s !!! x) = Fin 0)
           (fun y => y ∈ Step3.values c /\ y <> x));
    [| | exact H0].
  - intros y s s' [Hy Hne] Hs Hb.
    destruct (backward_step_frame _ _ _ _ Hb) as [_ Hframe].
    destruct (Hframe x) as (_ & _ & HCO). rewrite HCO; [done |].
    intros [-> | [Hi | [-> _]]]; try done.
    by eapply consumed_false.
  - apply Forall_forall. intros y Hy. split.
    + by eapply Forall_forall in Hvals.
    + intros ->. done.
Qed.

Lemma elem_of_rev {A} (x : A) (l : list A) : x ∈ rev l <-> x ∈ l.
Proof. rewrite !list_elem_of_In. symmetry. apply in_rev. Qed.

Lemma well_formed_values c :
  well_formed c = true ->
  Forall (fun r =>
            (r < length (Step3.heap c))%nat /\
            arity_ok (Step3.gate_of c r) = true /\
            (Step3.consumed c r = false ->
             gate_type (Step3.gate_of c r) = Kfanout \/
             fanout (Step3.gate_of c r) = 0))
         (Step3.values c).
Proof.
  unfold well_formed. intros H. apply Forall_forall. intros r Hr.
  apply list_elem_of_In in Hr.
  pose proof (proj1 (forallb_forall _ _) H r Hr) as Hw.
  apply andb_true_iff in Hw as [Hw Hpo].
  apply andb_true_iff in Hw as [Hlt Har].
  apply bool_decide_eq_true in Hlt. split; [done |]. split; [done |].
  intros Hc. rewrite Hc in Hpo. cbn in Hpo.
  apply orb_true_iff in Hpo as [Hk | Hk]; apply bool_decide_eq_true in Hk;
    auto.
Qed.

(** C7: on a well-formed netlist, [compute_scoap] completes; afterwards
    every gate has CC0 >= 1, CC1 >= 1 and CO >= 0 (an infinite measure
    counts as such), every gate of kind [inpt] has CC0 = CC1 = 1, and every
    gate that no gate consumes has CO = 0. *)
Theorem C7_scoap_invariants c :
  well_formed c = true ->
  exists st',
    Step3.compute_scoap c (Step3.initial_store c) = Some st' /\
    (forall r, measures_ok (st' !!! r)) /\
    (forall r, r ∈ Step3.values c ->
       gate_type (Step3.gate_of c r) = Kinpt ->
       Step3.CC0 (st' !!! r) = Fin 1 /\ Step3.CC1 (st' !!! r) = Fin 1) /\
    (forall r, r ∈ Step3.values c ->
       Step3.consumed c r = false ->
       Step3.CO (st' !!! r) = Fin 0).
Proof.
  intros Hwf. pose proof (well_formed_values c Hwf) as Hvals.
  unfold Step3.compute_scoap.
  set (st := Step3.initial_store c).
  assert (Hst : store_ok st).
  { apply Forall_forall. intros s Hs.
    apply elem_of_replicate in Hs as [-> _]. apply measures_ok_fresh. }
  assert (Hlen : length st = length (Step3.heap c))
    by apply length_replicate.
  destruct (init_loop_spec c (Step3.values c) st)
    as (Hlen0 & Hok0 & _ & HPI0).
  set (st0 := foldl (fun s r => Step3.init_input c r s) st (Step3.values c))
    in *.
  assert (Harity : Forall (fun r => arity_ok (Step3.gate_of c r) = true)
                     (Step3.values c)).
  { eapply Forall_impl; [exact Hvals |]. cbn. tauto. }
  destruct (for_each_total
              (fun r => arity_ok (Step3.gate_of c r) = true)
              (fun _ => True) (Step3.forward_step c)
              (Step3.values c) st0) as (st1 & Hfw & _);
    [| exact Harity | done |].
  { intros x s Hx _. destruct (forward_step_total c x s Hx) as [s' Hs'].
    eauto. }
  rewrite Hfw. cbn.
  destruct (for_each_total
              (fun r => arity_ok (Step3.gate_of c r) = true)
              (fun _ => True) (Step3.backward_step c)
              (rev (Step3.values c)) st1) as (st2 & Hbw & _);
    [| | done |].
  { intros x s Hx _. destruct (backward_step_total c x s Hx) as [s' Hs'].
    eauto. }
  { apply Forall_forall. intros x Hx.
    apply (proj1 (elem_of_rev _ _)) in Hx.
    exact (proj1 (Forall_forall _ _) Harity x Hx). }
  exists st2. split; [exact Hbw |].
  assert (Hlen1 : length st1 = length st0).
  { revert Hfw. apply (for_each_inv (fun s => length s = length st0)
                         (fun _ => True)); [| by apply Forall_forall | done].
    intros x s s' _ Hs Hb.
    destruct (forward_step_frame _ _ _ _ Hb) as [[HL _] _]. congruence. }
  split; [| split].
  - intros r. apply store_ok_lookup.
    revert Hbw. apply (for_each_inv store_ok (fun _ => True));
      [intros; by eapply backward_step_ok | by apply Forall_forall |].
    revert Hfw. apply (for_each_inv store_ok (fun _ => True));
      [intros; by eapply forward_step_ok | by apply Forall_forall | auto].
  - intros r Hr Hk.
    assert (Hr' : (r < length st)%nat).
    { eapply Forall_forall in Hvals; [| exact Hr]. lia. }
    revert Hbw. apply (for_each_inv (inputs_set r) (fun _ => True));
      [| by apply Forall_forall |].
    { intros x s s' _ [H0 H1] Hb.
      destruct (backward_step_frame _ _ _ _ Hb) as [_ Hframe].
      destruct (Hframe r) as (A & B & _). split; congruence. }
    revert Hfw. apply (for_each_inv (inputs_set r) (fun _ => True));
      [| by apply Forall_forall | apply HPI0; auto].
    intros x s s' _ [H0 H1] Hb.
    destruct (forward_step_frame _ _ _ _ Hb) as [[_ Hframe] Hinpt].
    destruct (decide (r = x)) as [-> | Hne].
    + by rewrite (Hinpt Hk).
    + destruct (Hframe r) as [_ HCC]. destruct (HCC Hne) as [A B].
      split; congruence.
  - intros r Hr Hcons.
    pose proof (proj1 (Forall_forall _ _) Hvals r Hr) as (Hlt & _ & Hpo).
    eapply backward_loop_output; [exact Hbw | | | | done | auto].
    + by apply elem_of_rev.
    + lia.
    + apply Forall_forall. intros x Hx.
      by apply (proj1 (elem_of_rev _ _)) in Hx.
Qed.

Lemma C7_scoap_invariants_witness :
  well_formed c17 = true /\
  exists st',
    Step3.compute_scoap c17 (Step3.initial_store c17) = Some st' /\
    (forall r, measures_ok (st' !!! r)) /\
    (forall r, r ∈ Step3.values c17 ->
       gate_type (Step3.gate_of c17 r) = Kinpt ->
       Step3.CC0 (st' !!! r) = Fin 1 /\ Step3.CC1 (st' !!! r) = Fin 1) /\
    (forall r, r ∈ Step3.values c17 ->
       Step3.consumed c17 r = false ->
       Step3.CO (st' !!! r) = Fin 0).
Proof.
  assert (H : well_formed c17 = true) by (vm_compute; reflexivity).
  split; [exact H | exact (C7_scoap_invariants c17 H)].
Defined.

(** ** SCOAP: observability across several consumers *)

Lemma two_consumers_is_loaded :
  Step3.load_iscas_file two_consumers_lines = Some two_consumers.
Proof. vm_compute. reflexivity. Qed.


Lemma cost_min_le_l a b : cost_le (cost_min a b) a = true.
Proof. cost_cases. Qed.

Lemma cost_min_le_r a b : cost_le (cost_min a b) b = true.
Proof. cost_cases. Qed.

Lemma cost_min_cases a b : cost_min a b = a \/ cost_min a b = b.
Proof. unfold cost_min. destruct (cost_lt b a); auto. Qed.

(** A consumed fanout branch lowers the CO of its stem to its own CO when
    that is smaller, and never raises it. *)
Lemma branch_step c x s st st1 :
  gate_type (Step3.gate_of c x) = Kfanout ->
  Step3.consumed c x = true ->
  inputs (Step3.gate_of c x) !! 0%nat = Some s ->
  x <> s -> (s < length st)%nat ->
  Step3.backward_step c x st = Some st1 ->
  length st1 = length st /\
  Step3.CO (st1 !!! s)
  = cost_min (Step3.CO (st !!! s)) (Step3.CO (st1 !!! x)) /\
  (forall y, y <> s -> y <> x ->
     Step3.CO (st1 !!! y) = Step3.CO (st !!! y)).
Proof.
  intros Hk Hc Hin Hne Hs H.
  unfold Step3.backward_step, Step3.backward_kind in H.
  rewrite Hk, Hc, Hin in H. cbn in H. injection H as <-.
  set (m := Step3.mark_output c x st).
  assert (Hlen : length m = length st).
  { unfold m, Step3.mark_output. case_decide; [apply length_alter | done]. }
  assert (Hm : forall y, y <> x ->
            Step3.CO (m !!! y) = Step3.CO (st !!! y)).
  { intros y Hy. unfold m, Step3.mark_output, Step3.set_CO.
    case_decide; [| done]. by rewrite list_lookup_total_alter_ne. }
  unfold cost_min. rewrite <- (Hm s) by done.
  destruct (cost_lt (Step3.CO (m !!! x)) (Step3.CO (m !!! s))) eqn:Hlt.
  - unfold Step3.set_CO. rewrite length_alter.
    split; [done |]. split.
    + rewrite list_lookup_total_alter_eq by lia. cbn.
      rewrite list_lookup_total_alter_ne by done. by rewrite Hlt.
    + intros y Hys Hyx. rewrite list_lookup_total_alter_ne by done.
      by apply Hm.
  - split; [done |]. split; [rewrite Hlt; done |].
    intros y _ Hyx. by apply Hm.
Qed.

(** A consumed gate that does not declare [fanout = 0] and does not feed
    itself leaves its own CO alone. *)
Lemma self_step_keeps_CO c s st st1 :
  fanout (Step3.gate_of c s) <> 0 ->
  Step3.consumed c s = true ->
  s ∉ inputs (Step3.gate_of c s) ->
  Step3.backward_step c s st = Some st1 ->
  Step3.CO (st1 !!! s) = Step3.CO (st !!! s).
Proof.
  intros Hf Hc Hself H. unfold Step3.backward_step in H.
  unfold Step3.mark_output in H. rewrite decide_False in H by done.
  destruct (backward_kind_frame _ _ _ _ H) as [_ Hframe].
  destruct (Hframe s) as (_ & _ & HCO). apply HCO.
  intros [Hin | (_ & _ & Hc')]; [done | congruence].
Qed.

Lemma consumers_first_cons c x l :
  consumers_first c (x :: l) = true ->
  (x ∉ inputs (Step3.gate_of c x)) /\
  (forall z, z ∈ l -> z <> x /\ (x ∉ inputs (Step3.gate_of c z))) /\
  consumers_first c l = true.
Proof.
  cbn. intros H. apply andb_true_iff in H as [H Hl].
  apply andb_true_iff in H as [Hx Hz].
  split; [| split; [| done]].
  - apply negb_true_iff, py_in_false in Hx. done.
  - intros z Hzl. apply list_elem_of_In in Hzl.
    pose proof (proj1 (forallb_forall _ _) Hz z Hzl) as Hzz.
    apply andb_true_iff in Hzz as [Hne Hin].
    apply negb_true_iff, bool_decide_eq_false in Hne.
    apply negb_true_iff, py_in_false in Hin. done.
Qed.

Section StemMinimum.
Variable c : Step3.Circuit.
Variable s : nat.
Hypothesis Hs_fanout : fanout (Step3.gate_of c s) <> 0.
Hypothesis Hs_consumed : Step3.consumed c s = true.
Hypothesis Hs_self : s ∉ inputs (Step3.gate_of c s).
Hypothesis Hbranches : forall b, b ∈ consumers c s ->
  gate_type (Step3.gate_of c b) = Kfanout /\
  inputs (Step3.gate_of c b) !! 0%nat = Some s /\
  Step3.consumed c b = true.

Let B (x : nat) : Prop := s ∈ inputs (Step3.gate_of c x).

(** The loop of the backward pass, with [P] the branches of [s] already
    handled and [q] the gates still to handle. *)
Lemma stem_loop q : forall st st' (P : list nat),
  Step3.for_each (Step3.backward_step c) q st = Some st' ->
  consumers_first c q = true ->
  Forall (fun x => x ∈ Step3.values c) q ->
  (s < length st)%nat ->
  (forall x b, x ∈ q -> b ∈ P ->
     b <> x /\ b ∉ inputs (Step3.gate_of c x)) ->
  (forall b, b ∈ P -> B b) ->
  (forall b, b ∈ P ->
     cost_le (Step3.CO (st !!! s)) (Step3.CO (st !!! b)) = true) ->
  (Step3.CO (st !!! s) = Inf \/
   exists b, b ∈ P /\ Step3.CO (st !!! s) = Step3.CO (st !!! b)) ->
  (forall b, b ∈ P \/ (b ∈ q /\ B b) ->
     cost_le (Step3.CO (st' !!! s)) (Step3.CO (st' !!! b)) = true) /\
  (Step3.CO (st' !!! s) = Inf \/
   exists b, (b ∈ P \/ (b ∈ q /\ B b)) /\
             Step3.CO (st' !!! s) = Step3.CO (st' !!! b)).
Proof.
  induction q as [| x q IH];
    intros st st' P H Hord Hvals Hs Hfrozen HP Hle Hmin.
  { cbn in H. injection H as <-. split.
    - intros b [Hb | [Hb _]]; [by apply Hle | by apply elem_of_nil in Hb].
    - destruct Hmin as [Hinf | (b & Hb & Heq)]; [by left |].
      right. exists b. auto. }
  cbn in H. option_bind H. rename l into st1.
  apply consumers_first_cons in Hord as (Hxself & Hlater & Hord).
  apply Forall_cons in Hvals as [Hx Hvals].
  assert (HPs : forall b, b ∈ P -> b <> s).
  { intros b Hb ->. apply Hs_self. by apply HP. }
  destruct (decide (B x)) as [HBx | HBx].
  - (* [x] is a branch of [s] *)
    assert (Hxc : x ∈ consumers c s)
      by (unfold consumers; by apply list_elem_of_filter).
    destruct (Hbranches x Hxc) as (Hk & Hin & Hc).
    assert (Hxs : x <> s) by (intros ->; by apply Hs_self).
    destruct (branch_step c x s st st1 Hk Hc Hin Hxs Hs E)
      as (Hlen & HCOs & Hother).
    destruct (IH st1 st' (x :: P) H Hord Hvals) as [Hle' Hmin'].
    + lia.
    + intros z b Hz [-> | Hb]%elem_of_cons.
      * destruct (Hlater z Hz) as [A1 A2]. split; [congruence | done].
      * apply Hfrozen; [by right | done].
    + intros b [-> | Hb]%elem_of_cons; [done | by apply HP].
    + intros b [-> | Hb]%elem_of_cons.
      * rewrite HCOs. apply cost_min_le_r.
      * rewrite HCOs, (Hother b); [| by apply HPs |].
        -- eapply cost_le_trans; [apply cost_min_le_l | by apply Hle].
        -- apply (Hfrozen x b); [by left | done].
    + rewrite HCOs.
      destruct (cost_min_cases (Step3.CO (st !!! s)) (Step3.CO (st1 !!! x)))
        as [-> | ->].
      * destruct Hmin as [Hinf | (b & Hb & Heq)]; [by left |].
        right. exists b. split; [by right |].
        rewrite (Hother b); [done | by apply HPs |].
        apply (Hfrozen x b); [by left | done].
      * right. exists x. split; [by left | done].
    + split.
      * intros b [Hb | [Hb Hbb]]; apply Hle'.
        -- left. by right.
        -- apply elem_of_cons in Hb as [-> | Hb]; [left; by left | by right].
      * destruct Hmin' as [Hinf | (b & Hb & Heq)]; [by left |]. right.
        exists b. split; [| done].
        destruct Hb as [[-> | Hb]%elem_of_cons | [Hb Hbb]].
        -- right. split; [by left | done].
        -- by left.
        -- right. split; [by right | done].
  - (* [x] does not consume [s] *)
    destruct (backward_step_frame _ _ _ _ E) as [Hlen Hframe].
    assert (HCOs : Step3.CO (st1 !!! s) = Step3.CO (st !!! s)).
    { destruct (decide (s = x)) as [<- | Hne].
      - by eapply self_step_keeps_CO.
      - destruct (Hframe s) as (_ & _ & HCO). apply HCO.
        intros [-> | [Hin | (-> & _)]]; done. }
    assert (HCOb : forall b, b ∈ P ->
              Step3.CO (st1 !!! b) = Step3.CO (st !!! b)).
    { intros b Hb. destruct (Hfrozen x b) as [A1 A2]; [by left | done |].
      destruct (Hframe b) as (_ & _ & HCO). apply HCO.
      intros [-> | [Hin | (-> & _)]]; done. }
    destruct (IH st1 st' P H Hord Hvals) as [Hle' Hmin'].
    + lia.
    + intros z b Hz Hb. apply Hfrozen; [by right | done].
    + done.
    + intros b Hb. rewrite HCOs, HCOb by done. by apply Hle.
    + rewrite HCOs. destruct Hmin as [Hinf | (b & Hb & Heq)]; [by left |].
      right. exists b. split; [done |]. by rewrite HCOb.
    + split.
      * intros b [Hb | [Hb Hbb]]; apply Hle'; [by left |].
        apply elem_of_cons in Hb as [-> | Hb]; [done | by right].
      * destruct Hmin' as [Hinf | (b & Hb & Heq)]; [by left |]. right.
        exists b. split; [| done].
        destruct Hb as [Hb | [Hb Hbb]]; [by left |].
        right. split; [by right | done].
Qed.

End StemMinimum.

Lemma consumers_first_self c l x :
  consumers_first c l = true -> x ∈ l -> x ∉ inputs (Step3.gate_of c x).
Proof.
  induction l as [| y l IH]; intros H Hx; [by apply elem_of_nil in Hx |].
  apply consumers_first_cons in H as (Hy & _ & Hl).
  apply elem_of_cons in Hx as [-> | Hx]; auto.
Qed.

Lemma forward_loop_CO c l st st1 :
  Step3.for_each (Step3.forward_step c) l st = Some st1 ->
  length st1 = length st /\
  forall y, Step3.CO (st1 !!! y) = Step3.CO (st !!! y).
Proof.
  apply (for_each_inv
           (fun s1 => length s1 = length st /\
                      forall y, Step3.CO (s1 !!! y) = Step3.CO (st !!! y))
           (fun _ => True)); [| by apply Forall_forall | done].
  intros x s1 s2 _ [HL HCO] Hb.
  destruct (forward_step_frame _ _ _ _ Hb) as [[HL' Hframe] _].
  split; [congruence |]. intros y. destruct (Hframe y) as [A _].
  by rewrite A.
Qed.



(** ** The two simulators on a netlist without delays *)

(** C9 as stated fails on a vector that carries Z: with inputs Z and 1 the
    and gate settles at Z in the event-driven simulator and at U in the
    zero-delay evaluator. *)
Lemma C9_Z_input_disagrees :
  netlist_ok and_netlist = true /\
  zero_delay and_netlist = true /\
  (exists st,
     Step2.run_simulation_for_vectors 10 and_netlist [(0, vector_Z1)]
       (Step2.initial_state and_netlist) = Some st /\
     Step2.outs st = [LZ; L1; LZ]) /\
  Step1.simulate_vector and_netlist vector_Z1
    (Step1.initial_outputs and_netlist) = [LZ; L1; LU].
Proof.
  split; [reflexivity |]. split; [reflexivity |]. split.
  - eexists. split; vm_compute; reflexivity.
  - vm_compute. reflexivity.
Qed.

Lemma netlist_ok_from_spec gs : forall k,
  netlist_ok_from k gs = true ->
  forall j g, gs !! j = Some g ->
    Forall (fun i => (i < k + j)%nat) (inputs g) /\
    (gate_type g <> Kinpt -> inputs g <> []).
Proof.
  induction gs as [| g0 gs IH]; intros k H j g Hj; [done |].
  cbn in H. apply andb_true_iff in H as [H Hrest].
  apply andb_true_iff in H as [Hin Hne].
  destruct j as [| j]; cbn in Hj.
  - injection Hj as <-. split.
    + apply Forall_forall. intros i Hi. apply list_elem_of_In in Hi.
      pose proof (proj1 (forallb_forall _ _) Hin i Hi) as Hlt.
      apply bool_decide_eq_true in Hlt. lia.
    + intros Hk. apply orb_true_iff in Hne as [Hne | Hne].
      * by apply bool_decide_eq_true in Hne.
      * by apply negb_true_iff, bool_decide_eq_false in Hne.
  - destruct (IH (S k) Hrest j g Hj) as [Hf Hn]. split; [| done].
    eapply Forall_impl; [exact Hf |]. cbn. intros; lia.
Qed.

Lemma netlist_ok_spec gates :
  netlist_ok gates = true ->
  forall r g, gates !! r = Some g ->
    Forall (fun i => (i < r)%nat) (inputs g) /\
    (gate_type g <> Kinpt -> inputs g <> []).
Proof. intros H r g Hr. by apply (netlist_ok_from_spec gates 0 H r g). Qed.

Lemma zero_delay_spec gates r g :
  zero_delay gates = true -> gates !! r = Some g -> delay g = 0.
Proof.
  intros H Hr. apply list_elem_of_lookup_2, list_elem_of_In in Hr.
  pose proof (proj1 (forallb_forall _ _) H g Hr) as Hd.
  by apply bool_decide_eq_true in Hd.
Qed.

(** The two evaluators agree on inputs without Z, and produce no Z from
    them. *)
Lemma eval_agree k ins :
  LZ ∉ ins -> Step1.eval_kind k ins = Step2.eval_kind k ins.
Proof.
  intros HZ. apply py_in_false in HZ.
  unfold Step1.eval_kind, Step2.eval_kind. cbv zeta. rewrite HZ.
  destruct k; try reflexivity.
  - by destruct (py_in L0 _), (py_in LU ins).
  - by destruct (py_in L1 _), (py_in LU ins).
  - by destruct (py_in L1 _), (py_in LU ins).
  - destruct ins as [| v ins]; [done |]. by destruct v.
  - destruct ins as [| v ins]; [done |]. by destruct v.
Qed.

Lemma eval_no_Z k ins : LZ ∉ ins -> Step2.eval_kind k ins <> LZ.
Proof.
  intros HZ. pose proof HZ as HZ'. apply py_in_false in HZ'.
  unfold Step2.eval_kind. cbv zeta. rewrite HZ'.
  destruct k; try done.
  - by destruct (py_in L0 _), (py_in LU ins).
  - by destruct (py_in L1 _), (py_in LU ins).
  - by destruct (py_in L0 _), (py_in LU ins).
  - by destruct (py_in L1 _), (py_in LU ins).
  - destruct (py_in LU ins); cbn; [done |]. unfold str_bit. by case_decide.
  - destruct (py_in LU ins); cbn; [done |]. by case_decide.
  - destruct ins as [| v ins]; [done |]. by destruct v.
  - destruct ins as [| v ins]; [done |].
    apply not_elem_of_cons in HZ as [Hv _]. by destruct v.
  - destruct ins as [| v ins]; [done |].
    apply not_elem_of_cons in HZ as [Hv _]. by destruct v.
Qed.

Lemma eval_all_U k ins :
  ins <> [] -> Forall (fun v => v = LU) ins -> Step2.eval_kind k ins = LU.
Proof.
  intros Hne HU. destruct ins as [| v ins]; [done |].
  apply Forall_cons in HU as [-> HU].
  assert (H0 : py_in L0 (filter (fun v => is_binary v = true) (LU :: ins))
               = false).
  { apply py_in_false.
    intros [Hb [Heq | Hin]%elem_of_cons]%list_elem_of_filter; [done |].
    pose proof (proj1 (Forall_forall _ _) HU _ Hin). done. }
  assert (H1 : py_in L1 (filter (fun v => is_binary v = true) (LU :: ins))
               = false).
  { apply py_in_false.
    intros [Hb [Heq | Hin]%elem_of_cons]%list_elem_of_filter; [done |].
    pose proof (proj1 (Forall_forall _ _) HU _ Hin). done. }
  assert (HUin : py_in LU (LU :: ins) = true)
    by (apply py_in_true; by left).
  unfold Step2.eval_kind. cbv zeta. rewrite H0, H1, HUin. by destruct k.
Qed.

(** *** The zero-delay pass *)

Lemma set_inputs_spec vec gs : forall k outs,
  let res := Step1.set_inputs vec k gs outs in
  length res = length outs /\
  (forall r, (r < k \/ k + length gs <= r)%nat -> res !!! r = outs !!! r) /\
  (forall j g, gs !! j = Some g -> (k + j < length outs)%nat ->
     res !!! (k + j)%nat =
       if decide (gate_type g = Kinpt)
       then default LU (vec !! address g) else outs !!! (k + j)%nat).
Proof.
  induction gs as [| g0 gs IH]; intros k outs; cbn.
  { split; [done |]. split; [done |]. intros j g Hj. done. }
  set (outs1 := if decide (gate_type g0 = Kinpt)
                then <[k := default LU (vec !! address g0)]> outs
                else outs).
  assert (Hlen1 : length outs1 = length outs).
  { unfold outs1. case_decide; [apply length_insert | done]. }
  assert (Hne : forall r, r <> k -> outs1 !!! r = outs !!! r).
  { intros r Hr. unfold outs1. case_decide; [| done].
    by rewrite list_lookup_total_insert_ne. }
  destruct (IH (S k) outs1) as (HL & Hframe & Hat).
  split; [congruence |]. split.
  - intros r Hr. rewrite Hframe by lia. apply Hne. lia.
  - intros j g Hj Hlt. destruct j as [| j]; cbn in Hj.
    + injection Hj as <-. rewrite Nat.add_0_r in *.
      rewrite Hframe by lia. unfold outs1. case_decide; [| done].
      by rewrite list_lookup_total_insert_eq.
    + replace (k + S j)%nat with (S k + j)%nat by lia.
      rewrite (Hat j g Hj) by lia. case_decide; [done |]. apply Hne. lia.
Qed.

Lemma map_lookup_ext (f1 f2 : nat -> Logic) (ins : list nat) (bound : nat) :
  Forall (fun i => (i < bound)%nat) ins ->
  (forall i, (i < bound)%nat -> f1 i = f2 i) ->
  map f1 ins = map f2 ins.
Proof.
  intros Hb Heq. apply map_ext_in. intros i Hi.
  apply Heq. apply list_elem_of_In in Hi.
  by apply (proj1 (Forall_forall _ _) Hb).
Qed.

Lemma evaluate_all_spec gs : forall k outs,
  (forall j g, gs !! j = Some g ->
     Forall (fun i => (i < k + j)%nat) (inputs g)) ->
  (k + length gs <= length outs)%nat ->
  let res := Step1.evaluate_all k gs outs in
  length res = length outs /\
  (forall r, (r < k \/ k + length gs <= r)%nat -> res !!! r = outs !!! r) /\
  (forall j g, gs !! j = Some g ->
     res !!! (k + j)%nat =
       if decide (gate_type g = Kinpt) then outs !!! (k + j)%nat
       else Step1.eval_kind (gate_type g)
              (map (fun i => res !!! i) (inputs g))).
Proof.
  induction gs as [| g0 gs IH]; intros k outs Htopo Hlen; cbn.
  { split; [done |]. split; [done |]. intros j g Hj. done. }
  cbn in Hlen.
  set (outs1 := Step1.evaluate outs k g0).
  assert (Hlen1 : length outs1 = length outs).
  { unfold outs1, Step1.evaluate.
    destruct (gate_type g0); try apply length_insert; done. }
  assert (Hne : forall r, r <> k -> outs1 !!! r = outs !!! r).
  { intros r Hr. unfold outs1, Step1.evaluate.
    destruct (gate_type g0); try (by rewrite list_lookup_total_insert_ne);
      done. }
  destruct (IH (S k) outs1) as (HL & Hframe & Hat).
  { intros j g Hj. specialize (Htopo (S j) g Hj).
    eapply Forall_impl; [exact Htopo |]. cbn. intros; lia. }
  { lia. }
  split; [congruence |]. split.
  - intros r Hr. rewrite Hframe by lia. apply Hne. lia.
  - intros j g Hj. destruct j as [| j]; cbn in Hj.
    + injection Hj as <-. rewrite Nat.add_0_r in *.
      rewrite Hframe by lia.
      pose proof (Htopo 0%nat g0 eq_refl) as Hin.
      rewrite Nat.add_0_r in Hin.
      assert (Hmap : map (fun i => Step1.evaluate_all (S k) gs outs1 !!! i)
                       (inputs g0)
                     = map (fun i => outs !!! i) (inputs g0)).
      { apply (map_lookup_ext _ _ _ k Hin). intros i Hi.
        rewrite Hframe by lia. apply Hne. lia. }
      rewrite Hmap. unfold outs1, Step1.evaluate, Step1.input_values.
      case_decide as Hk.
      * by rewrite Hk.
      * destruct (gate_type g0); try done;
          by rewrite list_lookup_total_insert_eq by lia.
    + replace (k + S j)%nat with (S k + j)%nat by lia.
      rewrite (Hat j g Hj). case_decide; [| done]. apply Hne. lia.
Qed.

(** The zero-delay pass on a netlist declared inputs-first: a primary
    input holds its value from the vector, every other gate the value its
    kind gives on the outputs of its inputs. *)
Lemma simulate_vector_spec gates vec outs :
  netlist_ok gates = true -> length outs = length gates ->
  let res := Step1.simulate_vector gates vec outs in
  length res = length gates /\
  forall r g, gates !! r = Some g ->
    res !!! r =
      if decide (gate_type g = Kinpt) then default LU (vec !! address g)
      else Step1.eval_kind (gate_type g)
             (map (fun i => res !!! i) (inputs g)).
Proof.
  intros Hok Hlen. unfold Step1.simulate_vector.
  destruct (set_inputs_spec vec gates 0 outs) as (HL0 & _ & Hat0).
  destruct (evaluate_all_spec gates 0 (Step1.set_inputs vec 0 gates outs))
    as (HL1 & _ & Hat1).
  { intros j g Hj. by destruct (netlist_ok_spec gates Hok j g Hj). }
  { cbn. lia. }
  cbn. split; [congruence |]. intros r g Hr.
  specialize (Hat1 r g Hr). cbn in Hat1. rewrite Hat1.
  case_decide as Hk; [| done].
  specialize (Hat0 r g Hr). cbn in Hat0. rewrite Hat0.
  - by rewrite decide_True.
  - apply lookup_lt_Some in Hr. lia.
Qed.

(** *** The event-driven simulator: its elementary steps *)

Lemma heappush_perm {A} (le : A -> A -> bool) x q :
  Step2.heappush le x q ≡ₚ x :: q.
Proof.
  induction q as [| y q IH]; cbn; [done |].
  destruct (le x y); [done |]. rewrite IH. apply Permutation_swap.
Qed.

Lemma evaluate_outs r g t st :
  Step2.outs (Step2.evaluate r g t st) = Step2.outs st.
Proof. unfold Step2.evaluate. by destruct (gate_type g). Qed.

Lemma evaluate_queue r g t st :
  Step2.timing_queue (Step2.evaluate r g t st) = Step2.timing_queue st.
Proof. unfold Step2.evaluate. by destruct (gate_type g). Qed.

Lemma evaluate_length r g t st :
  length (Step2.scheduled_events (Step2.evaluate r g t st))
  = length (Step2.scheduled_events st).
Proof.
  unfold Step2.evaluate. destruct (gate_type g); cbn;
    by rewrite ?length_insert.
Qed.

Lemma evaluate_pending_ne r g t st r' :
  r' <> r -> pending (Step2.evaluate r g t st) r' = pending st r'.
Proof.
  intros Hne. unfold pending, Step2.evaluate. destruct (gate_type g); cbn;
    by rewrite ?list_lookup_total_insert_ne.
Qed.

Lemma evaluate_pending_eq r g t st :
  (r < length (Step2.scheduled_events st))%nat ->
  pending (Step2.evaluate r g t st) r =
    if decide (gate_type g = Kinpt) then pending st r
    else Step2.heappush Step2.event_le
           (t + delay g, eval2 (Step2.outs st) g)
           (filter (fun e : Step2.Event => e.1 <> t + delay g)
                   (pending st r)).
Proof.
  intros Hr. unfold pending, Step2.evaluate, eval2, Step2.input_values.
  destruct (gate_type g); cbn;
    by rewrite ?list_lookup_total_insert_eq.
Qed.

(** Induction over the loop of [schedule_fanouts]. *)
Lemma schedule_fanouts_ind (P : nat -> Step2.State -> Prop) x t gs :
  forall k st,
  P k st ->
  (forall j g s, gs !! j = Some g -> P (k + j)%nat s ->
     P (S (k + j))
       (if py_in x (inputs g)
        then Step2.push_timing (t + delay g, address g, (k + j)%nat)
               (Step2.evaluate (k + j) g t s)
        else s)) ->
  P (k + length gs)%nat (Step2.schedule_fanouts x t k gs st).
Proof.
  induction gs as [| g gs IH]; intros k st H0 Hstep; cbn.
  { by rewrite Nat.add_0_r. }
  replace (k + S (length gs))%nat with (S k + length gs)%nat by lia.
  apply IH.
  - specialize (Hstep 0%nat g st eq_refl). rewrite Nat.add_0_r in Hstep.
    by apply Hstep.
  - intros j g' s Hj Hs. specialize (Hstep (S j) g' s Hj).
    replace (k + S j)%nat with (S k + j)%nat in Hstep by lia. by apply Hstep.
Qed.

(** Induction over the loop of [apply_vector]. *)
Lemma apply_vector_ind (P : nat -> Step2.State -> Prop) gates vec t gs :
  forall k st,
  P k st ->
  (forall j g s, gs !! j = Some g -> P (k + j)%nat s ->
     P (S (k + j))
       (match (if decide (gate_type g = Kinpt)
               then vec !! address g else None) with
        | Some v =>
            if decide (Step2.outs s !!! (k + j)%nat <> v)
            then Step2.schedule_fanouts (k + j) t 0 gates
                   (Step2.set_output (k + j) v s)
            else s
        | None => s
        end)) ->
  P (k + length gs)%nat (Step2.apply_vector gates vec t k gs st).
Proof.
  induction gs as [| g gs IH]; intros k st H0 Hstep; cbn.
  { by rewrite Nat.add_0_r. }
  replace (k + S (length gs))%nat with (S k + length gs)%nat by lia.
  apply IH.
  - specialize (Hstep 0%nat g st eq_refl). rewrite Nat.add_0_r in Hstep.
    by apply Hstep.
  - intros j g' s Hj Hs. specialize (Hstep (S j) g' s Hj).
    replace (k + S j)%nat with (S k + j)%nat in Hstep by lia. by apply Hstep.
Qed.

(** *** The event-driven simulator without delays *)

(** Two tests of the same conjunction, at neighbouring indices, that
    disagree. *)
Ltac decide_clash :=
  match goal with
  | Hpos : (_ < _)%nat /\ _ /\ _, Hneg : ~ _ |- _ =>
      destruct Hpos as (? & ? & ?); apply Hneg;
      split; [lia | split; assumption]
  end.

Section ZeroDelay.
Variable gates : list Gate.
Variable t : Z.
Hypothesis Hok : netlist_ok gates = true.
Hypothesis Hzero : zero_delay gates = true.

Let n := length gates.

Lemma weight_entry r : weight n (entry_of gates t r) = (2 ^ (n - r))%nat.
Proof. reflexivity. Qed.

Lemma consumer_later x r :
  (r < n)%nat -> consumes gates x r -> (x < r)%nat.
Proof.
  intros Hr Hc. unfold consumes in Hc.
  destruct (lookup_lt_is_Some_2 gates r Hr) as [g Hg].
  rewrite (list_lookup_total_correct _ _ _ Hg) in Hc.
  destruct (netlist_ok_spec gates Hok r g Hg) as [Hin _].
  by apply (proj1 (Forall_forall _ _) Hin).
Qed.

Lemma consumers_weight x idx :
  (idx <= n)%nat ->
  (sum_list_with (weight n)
     (entry_of gates t <$> filter (consumes gates x) (seq 0 idx))
   + 2 * 2 ^ (n - Nat.max idx (S x)) <= 2 * 2 ^ (n - S x))%nat.
Proof.
  induction idx as [| idx IH]; intros Hidx.
  { cbn [seq filter fmap list_fmap sum_list_with].
    rewrite filter_nil. cbn. lia. }
  specialize (IH ltac:(lia)).
  rewrite seq_S, filter_app, fmap_app, sum_list_with_app. cbn [Nat.add].
  rewrite filter_cons, filter_nil.
  destruct (decide (consumes gates x idx)) as [Hc | Hc].
  - pose proof (consumer_later x idx ltac:(lia) Hc) as Hlt.
    cbn [fmap list_fmap sum_list_with]. rewrite weight_entry.
    rewrite Nat.max_l in IH by lia. rewrite Nat.max_l by lia.
    replace (n - idx)%nat with (S (n - S idx)) in * by lia.
    rewrite Nat.pow_succ_r' in *. lia.
  - cbn [fmap list_fmap sum_list_with].
    destruct (decide (idx <= x)%nat) as [Hle | Hgt].
    + rewrite Nat.max_r in IH by lia. rewrite Nat.max_r by lia. lia.
    + rewrite Nat.max_l in IH by lia. rewrite Nat.max_l by lia.
      replace (n - idx)%nat with (S (n - S idx)) in * by lia.
      rewrite Nat.pow_succ_r' in *. lia.
Qed.

Lemma eval2_insert_ne outs x v g :
  x ∉ inputs g -> eval2 (<[x := v]> outs) g = eval2 outs g.
Proof.
  intros Hx. unfold eval2. f_equal. apply map_ext_in. intros i Hi.
  apply list_lookup_total_insert_ne. intros ->. apply Hx.
  by apply list_elem_of_In.
Qed.

Lemma gate_delay r g : gates !! r = Some g -> delay g = 0.
Proof. intros Hr. by eapply zero_delay_spec. Qed.

Lemma pending_beyond st r :
  length (Step2.scheduled_events st) = n -> (n <= r)%nat -> pending st r = [].
Proof.
  intros HL Hr. unfold pending. rewrite list_lookup_total_alt.
  rewrite lookup_ge_None_2; [done | lia].
Qed.

(** After the output of gate [x] has changed, [schedule_fanouts] brings
    every gate that consumes [x] up to date; the entries it adds weigh less
    than one entry for [x]. *)
Lemma reschedule x st :
  (x < n)%nat ->
  settled_except gates t (consumes gates x) st ->
  settled gates t (Step2.schedule_fanouts x t 0 gates st) /\
  Step2.outs (Step2.schedule_fanouts x t 0 gates st) = Step2.outs st /\
  (queue_weight n
     (Step2.timing_queue (Step2.schedule_fanouts x t 0 gates st)) + 2
   <= queue_weight n (Step2.timing_queue st) + 2 * 2 ^ (n - S x))%nat.
Proof.
  intros Hx (HLo & HLs & H1 & H2 & H3 & H4).
  pose (P := fun (idx : nat) (s : Step2.State) =>
    Step2.outs s = Step2.outs st /\
    length (Step2.scheduled_events s) = n /\
    (forall r g, gates !! r = Some g ->
       pending s r =
         if decide ((r < idx)%nat /\ x ∈ inputs g /\ gate_type g <> Kinpt)
         then [(t, eval2 (Step2.outs st) g)] else pending st r) /\
    Step2.timing_queue s ≡ₚ
      (entry_of gates t <$> filter (consumes gates x) (seq 0 idx))
      ++ Step2.timing_queue st).
  assert (HP : P (0 + length gates)%nat
                 (Step2.schedule_fanouts x t 0 gates st)).
  { apply schedule_fanouts_ind.
    - split; [done |]. split; [done |]. split; [| done].
      intros r g Hr. rewrite decide_False; [done | intros [? _]; lia].
    - intros j g s Hj (Ho & Hl & Hp & Hq). cbn [Nat.add].
      pose proof (list_lookup_total_correct _ _ _ Hj) as Hgj.
      pose proof (lookup_lt_Some _ _ _ Hj) as Hjn.
      destruct (py_in x (inputs g)) eqn:Hin.
      + apply py_in_true in Hin.
        split; [cbn; by rewrite evaluate_outs |].
        split; [cbn; by rewrite evaluate_length |].
        split.
        * intros r gr Hr.
          change (pending (Step2.push_timing _ ?s0) r) with (pending s0 r).
          destruct (decide (r = j)) as [-> | Hne].
          -- assert (gr = g) as -> by congruence.
             rewrite evaluate_pending_eq by (rewrite Hl; exact Hjn).
             assert (Hpj : pending s j = pending st j).
             { rewrite (Hp j g Hj). apply decide_False. intros [? _]. lia. }
             rewrite Hpj. clear Hpj.
             destruct (decide (gate_type g = Kinpt)) as [Hk | Hk].
             ++ rewrite decide_False; [done | tauto].
             ++ rewrite decide_True by (split; [lia | done]).
                rewrite (gate_delay j g Hj), Z.add_0_r, Ho.
                destruct (H1 j g Hj) as [-> | (_ & v & -> & _)].
                ** by rewrite filter_nil.
                ** rewrite filter_cons, filter_nil.
                   rewrite decide_False; [done |]. cbn. tauto.
          -- rewrite evaluate_pending_ne by done. rewrite (Hp r gr Hr).
             repeat case_decide; try done; exfalso; decide_clash.
        * unfold Step2.push_timing. cbn [Step2.timing_queue].
          rewrite heappush_perm, evaluate_queue, Hq.
          rewrite seq_S, filter_app, filter_cons, filter_nil. cbn [Nat.add].
          rewrite decide_True by (unfold consumes; by rewrite Hgj).
          rewrite fmap_app. cbn [fmap list_fmap].
          unfold entry_of at 3. rewrite Hgj.
          rewrite <- app_assoc. cbn. apply Permutation_middle.
      + apply py_in_false in Hin.
        split; [done |]. split; [done |]. split.
        * intros r gr Hr. rewrite (Hp r gr Hr).
          destruct (decide (r = j)) as [-> | Hne].
          -- assert (gr = g) as -> by congruence.
             rewrite !decide_False; [done | tauto | intros [? _]; lia].
          -- repeat case_decide; try done; exfalso; decide_clash.
        * rewrite Hq, seq_S, filter_app, filter_cons, filter_nil.
          cbn [Nat.add].
          rewrite decide_False by (unfold consumes; by rewrite Hgj).
          by rewrite app_nil_r. }
  cbn [Nat.add] in HP. fold n in HP.
  set (st' := Step2.schedule_fanouts x t 0 gates st) in *.
  destruct HP as (Ho & Hl & Hp & Hq).
  assert (Hnot : forall r g, gates !! r = Some g ->
            ~ ((r < n)%nat /\ x ∈ inputs g /\ gate_type g <> Kinpt) ->
            gate_type g <> Kinpt -> ~ consumes gates x r).
  { intros r g Hr Hd Hk Hc. apply Hd. split; [by eapply lookup_lt_Some |].
    split; [| done]. unfold consumes in Hc.
    by rewrite (list_lookup_total_correct _ _ _ Hr) in Hc. }
  split; [| split; [done |]].
  - split; [congruence |]. split; [done |]. split; [| split; [| split]].
    + intros r g Hr. rewrite (Hp r g Hr). case_decide as Hd.
      * right. split; [tauto |]. exists (eval2 (Step2.outs st) g).
        split; [done |]. intros _. by rewrite Ho.
      * destruct (H1 r g Hr) as [Hnil | (Hk & v & Hv & Hval)]; [by left |].
        right. split; [done |]. exists v. split; [done |]. intros _.
        rewrite Ho. apply Hval. by eapply Hnot.
    + intros r g Hr Hpend Hk _. rewrite (Hp r g Hr) in Hpend.
      case_decide as Hd; [done |]. rewrite Ho.
      apply (H2 r g Hr Hpend Hk). by eapply Hnot.
    + intros r Hne. destruct (gates !! r) as [g |] eqn:Hr.
      * rewrite (Hp r g Hr) in Hne. case_decide as Hd.
        -- exists (entry_of gates t r). split; [| done].
           rewrite Hq. apply elem_of_app. left.
           apply list_elem_of_fmap. exists r. split; [done |].
           apply list_elem_of_filter. split.
           ++ unfold consumes.
              rewrite (list_lookup_total_correct _ _ _ Hr). tauto.
           ++ apply elem_of_seq. lia.
        -- destruct (H3 r Hne) as (e & He & Her). exists e.
           split; [| done]. rewrite Hq. apply elem_of_app. by right.
      * exfalso. apply Hne. apply pending_beyond; [done |].
        by apply lookup_ge_None_1.
    + intros e He. rewrite Hq in He.
      apply elem_of_app in He as [He | He]; [| by apply H4].
      apply list_elem_of_fmap in He as (r & -> & Hr).
      apply list_elem_of_filter in Hr as [_ Hr]. apply elem_of_seq in Hr.
      destruct (lookup_lt_is_Some_2 gates r ltac:(fold n; lia)) as [g Hg].
      cbn. rewrite (list_lookup_total_correct _ _ _ Hg).
      rewrite (gate_delay r g Hg). split; [lia |]. fold n. lia.
  - unfold queue_weight. rewrite Hq, sum_list_with_app.
    pose proof (consumers_weight x n ltac:(lia)) as Hw.
    rewrite Nat.max_l in Hw by lia. rewrite Nat.sub_diag in Hw.
    cbn in Hw. fold n. lia.
Qed.

Lemma no_self_input x gx : gates !! x = Some gx -> x ∉ inputs gx.
Proof.
  intros Hx Hin. destruct (netlist_ok_spec gates Hok x gx Hx) as [Hlt _].
  pose proof (proj1 (Forall_forall _ _) Hlt x Hin) as Hxx. cbn in Hxx. lia.
Qed.

(** Once the output of gate [x] has been written and its own event
    removed, only the gates that consume [x] can be out of date. *)
Lemma stale_after_write st st_u x gx :
  settled gates t st ->
  gates !! x = Some gx ->
  (Step2.outs st_u = Step2.outs st \/
   exists v, Step2.outs st_u = <[x := v]> (Step2.outs st)) ->
  length (Step2.scheduled_events st_u) = n ->
  (forall r, pending st_u r = if decide (r = x) then [] else pending st r) ->
  (gate_type gx <> Kinpt ->
   Step2.outs st_u !!! x = eval2 (Step2.outs st) gx) ->
  (forall e, e ∈ Step2.timing_queue st_u -> e ∈ Step2.timing_queue st) ->
  (forall e, e ∈ Step2.timing_queue st -> e.2 <> x ->
     e ∈ Step2.timing_queue st_u) ->
  settled_except gates t (consumes gates x) st_u.
Proof.
  intros (HLo & HLs & H1 & H2 & H3 & H4) Hx Houts Hlen Hpend Hself Hsub Hsup.
  assert (Hframe : forall r, r <> x ->
            Step2.outs st_u !!! r = Step2.outs st !!! r).
  { intros r Hr. destruct Houts as [-> | [v ->]]; [done |].
    by rewrite list_lookup_total_insert_ne. }
  assert (Heval : forall g, x ∉ inputs g ->
            eval2 (Step2.outs st_u) g = eval2 (Step2.outs st) g).
  { intros g Hg. destruct Houts as [-> | [v ->]]; [done |].
    by apply eval2_insert_ne. }
  assert (Hcons : forall r g, gates !! r = Some g ->
            ~ consumes gates x r -> x ∉ inputs g).
  { intros r g Hr Hc. unfold consumes in Hc.
    by rewrite (list_lookup_total_correct _ _ _ Hr) in Hc. }
  split; [| split; [done |]; split; [| split; [| split]]].
  - destruct Houts as [-> | [v ->]]; [done | by rewrite length_insert].
  - intros r g Hr. rewrite Hpend. case_decide as Hrx; [by left |].
    destruct (H1 r g Hr) as [Hnil | (Hk & v & Hv & Hval)]; [by left |].
    right. split; [done |]. exists v. split; [done |]. intros Hc.
    rewrite Heval by eauto. apply Hval. intros [].
  - intros r g Hr Hp Hk Hc. rewrite Hpend in Hp.
    rewrite Heval by eauto. case_decide as Hrx.
    + subst r. assert (g = gx) as -> by congruence. by apply Hself.
    + rewrite Hframe by done. apply H2; try done. intros [].
  - intros r Hne. rewrite Hpend in Hne. case_decide as Hrx; [done |].
    destruct (H3 r Hne) as (e & He & Her). exists e. split; [| done].
    apply Hsup; [done | congruence].
  - intros e He. by apply H4, Hsub.
Qed.

Lemma pow2_pos k : (1 <= 2 ^ k)%nat.
Proof. induction k; cbn; lia. Qed.

(** Handling the first entry of the timing queue keeps the state settled
    and lowers the weight of the queue; primary inputs keep their value. *)
Lemma process_event_settled st t' a x q :
  settled gates t st ->
  Step2.timing_queue st = (t', a, x) :: q ->
  let st2 := Step2.process_event gates t x (Step2.pop_timing st) in
  t' = t /\
  settled gates t st2 /\
  (queue_weight n (Step2.timing_queue st2)
   < queue_weight n (Step2.timing_queue st))%nat /\
  (forall r g, gates !! r = Some g -> gate_type g = Kinpt ->
     Step2.outs st2 !!! r = Step2.outs st !!! r).
Proof.
  intros Hst Htq.
  pose proof Hst as (HLo & HLs & H1 & H2 & H3 & H4).
  destruct (H4 (t', a, x)) as [Ht Hx]; [rewrite Htq; by left |].
  cbn in Ht, Hx. subst t'. fold n in Hx.
  destruct (lookup_lt_is_Some_2 gates x Hx) as [gx Hgx].
  set (st_u := Step2.update_output x t (Step2.pop_timing st)).
  assert (Hu : ((pending st x = [] /\ Step2.outs st_u = Step2.outs st) \/
                (exists v, gate_type gx <> Kinpt /\
                           v = eval2 (Step2.outs st) gx /\
                           Step2.outs st_u = <[x := v]> (Step2.outs st))) /\
               Step2.scheduled_events st_u
               = <[x := []]> (Step2.scheduled_events st) /\
               Step2.timing_queue st_u = q).
  { unfold st_u, Step2.update_output, Step2.pop_timing.
    cbn [Step2.scheduled_events Step2.outs Step2.timing_queue].
    rewrite Htq. cbn [tail].
    destruct (H1 x gx Hgx) as [Hnil | (Hk & v & Hv & Hval)].
    - unfold pending in Hnil. rewrite Hnil. cbn. split; [| done].
      left. by split.
    - unfold pending in Hv. rewrite Hv. cbn. rewrite decide_True by lia.
      cbn. split; [| done]. right. exists v.
      split; [done |]. split; [apply Hval; intros [] | done]. }
  destruct Hu as (Houts & Hsched & Hq).
  assert (Hstale : settled_except gates t (consumes gates x) st_u).
  { apply (stale_after_write st st_u x gx); try done.
    - destruct Houts as [[_ ->] | (v & _ & _ & ->)]; eauto.
    - by rewrite Hsched, length_insert.
    - intros r. unfold pending. rewrite Hsched.
      rewrite list_lookup_total_insert. fold n in HLs.
      repeat case_decide; try done; exfalso; intuition lia.
    - intros Hk. destruct Houts as [[Hnil ->] | (v & _ & -> & ->)].
      + apply H2; try done. intros [].
      + rewrite list_lookup_total_insert_eq; [done |]. rewrite HLo. exact Hx.
    - intros e He. rewrite Hq in He. rewrite Htq. by right.
    - intros e He Hne. rewrite Hq. rewrite Htq in He.
      apply elem_of_cons in He as [-> | He]; done. }
  destruct (reschedule x st_u Hx Hstale) as (Hset & Ho & Hw).
  split; [done |]. split; [exact Hset |]. split.
  - unfold Step2.process_event. fold st_u. rewrite Hq in Hw.
    rewrite Htq. unfold queue_weight at 2. cbn [sum_list_with].
    fold (queue_weight n q). unfold weight at 1. cbn [snd].
    replace (n - x)%nat with (S (n - S x)) by lia.
    rewrite Nat.pow_succ_r'. lia.
  - intros r g Hr Hk. unfold Step2.process_event. fold st_u. rewrite Ho.
    destruct Houts as [[_ ->] | (v & Hkx & _ & ->)]; [done |].
    rewrite list_lookup_total_insert_ne; [done |]. intros ->.
    congruence.
Qed.

(** The loop that drains the queue ends, with enough fuel, in a settled
    state with an empty queue. *)
Lemma drain_settles m : forall st,
  settled gates t st ->
  (queue_weight n (Step2.timing_queue st) <= m)%nat ->
  exists st',
    Step2.drain (S m) gates t st = Some st' /\
    settled gates t st' /\
    Step2.timing_queue st' = [] /\
    (forall r g, gates !! r = Some g -> gate_type g = Kinpt ->
       Step2.outs st' !!! r = Step2.outs st !!! r).
Proof.
  induction m as [| m IH]; intros st Hst Hw.
  - destruct (Step2.timing_queue st) as [| e q] eqn:Htq.
    + exists st. cbn [Step2.drain]. rewrite Htq.
      split; [done | split; [exact Hst | split; [done |]]]. done.
    + exfalso. unfold queue_weight in Hw. cbn in Hw.
      pose proof (pow2_pos (n - e.2)). unfold weight in Hw. lia.
  - destruct (Step2.timing_queue st) as [| [[t' a] x] q] eqn:Htq.
    + exists st. cbn [Step2.drain]. rewrite Htq.
      split; [done | split; [exact Hst | split; [done |]]]. done.
    + destruct (process_event_settled st t' a x q Hst Htq)
        as (-> & Hst2 & Hlt & Hpi).
      rewrite Htq in Hlt.
      destruct (IH _ Hst2 ltac:(lia)) as (st' & Hd & Hst' & Hq' & Hpi').
      exists st'. split; [| split; [done | split; [done |]]].
      * cbn [Step2.drain]. rewrite Htq. rewrite decide_True by done.
        exact Hd.
      * intros r g Hr Hk. rewrite (Hpi' r g Hr Hk). exact (Hpi r g Hr Hk).
Qed.

Lemma replicate_lookup_total {A} `{Inhabited A} k (r : nat) (x : A) :
  x = inhabitant -> replicate k x !!! r = x.
Proof.
  intros Hx. rewrite list_lookup_total_alt.
  destruct (replicate k x !! r) as [y |] eqn:Hy; [| by rewrite Hx].
  by apply lookup_replicate in Hy as [-> _].
Qed.

Lemma initial_settled : settled gates t (Step2.initial_state gates).
Proof.
  unfold Step2.initial_state.
  split; [apply length_replicate |]. split; [apply length_replicate |].
  assert (Hpend : forall r,
            pending (Step2.mkState (replicate (length gates) LU)
                       (replicate (length gates) []) [] []) r = []).
  { intros r. unfold pending. cbn. by apply replicate_lookup_total. }
  split; [| split; [| split]].
  - intros r g Hr. left. apply Hpend.
  - intros r g Hr _ Hk _. cbn.
    rewrite replicate_lookup_total by done. symmetry.
    unfold eval2. apply eval_all_U.
    + destruct (netlist_ok_spec gates Hok r g Hr) as [_ Hne].
      intros Hnil. apply map_eq_nil in Hnil. by apply Hne.
    + apply Forall_forall. intros v Hv.
      apply list_elem_of_In, in_map_iff in Hv as (i & <- & _).
      by apply replicate_lookup_total.
  - intros r Hne. by rewrite Hpend in Hne.
  - intros e He. cbn in He. by apply elem_of_nil in He.
Qed.

(** Applying a test vector to a settled state leaves a settled state in
    which every primary input the vector names holds its value from the
    vector, and the others keep theirs. *)
Lemma apply_vector_settles vec st0 :
  settled gates t st0 ->
  let st1 := Step2.apply_vector gates vec t 0 gates st0 in
  settled gates t st1 /\
  forall r g, gates !! r = Some g -> gate_type g = Kinpt ->
    Step2.outs st1 !!! r
    = default (Step2.outs st0 !!! r) (vec !! address g).
Proof.
  intros Hst0.
  pose (P := fun (idx : nat) (s : Step2.State) =>
    settled gates t s /\
    forall r g, gates !! r = Some g -> gate_type g = Kinpt ->
      Step2.outs s !!! r =
        if decide (r < idx)%nat
        then default (Step2.outs st0 !!! r) (vec !! address g)
        else Step2.outs st0 !!! r).
  assert (HP : P (0 + length gates)%nat
                 (Step2.apply_vector gates vec t 0 gates st0)).
  { apply apply_vector_ind.
    - split; [exact Hst0 |]. intros r g Hr Hk. by rewrite decide_False by lia.
    - intros j g s Hj [Hs HK]. cbn [Nat.add].
      pose proof (lookup_lt_Some _ _ _ Hj) as Hjn.
      assert (Hother : forall r g', gates !! r = Some g' ->
                gate_type g' = Kinpt -> r <> j ->
                Step2.outs s !!! r =
                  if decide (r < S j)%nat
                  then default (Step2.outs st0 !!! r) (vec !! address g')
                  else Step2.outs st0 !!! r).
      { intros r g' Hr Hk Hne. rewrite (HK r g' Hr Hk).
        repeat case_decide; try done; lia. }
      case_decide as Hk; cycle 1.
      { split; [done |]. intros r g' Hr Hk'.
        destruct (decide (r = j)) as [-> | Hne]; [congruence |].
        by apply Hother. }
      destruct (vec !! address g) as [v |] eqn:Hv; cycle 1.
      { split; [done |]. intros r g' Hr Hk'.
        destruct (decide (r = j)) as [-> | Hne]; [| by apply Hother].
        assert (g' = g) as -> by congruence.
        rewrite decide_True by lia. rewrite Hv. cbn.
        rewrite (HK j g Hj Hk). by rewrite decide_False by lia. }
      case_decide as Hdiff; cycle 1.
      { split; [done |]. intros r g' Hr Hk'.
        destruct (decide (r = j)) as [-> | Hne]; [| by apply Hother].
        assert (g' = g) as -> by congruence.
        rewrite decide_True by lia. rewrite Hv. cbn.
        by destruct (decide (Step2.outs s !!! j = v)). }
      pose proof Hs as (HLo & HLs & H1 & H2 & H3 & H4).
      assert (Hstale : settled_except gates t (consumes gates j)
                         (Step2.set_output j v s)).
      { apply (stale_after_write s _ j g); try done.
        - right. by exists v.
        - intros r. change (pending (Step2.set_output j v s) r)
            with (pending s r).
          case_decide as Hrj; [| done]. subst r.
          by destruct (H1 j g Hj) as [Hnil | (Hk' & _)]. }
      destruct (reschedule j _ Hjn Hstale) as (Hset & Ho & _).
      split; [exact Hset |]. intros r g' Hr Hk'. rewrite Ho. cbn.
      destruct (decide (r = j)) as [-> | Hne].
      + assert (g' = g) as -> by congruence.
        rewrite decide_True by lia. rewrite Hv. cbn.
        rewrite list_lookup_total_insert_eq; [done |]. rewrite HLo. exact Hjn.
      + rewrite list_lookup_total_insert_ne by done. by apply Hother. }
  destruct HP as [Hs HK]. split; [exact Hs |].
  intros r g Hr Hk. rewrite (HK r g Hr Hk).
  rewrite decide_True; [done |]. cbn. by eapply lookup_lt_Some.
Qed.

End ZeroDelay.

(** In a settled state with an empty queue on which the primary inputs hold
    the vector, the outputs are the ones the zero-delay evaluator
    computes. *)
Lemma settled_outputs gates t vec st outs1 :
  netlist_ok gates = true ->
  length outs1 = length gates ->
  map_Forall (fun _ v => v <> LZ) vec ->
  settled gates t st ->
  Step2.timing_queue st = [] ->
  (forall r g, gates !! r = Some g -> gate_type g = Kinpt ->
     Step2.outs st !!! r = default LU (vec !! address g)) ->
  Step2.outs st = Step1.simulate_vector gates vec outs1.
Proof.
  intros Hok Hlen1 Hvec (HLo & _ & H1 & H2 & H3 & _) Hq Hpi.
  destruct (simulate_vector_spec gates vec outs1 Hok Hlen1) as [HLr Hres].
  set (res := Step1.simulate_vector gates vec outs1) in *.
  assert (Hpend : forall r, pending st r = []).
  { intros r. destruct (pending st r) as [| e l] eqn:Hp; [done |].
    destruct (H3 r) as (e' & He' & _); [by rewrite Hp |].
    rewrite Hq in He'. destruct (proj1 (elem_of_nil _) He'). }
  assert (Hall : forall r, (r < length gates)%nat ->
            Step2.outs st !!! r = res !!! r /\ res !!! r <> LZ).
  { intros r. induction (lt_wf r) as [r _ IH]. intros Hr.
    destruct (lookup_lt_is_Some_2 gates r Hr) as [g Hg].
    destruct (netlist_ok_spec gates Hok r g Hg) as [Hin _].
    rewrite (Hres r g Hg).
    destruct (decide (gate_type g = Kinpt)) as [Hk | Hk].
    - split; [by apply Hpi |].
      destruct (vec !! address g) as [v |] eqn:Hv; [| done].
      cbn. exact (Hvec _ _ Hv).
    - assert (Hmap : map (fun i => Step2.outs st !!! i) (inputs g) =
                     map (fun i => res !!! i) (inputs g)).
      { apply map_ext_in. intros i Hi. apply list_elem_of_In in Hi.
        pose proof (proj1 (Forall_forall _ _) Hin i Hi) as Hlt.
        cbv beta in Hlt.
        apply IH; [exact Hlt | lia]. }
      assert (HnoZ : LZ ∉ map (fun i => res !!! i) (inputs g)).
      { intros HZ. apply list_elem_of_In, in_map_iff in HZ
          as (i & Hi & Hi').
        apply list_elem_of_In in Hi'.
        pose proof (proj1 (Forall_forall _ _) Hin i Hi') as Hlt.
        cbv beta in Hlt.
        destruct (IH i Hlt ltac:(lia)) as [_ Hne]. by apply Hne. }
      rewrite (H2 r g Hg (Hpend r) Hk); [| intros []].
      unfold eval2. rewrite Hmap. rewrite (eval_agree _ _ HnoZ).
      split; [done |]. by apply eval_no_Z. }
  apply list_eq_same_length with (length gates); [done | done |].
  intros i x y Hi Hx Hy.
  destruct (Hall i Hi) as [Heq _].
  rewrite !list_lookup_total_alt, Hx, Hy in Heq. exact Heq.
Qed.

(** Once the queue is empty, being settled no longer depends on the
    time. *)
Lemma settled_retime gates t t' st :
  settled gates t st -> Step2.timing_queue st = [] -> settled gates t' st.
Proof.
  intros (HLo & HLs & H1 & H2 & H3 & H4) Hq.
  assert (Hpend : forall r, pending st r = []).
  { intros r. destruct (pending st r) as [| e l] eqn:Hp; [done |].
    destruct (H3 r) as (e' & He' & _); [by rewrite Hp |].
    rewrite Hq in He'. destruct (proj1 (elem_of_nil _) He'). }
  split; [done |]. split; [done |]. split; [| split; [| split]].
  - intros r g Hr. left. apply Hpend.
  - exact H2.
  - exact H3.
  - intros e He. rewrite Hq in He. destruct (proj1 (elem_of_nil _) He).
Qed.

(** More fuel does not change a result. *)
Lemma drain_fuel_mono gates t fuel : forall fuel' st st',
  Step2.drain fuel gates t st = Some st' -> (fuel <= fuel')%nat ->
  Step2.drain fuel' gates t st = Some st'.
Proof.
  induction fuel as [| fuel IH]; intros fuel' st st' H Hle; [done |].
  destruct fuel' as [| fuel']; [lia |]. cbn in H |- *.
  destruct (Step2.timing_queue st) as [| [[t' a] x] q]; [done |].
  destruct (decide (t' = t)); [| done]. apply IH; [done | lia].
Qed.

Lemma run_fuel_mono gates fuel : forall fuel' tvs st st',
  Step2.run_simulation_for_vectors fuel gates tvs st = Some st' ->
  (fuel <= fuel')%nat ->
  Step2.run_simulation_for_vectors fuel' gates tvs st = Some st'.
Proof.
  induction fuel as [| fuel IH]; intros fuel' tvs st st' H Hle; [done |].
  destruct fuel' as [| fuel']; [lia |]. cbn in H |- *.
  destruct (Step2.next_time tvs st) as [now |]; [| done].
  destruct (match tvs with
            | (nt, vec) :: rest =>
                if decide (now = nt)
                then (Step2.apply_vector gates vec now 0 gates st, rest)
                else (st, tvs)
            | [] => (st, [])
            end) as [st1 rest'].
  destruct (Step2.drain fuel gates now st1) as [st2 |] eqn:Hd; [| done].
  rewrite (drain_fuel_mono _ _ _ fuel' _ _ Hd) by lia.
  apply IH; [done | lia].
Qed.

(** The simulator follows the zero-delay evaluator through a list of
    stimuli, from any settled state with an empty queue. *)
Lemma run_agrees gates (D : gset Z) :
  netlist_ok gates = true -> zero_delay gates = true ->
  forall tvs st t0,
  settled gates t0 st -> Step2.timing_queue st = [] ->
  (forall r g, gates !! r = Some g -> gate_type g = Kinpt ->
     address g ∉ D -> Step2.outs st !!! r = LU) ->
  Forall (fun tv : Z * gmap Z Logic =>
            map_Forall (fun _ v => v <> LZ) tv.2 /\ dom tv.2 = D) tvs ->
  exists fuel st',
    Step2.run_simulation_for_vectors fuel gates tvs st = Some st' /\
    Step2.timing_queue st' = [] /\
    Step2.outs st' =
      (Step1.run_simulation_for_vectors gates tvs (Step2.outs st)).2.
Proof.
  intros Hok Hzero tvs.
  induction tvs as [| [t vec] rest IH]; intros st t0 Hst Hq HD Hall.
  { exists 1%nat, st. cbn. unfold Step2.next_time. by rewrite Hq. }
  apply Forall_cons in Hall as [[Hvec Hdom] Hall]. cbn in Hvec, Hdom.
  pose proof (settled_retime gates t0 t st Hst Hq) as Hst_t.
  destruct (apply_vector_settles gates t Hok Hzero vec st Hst_t)
    as [Hs1 Hpi1].
  set (st1 := Step2.apply_vector gates vec t 0 gates st) in *.
  destruct (drain_settles gates t Hok Hzero
              (queue_weight (length gates) (Step2.timing_queue st1)) st1
              Hs1 ltac:(lia))
    as (st2 & Hd & Hs2 & Hq2 & Hpi2).
  assert (Hpi : forall r g, gates !! r = Some g -> gate_type g = Kinpt ->
            Step2.outs st2 !!! r = default LU (vec !! address g)).
  { intros r g Hr Hk. rewrite (Hpi2 r g Hr Hk), (Hpi1 r g Hr Hk).
    destruct (vec !! address g) as [v |] eqn:Hv; [done |]. cbn.
    apply (HD r g Hr Hk). rewrite <- Hdom. by apply not_elem_of_dom. }
  assert (Hout : Step2.outs st2
                 = Step1.simulate_vector gates vec (Step2.outs st)).
  { apply (settled_outputs gates t vec st2); try done.
    by destruct Hst as [HLo _]. }
  destruct (IH st2 t Hs2 Hq2) as (fuel2 & st' & Hrun & Hq' & Hout');
    [| done |].
  { intros r g Hr Hk Hnot. rewrite (Hpi r g Hr Hk).
    rewrite <- Hdom in Hnot. apply not_elem_of_dom in Hnot.
    by rewrite Hnot. }
  set (m := queue_weight (length gates) (Step2.timing_queue st1)) in *.
  exists (S (S m + fuel2)), st'. split; [| split; [done |]].
  - cbn [Step2.run_simulation_for_vectors]. unfold Step2.next_time at 1.
    rewrite Hq. rewrite decide_True by done. fold st1.
    rewrite (drain_fuel_mono _ _ _ (S m + fuel2) _ _ Hd) by lia.
    apply (run_fuel_mono _ _ _ _ _ _ Hrun). lia.
  - rewrite Hout', Hout. cbn [Step1.run_simulation_for_vectors]. cbv zeta.
    destruct (Step1.run_simulation_for_vectors gates rest
                (Step1.simulate_vector gates vec (Step2.outs st)))
      as [log final].
    reflexivity.
Qed.

(** ** C9, amended: agreement of the two simulators

    On a netlist without delays whose gates are declared after their inputs
    and whose non-input gates all have an input, and for stimuli that hold
    no Z and all name the same primary inputs, applied to the freshly
    loaded circuit: the event-driven simulator stops, with an empty queue,
    at the outputs the zero-delay evaluator computes for the same
    stimuli. *)
Theorem C9_zero_delay_agreement gates tvs :
  netlist_ok gates = true ->
  zero_delay gates = true ->
  stimuli_ok tvs = true ->
  exists fuel st,
    Step2.run_simulation_for_vectors fuel gates tvs
      (Step2.initial_state gates) = Some st /\
    Step2.timing_queue st = [] /\
    Step2.outs st =
      (Step1.run_simulation_for_vectors gates tvs
         (Step1.initial_outputs gates)).2.
Proof.
  intros Hok Hzero Hstim.
  apply (run_agrees gates (dom (default ∅ (snd <$> head tvs))) Hok Hzero
           tvs (Step2.initial_state gates) 0).
  - by apply initial_settled.
  - done.
  - intros r g Hr Hk _. unfold Step2.initial_state. cbn.
    by apply replicate_lookup_total.
  - unfold stimuli_ok in Hstim. apply Forall_forall. intros tv Htv.
    apply list_elem_of_In in Htv.
    pose proof (proj1 (forallb_forall _ _) Hstim tv Htv) as H.
    apply andb_true_iff in H as [H1 H2].
    apply bool_decide_eq_true in H1, H2. by split.
Qed.

Lemma C9_zero_delay_agreement_witness :
  exists fuel st,
    Step2.run_simulation_for_vectors fuel and_netlist
      [(0, vector_01); (4, vector_11)]
      (Step2.initial_state and_netlist) = Some st /\
    Step2.timing_queue st = [] /\
    Step2.outs st =
      (Step1.run_simulation_for_vectors and_netlist
         [(0, vector_01); (4, vector_11)]
         (Step1.initial_outputs and_netlist)).2.
Proof.
  apply (C9_zero_delay_agreement and_netlist
           [(0, vector_01); (4, vector_11)]).
  - reflexivity.
  - reflexivity.
  - vm_compute. reflexivity.
Defined.

(** ** Scheduling and committing events *)

(** C8 as stated fails on a netlist without delays: when net 1 rises at
    time 5, the and gate (address 2) is scheduled with 1 and commits it
    before the inverter (address 3) has switched; the inverter's commit
    schedules the and gate again for the same fire-time, with 0, and that
    event is committed too.  Two transitions of the same gate are
    committed at time 5. *)
Lemma C8_glitch_commits_twice :
  exists st,
    Step2.run_simulation_for_vectors 20 glitch glitch_stimuli
      (Step2.initial_state glitch) = Some st /\
    filter (fun e => about 2 5 e = true) (Step2.trace st) =
      [Step2.Committed 5 2 5 L0; Step2.Scheduled 5 2 5 L0;
       Step2.Committed 5 2 5 L1; Step2.Scheduled 5 2 5 L1] /\
    Step2.timing_queue st = [].
Proof.
  eexists. split; [vm_compute; reflexivity |].
  split; vm_compute; reflexivity.
Qed.

Lemma timed_app q1 q2 :
  timed (q1 ++ q2) <->
  timed q1 /\ timed q2 /\
  Forall (fun e1 : Step2.Event =>
            Forall (fun e2 : Step2.Event => e1.1 < e2.1) q2) q1.
Proof.
  induction q1 as [| e q1 IH]; cbn.
  - split; [intros H; by repeat split | by intros (_ & H & _)].
  - rewrite Forall_app, IH, Forall_cons. tauto.
Qed.

Lemma timed_filter (P : Step2.Event -> Prop) `{forall e, Decision (P e)} q :
  timed q -> timed (filter P q).
Proof.
  induction q as [| e q IH]; [done |]. intros [Hlt Hq].
  rewrite filter_cons. destruct (decide (P e)); [| by apply IH].
  split; [| by apply IH].
  apply Forall_forall. intros e' He'.
  apply list_elem_of_filter in He' as [_ He'].
  by apply (proj1 (Forall_forall _ _) Hlt).
Qed.

Lemma event_le_lt (x y : Step2.Event) :
  x.1 <> y.1 -> Step2.event_le x y = true -> x.1 < y.1.
Proof.
  unfold Step2.event_le. intros Hne H.
  apply orb_true_iff in H as [H | H].
  - by apply bool_decide_eq_true in H.
  - apply andb_true_iff in H as [H _].
    by apply bool_decide_eq_true in H.
Qed.

Lemma event_le_gt (x y : Step2.Event) :
  x.1 <> y.1 -> Step2.event_le x y = false -> y.1 < x.1.
Proof.
  unfold Step2.event_le. intros Hne H.
  apply orb_false_iff in H as [H _].
  apply bool_decide_eq_false in H. lia.
Qed.

Lemma timed_heappush x q :
  timed q -> Forall (fun e : Step2.Event => e.1 <> x.1) q ->
  timed (Step2.heappush Step2.event_le x q).
Proof.
  induction q as [| y q IH]; cbn [Step2.heappush].
  - intros _ _. by split.
  - intros [Hlt Hq] [Hy Hne]%Forall_cons.
    destruct (Step2.event_le x y) eqn:Hle.
    + split; [| by split].
      pose proof (event_le_lt x y ltac:(congruence) Hle) as Hxy.
      apply Forall_cons. split; [done |].
      eapply Forall_impl; [exact Hlt |]. cbn. intros e He. lia.
    + split; [| by apply IH].
      pose proof (event_le_gt x y ltac:(congruence) Hle) as Hxy.
      rewrite heappush_perm. by apply Forall_cons.
Qed.

Lemma pending_value_filter T T' q :
  pending_value T' (filter (fun e : Step2.Event => e.1 <> T) q) =
    if decide (T' = T) then None else pending_value T' q.
Proof.
  induction q as [| e q IH]; cbn [pending_value].
  - by destruct (decide (T' = T)).
  - rewrite filter_cons.
    destruct (decide (e.1 <> T)) as [Hne | Heq]; cbn [pending_value].
    + rewrite IH. repeat case_decide; congruence.
    + rewrite IH. repeat case_decide; try congruence.
      exfalso. apply Heq. congruence.
Qed.

Lemma pending_value_heappush T' x q :
  Forall (fun e : Step2.Event => e.1 <> x.1) q ->
  pending_value T' (Step2.heappush Step2.event_le x q) =
    if decide (T' = x.1) then Some x.2 else pending_value T' q.
Proof.
  induction q as [| y q IH]; cbn [Step2.heappush pending_value].
  - intros _. repeat case_decide; congruence.
  - intros [Hy Hne]%Forall_cons.
    destruct (Step2.event_le x y); cbn [pending_value].
    + repeat case_decide; congruence.
    + rewrite (IH Hne). repeat case_decide; congruence.
Qed.

Lemma pending_value_None T q :
  Forall (fun e : Step2.Event => e.1 <> T) q -> pending_value T q = None.
Proof.
  induction q as [| e q IH]; [done |]. intros [He Hq]%Forall_cons.
  cbn. rewrite decide_False by done. by apply IH.
Qed.

Lemma pending_value_elem T v q :
  timed q -> (T, v) ∈ q -> pending_value T q = Some v.
Proof.
  induction q as [| e q IH]; intros Hq Hin.
  - destruct (proj1 (elem_of_nil _) Hin).
  - destruct Hq as [Hlt Hq]. cbn.
    apply elem_of_cons in Hin as [<- | Hin]; cbn.
    + by rewrite decide_True.
    + pose proof (proj1 (Forall_forall _ _) Hlt _ Hin) as He. cbn in He.
      rewrite decide_False by lia. by apply IH.
Qed.

Lemma pending_value_app_r T q1 q2 :
  Forall (fun e : Step2.Event => e.1 <> T) q1 ->
  pending_value T (q1 ++ q2) = pending_value T q2.
Proof.
  induction q1 as [| e q1 IH]; [done |]. intros [He Hq]%Forall_cons.
  cbn. rewrite decide_False by done. by apply IH.
Qed.

(** [update_output] pops the events that are due, and only those. *)
Lemma pop_due_spec now q :
  timed q ->
  q = (Step2.pop_due now q).1 ++ (Step2.pop_due now q).2 /\
  Forall (fun e : Step2.Event => e.1 ≤ now) (Step2.pop_due now q).1 /\
  Forall (fun e : Step2.Event => now < e.1) (Step2.pop_due now q).2.
Proof.
  induction q as [| e q IH]; cbn [Step2.pop_due]; [done |].
  intros [Hlt Hq]. destruct (decide (e.1 ≤ now)) as [Hle | Hgt].
  - destruct (IH Hq) as (Heq & Hp & Hr).
    destruct (Step2.pop_due now q) as [popped rest]. cbn in *.
    split; [by rewrite <- Heq |]. split; [by apply Forall_cons | done].
  - cbn. split; [done |]. split; [done |].
    apply Forall_cons. split; [lia |].
    eapply Forall_impl; [exact Hlt |]. cbn. intros e' He'. lia.
Qed.

Lemma commits_snoc now r popped (x : Step2.Event) :
  commits now r (popped ++ [x]) =
    Step2.Committed now r x.1 x.2 :: commits now r popped.
Proof. unfold commits. by rewrite map_app, rev_app_distr. Qed.

Lemma latest_commits_skip r' T now r popped tr :
  r' <> r \/ Forall (fun e : Step2.Event => e.1 <> T) popped ->
  latest r' T (commits now r popped ++ tr) = latest r' T tr.
Proof.
  induction popped as [| x popped IH] using rev_ind; [done |].
  intros H. rewrite commits_snoc. cbn [app latest].
  assert (Habout : about r' T (Step2.Committed now r x.1 x.2) = false).
  { unfold about. cbn. destruct H as [H | H].
    - rewrite bool_decide_eq_false_2; [done | congruence].
    - apply Forall_app in H as [_ [H _]%Forall_cons].
      rewrite (bool_decide_eq_false_2 (x.1 = T)) by done.
      apply andb_false_r. }
  rewrite Habout. apply IH. destruct H as [H | H]; [by left | right].
  by apply Forall_app in H as [H _].
Qed.

Lemma latest_commits_hit T now r popped tr :
  Exists (fun e : Step2.Event => e.1 = T) popped ->
  scheduled_value (latest r T (commits now r popped ++ tr)) = None.
Proof.
  induction popped as [| x popped IH] using rev_ind.
  - intros H. by apply Exists_nil in H.
  - intros H. rewrite commits_snoc. cbn [app latest].
    destruct (about r T (Step2.Committed now r x.1 x.2)) eqn:Habout;
      [done |].
    apply IH. apply Exists_app in H as [H | H]; [done |].
    apply Exists_cons in H as [H | H]; [| by apply Exists_nil in H].
    unfold about in Habout. cbn in Habout.
    rewrite !bool_decide_eq_true_2 in Habout by done. done.
Qed.

Lemma paired_commits now r popped tr :
  paired tr = true -> timed popped ->
  (forall e, e ∈ popped ->
     scheduled_value (latest r e.1 tr) = Some e.2) ->
  paired (commits now r popped ++ tr) = true.
Proof.
  induction popped as [| x popped IH] using rev_ind; [done |].
  intros Htr Ht Hval. rewrite commits_snoc. cbn [app paired].
  apply timed_app in Ht as (Ht & _ & Hlt).
  apply andb_true_iff. split.
  - apply bool_decide_eq_true. rewrite latest_commits_skip.
    + apply Hval. apply elem_of_app. right. by left.
    + right. eapply Forall_impl; [exact Hlt |]. cbn.
      intros e [He _]%Forall_cons. lia.
  - apply IH; [done | done |]. intros e He. apply Hval.
    apply elem_of_app. by left.
Qed.

Lemma last_committed_commits_ne r' now r popped tr :
  r' <> r ->
  last_committed r' (commits now r popped ++ tr) = last_committed r' tr.
Proof.
  intros Hne. induction popped as [| x popped IH] using rev_ind; [done |].
  rewrite commits_snoc. cbn [app last_committed].
  by rewrite decide_False by congruence.
Qed.

Lemma last_committed_commits_eq now r popped tr :
  last_committed r (commits now r popped ++ tr) =
    match last popped with
    | Some e => Some e.2
    | None => last_committed r tr
    end.
Proof.
  destruct popped as [| x popped _] using rev_ind; [done |].
  rewrite commits_snoc, last_snoc. cbn [app last_committed].
  by rewrite decide_True.
Qed.

Lemma due_commits now r popped tr :
  Forall (fun e : Step2.Event => e.1 ≤ now) popped ->
  forallb due tr = true ->
  forallb due (commits now r popped ++ tr) = true.
Proof.
  intros Hp Htr. induction popped as [| x popped IH] using rev_ind;
    [done |].
  apply Forall_app in Hp as [Hp [Hx _]%Forall_cons].
  rewrite commits_snoc. cbn [app forallb due].
  rewrite bool_decide_eq_true_2 by done. by apply IH.
Qed.

Lemma update_output_pending r now st r' :
  pending (Step2.update_output r now st) r' =
    if decide (r' = r) then (Step2.pop_due now (pending st r)).2
    else pending st r'.
Proof.
  unfold Step2.update_output, pending.
  destruct (Step2.pop_due now (Step2.scheduled_events st !!! r))
    as [popped rest] eqn:Hpop. cbn.
  destruct (decide (r' = r)) as [-> | Hne];
    [| by rewrite list_lookup_total_insert_ne].
  destruct (decide (r < length (Step2.scheduled_events st))%nat)
    as [Hlt | Hge].
  - by rewrite list_lookup_total_insert_eq.
  - rewrite list_insert_ge by lia.
    rewrite list_lookup_total_alt in Hpop |- *.
    rewrite lookup_ge_None_2 in Hpop |- * by lia.
    cbn in Hpop. by injection Hpop as _ <-.
Qed.

Lemma update_output_trace r now st :
  Step2.trace (Step2.update_output r now st) =
    commits now r (Step2.pop_due now (pending st r)).1 ++ Step2.trace st.
Proof.
  unfold Step2.update_output, pending, commits.
  by destruct (Step2.pop_due now (Step2.scheduled_events st !!! r)).
Qed.

Lemma update_output_outs r now st :
  Step2.outs (Step2.update_output r now st) =
    match last (Step2.pop_due now (pending st r)).1 with
    | Some e => <[r := e.2]> (Step2.outs st)
    | None => Step2.outs st
    end.
Proof.
  unfold Step2.update_output, pending.
  by destruct (Step2.pop_due now (Step2.scheduled_events st !!! r)).
Qed.

Lemma update_output_length r now st :
  length (Step2.scheduled_events (Step2.update_output r now st)) =
    length (Step2.scheduled_events st).
Proof.
  unfold Step2.update_output.
  destruct (Step2.pop_due now (Step2.scheduled_events st !!! r)). cbn.
  by rewrite length_insert.
Qed.

Lemma evaluate_trace r g t st :
  Step2.trace (Step2.evaluate r g t st) =
    if decide (gate_type g = Kinpt) then Step2.trace st
    else Step2.Scheduled t r (t + delay g) (eval2 (Step2.outs st) g)
           :: Step2.trace st.
Proof.
  unfold Step2.evaluate, eval2, Step2.input_values.
  by destruct (gate_type g).
Qed.

Lemma filter_other_times T (q : list Step2.Event) :
  Forall (fun e : Step2.Event => e.1 <> T)
    (filter (fun e : Step2.Event => e.1 <> T) q).
Proof.
  apply Forall_forall. intros e He.
  by apply list_elem_of_filter in He as [He _].
Qed.

(** [evaluate] keeps the invariant: the event it schedules replaces the
    one held for the same fire-time. *)
Lemma evaluate_inv gates r g t st :
  (r < length gates)%nat ->
  sim_inv gates st -> sim_inv gates (Step2.evaluate r g t st).
Proof.
  intros Hr (HLo & HLs & Htimed & Hpend & Hpair & Hdue & Hout).
  destruct (decide (gate_type g = Kinpt)) as [Hk | Hk].
  { unfold Step2.evaluate. rewrite Hk. by repeat split. }
  split; [by rewrite evaluate_outs |].
  split; [by rewrite evaluate_length |].
  assert (Hp : forall r',
            pending (Step2.evaluate r g t st) r' =
              if decide (r' = r)
              then Step2.heappush Step2.event_le
                     (t + delay g, eval2 (Step2.outs st) g)
                     (filter (fun e : Step2.Event => e.1 <> t + delay g)
                        (pending st r))
              else pending st r').
  { intros r'. destruct (decide (r' = r)) as [-> | Hne].
    - rewrite evaluate_pending_eq by lia. by rewrite decide_False.
    - by apply evaluate_pending_ne. }
  unfold coalesced. rewrite evaluate_trace, decide_False by done.
  split; [| split; [| split; [| split]]].
  - intros r'. rewrite Hp. case_decide; [| done].
    apply timed_heappush; [by apply timed_filter |].
    apply filter_other_times.
  - intros r' T. rewrite Hp. cbn [latest]. unfold about. cbn.
    destruct (decide (r' = r)) as [-> | Hne].
    + rewrite bool_decide_eq_true_2 by done. cbn.
      rewrite pending_value_heappush by apply filter_other_times. cbn.
      rewrite pending_value_filter.
      destruct (decide (T = t + delay g)) as [-> | HT].
      * by rewrite bool_decide_eq_true_2.
      * rewrite bool_decide_eq_false_2 by congruence. apply Hpend.
    + rewrite bool_decide_eq_false_2 by congruence. cbn. apply Hpend.
  - done.
  - done.
  - intros r' g' Hr' Hk'. rewrite evaluate_outs. cbn.
    exact (Hout r' g' Hr' Hk').
Qed.

(** [update_output] keeps the invariant: it commits the events that are
    due, each the latest scheduled for its fire-time. *)
Lemma update_output_inv gates r now st :
  sim_inv gates st -> sim_inv gates (Step2.update_output r now st).
Proof.
  intros (HLo & HLs & Htimed & Hpend & Hpair & Hdue & Hout).
  destruct (pop_due_spec now (pending st r) (Htimed r))
    as (Hsplit & Hpop & Hrest).
  pose proof (Htimed r) as Ht. rewrite Hsplit in Ht.
  apply timed_app in Ht as (Htp & Htr & _).
  split; [| split; [by rewrite update_output_length |]].
  { rewrite update_output_outs.
    destruct (last _); by rewrite ?length_insert. }
  unfold coalesced. rewrite update_output_trace.
  split; [| split; [| split; [| split]]].
  - intros r'. rewrite update_output_pending. by case_decide.
  - intros r' T. rewrite update_output_pending.
    destruct (decide (r' = r)) as [-> | Hne];
      [| rewrite latest_commits_skip by (by left); apply Hpend].
    destruct (decide (Exists (fun e : Step2.Event => e.1 = T)
                        (Step2.pop_due now (pending st r)).1))
      as [Hex | Hnex].
    + rewrite latest_commits_hit by done.
      apply pending_value_None.
      apply Exists_exists in Hex as (e & He & <-).
      pose proof (proj1 (Forall_forall _ _) Hpop e He) as Hle.
      cbn in Hle. eapply Forall_impl; [exact Hrest |]. cbn.
      intros e' He'. lia.
    + apply not_Exists_Forall in Hnex; [| intros e; apply _].
      rewrite latest_commits_skip by (by right).
      rewrite <- Hpend. rewrite Hsplit at 2.
      by rewrite pending_value_app_r.
  - apply paired_commits; [done | done |]. intros e He.
    rewrite <- Hpend. apply pending_value_elem; [apply Htimed |].
    rewrite Hsplit. apply elem_of_app. left. by destruct e.
  - by apply due_commits.
  - intros r' g' Hr' Hk'. rewrite update_output_outs.
    destruct (decide (r' = r)) as [-> | Hne].
    + rewrite last_committed_commits_eq.
      destruct (last _) as [e |]; [| exact (Hout _ _ Hr' Hk')]. cbn.
      rewrite list_lookup_total_insert_eq; [done |].
      rewrite HLo. by eapply lookup_lt_Some.
    + rewrite last_committed_commits_ne by done.
      destruct (last _) as [e |]; [| exact (Hout _ _ Hr' Hk')].
      rewrite list_lookup_total_insert_ne by done.
      exact (Hout _ _ Hr' Hk').
Qed.

Lemma push_timing_inv gates x st :
  sim_inv gates st -> sim_inv gates (Step2.push_timing x st).
Proof. done. Qed.

Lemma pop_timing_inv gates st :
  sim_inv gates st -> sim_inv gates (Step2.pop_timing st).
Proof. done. Qed.

(** A test vector writes primary inputs only, which the invariant leaves
    free. *)
Lemma set_output_inv gates r g v st :
  gates !! r = Some g -> gate_type g = Kinpt ->
  sim_inv gates st -> sim_inv gates (Step2.set_output r v st).
Proof.
  intros Hr Hk (HLo & HLs & Htimed & Hpend & Hpair & Hdue & Hout).
  split; [cbn; by rewrite length_insert |]. split; [done |].
  split; [done |]. split; [done |]. split; [done |]. split; [done |].
  intros r' g' Hr' Hk'. cbn.
  rewrite list_lookup_total_insert_ne; [exact (Hout _ _ Hr' Hk') |].
  intros <-. congruence.
Qed.

Lemma schedule_fanouts_inv gates x t st :
  sim_inv gates st ->
  sim_inv gates (Step2.schedule_fanouts x t 0 gates st).
Proof.
  intros Hst.
  apply (schedule_fanouts_ind (fun _ s => sim_inv gates s) x t gates 0 st);
    [done |].
  intros j g s Hj Hs. destruct (py_in x (inputs g)); [| done].
  apply push_timing_inv, evaluate_inv; [| done].
  by eapply lookup_lt_Some.
Qed.

Lemma apply_vector_inv gates vec t st :
  sim_inv gates st ->
  sim_inv gates (Step2.apply_vector gates vec t 0 gates st).
Proof.
  intros Hst.
  apply (apply_vector_ind (fun _ s => sim_inv gates s) gates vec t gates
           0 st); [done |].
  intros j g s Hj Hs. cbn [Nat.add].
  destruct (decide (gate_type g = Kinpt)) as [Hk | Hk]; [| done].
  destruct (vec !! address g) as [v |]; [| done].
  case_decide; [| done].
  by apply schedule_fanouts_inv, (set_output_inv gates j g).
Qed.

Lemma process_event_inv gates t x st :
  sim_inv gates st -> sim_inv gates (Step2.process_event gates t x st).
Proof.
  intros Hst. unfold Step2.process_event.
  by apply schedule_fanouts_inv, update_output_inv.
Qed.

Lemma initial_state_inv gates : sim_inv gates (Step2.initial_state gates).
Proof.
  unfold Step2.initial_state.
  split; [apply length_replicate |]. split; [apply length_replicate |].
  assert (Hp : forall r,
            pending (Step2.mkState (replicate (length gates) LU)
                       (replicate (length gates) []) [] []) r = []).
  { intros r. unfold pending. cbn. by apply replicate_lookup_total. }
  split; [| split; [| split; [| split]]].
  - intros r. by rewrite Hp.
  - intros r T. by rewrite Hp.
  - done.
  - done.
  - intros r g _ _. cbn. by apply replicate_lookup_total.
Qed.

Lemma step_inv gates st a :
  sim_inv gates st -> sim_inv gates (step gates st a).
Proof.
  intros Hst. destruct a as [t vec |]; cbn.
  - by apply apply_vector_inv.
  - destruct (Step2.timing_queue st) as [| [[t a] x] q]; [done |].
    by apply process_event_inv, pop_timing_inv.
Qed.

Lemma run_steps_inv gates acts : forall st,
  sim_inv gates st -> sim_inv gates (run_steps gates acts st).
Proof.
  unfold run_steps.
  induction acts as [| a acts IH]; intros st Hst; [done |].
  cbn. by apply IH, step_inv.
Qed.

(** The loops of [run_simulation_for_vectors] take steps of [step]. *)
Lemma drain_steps gates t fuel : forall st st',
  Step2.drain fuel gates t st = Some st' ->
  exists acts, st' = run_steps gates acts st.
Proof.
  induction fuel as [| fuel IH]; intros st st' H; [done |].
  cbn in H.
  destruct (Step2.timing_queue st) as [| [[t' a] x] q] eqn:Hq.
  - injection H as <-. by exists [].
  - destruct (decide (t' = t)) as [-> | Hne];
      [| injection H as <-; by exists []].
    destruct (IH _ _ H) as [acts ->]. exists (Fire :: acts).
    unfold run_steps. cbn. by rewrite Hq.
Qed.

Lemma run_simulation_steps gates fuel : forall tvs st st',
  Step2.run_simulation_for_vectors fuel gates tvs st = Some st' ->
  exists acts, st' = run_steps gates acts st.
Proof.
  induction fuel as [| fuel IH]; intros tvs st st' H; [done |].
  cbn in H.
  destruct (Step2.next_time tvs st) as [now |];
    [| injection H as <-; by exists []].
  assert (Hhead : exists acts rest,
            (match tvs with
             | (nt, vec) :: rest =>
                 if decide (now = nt)
                 then (Step2.apply_vector gates vec now 0 gates st, rest)
                 else (st, tvs)
             | [] => (st, [])
             end) = (run_steps gates acts st, rest)).
  { destruct tvs as [| [nt vec] rest]; [by exists [], [] |].
    destruct (decide (now = nt)).
    - by exists [Stimulus now vec], rest.
    - by exists [], ((nt, vec) :: rest). }
  destruct Hhead as (acts1 & rest & Hhead). rewrite Hhead in H.
  destruct (Step2.drain fuel gates now (run_steps gates acts1 st))
    as [st2 |] eqn:Hd; [| done].
  destruct (drain_steps _ _ _ _ _ Hd) as [acts2 ->].
  destruct (IH _ _ _ H) as [acts3 ->].
  exists (acts1 ++ acts2 ++ acts3). unfold run_steps.
  by rewrite !foldl_app.
Qed.

(** ** C8, amended: coalescing of pending events, and the last commit

    At every step of the event-driven simulator (after any sequence of
    test vectors applied and queue entries handled, from the freshly
    loaded circuit, and so at the end of every run of
    [run_simulation_for_vectors]): a gate holds at most one pending event
    per fire-time, the one scheduled last for that time since the gate's
    last commit for it; every commit in the log commits the value of the
    scheduling that precedes it for the same gate and fire-time, so
    schedulings of one gate for one fire-time that no commit separates end
    in a single committed transition; a commit never precedes the
    fire-time of its event; and the output of every gate that is not a
    primary input is the value committed last on it, or U when nothing has
    been committed. *)
Theorem C8_pending_events_coalesce gates :
  (forall acts,
     coalesced gates (run_steps gates acts (Step2.initial_state gates))) /\
  (forall fuel tvs st,
     Step2.run_simulation_for_vectors fuel gates tvs
       (Step2.initial_state gates) = Some st ->
     coalesced gates st).
Proof.
  assert (H : forall acts,
            coalesced gates
              (run_steps gates acts (Step2.initial_state gates))).
  { intros acts.
    destruct (run_steps_inv gates acts _ (initial_state_inv gates))
      as (_ & _ & Hc). exact Hc. }
  split; [exact H |]. intros fuel tvs st Hrun.
  destruct (run_simulation_steps _ _ _ _ _ Hrun) as [acts ->]. apply H.
Qed.

Lemma C8_pending_events_coalesce_witness :
  exists st,
    Step2.run_simulation_for_vectors 20 glitch glitch_stimuli
      (Step2.initial_state glitch) = Some st /\
    coalesced glitch st.
Proof.
  eexists. split; [vm_compute; reflexivity |].
  apply (proj2 (C8_pending_events_coalesce glitch) 20%nat glitch_stimuli).
  vm_compute. reflexivity.
Defined.

(** * Further properties of the code *)

(** ** The two evaluators as functions of their inputs *)

Lemma py_in_perm `{EqDecision A} (x : A) l l' :
  l ≡ₚ l' -> py_in x l = py_in x l'.
Proof. intros H. unfold py_in. apply bool_decide_ext. by rewrite H. Qed.

Lemma sum_ints_perm l l' : l ≡ₚ l' -> sum_ints l = sum_ints l'.
Proof.
  unfold sum_ints.
  induction 1 as [| x l l' _ IH | x y l | l1 l2 l3 _ IH1 _ IH2]; cbn;
    [done | by rewrite IH | lia | congruence].
Qed.

(** X1: the gates with several inputs of equal standing (and, or, nand,
    nor, xor, xnor) give the same output whatever the order of their
    inputs, in both evaluators. *)
Theorem X1_input_order_is_irrelevant k ins ins' :
  k ∈ [Kand; Kor; Knand; Knor; Kxor; Kxnor] ->
  ins ≡ₚ ins' ->
  Step1.eval_kind k ins = Step1.eval_kind k ins' /\
  Step2.eval_kind k ins = Step2.eval_kind k ins'.
Proof.
  intros Hk Hp. unfold Step1.eval_kind, Step2.eval_kind. cbv zeta.
  rewrite !py_in_clean by reflexivity.
  rewrite !(py_in_perm _ ins ins' Hp), (sum_ints_perm ins ins' Hp).
  set_unfold in Hk.
  by destruct Hk as [-> | [-> | [-> | [-> | [-> | [-> | []]]]]]].
Qed.

Lemma X1_input_order_is_irrelevant_witness :
  Step1.eval_kind Knand [L1; L0; LU] = Step1.eval_kind Knand [LU; L1; L0] /\
  Step2.eval_kind Knand [L1; L0; LU] = Step2.eval_kind Knand [LU; L1; L0].
Proof.
  apply (X1_input_order_is_irrelevant Knand [L1; L0; LU] [LU; L1; L0]).
  - do 2 right. left.
  - apply (bool_decide_unpack _). vm_compute. exact I.
Defined.

Lemma refines_known ins ins' :
  Forall2 refines ins ins' -> LU ∉ ins -> ins' = ins.
Proof.
  induction 1 as [| v v' l l' Hv _ IH]; [done |].
  intros [Hne Hl]%not_elem_of_cons. destruct Hv as [-> | ->]; [done |].
  by rewrite IH.
Qed.

Lemma refines_elem v ins ins' :
  Forall2 refines ins ins' -> v <> LU -> v ∈ ins -> v ∈ ins'.
Proof.
  induction 1 as [| w w' l l' Hw _ IH]; [done |].
  intros Hv [-> | Hin]%elem_of_cons.
  - destruct Hw as [-> | ->]; [done | by left].
  - right. by apply IH.
Qed.

Lemma refines_head ins ins' v :
  Forall2 refines ins ins' -> head ins = Some v -> v <> LU ->
  head ins' = Some v.
Proof.
  intros [| w w' l l' Hw _]; [done |]. cbn. intros [= ->] Hv.
  by destruct Hw as [-> | ->].
Qed.

(** X2: an output that is already 0 or 1 does not depend on the inputs
    that are still unknown: resolving any U among the inputs (to whatever
    value) leaves it as it is, in both evaluators. *)
Theorem X2_known_outputs_are_stable k ins ins' :
  Forall2 refines ins ins' ->
  (is_binary (Step1.eval_kind k ins) = true ->
   Step1.eval_kind k ins' = Step1.eval_kind k ins) /\
  (is_binary (Step2.eval_kind k ins) = true ->
   Step2.eval_kind k ins' = Step2.eval_kind k ins).
Proof.
  intros Href.
  pose proof (refines_known ins ins' Href) as Hsame.
  assert (Hkeep : forall v, v <> LU -> v ∈ ins -> py_in v ins' = true).
  { intros v Hv H. apply py_in_true. by apply (refines_elem v ins). }
  unfold Step1.eval_kind, Step2.eval_kind. cbv zeta.
  rewrite !py_in_clean by reflexivity.
  split; intros Hbin; destruct k; try done.
  all: try (destruct (py_in L0 ins) eqn:H0;
            [by rewrite (Hkeep L0 ltac:(done) (proj1 (py_in_true _ _) H0)) |];
            destruct (py_in LU ins) eqn:HU; [by cbn in Hbin |];
            by rewrite (Hsame (proj1 (py_in_false _ _) HU)), H0, ?HU).
  all: try (destruct (py_in L1 ins) eqn:H1;
            [by rewrite (Hkeep L1 ltac:(done) (proj1 (py_in_true _ _) H1)) |];
            destruct (py_in LU ins) eqn:HU; [by cbn in Hbin |];
            by rewrite (Hsame (proj1 (py_in_false _ _) HU)), H1, ?HU).
  all: try (destruct (py_in LU ins) eqn:HU; [by cbn in Hbin |];
            by rewrite (Hsame (proj1 (py_in_false _ _) HU)), ?HU).
  all: destruct Href as [| v v' l l' Hv Hl]; [done |];
       destruct Hv as [-> | ->]; [by destruct v' | done].
Qed.

Lemma X2_known_outputs_are_stable_witness :
  Step2.eval_kind Kor [L1; LZ; L0] = Step2.eval_kind Kor [L1; LU; LU].
Proof.
  refine (proj2 (X2_known_outputs_are_stable Kor [L1; LU; LU] [L1; LZ; L0] _)
            eq_refl).
  repeat constructor; by left.
Defined.

Lemma of_bool_unknown v bs : is_binary v = false -> py_in v (map of_bool bs) = false.
Proof.
  intros Hv. apply py_in_false. intros Hin.
  apply list_elem_of_In, in_map_iff in Hin as (b & <- & _).
  by destruct b.
Qed.

Lemma of_bool_zero bs : py_in L0 (map of_bool bs) = negb (forallb id bs).
Proof.
  induction bs as [| b bs IH]; [done |].
  unfold py_in in *. cbn [map forallb].
  destruct b; cbn.
  - rewrite <- IH. apply bool_decide_ext.
    split; [intros [H | H]%elem_of_cons; [discriminate | done] | by right].
  - apply bool_decide_eq_true. by left.
Qed.

Lemma of_bool_one bs : py_in L1 (map of_bool bs) = existsb id bs.
Proof.
  induction bs as [| b bs IH]; [done |].
  unfold py_in in *. cbn [map existsb].
  destruct b; cbn.
  - apply bool_decide_eq_true. by left.
  - rewrite <- IH. apply bool_decide_ext.
    split; [intros [H | H]%elem_of_cons; [discriminate | done] | by right].
Qed.

Lemma of_bool_parity bs :
  sum_ints (map of_bool bs) mod 2 = if foldr xorb false bs then 1 else 0.
Proof.
  induction bs as [| b bs IH]; [done |].
  unfold sum_ints in *. cbn [map foldr].
  rewrite Z.add_mod by lia. rewrite IH.
  by destruct b, (foldr xorb false bs).
Qed.

(** X3: on inputs that are all 0 or 1 both evaluators compute the Boolean
    function of the gate kind (the unary kinds need an input to read): no
    unknown arises from known inputs. *)
Theorem X3_boolean_function_on_binary_inputs k bs :
  k <> Kinpt -> k <> Kother ->
  (k ∈ [Knot; Kbuf; Kfanout] -> bs <> []) ->
  Step1.eval_kind k (map of_bool bs) = of_bool (boolean_function k bs) /\
  Step2.eval_kind k (map of_bool bs) = of_bool (boolean_function k bs).
Proof.
  intros Hk1 Hk2 Hne.
  unfold Step1.eval_kind, Step2.eval_kind, boolean_function. cbv zeta.
  rewrite !py_in_clean by reflexivity.
  rewrite !(of_bool_unknown LU), !(of_bool_unknown LZ) by reflexivity.
  rewrite of_bool_zero, of_bool_one, of_bool_parity.
  destruct k; try done; cbn [orb].
  all: try (destruct (forallb id bs), (existsb id bs); split; reflexivity).
  all: try (destruct (foldr xorb false bs); split; reflexivity).
  all: destruct bs as [| b bs];
       [exfalso; apply Hne; [| done] | destruct b; split; reflexivity].
  - left.
  - right. left.
  - do 2 right. left.
Qed.

Lemma X3_boolean_function_on_binary_inputs_witness :
  Step1.eval_kind Kxnor (map of_bool [true; false; true]) = L1 /\
  Step2.eval_kind Kxnor (map of_bool [true; false; true]) = L1.
Proof.
  apply (X3_boolean_function_on_binary_inputs Kxnor [true; false; true]);
    [done | done |].
  intros _. done.
Defined.

(** X4: in the event-driven evaluator nand, nor and xnor are, for every
    list of inputs, the inverse of and, or and xor (U and Z are their own
    inverse); in the zero-delay evaluator the same holds for nor and
    xnor. *)
Theorem X4_inverting_kinds_are_complements ins :
  Step2.eval_kind Knand ins = invert (Step2.eval_kind Kand ins) /\
  Step2.eval_kind Knor ins = invert (Step2.eval_kind Kor ins) /\
  Step2.eval_kind Kxnor ins = invert (Step2.eval_kind Kxor ins) /\
  Step1.eval_kind Knor ins = invert (Step1.eval_kind Kor ins) /\
  Step1.eval_kind Kxnor ins = invert (Step1.eval_kind Kxor ins).
Proof.
  unfold Step1.eval_kind, Step2.eval_kind, invert, str_bit. cbv zeta.
  rewrite !py_in_clean by reflexivity.
  destruct (py_in L0 ins), (py_in L1 ins), (py_in LU ins), (py_in LZ ins);
    cbn; repeat split; try reflexivity;
    by destruct (decide (sum_ints ins mod 2 = 0)).
Qed.

(** ** The D-algebra on pairs *)

Lemma py_in_cons `{EqDecision A} (x y : A) l :
  py_in x (y :: l) = bool_decide (x = y) || py_in x l.
Proof.
  unfold py_in. destruct (decide (x = y)) as [-> | Hne].
  - rewrite (bool_decide_eq_true_2 (y = y)) by done. cbn.
    apply bool_decide_eq_true. by left.
  - rewrite (bool_decide_eq_false_2 (x = y)) by done. cbn.
    apply bool_decide_ext. rewrite elem_of_cons. tauto.
Qed.

Lemma of_pair_flags v ps :
  v ∈ [VX; VU; VZ; VNone] -> py_in v (map of_pair ps) = false.
Proof.
  intros Hv. apply py_in_false. intros Hin.
  apply list_elem_of_In, in_map_iff in Hin as ([[] []] & <- & _);
    set_unfold in Hv; destruct Hv as [? | [? | [? | [? | []]]]]; done.
Qed.

(** The tests of [evaluate_and] and [evaluate_or] on a list of pairs, in
    terms of which of the four values occur. *)
Lemma pairs_tests ps :
  let ins := map of_pair ps in
  let e v := py_in v ins in
  Step3.all_in [V1; VD] ins = negb (e V0 || e VDbar) /\
  Step3.all_in [V1; VDbar] ins = negb (e V0 || e VD) /\
  forallb (fun v => bool_decide (v = V1)) ins
    = negb (e V0 || e VD || e VDbar) /\
  Step3.all_in [V0; VD] ins = negb (e V1 || e VDbar) /\
  Step3.all_in [V0; VDbar] ins = negb (e V1 || e VD) /\
  forallb (fun v => bool_decide (v = V0)) ins
    = negb (e V1 || e VD || e VDbar) /\
  forallb id (map fst ps) = negb (e V0 || e VDbar) /\
  forallb id (map snd ps) = negb (e V0 || e VD) /\
  existsb id (map fst ps) = e V1 || e VD /\
  existsb id (map snd ps) = e V1 || e VDbar.
Proof.
  cbv zeta. unfold Step3.all_in.
  induction ps as [| [a b] ps IH]; [by repeat split |].
  destruct IH as (H1 & H2 & H3 & H4 & H5 & H6 & H7 & H8 & H9 & H10).
  cbn [map forallb existsb fst snd id]. rewrite !py_in_cons.
  rewrite H1, H2, H3, H4, H5, H6, H7, H8, H9, H10.
  destruct (py_in V0 (map of_pair ps)), (py_in V1 (map of_pair ps)),
    (py_in VD (map of_pair ps)), (py_in VDbar (map of_pair ps)), a, b;
    by repeat split.
Qed.

Lemma evaluate_and_pairs ps :
  Step3.evaluate_and (map of_pair ps) false false false =
    of_pair (forallb id (map fst ps), forallb id (map snd ps)).
Proof.
  destruct (pairs_tests ps) as (H1 & H2 & H3 & _ & _ & _ & H7 & H8 & _).
  unfold Step3.evaluate_and. rewrite H1, H2, H3, H7, H8. cbn [orb].
  by destruct (py_in V0 (map of_pair ps)), (py_in VD (map of_pair ps)),
    (py_in VDbar (map of_pair ps)).
Qed.

Lemma evaluate_or_pairs ps :
  Step3.evaluate_or (map of_pair ps) false false false =
    of_pair (existsb id (map fst ps), existsb id (map snd ps)).
Proof.
  destruct (pairs_tests ps) as (_ & _ & _ & H4 & H5 & H6 & _ & _ & H9 & H10).
  unfold Step3.evaluate_or. rewrite H4, H5, H6, H9, H10. cbn [orb].
  by destruct (py_in V1 (map of_pair ps)), (py_in VD (map of_pair ps)),
    (py_in VDbar (map of_pair ps)).
Qed.

Lemma evaluate_not_pair p :
  Step3.evaluate_not [of_pair p] false false false
  = Some (of_pair (negb p.1, negb p.2)).
Proof. by destruct p as [[] []]. Qed.

(** The value [d_algebra_evaluate] computes before the fault injection,
    for the kinds other than xor and xnor, on inputs that stand for
    pairs. *)
Lemma d_algebra_value_pairs k ps :
  k ∈ [Kand; Kor; Knand; Knor; Knot; Kbuf; Kfanout] ->
  (k ∈ [Knot; Kbuf; Kfanout] -> ps <> []) ->
  let ins := map of_pair ps in
  match k with
  | Kand => Some (Step3.evaluate_and ins false false false)
  | Kor => Some (Step3.evaluate_or ins false false false)
  | Knot => Step3.evaluate_not ins false false false
  | Kbuf => Step3.evaluate_buf ins false false false
  | Knand => Step3.evaluate_nand ins false false false
  | Knor => Step3.evaluate_nor ins false false false
  | Kfanout => Step3.evaluate_fanout ins false false false
  | _ => None
  end = Some (of_pair (boolean_function k (map fst ps),
                       boolean_function k (map snd ps))).
Proof.
  intros Hk Hne. cbv zeta.
  unfold Step3.evaluate_nand, Step3.evaluate_nor, Step3.evaluate_buf,
    Step3.evaluate_fanout, boolean_function.
  rewrite evaluate_and_pairs, evaluate_or_pairs.
  set_unfold in Hk.
  destruct Hk as [-> | [-> | [-> | [-> | [-> | [-> | [-> | []]]]]]]];
    try reflexivity; try apply evaluate_not_pair.
  all: destruct ps as [| [a b] ps];
       [exfalso; apply Hne; [| done] | by destruct a, b].
  - left.
  - right. left.
  - do 2 right. left.
Qed.

(** Closes a goal whose kind is none of those a hypothesis lists. *)
Ltac not_listed H :=
  solve [exfalso;
         repeat (destruct H as [H | H]; [discriminate H |]); destruct H].

(** X5: on a gate without a fault whose inputs carry 0, 1, D or D',
    [d_algebra_evaluate] computes, for and, or, nand, nor, not, buf and
    fanout gates, the Boolean function of the gate in the fault-free and in
    the faulty circuit separately, and stores the value that stands for
    the two results. *)
Theorem X5_d_algebra_acts_on_pairs g r st ps :
  gate_type g ∈ [Kand; Kor; Knand; Knor; Knot; Kbuf; Kfanout] ->
  (gate_type g ∈ [Knot; Kbuf; Kfanout] -> ps <> []) ->
  map (fun i => Step3.output (st !!! i)) (inputs g) = map of_pair ps ->
  Step3.faulty (st !!! r) = false ->
  Step3.d_algebra_evaluate g r st =
    Some (alter (Step3.set_output_field
                   (of_pair (boolean_function (gate_type g) (map fst ps),
                             boolean_function (gate_type g) (map snd ps))))
            r st).
Proof.
  intros Hk Hne Hins Hf. unfold Step3.d_algebra_evaluate. cbv zeta.
  rewrite Hins.
  rewrite !of_pair_flags by (set_unfold; tauto).
  pose proof (d_algebra_value_pairs (gate_type g) ps Hk Hne) as Hv.
  cbv zeta in Hv. set_unfold in Hk.
  destruct (gate_type g); try not_listed Hk;
    try (injection Hv as ->); try rewrite Hv; cbn;
    unfold Step3.inject_fault; by rewrite Hf.
Qed.

Lemma X5_d_algebra_acts_on_pairs_witness :
  Step3.d_algebra_evaluate (mkGate 3 "3" Knand 0 2 0 [0%nat; 1%nat]) 2
    [Step3.mkGateState VD false VNone Inf Inf Inf;
     Step3.mkGateState V1 false VNone Inf Inf Inf;
     Step3.fresh_gate]
  = Some [Step3.mkGateState VD false VNone Inf Inf Inf;
          Step3.mkGateState V1 false VNone Inf Inf Inf;
          Step3.mkGateState VDbar false VNone Inf Inf Inf].
Proof.
  apply (X5_d_algebra_acts_on_pairs
           (mkGate 3 "3" Knand 0 2 0 [0%nat; 1%nat]) 2
           [Step3.mkGateState VD false VNone Inf Inf Inf;
            Step3.mkGateState V1 false VNone Inf Inf Inf;
            Step3.fresh_gate]
           [(true, false); (true, true)]).
  - do 2 right. left.
  - intros _. done.
  - reflexivity.
  - reflexivity.
Defined.



(** ** Implication *)

Lemma outputs_only_refl st : outputs_only st st.
Proof. by split. Qed.

Lemma outputs_only_trans s1 s2 s3 :
  outputs_only s1 s2 -> outputs_only s2 s3 -> outputs_only s1 s3.
Proof.
  intros [L12 H12] [L23 H23]. split; [congruence |]. intros r.
  destruct (H12 r) as (? & ? & ? & ? & ?), (H23 r) as (? & ? & ? & ? & ?).
  repeat split; congruence.
Qed.

Lemma outputs_only_alter v r st :
  outputs_only st (alter (Step3.set_output_field v) r st).
Proof.
  split; [apply length_alter |]. intros r'.
  repeat split;
    by apply (lookup_alter_field _ (Step3.set_output_field v)).
Qed.

Lemma outputs_only_set_fault f v r st st' :
  outputs_only st st' ->
  forall r', r' <> r ->
    Step3.faulty (alter (Step3.set_fault f v) r st' !!! r')
    = Step3.faulty (st !!! r').
Proof.
  intros [_ H] r' Hne. rewrite list_lookup_total_alter_ne by done.
  by destruct (H r') as (-> & _).
Qed.

Lemma d_algebra_evaluate_spec g r st st' :
  Step3.d_algebra_evaluate g r st = Some st' ->
  exists out,
    st' = alter (Step3.set_output_field
                   (Step3.inject_fault (st !!! r) out)) r st /\
    (gate_type g = Kinpt -> out = Step3.output (st !!! r)).
Proof.
  unfold Step3.d_algebra_evaluate. cbv zeta. intros H.
  option_bind H. injection H as <-. eexists. split; [done |].
  intros Hk. rewrite Hk in E. by injection E as <-.
Qed.

Lemma insert_sorted_perm key x l : Step3.insert_sorted key x l ≡ₚ x :: l.
Proof.
  induction l as [| y l IH]; cbn; [done |].
  case_bool_decide; [done |]. rewrite IH. apply Permutation_swap.
Qed.

Lemma sorted_by_perm key l : Step3.sorted_by key l ≡ₚ l.
Proof.
  unfold Step3.sorted_by. induction l as [| x l IH]; cbn; [done |].
  by rewrite insert_sorted_perm, IH.
Qed.

Lemma sorted_gates_elem c r : r ∈ Step3.sorted_gates c <-> r ∈ Step3.values c.
Proof. unfold Step3.sorted_gates. by rewrite sorted_by_perm. Qed.

(** One pass of [imply] changes outputs only, and only of gates of the
    map; a primary input without a fault keeps its value. *)
Lemma evaluate_pass_frame c st st' :
  Step3.evaluate_pass c st = Some st' ->
  outputs_only st st' /\
  (forall r, r ∉ Step3.values c ->
     Step3.output (st' !!! r) = Step3.output (st !!! r)) /\
  inputs_kept c st st'.
Proof.
  unfold Step3.evaluate_pass.
  pose (P := fun s : list Step3.GateState =>
    outputs_only st s /\
    (forall r, r ∉ Step3.values c ->
       Step3.output (s !!! r) = Step3.output (st !!! r)) /\
    inputs_kept c st s).
  intros H. revert H.
  apply (for_each_inv P (fun g => g ∈ Step3.sorted_gates c)).
  - intros g s s' Hg (Ho & Hout & Hin) Hstep.
    apply d_algebra_evaluate_spec in Hstep as (out & -> & Hinpt).
    split; [| split].
    + eapply outputs_only_trans; [exact Ho | apply outputs_only_alter].
    + intros r Hr. rewrite list_lookup_total_alter_ne; [by apply Hout |].
      intros ->. by apply Hr, sorted_gates_elem.
    + intros r Hk Hf. rewrite list_lookup_total_alter.
      case_decide as Hd; [| by apply Hin]. destruct Hd as [-> Hlt]. cbn.
      unfold Step3.inject_fault.
      destruct Ho as [_ Ho]. destruct (Ho r) as (-> & _). rewrite Hf.
      rewrite (Hinpt Hk). by apply Hin.
  - by apply Forall_forall.
  - split; [apply outputs_only_refl |]. by split.
Qed.

Lemma inputs_kept_trans c s1 s2 s3 :
  outputs_only s1 s2 ->
  inputs_kept c s1 s2 -> inputs_kept c s2 s3 -> inputs_kept c s1 s3.
Proof.
  intros [_ Ho] H12 H23 r Hk Hf. rewrite H23, H12; try done.
  by destruct (Ho r) as (-> & _).
Qed.

Lemma imply_frame c fuel : forall st st',
  Step3.imply c fuel st = Ok st' ->
  outputs_only st st' /\
  (forall r, r ∉ Step3.values c ->
     Step3.output (st' !!! r) = Step3.output (st !!! r)) /\
  inputs_kept c st st'.
Proof.
  induction fuel as [| fuel IH]; intros st st' H; [discriminate H |].
  cbn [Step3.imply] in H.
  destruct (Step3.evaluate_pass c st) as [st1 |] eqn:Hpass;
    [| discriminate H]. cbn in H.
  destruct (evaluate_pass_frame c st st1 Hpass) as (Ho1 & Hout1 & Hin1).
  case_decide; [| by injection H as <-].
  destruct (IH st1 st' H) as (Ho2 & Hout2 & Hin2).
  split; [by eapply outputs_only_trans |]. split.
  - intros r Hr. rewrite Hout2, Hout1; done.
  - by eapply inputs_kept_trans.
Qed.

Lemma GateState_eq (a b : Step3.GateState) :
  Step3.output a = Step3.output b ->
  Step3.faulty a = Step3.faulty b ->
  Step3.fault_value a = Step3.fault_value b ->
  Step3.CC0 a = Step3.CC0 b -> Step3.CC1 a = Step3.CC1 b ->
  Step3.CO a = Step3.CO b -> a = b.
Proof. destruct a, b. cbn. congruence. Qed.

Lemma lookup_total_eq {A} `{Inhabited A} (l1 l2 : list A) :
  length l1 = length l2 -> (forall r, l1 !!! r = l2 !!! r) -> l1 = l2.
Proof.
  intros Hlen Hall. apply list_eq_same_length with (length l1);
    [done | done |].
  intros i x y Hi Hx Hy. specialize (Hall i).
  rewrite !list_lookup_total_alt, Hx, Hy in Hall. exact Hall.
Qed.

Lemma map_eq_elem {A B} (f g : A -> B) l x :
  map f l = map g l -> x ∈ l -> f x = g x.
Proof.
  induction l as [| y l IH]; cbn; intros H Hx.
  - destruct (proj1 (elem_of_nil _) Hx).
  - injection H as Hy Hl.
    apply elem_of_cons in Hx as [-> | Hx]; [done | by apply IH].
Qed.

(** X7: [imply] returns a store that one more pass over the gates leaves
    exactly as it is (so that implying again changes nothing); it differs
    from the store it started from in outputs only, and only of gates of
    the map; and it never changes a primary input that has no fault. *)
Theorem X7_imply_reaches_a_fixed_point c fuel st st' :
  Step3.imply c fuel st = Ok st' ->
  Step3.evaluate_pass c st' = Some st' /\
  Step3.imply c 1 st' = Ok st' /\
  outputs_only st st' /\
  (forall r, r ∉ Step3.values c ->
     Step3.output (st' !!! r) = Step3.output (st !!! r)) /\
  inputs_kept c st st'.
Proof.
  intros H.
  assert (Hfix : Step3.evaluate_pass c st' = Some st').
  { revert st H. induction fuel as [| fuel IH]; intros st H;
      [discriminate H |].
    cbn [Step3.imply] in H.
    destruct (Step3.evaluate_pass c st) as [st1 |] eqn:Hpass;
      [| discriminate H]. cbn in H.
    case_decide as Hchg; [by eapply IH |]. injection H as <-.
    destruct (evaluate_pass_frame c st st1 Hpass) as ([HL Ho] & Hout & _).
    assert (Hsame : st1 = st).
    { apply lookup_total_eq; [done |]. intros r.
      destruct (Ho r) as (? & ? & ? & ? & ?).
      apply GateState_eq; try done.
      destruct (decide (r ∈ Step3.values c)) as [Hr | Hr];
        [| by apply Hout].
      unfold Step3.outputs_of in Hchg.
      apply (map_eq_elem _ _ _ r Hchg). by apply sorted_gates_elem. }
    by rewrite Hsame in Hpass |- *. }
  split; [exact Hfix |]. split.
  - cbn [Step3.imply]. rewrite Hfix. cbn. by rewrite decide_False by tauto.
  - by apply (imply_frame c fuel).
Qed.

Lemma X7_imply_reaches_a_fixed_point_witness :
  exists st',
    Step3.imply and2 5
      (Step3.assign 0%nat V1
         (Step3.podem_init and2 (Step3.initial_store and2))) = Ok st' /\
    Step3.evaluate_pass and2 st' = Some st'.
Proof.
  destruct (Step3.imply and2 5
              (Step3.assign 0%nat V1
                 (Step3.podem_init and2 (Step3.initial_store and2))))
    as [st' | |] eqn:H.
  - exists st'. split; [reflexivity |].
    exact (proj1 (X7_imply_reaches_a_fixed_point and2 5 _ st' H)).
  - vm_compute in H. discriminate H.
  - vm_compute in H. discriminate H.
Defined.

(** ** The search *)

Lemma podem_init_frame c st : outputs_only st (Step3.podem_init c st).
Proof.
  unfold Step3.podem_init.
  induction (Step3.values c) as [| g gs IH] using rev_ind;
    [apply outputs_only_refl |].
  rewrite foldl_app. cbn.
  eapply outputs_only_trans; [exact IH | apply outputs_only_alter].
Qed.

Lemma podem_recursive_frame c fuel : forall st p st' p' found,
  Step3.podem_recursive c fuel st p = Ok (st', p', found) ->
  outputs_only st st'.
Proof.
  induction fuel as [| fuel IH]; intros st p st' p' found H;
    [discriminate H |].
  cbn [Step3.podem_recursive] in H.
  destruct (Step3.success c st) eqn:Hs.
  { injection H as <- <- <-. apply outputs_only_refl. }
  result_bind H. destruct a as [[og ov] p1]. cbn in H.
  destruct og as [og |]; [| injection H as <- <- <-; apply outputs_only_refl].
  result_bind H. destruct a as [tpi tv]. cbn in H.
  result_bind H. rename a into st1.
  result_bind H. destruct a as [[st2 p2] found2]. cbn in H.
  assert (H02 : outputs_only st st2).
  { eapply outputs_only_trans; [apply (outputs_only_alter tv tpi) |].
    eapply outputs_only_trans; [by apply (imply_frame c fuel _ st1) |].
    by eapply IH. }
  destruct found2; [by injection H as <- <- <- |].
  result_bind H. rename a into st3.
  result_bind H. destruct a as [[st4 p4] found4]. cbn in H.
  assert (H04 : outputs_only st st4).
  { eapply outputs_only_trans; [exact H02 |].
    eapply outputs_only_trans;
      [apply (outputs_only_alter (Step3.oppositeVal tv) tpi) |].
    eapply outputs_only_trans; [by apply (imply_frame c fuel _ st3) |].
    by eapply IH. }
  destruct found4; [by injection H as <- <- <- |].
  result_bind H. injection H as <- <- <-.
  eapply outputs_only_trans; [exact H04 |].
  eapply outputs_only_trans; [apply (outputs_only_alter VX tpi) |].
  by apply (imply_frame c fuel _ a).
Qed.

(** X8: whatever its answer, [generate_test_vector] leaves the
    testability measures of every gate as they were, leaves the gate it
    was asked about without a fault mark, and leaves the fault marks of all
    other gates as they were; a pattern it returns has one entry per
    primary input, none of them D or D'. *)
Theorem X8_generate_test_vector_cleans_up c fuel st fault st' res :
  Step3.generate_test_vector c fuel st fault = Ok (st', res) ->
  length st' = length st /\
  (forall r,
     Step3.CC0 (st' !!! r) = Step3.CC0 (st !!! r) /\
     Step3.CC1 (st' !!! r) = Step3.CC1 (st !!! r) /\
     Step3.CO (st' !!! r) = Step3.CO (st !!! r)) /\
  (exists fg,
     Step3.dict_get fault.1 (Step3.gates c) = Some fg /\
     Step3.faulty (st' !!! fg) = false /\
     forall r, r <> fg ->
       Step3.faulty (st' !!! r) = Step3.faulty (st !!! r) /\
       Step3.fault_value (st' !!! r) = Step3.fault_value (st !!! r)) /\
  (forall tv, res = Some tv ->
     length tv = length (Step3.primary_inputs c) /\
     (VD ∉ tv) /\ (VDbar ∉ tv)).
Proof.
  unfold Step3.generate_test_vector. intros H.
  destruct (Step3.dict_get fault.1 (Step3.gates c)) as [fg |] eqn:Hfg;
    [| discriminate H].
  cbn in H. result_bind H. destruct a as [[st3 p3] found]. cbn in H.
  injection H as <- <-.
  apply podem_recursive_frame in E.
  set (sv := if decide (fault.2 = 1) then V1 else V0) in *.
  pose proof (podem_init_frame c st) as [HLi Hi].
  destruct E as [HL3 H3].
  split; [| split; [| split]].
  - rewrite length_alter, HL3, length_alter. exact HLi.
  - intros r.
    rewrite !(lookup_alter_field _ (Step3.set_fault false VNone)) by done.
    destruct (H3 r) as (_ & _ & -> & -> & ->).
    rewrite !(lookup_alter_field _ (Step3.set_fault true sv)) by done.
    by destruct (Hi r) as (_ & _ & -> & -> & ->).
  - exists fg. split; [done |]. split.
    + rewrite list_lookup_total_alter.
      case_decide as Hd; [done |].
      assert (Hge : ~ (fg < length st3)%nat) by tauto.
      rewrite list_lookup_total_alt, lookup_ge_None_2 by lia. done.
    + intros r Hne. rewrite !list_lookup_total_alter_ne by done.
      destruct (H3 r) as (-> & -> & _).
      rewrite !list_lookup_total_alter_ne by done.
      by destruct (Hi r) as (-> & -> & _).
  - intros tv Htv. destruct found; [| discriminate Htv].
    injection Htv as <-. unfold Step3.test_vector_of.
    split; [apply length_map |].
    split; intros Hin; apply list_elem_of_In, in_map_iff in Hin
      as (g & Hg & _);
      by destruct (Step3.output _).
Qed.

Lemma X8_generate_test_vector_cleans_up_witness :
  exists st',
    Step3.generate_test_vector and2 20
      (default [] (Step3.compute_scoap and2 (Step3.initial_store and2)))
      ("3", 0) = Ok (st', Some [V1; V1]) /\
    Step3.faulty (st' !!! 2%nat) = false.
Proof.
  eexists. split; [vm_compute; reflexivity |].
  match goal with
  | |- Step3.faulty (?s !!! _) = false =>
      destruct (X8_generate_test_vector_cleans_up and2 20
                  (default [] (Step3.compute_scoap and2
                                 (Step3.initial_store and2)))
                  ("3", 0) s (Some [V1; V1]) eq_refl)
        as (_ & _ & (fg & Hfg & Hclean & _) & _)
  end.
  vm_compute in Hfg. injection Hfg as <-. exact Hclean.
Defined.

(** X9: when [backtrace] returns, it returns a primary input that is
    reached from the objective gate by going from gate to input; unless
    the objective gate is itself a primary input, the one returned is still
    unassigned (its output is X). *)
Theorem X9_backtrace_ends_at_a_free_input c fuel : forall st g v pi v',
  Step3.backtrace c fuel st g v = Ok (pi, v') ->
  gate_type (Step3.gate_of c pi) = Kinpt /\
  rtc (feeds_back c) g pi /\
  ((pi = g /\ v' = v) \/ Step3.output (st !!! pi) = VX).
Proof.
  induction fuel as [| fuel IH]; intros st g v pi v' H; [discriminate H |].
  cbn [Step3.backtrace] in H.
  destruct (decide (gate_type (Step3.gate_of c g) = Kinpt)) as [Hk | Hk].
  { injection H as <- <-. split; [done |]. split; [done | by left]. }
  destruct (Step3.backtrace_step c st g v) as [[t |] tv] eqn:Hstep;
    [| discriminate H].
  assert (Ht : t ∈ X_children c st g).
  { unfold Step3.backtrace_step in Hstep. injection Hstep as Hstep _.
    pose proof (get_hardest_spec c st v g) as Hh.
    pose proof (get_easiest_spec c st v g) as He.
    destruct (Step3.check_imply_gate _ _).
    - rewrite Hstep in Hh. by destruct Hh.
    - rewrite Hstep in He. by destruct He. }
  apply list_elem_of_filter in Ht as [HX Hin].
  destruct (IH st t tv pi v' H) as (Hpi & Hpath & Hfree).
  split; [done |]. split.
  - by eapply rtc_l.
  - right. by destruct Hfree as [[-> _] | Hfree].
Qed.

Lemma X9_backtrace_ends_at_a_free_input_witness :
  Step3.backtrace xor_and 5 xor_and_store 4 V1 = Ok (1%nat, V1) /\
  gate_type (Step3.gate_of xor_and 1%nat) = Kinpt.
Proof.
  assert (H : Step3.backtrace xor_and 5 xor_and_store 4 V1 = Ok (1%nat, V1))
    by (vm_compute; reflexivity).
  split; [exact H |].
  exact (proj1 (X9_backtrace_ends_at_a_free_input xor_and 5 xor_and_store
                  4%nat V1 1%nat V1 H)).
Defined.

(** ** The X-path search *)

Section XPath.
Variable c : Step3.Circuit.
Variable st : list Step3.GateState.

Lemma x_successors node b :
  b ∈ filter (fun g =>
                py_in node (inputs (Step3.gate_of c g)) = true
                /\ py_in (Step3.output (st !!! g)) [VX; VD; VDbar] = true)
             (Step3.values c)
  <-> x_step c st node b.
Proof.
  rewrite list_elem_of_filter, !py_in_true. unfold x_step. tauto.
Qed.

Lemma x_path_loop_sound gate fuel : forall visited queue,
  Forall (rtc (x_step c st) gate) queue ->
  Step3.x_path_loop c fuel st visited queue = Ok true ->
  exists po, po ∈ Step3.primary_outputs c /\ rtc (x_step c st) gate po.
Proof.
  induction fuel as [| fuel IH]; intros visited queue Hq H;
    [discriminate H |].
  cbn [Step3.x_path_loop] in H.
  destruct queue as [| node queue]; [discriminate H |].
  apply Forall_cons in Hq as [Hnode Hq].
  destruct (py_in node visited); [by eapply IH |].
  destruct (py_in node (Step3.primary_outputs c)) eqn:Hpo.
  { exists node. split; [by apply py_in_true | done]. }
  eapply IH; [| exact H]. apply Forall_app. split; [done |].
  apply Forall_forall. intros b Hb. apply x_successors in Hb.
  eapply rtc_r; [exact Hnode | exact Hb].
Qed.

Lemma avoids_start V a d : avoids c st V a d -> a ∉ V.
Proof. by intros []. Qed.

Lemma avoids_split V node a d :
  avoids c st V a d -> d <> node ->
  avoids c st (node :: V) a d \/
  exists s, x_step c st node s /\ avoids c st (node :: V) s d.
Proof.
  induction 1 as [a Ha | a b d Ha Hab Hbd IH]; intros Hd.
  - left. apply avoids_refl. by apply not_elem_of_cons.
  - destruct (decide (a = node)) as [-> | Hne].
    + right. destruct (IH Hd) as [Hl | (s & Hs & Hsd)]; eauto.
    + destruct (IH Hd) as [Hl | (s & Hs & Hsd)]; [left | right; eauto].
      eapply avoids_step; [by apply not_elem_of_cons | done | done].
Qed.

Lemma rtc_avoids_nil a d : rtc (x_step c st) a d -> avoids c st [] a d.
Proof.
  induction 1 as [a | a b d Hab _ IH].
  - apply avoids_refl, not_elem_of_nil.
  - eapply avoids_step; [apply not_elem_of_nil | done | done].
Qed.

Lemma x_path_loop_complete po fuel : forall visited queue,
  po ∈ Step3.primary_outputs c ->
  (exists q, q ∈ queue /\ avoids c st visited q po) ->
  Step3.x_path_loop c fuel st visited queue <> Ok false.
Proof.
  induction fuel as [| fuel IH]; intros visited queue Hpo (q & Hq & Hav);
    [done |].
  cbn [Step3.x_path_loop].
  destruct queue as [| node queue];
    [destruct (proj1 (elem_of_nil _) Hq) |].
  destruct (py_in node visited) eqn:Hvis.
  { apply IH; [done |]. exists q. split; [| done].
    apply elem_of_cons in Hq as [-> | Hq]; [| done].
    apply avoids_start in Hav. by apply py_in_true in Hvis. }
  destruct (py_in node (Step3.primary_outputs c)) eqn:Hnpo; [done |].
  apply IH; [done |].
  assert (Hne : po <> node).
  { intros ->. apply py_in_false in Hnpo. by apply Hnpo. }
  destruct (avoids_split visited node q po Hav Hne)
    as [Hl | (s & Hs & Hsd)].
  - exists q. split; [| done]. apply elem_of_app. left.
    apply elem_of_cons in Hq as [-> | Hq]; [| done].
    apply avoids_start in Hl. exfalso. apply Hl. by left.
  - exists s. split; [| done]. apply elem_of_app. right.
    by apply x_successors.
Qed.

Lemma unvisited_shrinks gate visited node :
  node ∈ gate :: Step3.values c -> node ∉ visited ->
  (S (length (unvisited c gate (node :: visited)))
   <= length (unvisited c gate visited))%nat.
Proof.
  intros Hin Hnot. unfold unvisited.
  set (U := remove_dups (gate :: Step3.values c)).
  assert (HU : NoDup U) by apply NoDup_remove_dups.
  change (S (length (list_difference U (node :: visited))))
    with (length (node :: list_difference U (node :: visited))).
  apply submseteq_length, NoDup_submseteq.
  - apply NoDup_cons. split; [| by apply NoDup_list_difference].
    rewrite list_elem_of_difference. intros [_ H]. apply H. by left.
  - intros x [-> | Hx]%elem_of_cons.
    + apply list_elem_of_difference. split; [| done].
      by apply elem_of_remove_dups.
    + apply list_elem_of_difference in Hx as [Hx Hnv].
      apply list_elem_of_difference. split; [done |].
      intros Hv. apply Hnv. by right.
Qed.

Lemma x_path_loop_total gate fuel : forall visited queue,
  Forall (fun q => q ∈ gate :: Step3.values c) queue ->
  (length (unvisited c gate visited) * S (length (Step3.values c))
   + length queue < fuel)%nat ->
  exists b, Step3.x_path_loop c fuel st visited queue = Ok b.
Proof.
  induction fuel as [| fuel IH]; intros visited queue Hq Hm; [lia |].
  cbn [Step3.x_path_loop].
  destruct queue as [| node queue]; [by exists false |].
  apply Forall_cons in Hq as [Hnode Hq]. cbn [length] in Hm.
  destruct (py_in node visited) eqn:Hvis.
  { apply IH; [done | lia]. }
  destruct (py_in node (Step3.primary_outputs c)); [by exists true |].
  apply py_in_false in Hvis.
  pose proof (unvisited_shrinks gate visited node Hnode Hvis) as Hshrink.
  apply IH.
  - apply Forall_app. split; [done |]. apply Forall_forall.
    intros b [_ Hb]%list_elem_of_filter. by right.
  - rewrite length_app.
    pose proof (length_filter
                  (fun g =>
                     py_in node (inputs (Step3.gate_of c g)) = true
                     /\ py_in (Step3.output (st !!! g)) [VX; VD; VDbar]
                        = true)
                  (Step3.values c)) as Hf.
    set (U' := length (unvisited c gate (node :: visited))) in *.
    set (U := length (unvisited c gate visited)) in *.
    set (N := length (Step3.values c)) in *.
    assert (U' * S N + S N <= U * S N)%nat.
    { replace (U' * S N + S N)%nat with (S U' * S N)%nat by lia.
      by apply Nat.mul_le_mono_r. }
    lia.
Qed.

End XPath.

(** X10: with fuel for the square of the number of gates, [x_path_check]
    returns, and it answers true exactly when some primary output is
    reached from the gate by going from a gate to a gate of the map that
    takes it as an input and whose output is X, D or D'. *)
Theorem X10_x_path_check_is_reachability c st gate fuel :
  (S (length (Step3.values c)) * S (length (Step3.values c)) + 2
   <= fuel)%nat ->
  exists b,
    Step3.x_path_check c fuel st gate = Ok b /\
    (b = true <->
     exists po, po ∈ Step3.primary_outputs c /\
                rtc (x_step c st) gate po).
Proof.
  intros Hfuel. unfold Step3.x_path_check.
  destruct (x_path_loop_total c st gate fuel [] [gate]) as [b Hb].
  - apply Forall_cons. split; [by left | done].
  - cbn [length].
    assert (length (unvisited c gate [])
            <= S (length (Step3.values c)))%nat.
    { unfold unvisited.
      transitivity (length (remove_dups (gate :: Step3.values c))).
      - apply submseteq_length, NoDup_submseteq.
        + apply NoDup_list_difference, NoDup_remove_dups.
        + intros x Hx. by apply list_elem_of_difference in Hx as [Hx _].
      - transitivity (length (gate :: Step3.values c)); [| done].
        apply submseteq_length, NoDup_submseteq;
          [apply NoDup_remove_dups |].
        intros x Hx. by apply elem_of_remove_dups. }
    set (N := length (Step3.values c)) in *.
    assert (length (unvisited c gate []) * S N <= S N * S N)%nat
      by (by apply Nat.mul_le_mono_r).
    lia.
  - exists b. split; [done |]. split.
    + intros ->. apply (x_path_loop_sound c st gate fuel [] [gate]);
        [| done].
      apply Forall_cons. by split.
    + intros (po & Hpo & Hreach). destruct b; [done |]. exfalso.
      apply (x_path_loop_complete c st po fuel [] [gate] Hpo); [| done].
      exists gate. split; [by left | by apply rtc_avoids_nil].
Qed.

Lemma X10_x_path_check_is_reachability_witness :
  exists b,
    Step3.x_path_check blocked 200 blocked_activated 9 = Ok b /\
    (b = true <->
     exists po, po ∈ Step3.primary_outputs blocked /\
                rtc (x_step blocked blocked_activated) 9%nat po).
Proof.
  apply (X10_x_path_check_is_reachability blocked blocked_activated 9 200).
  cbn. lia.
Defined.

(** ** The loaded netlist *)

Section DictSet.
Context {K V : Type} `{EqDecision K}.

Lemma dict_set_elem (k : K) (v : V) d kv :
  kv ∈ Step3.dict_set k v d -> kv = (k, v) \/ kv ∈ d.
Proof.
  induction d as [| [k0 v0] d IH]; cbn.
  - intros Hin%list_elem_of_singleton. by left.
  - destruct (decide (k0 = k)) as [-> | Hne].
    + intros [-> | Hin]%elem_of_cons; [by left | right; by right].
    + intros [-> | Hin]%elem_of_cons; [right; by left |].
      destruct (IH Hin); [by left | right; by right].
Qed.

Lemma dict_set_keys (k : K) (v : V) d :
  NoDup d.*1 -> NoDup (Step3.dict_set k v d).*1.
Proof.
  induction d as [| [k0 v0] d IH]; cbn.
  - intros _. apply NoDup_singleton.
  - intros [Hk0 Hd]%NoDup_cons.
    destruct (decide (k0 = k)) as [-> | Hne]; cbn.
    + by apply NoDup_cons.
    + apply NoDup_cons. split; [| by apply IH].
      intros Hin. apply list_elem_of_fmap in Hin as ([k1 v1] & Hk1 & Hin).
      cbn in Hk1. subst k1.
      apply dict_set_elem in Hin as [[= -> _] | Hin]; [done |].
      apply Hk0. apply list_elem_of_fmap. by exists (k0, v1).
Qed.

Lemma dict_set_values (k : K) (v : V) d :
  NoDup d.*2 -> v ∉ d.*2 -> NoDup (Step3.dict_set k v d).*2.
Proof.
  induction d as [| [k0 v0] d IH]; cbn.
  - intros _ _. apply NoDup_singleton.
  - intros [Hv0 Hd]%NoDup_cons [Hne Hv]%not_elem_of_cons.
    destruct (decide (k0 = k)) as [-> | Hk]; cbn.
    + by apply NoDup_cons.
    + apply NoDup_cons. split; [| by apply IH].
      intros Hin. apply list_elem_of_fmap in Hin as ([k1 v1] & Hv1 & Hin).
      cbn in Hv1. subst v1.
      apply dict_set_elem in Hin as [[= _ ->] | Hin]; [done |].
      apply Hv0. apply list_elem_of_fmap. by exists (k1, v0).
Qed.

Lemma dict_get_elem (k : K) (v : V) d :
  Step3.dict_get k d = Some v -> (k, v) ∈ d.
Proof.
  induction d as [| [k0 v0] d IH]; cbn; [done |].
  destruct (decide (k0 = k)) as [-> | Hne].
  - intros [= ->]. by left.
  - intros H. right. by apply IH.
Qed.

End DictSet.

Lemma resolve_range d parts ins n :
  Forall (fun kv : Z * nat => (kv.2 < n)%nat) d ->
  Step3.resolve d parts = Some ins ->
  Forall (fun i => (i < n)%nat) ins.
Proof.
  intros Hd H. unfold Step3.resolve in H. apply mapM_Some in H.
  induction H as [| a i parts ins Hai _ IH]; [done |].
  apply Forall_cons. split; [| done].
  apply dict_get_elem in Hai.
  by apply (proj1 (Forall_forall _ _) Hd (a, i)).
Qed.

Lemma loader_closed_new ld g a :
  loader_closed ld ->
  Forall (fun i => (i < S (length (Step3.objects ld)))%nat) (inputs g) ->
  forall cur counter,
  loader_closed
    (Step3.mkLoader (Step3.objects ld ++ [g])
       (Step3.dict_set a (length (Step3.objects ld)) (Step3.by_address ld))
       cur counter).
Proof.
  intros (Hobj & Hdict & Hk & Hv) Hg cur counter.
  unfold loader_closed. cbn. rewrite length_app. cbn.
  replace (length (Step3.objects ld) + 1)%nat
    with (S (length (Step3.objects ld))) by lia.
  split; [| split; [| split]].
  - intros r g0 Hr. apply lookup_app_Some in Hr as [Hr | [_ Hr]].
    + eapply Forall_impl; [by eapply Hobj |]. cbn. lia.
    + apply list_lookup_singleton_Some in Hr as [_ <-]. done.
  - apply Forall_forall. intros kv Hin.
    apply dict_set_elem in Hin as [-> | Hin]; [cbn; lia |].
    pose proof (proj1 (Forall_forall _ _) Hdict kv Hin). cbn in *. lia.
  - by apply dict_set_keys.
  - apply dict_set_values; [done |]. intros Hin.
    apply list_elem_of_fmap in Hin as (kv & Heq & Hin).
    pose proof (proj1 (Forall_forall _ _) Hdict kv Hin) as Hlt.
    cbn in Hlt. lia.
Qed.

Lemma load_line_closed l ld ld' :
  loader_closed ld -> Step3.load_line l ld = Some ld' -> loader_closed ld'.
Proof.
  intros Hld. destruct l as [a nm k fo fi | a nm src | parts]; cbn; intros H.
  - injection H as <-. by apply loader_closed_new.
  - destruct (Step3.dict_get src (Step3.by_address ld)) as [r |] eqn:Hsrc;
      [| discriminate H].
    injection H as <-. apply loader_closed_new; [done |]. cbn.
    apply Forall_cons. split; [| done].
    destruct Hld as (_ & Hdict & _).
    apply dict_get_elem in Hsrc.
    pose proof (proj1 (Forall_forall _ _) Hdict _ Hsrc) as Hlt.
    cbn in Hlt. lia.
  - destruct (Step3.current_gate ld) as [cur |]; [| by injection H as <-].
    destruct Hld as (Hobj & Hdict & Hk & Hv).
    assert (Hres : forall parts' delay' ld',
              (ins ← Step3.resolve (Step3.by_address ld) parts';
               Some (Step3.mkLoader
                       (alter (Step3.set_inputs_delay ins delay') cur
                          (Step3.objects ld))
                       (Step3.by_address ld) (Some cur)
                       (Step3.fanout_counter ld))) = Some ld' ->
              loader_closed ld').
    { intros parts' delay' ld1 H1.
      destruct (Step3.resolve _ parts') as [ins |] eqn:Hins;
        [| discriminate H1].
      injection H1 as <-. unfold loader_closed. cbn.
      rewrite length_alter. split; [| done].
      intros r g Hr. rewrite list_lookup_alter in Hr.
      case_decide as Hrc; [| by eapply Hobj]. subst r.
      destruct (Step3.objects ld !! cur) as [g0 |]; [| discriminate Hr].
      cbn in Hr. injection Hr as <-. cbn.
      by eapply resolve_range. }
    destruct (decide _); cbn in H; exact (Hres _ _ _ H).
Qed.

Lemma load_lines_closed ls : forall ld ld',
  loader_closed ld -> Step3.load_lines ls ld = Some ld' -> loader_closed ld'.
Proof.
  induction ls as [| l ls IH]; intros ld ld' Hld H; cbn in H.
  - by injection H as <-.
  - destruct (Step3.load_line l ld) as [ld1 |] eqn:H1; [| discriminate H].
    cbn in H. eapply IH; [| exact H]. by eapply load_line_closed.
Qed.

(** Re-keying keeps every gate object of the map, under its own name. *)
Lemma rekey_spec objs d :
  let named := Step3.rekey objs d in
  NoDup named.*1 /\
  forall kv, kv ∈ named -> kv.1 = name (objs !!! kv.2) /\ kv.2 ∈ d.*2.
Proof.
  unfold Step3.rekey. cbv zeta.
  induction d as [| [a r] d IH] using rev_ind.
  - cbn. split; [apply NoDup_nil_2 |]. intros kv Hin.
    destruct (proj1 (elem_of_nil _) Hin).
  - rewrite foldl_app. cbn. destruct IH as [Hk Hall]. split.
    + by apply dict_set_keys.
    + intros kv Hin. rewrite fmap_app. cbn.
      apply dict_set_elem in Hin as [-> | Hin]; cbn.
      * split; [done |]. apply elem_of_app. right. by left.
      * destruct (Hall kv Hin). split; [done |]. apply elem_of_app.
        by left.
Qed.

(** X11: a netlist that [load_iscas_file] accepts is closed.  Every input
    of every gate object is a gate object; the map holds each gate object
    at most once, under its own name, and holds gate objects only; the
    primary inputs are the gates of the map of kind [inpt] and the primary
    outputs those declared with fanout 0. *)
Theorem X11_loaded_circuit_is_closed ls c :
  Step3.load_iscas_file ls = Some c ->
  (forall r g, Step3.heap c !! r = Some g ->
     Forall (fun i => (i < length (Step3.heap c))%nat) (inputs g)) /\
  Forall (fun r => (r < length (Step3.heap c))%nat) (Step3.values c) /\
  NoDup (Step3.gates c).*1 /\
  NoDup (Step3.values c) /\
  (forall nm r, (nm, r) ∈ Step3.gates c ->
     name (Step3.gate_of c r) = nm) /\
  (forall r, r ∈ Step3.primary_inputs c <->
     r ∈ Step3.values c /\ gate_type (Step3.gate_of c r) = Kinpt) /\
  (forall r, r ∈ Step3.primary_outputs c <->
     r ∈ Step3.values c /\ fanout (Step3.gate_of c r) = 0).
Proof.
  unfold Step3.load_iscas_file. intros H.
  destruct (Step3.load_lines ls _) as [ld |] eqn:Hld; [| discriminate H].
  cbn in H. injection H as <-.
  assert (Hclosed : loader_closed ld).
  { eapply load_lines_closed; [| exact Hld]. unfold loader_closed. cbn.
    split; [done |]. split; [done |]. split; apply NoDup_nil_2. }
  destruct Hclosed as (Hobj & Hdict & Hk & Hv).
  destruct (rekey_spec (Step3.objects ld) (Step3.by_address ld))
    as [Hnk Hnamed].
  unfold Step3.values, Step3.gate_of. cbn.
  set (named := Step3.rekey (Step3.objects ld) (Step3.by_address ld)) in *.
  split; [exact Hobj |]. split; [| split; [done | split; [| split]]].
  - apply Forall_forall. intros r Hr.
    apply list_elem_of_fmap in Hr as (kv & -> & Hin).
    destruct (Hnamed kv Hin) as [_ Hr].
    apply list_elem_of_fmap in Hr as (kv' & -> & Hin').
    by apply (proj1 (Forall_forall _ _) Hdict kv').
  - apply (NoDup_fmap_1 (fun r => name (Step3.objects ld !!! r))).
    rewrite <- list_fmap_compose.
    replace ((fun r => name (Step3.objects ld !!! r)) ∘ snd <$> named)
      with (named.*1); [done |].
    apply Forall_fmap_ext_1, Forall_forall. intros kv Hin. cbn.
    by destruct (Hnamed kv Hin).
  - intros nm r Hin. destruct (Hnamed (nm, r) Hin) as [Hnm _].
    cbn in Hnm. by rewrite Hnm.
  - split; intros r; unfold Step3.identify_inputs, Step3.identify_outputs;
      rewrite list_elem_of_filter; tauto.
Qed.

Lemma X11_loaded_circuit_is_closed_witness :
  NoDup (Step3.values c17) /\
  Forall (fun r => (r < length (Step3.heap c17))%nat) (Step3.values c17).
Proof.
  assert (H : Step3.load_iscas_file c17_lines = Some c17)
    by (vm_compute; reflexivity).
  destruct (X11_loaded_circuit_is_closed c17_lines c17 H)
    as (_ & Hr & _ & Hnd & _).
  by split.
Defined.

(** ** The controllabilities at the end of [compute_scoap] *)

Lemma for_each_snoc {A S} (body : A -> S -> option S) l x s :
  Step3.for_each body (l ++ [x]) s
  = Step3.for_each body l s ≫= body x.
Proof.
  revert s. induction l as [| y l IH]; intros s; cbn.
  - by destruct (body x s).
  - destruct (body y s) as [s1 |]; cbn; [apply IH | done].
Qed.

Lemma alter_fixed (f : Step3.GateState -> Step3.GateState) (r : nat)
    (st : list Step3.GateState) :
  f (st !!! r) = st !!! r -> alter f r st = st.
Proof.
  intros Hf. apply list_eq. intros i. rewrite list_lookup_alter.
  case_decide as Hi; [| done]. subst i.
  destruct (st !! r) as [x |] eqn:Hx; [| done]. cbn. f_equal.
  by rewrite (list_lookup_total_correct _ _ _ Hx) in Hf.
Qed.

Lemma set_CC0_fixed c0 s : Step3.CC0 s = c0 -> Step3.set_CC0 c0 s = s.
Proof. intros <-. by destruct s. Qed.

Lemma set_CC1_fixed c1 s : Step3.CC1 s = c1 -> Step3.set_CC1 c1 s = s.
Proof. intros <-. by destruct s. Qed.

(** The two assignments of the forward pass, replayed on a store that
    agrees on the inputs and already holds the results, change nothing. *)
Lemma assign_CC_replay r ins e0 e1 s s1 s' :
  reads_inputs ins e0 -> reads_inputs ins e1 -> r ∉ ins ->
  Step3.assign_CC r e0 e1 s = Some s1 ->
  length s' = length s ->
  (forall y, y ∈ ins ->
     Step3.CC0 (s' !!! y) = Step3.CC0 (s !!! y) /\
     Step3.CC1 (s' !!! y) = Step3.CC1 (s !!! y)) ->
  Step3.CC0 (s' !!! r) = Step3.CC0 (s1 !!! r) ->
  Step3.CC1 (s' !!! r) = Step3.CC1 (s1 !!! r) ->
  Step3.assign_CC r e0 e1 s' = Some s'.
Proof.
  intros H0 H1 Hr Ha Hlen Hins Hc0 Hc1. unfold Step3.assign_CC in *.
  destruct (e0 s) as [c0 |] eqn:E0; [| discriminate Ha]. cbn in Ha.
  destruct (e1 (alter (Step3.set_CC0 c0) r s)) as [c1 |] eqn:E1;
    [| discriminate Ha]. cbn in Ha. injection Ha as <-.
  rewrite (H0 s' s) by done. rewrite E0. cbn.
  destruct (decide (r < length s)%nat) as [Hlt | Hge].
  - rewrite list_lookup_total_alter in Hc0, Hc1.
    rewrite decide_True in Hc0, Hc1 by (by rewrite length_alter).
    rewrite list_lookup_total_alter in Hc0, Hc1.
    rewrite decide_True in Hc0, Hc1 by done. cbn in Hc0, Hc1.
    rewrite (alter_fixed _ r s') by (by apply set_CC0_fixed).
    rewrite (H1 s' (alter (Step3.set_CC0 c0) r s)).
    + rewrite E1. cbn. f_equal. by apply alter_fixed, set_CC1_fixed.
    + intros y Hy. rewrite list_lookup_total_alter_ne; [by apply Hins |].
      intros ->. by apply Hr.
  - assert (Hnop : forall f, alter f r s' = s').
    { intros f. apply list_eq. intros i. rewrite list_lookup_alter.
      case_decide as Hi; [| done]. subst i.
      by rewrite lookup_ge_None_2 by lia. }
    rewrite Hnop.
    rewrite (H1 s' (alter (Step3.set_CC0 c0) r s)).
    + rewrite E1. cbn. by rewrite Hnop.
    + intros y Hy. rewrite list_lookup_total_alter_ne; [by apply Hins |].
      intros ->. by apply Hr.
Qed.

Lemma reads_CC0s ins (F : list Cost -> option Cost) :
  reads_inputs ins (fun s => F (Step3.CC0s s ins)).
Proof.
  intros t t' H. cbn. f_equal. unfold Step3.CC0s. apply map_ext_in.
  intros y Hy. apply list_elem_of_In in Hy. by destruct (H y Hy).
Qed.

Lemma reads_CC1s ins (F : list Cost -> option Cost) :
  reads_inputs ins (fun s => F (Step3.CC1s s ins)).
Proof.
  intros t t' H. cbn. f_equal. unfold Step3.CC1s. apply map_ext_in.
  intros y Hy. apply list_elem_of_In in Hy. by destruct (H y Hy).
Qed.

Lemma reads_xor_cost ins f1 f2 f3 f4 :
  (forall f, f ∈ [f1; f2; f3; f4] -> f = Step3.CC0 \/ f = Step3.CC1) ->
  reads_inputs ins (Step3.xor_cost ins f1 f2 f3 f4).
Proof.
  intros Hf t t' H. unfold Step3.xor_cost.
  destruct (ins !! 0%nat) as [a |] eqn:Ha; [| done].
  destruct (ins !! 1%nat) as [b |] eqn:Hb; [| done]. cbn.
  destruct (H a (list_elem_of_lookup_2 _ _ _ Ha)) as [A0 A1].
  destruct (H b (list_elem_of_lookup_2 _ _ _ Hb)) as [B0 B1].
  assert (E : forall f y, f ∈ [f1; f2; f3; f4] -> y = a \/ y = b ->
                f (t !!! y) = f (t' !!! y)).
  { intros f y Hfin Hy. destruct (Hf f Hfin) as [-> | ->];
      destruct Hy as [-> | ->]; done. }
  rewrite (E f1 a), (E f2 b), (E f3 a), (E f4 b); auto;
    set_unfold; tauto.
Qed.

Lemma reads_first ins (F : Step3.GateState -> Cost) (G : Cost -> Cost) :
  F = Step3.CC0 \/ F = Step3.CC1 ->
  reads_inputs ins (fun s => a ← ins !! 0%nat; Some (G (F (s !!! a)))).
Proof.
  intros HF t t' H. destruct (ins !! 0%nat) as [a |] eqn:Ha; [| done].
  cbn. destruct (H a (list_elem_of_lookup_2 _ _ _ Ha)) as [A0 A1].
  by destruct HF as [-> | ->]; rewrite ?A0, ?A1.
Qed.

(** Replaying the forward rule of gate [r] on a store that agrees with
    [s] on the inputs of [r] and holds the results at [r]. *)
Lemma forward_step_replay c r s s1 s' :
  r ∉ inputs (Step3.gate_of c r) ->
  Step3.forward_step c r s = Some s1 ->
  length s' = length s ->
  (forall y, y ∈ inputs (Step3.gate_of c r) ->
     Step3.CC0 (s' !!! y) = Step3.CC0 (s !!! y) /\
     Step3.CC1 (s' !!! y) = Step3.CC1 (s !!! y)) ->
  Step3.CC0 (s' !!! r) = Step3.CC0 (s1 !!! r) ->
  Step3.CC1 (s' !!! r) = Step3.CC1 (s1 !!! r) ->
  Step3.forward_step c r s' = Some s'.
Proof.
  intros Hr H Hlen Hins Hc0 Hc1. unfold Step3.forward_step in *. cbv zeta in *.
  set (ins := inputs (Step3.gate_of c r)) in *.
  destruct (gate_type (Step3.gate_of c r)); try done;
    (eapply (assign_CC_replay r ins); [| | exact Hr | exact H | done ..]);
    first [ apply (reads_CC0s ins) | apply (reads_CC1s ins)
          | apply reads_xor_cost; intros f Hf; set_unfold; tauto
          | apply (reads_first ins Step3.CC0 (fun x => cost_add x Step3.one));
            by left
          | apply (reads_first ins Step3.CC1 (fun x => cost_add x Step3.one));
            by right
          | apply (reads_first ins Step3.CC0 (fun x => x)); by left
          | apply (reads_first ins Step3.CC1 (fun x => x)); by right ].
Qed.

Lemma forward_loop_fixed c l : forall s s',
  Step3.for_each (Step3.forward_step c) l s = Some s' ->
  consumers_first c (rev l) = true ->
  forall r, r ∈ l -> Step3.forward_step c r s' = Some s'.
Proof.
  induction l as [| x l IH] using rev_ind; intros s s' H Hord r Hr.
  { destruct (proj1 (elem_of_nil _) Hr). }
  rewrite for_each_snoc in H.
  destruct (Step3.for_each (Step3.forward_step c) l s) as [s1 |] eqn:Hl;
    [| discriminate H]. cbn in H.
  rewrite rev_app_distr in Hord. cbn in Hord.
  apply consumers_first_cons in Hord as (Hself & Hlater & Hord).
  destruct (forward_step_frame c x s1 s' H) as [[Hlen Hframe] _].
  apply elem_of_app in Hr as [Hr | Hr%list_elem_of_singleton].
  - destruct (Hlater r) as [Hne Hnin]; [by apply elem_of_rev |].
    apply (forward_step_replay c r s1 s1 s'); try done.
    + apply (consumers_first_self c (rev l)); [done | by apply elem_of_rev].
    + by eapply IH.
    + intros y Hy. destruct (Hframe y) as [_ Hy']. apply Hy'.
      intros ->. done.
    + destruct (Hframe r) as [_ Hr']. by destruct Hr'.
    + destruct (Hframe r) as [_ Hr']. by destruct Hr'.
  - subst r. apply (forward_step_replay c x s1 s' s'); try done.
    intros y Hy. destruct (Hframe y) as [_ Hy']. apply Hy'.
    intros ->. done.
Qed.

Lemma backward_loop_frame c l : forall st st',
  Step3.for_each (Step3.backward_step c) l st = Some st' ->
  co_only (fun _ => True) st st'.
Proof.
  intros st st'.
  apply (for_each_inv (fun s => co_only (fun _ => True) st s)
           (fun _ => True));
    [| by apply Forall_forall | apply co_only_refl].
  intros x s1 s2 _ Hs Hb. eapply co_only_trans; [exact Hs |].
  eapply co_only_weaken; [| by eapply backward_step_frame]. done.
Qed.

(** X12: on a netlist declared inputs-first, the controllabilities that
    [compute_scoap] leaves satisfy the equation of every gate: applying
    the forward rule of any gate of the map to the final store changes
    nothing.  For an and gate, for instance, CC0 is the least CC0 of its
    inputs plus 1 and CC1 the sum of their CC1 plus 1, taken in the final
    store. *)
Theorem X12_controllabilities_satisfy_their_equations c st st' :
  Step3.compute_scoap c st = Some st' ->
  consumers_first c (rev (Step3.values c)) = true ->
  (forall r, r ∈ Step3.values c ->
     Step3.forward_step c r st' = Some st') /\
  (forall r, r ∈ Step3.values c -> (r < length st')%nat ->
     gate_type (Step3.gate_of c r) = Kand ->
     Step3.min_plus_1 (Step3.CC0s st' (inputs (Step3.gate_of c r)))
     = Some (Step3.CC0 (st' !!! r)) /\
     Step3.sum_plus_1 (Step3.CC1s st' (inputs (Step3.gate_of c r)))
     = Some (Step3.CC1 (st' !!! r))).
Proof.
  intros Hrun Hord. unfold Step3.compute_scoap in Hrun. cbv zeta in Hrun.
  destruct (Step3.for_each (Step3.forward_step c) (Step3.values c) _)
    as [sB |] eqn:Hfw; [| discriminate Hrun]. cbn in Hrun.
  pose proof (forward_loop_fixed c _ _ _ Hfw Hord) as HfixB.
  destruct (backward_loop_frame c _ _ _ Hrun) as [Hlen Hco].
  assert (Hfix : forall r, r ∈ Step3.values c ->
            Step3.forward_step c r st' = Some st').
  { intros r Hr. apply (forward_step_replay c r sB sB st').
    - apply (consumers_first_self c (rev (Step3.values c)));
        [done | by apply elem_of_rev].
    - by apply HfixB.
    - done.
    - intros y _. by destruct (Hco y) as (-> & -> & _).
    - by destruct (Hco r) as (-> & _).
    - by destruct (Hco r) as (_ & -> & _). }
  split; [exact Hfix |]. intros r Hr Hlt Hk.
  specialize (Hfix r Hr). unfold Step3.forward_step in Hfix.
  rewrite Hk in Hfix. unfold Step3.assign_CC in Hfix. cbv zeta in Hfix.
  set (ins := inputs (Step3.gate_of c r)) in *.
  destruct (Step3.min_plus_1 (Step3.CC0s st' ins)) as [c0 |] eqn:E0;
    [| discriminate Hfix].
  unfold Step3.sum_plus_1 in *. cbn in Hfix. injection Hfix as Hfix.
  assert (H0 : Step3.CC0 (st' !!! r) = c0).
  { rewrite <- Hfix at 1.
    rewrite (lookup_alter_field Step3.CC0 (Step3.set_CC1 _)) by done.
    rewrite list_lookup_total_alter, decide_True; done. }
  assert (Hst1 : alter (Step3.set_CC0 c0) r st' = st')
    by (by apply alter_fixed, set_CC0_fixed).
  rewrite Hst1 in Hfix. rewrite H0. split; [done |]. f_equal.
  rewrite <- Hfix at 2.
  rewrite list_lookup_total_alter, decide_True; done.
Qed.

Lemma X12_controllabilities_satisfy_their_equations_witness :
  Step3.forward_step c17 7%nat c17_measured = Some c17_measured.
Proof.
  assert (H : Step3.compute_scoap c17 (Step3.initial_store c17)
              = Some c17_measured) by (vm_compute; reflexivity).
  assert (Hord : consumers_first c17 (rev (Step3.values c17)) = true)
    by (vm_compute; reflexivity).
  apply (proj1 (X12_controllabilities_satisfy_their_equations
                  c17 _ c17_measured H Hord)).
  clear H Hord. apply (bool_decide_unpack _). vm_compute. exact I.
Defined.

(** ** When [compute_scoap] raises *)

Lemma for_each_success_each {A S} (body : A -> S -> option S) l : forall s s',
  Step3.for_each body l s = Some s' ->
  forall x, x ∈ l -> exists s1, is_Some (body x s1).
Proof.
  induction l as [| y l IH]; intros s s' H x Hx.
  { destruct (proj1 (elem_of_nil _) Hx). }
  cbn in H. destruct (body y s) as [s1 |] eqn:Hy; [| discriminate H].
  cbn in H. apply elem_of_cons in Hx as [-> | Hx].
  - exists s. by rewrite Hy.
  - by eapply IH.
Qed.

Lemma lookup_Some_length {A} (l : list A) i :
  is_Some (l !! i) -> (S i <= length l)%nat.
Proof. intros H. apply lookup_lt_is_Some_1 in H. lia. Qed.

Lemma steps_need_inputs c r s1 s2 :
  is_Some (Step3.forward_step c r s1) ->
  is_Some (Step3.backward_step c r s2) ->
  arity_ok (Step3.gate_of c r) = true.
Proof.
  unfold Step3.forward_step, Step3.backward_step, Step3.backward_kind,
    Step3.pair_CO, Step3.assign_CC, Step3.xor_cost, arity_ok.
  cbv zeta. generalize (Step3.mark_output c r s2). intros s3.
  set (ins := inputs (Step3.gate_of c r)).
  intros [f Hf] [b Hb].
  destruct (gate_type (Step3.gate_of c r)); try done;
    apply bool_decide_eq_true, lookup_Some_length.
  1-4: by destruct (ins !! 1%nat).
  1-2: by destruct (ins !! 0%nat), (ins !! 1%nat).
  all: by destruct (ins !! 0%nat).
Qed.

(** X13: [compute_scoap] completes exactly when every gate of the map has
    the inputs its kind reads (two for and, or, nand, nor, xor and xnor,
    one for not, buf and fanout); a gate with fewer makes it raise
    ([min] of an empty sequence, or an index out of range), whatever the
    store it starts from. *)
Theorem X13_compute_scoap_needs_inputs c st :
  is_Some (Step3.compute_scoap c st) <->
  Forall (fun r => arity_ok (Step3.gate_of c r) = true) (Step3.values c).
Proof.
  unfold Step3.compute_scoap. cbv zeta.
  set (st0 := foldl (fun s r => Step3.init_input c r s) st (Step3.values c)).
  split.
  - intros [st' H].
    destruct (Step3.for_each (Step3.forward_step c) (Step3.values c) st0)
      as [st1 |] eqn:Hfw; [| discriminate H]. cbn in H.
    apply Forall_forall. intros r Hr.
    destruct (for_each_success_each _ _ _ _ Hfw r Hr) as [s1 H1].
    destruct (for_each_success_each _ _ _ _ H r) as [s2 H2];
      [by apply elem_of_rev |].
    by eapply steps_need_inputs.
  - intros Har.
    destruct (for_each_total
                (fun r => arity_ok (Step3.gate_of c r) = true)
                (fun _ => True) (Step3.forward_step c)
                (Step3.values c) st0) as (st1 & -> & _); [| done | done |].
    { intros x s Hx _. destruct (forward_step_total c x s Hx) as [s' ->].
      eauto. }
    cbn.
    destruct (for_each_total
                (fun r => arity_ok (Step3.gate_of c r) = true)
                (fun _ => True) (Step3.backward_step c)
                (rev (Step3.values c)) st1) as (st2 & -> & _);
      [| | done | by eexists].
    { intros x s Hx _. destruct (backward_step_total c x s Hx) as [s' ->].
      eauto. }
    apply Forall_forall. intros r Hr.
    apply (proj1 (Forall_forall _ _) Har). by apply elem_of_rev.
Qed.

(** ** Primary inputs in the event-driven simulator *)

Lemma schedule_fanouts_idle gates x t st :
  inputs_idle gates st ->
  inputs_idle gates (Step2.schedule_fanouts x t 0 gates st) /\
  Step2.outs (Step2.schedule_fanouts x t 0 gates st) = Step2.outs st.
Proof.
  intros Hst.
  apply (schedule_fanouts_ind
           (fun _ s => inputs_idle gates s /\ Step2.outs s = Step2.outs st)
           x t gates 0 st); [done |].
  intros j g s Hj [(HLo & HLs & Hidle) Hout].
  destruct (py_in x (inputs g)); [| done]. cbn [Nat.add].
  split; [| by rewrite <- Hout; cbn; rewrite evaluate_outs].
  split; [by cbn; rewrite evaluate_outs |].
  split; [by cbn; rewrite evaluate_length |].
  intros r g' Hr Hk.
  change (pending (Step2.push_timing _ ?s') r) with (pending s' r).
  destruct (decide (r = j)) as [-> | Hne].
  - assert (g' = g) as -> by congruence.
    rewrite evaluate_pending_eq by (rewrite HLs; by eapply lookup_lt_Some).
    rewrite decide_True by done. by eapply Hidle.
  - rewrite evaluate_pending_ne by done. by eapply Hidle.
Qed.

Lemma apply_vector_inputs gates vec t st0 :
  inputs_idle gates st0 ->
  let st1 := Step2.apply_vector gates vec t 0 gates st0 in
  inputs_idle gates st1 /\
  forall r g, gates !! r = Some g -> gate_type g = Kinpt ->
    Step2.outs st1 !!! r
    = default (Step2.outs st0 !!! r) (vec !! address g).
Proof.
  intros Hst0.
  pose (P := fun (idx : nat) (s : Step2.State) =>
    inputs_idle gates s /\
    forall r g, gates !! r = Some g -> gate_type g = Kinpt ->
      Step2.outs s !!! r =
        if decide (r < idx)%nat
        then default (Step2.outs st0 !!! r) (vec !! address g)
        else Step2.outs st0 !!! r).
  assert (HP : P (0 + length gates)%nat
                 (Step2.apply_vector gates vec t 0 gates st0)).
  { apply apply_vector_ind.
    - split; [exact Hst0 |]. intros r g Hr Hk. by rewrite decide_False by lia.
    - intros j g s Hj [Hs HK]. cbn [Nat.add].
      pose proof (lookup_lt_Some _ _ _ Hj) as Hjn.
      assert (Hother : forall r g', gates !! r = Some g' ->
                gate_type g' = Kinpt -> r <> j ->
                Step2.outs s !!! r =
                  if decide (r < S j)%nat
                  then default (Step2.outs st0 !!! r) (vec !! address g')
                  else Step2.outs st0 !!! r).
      { intros r g' Hr Hk Hne. rewrite (HK r g' Hr Hk).
        repeat case_decide; try done; lia. }
      case_decide as Hk; cycle 1.
      { split; [done |]. intros r g' Hr Hk'.
        destruct (decide (r = j)) as [-> | Hne]; [congruence |].
        by apply Hother. }
      destruct (vec !! address g) as [v |] eqn:Hv; cycle 1.
      { split; [done |]. intros r g' Hr Hk'.
        destruct (decide (r = j)) as [-> | Hne]; [| by apply Hother].
        assert (g' = g) as -> by congruence.
        rewrite decide_True by lia. rewrite Hv. cbn.
        rewrite (HK j g Hj Hk). by rewrite decide_False by lia. }
      case_decide as Hdiff; cycle 1.
      { split; [done |]. intros r g' Hr Hk'.
        destruct (decide (r = j)) as [-> | Hne]; [| by apply Hother].
        assert (g' = g) as -> by congruence.
        rewrite decide_True by lia. rewrite Hv. cbn.
        by destruct (decide (Step2.outs s !!! j = v)). }
      destruct Hs as (HLo & HLs & Hidle).
      assert (Hset : inputs_idle gates (Step2.set_output j v s)).
      { split; [by cbn; rewrite length_insert |]. by split. }
      destruct (schedule_fanouts_idle gates j t _ Hset) as [Hidle' Ho].
      split; [exact Hidle' |]. intros r g' Hr Hk'. rewrite Ho. cbn.
      destruct (decide (r = j)) as [-> | Hne].
      + assert (g' = g) as -> by congruence.
        rewrite decide_True by lia. rewrite Hv. cbn.
        rewrite list_lookup_total_insert_eq; [done |]. rewrite HLo. exact Hjn.
      + rewrite list_lookup_total_insert_ne by done. by apply Hother. }
  destruct HP as [Hs HK]. split; [exact Hs |].
  intros r g Hr Hk. rewrite (HK r g Hr Hk).
  rewrite decide_True; [done |]. cbn. by eapply lookup_lt_Some.
Qed.

Lemma process_event_inputs gates t x st :
  inputs_idle gates st ->
  let st1 := Step2.process_event gates t x st in
  inputs_idle gates st1 /\
  forall r g, gates !! r = Some g -> gate_type g = Kinpt ->
    Step2.outs st1 !!! r = Step2.outs st !!! r.
Proof.
  intros (HLo & HLs & Hidle). cbv zeta. unfold Step2.process_event.
  assert (Hup : inputs_idle gates (Step2.update_output x t st)).
  { split; [| split; [by rewrite update_output_length |]].
    - rewrite update_output_outs. destruct (last _); by rewrite ?length_insert.
    - intros r g Hr Hk. rewrite update_output_pending.
      case_decide as Hrx; [| by eapply Hidle]. subst r.
      by rewrite (Hidle x g Hr Hk). }
  destruct (schedule_fanouts_idle gates x t _ Hup) as [Hidle' Ho].
  split; [exact Hidle' |]. intros r g Hr Hk. rewrite Ho.
  rewrite update_output_outs.
  destruct (last (Step2.pop_due t (pending st x)).1) as [e |] eqn:Hlast;
    [| done].
  rewrite list_lookup_total_insert_ne; [done |]. intros <-.
  rewrite (Hidle x g Hr Hk) in Hlast. discriminate Hlast.
Qed.

Lemma run_steps_inputs gates acts r g :
  gates !! r = Some g -> gate_type g = Kinpt ->
  forall st0,
    inputs_idle gates st0 ->
    inputs_idle gates (run_steps gates acts st0) /\
    Step2.outs (run_steps gates acts st0) !!! r
    = stimulus_value acts (address g) (Step2.outs st0 !!! r).
Proof.
  intros Hr Hk. unfold run_steps.
  induction acts as [| a acts IH]; intros st0 Hst0; [done |].
  cbn [foldl stimulus_value]. destruct a as [t vec |]; cbn [step].
  - destruct (apply_vector_inputs gates vec t st0 Hst0) as [Hidle Hval].
    destruct (IH _ Hidle) as [Hidle' ->]. split; [done |].
    by rewrite (Hval r g Hr Hk).
  - destruct (Step2.timing_queue st0) as [| [[t a] x] q]; [by apply IH |].
    assert (Hpop : inputs_idle gates (Step2.pop_timing st0)) by done.
    destruct (process_event_inputs gates t x _ Hpop) as [Hidle Hval].
    destruct (IH _ Hidle) as [Hidle' ->]. split; [done |].
    by rewrite (Hval r g Hr Hk).
Qed.

Lemma initial_state_idle gates :
  inputs_idle gates (Step2.initial_state gates).
Proof.
  unfold Step2.initial_state.
  split; [apply length_replicate |]. split; [apply length_replicate |].
  intros r' g' _ _. unfold pending. cbn. by apply replicate_lookup_total.
Qed.

(** X14: at every step of the event-driven simulator, from the freshly
    loaded circuit, the output of a primary input is the value given to
    its address by the latest stimulus that names it, and U when none
    does: handling events never changes a primary input, and no event is
    ever scheduled on one. *)
Theorem X14_inputs_follow_the_stimuli gates acts r g :
  gates !! r = Some g -> gate_type g = Kinpt ->
  let st := run_steps gates acts (Step2.initial_state gates) in
  Step2.outs st !!! r = stimulus_value acts (address g) LU /\
  pending st r = [].
Proof.
  intros Hr Hk. cbv zeta.
  destruct (run_steps_inputs gates acts r g Hr Hk _
              (initial_state_idle gates)) as [(_ & _ & Hidle) Hval].
  split.
  - rewrite Hval. f_equal. unfold Step2.initial_state. cbn.
    by apply replicate_lookup_total.
  - by eapply Hidle.
Qed.

Lemma X14_inputs_follow_the_stimuli_witness :
  Step2.outs
    (run_steps glitch
       [Stimulus 0 {[ 1 := L0 ]}; Fire; Stimulus 5 {[ 1 := L1 ]}; Fire]
       (Step2.initial_state glitch)) !!! 0%nat = L1.
Proof.
  refine (proj1 (X14_inputs_follow_the_stimuli glitch
                   [Stimulus 0 {[ 1 := L0 ]}; Fire;
                    Stimulus 5 {[ 1 := L1 ]}; Fire]
                   0%nat _ eq_refl eq_refl)).
Defined.

(** X15: a stimulus whose values the primary inputs it names already hold
    changes nothing: no output, no scheduled event, no entry of the timing
    queue. *)
Theorem X15_unchanged_inputs_schedule_nothing gates vec t st :
  (forall r g v, gates !! r = Some g -> gate_type g = Kinpt ->
     vec !! address g = Some v -> Step2.outs st !!! r = v) ->
  Step2.apply_vector gates vec t 0 gates st = st.
Proof.
  intros Hheld.
  apply (apply_vector_ind (fun _ s => s = st) gates vec t gates 0 st);
    [done |].
  intros j g s Hj ->. cbn [Nat.add].
  case_decide as Hk; [| done].
  destruct (vec !! address g) as [v |] eqn:Hv; [| done].
  rewrite decide_False; [done |]. intros Hne. apply Hne.
  by apply (Hheld j g v).
Qed.

Lemma X15_unchanged_inputs_schedule_nothing_witness :
  Step2.apply_vector and_netlist vector_01 7 0 and_netlist
    (Step2.mkState [L0; L1; L0] [[]; []; []] [] [])
  = Step2.mkState [L0; L1; L0] [[]; []; []] [] [].
Proof.
  apply (X15_unchanged_inputs_schedule_nothing and_netlist vector_01 7).
  intros r g v Hr Hk Hv.
  destruct r as [| [| [| r]]]; cbn in Hr; try discriminate Hr;
    injection Hr as <-; try discriminate Hk;
    vm_compute in Hv; by injection Hv as <-.
Defined.

(** ** The zero-delay pass keeps no state *)

Lemma inputs_first_from_spec gs : forall k,
  inputs_first_from k gs = true ->
  forall j g, gs !! j = Some g ->
    Forall (fun i => (i < k + j)%nat) (inputs g).
Proof.
  induction gs as [| g0 gs IH]; intros k H j g Hj; [done |].
  cbn in H. apply andb_prop in H as [Hin Hrest].
  destruct j as [| j]; cbn in Hj.
  - injection Hj as <-. apply Forall_forall. intros i Hi.
    apply list_elem_of_In in Hi.
    pose proof (proj1 (forallb_forall _ _) Hin i Hi) as Hlt.
    apply bool_decide_eq_true in Hlt. lia.
  - replace (k + S j)%nat with (S k + j)%nat by lia. by apply IH.
Qed.

Lemma simulate_vector_inputs_first gates vec outs :
  inputs_first gates = true -> length outs = length gates ->
  let res := Step1.simulate_vector gates vec outs in
  length res = length gates /\
  forall r g, gates !! r = Some g ->
    res !!! r =
      if decide (gate_type g = Kinpt) then default LU (vec !! address g)
      else Step1.eval_kind (gate_type g)
             (map (fun i => res !!! i) (inputs g)).
Proof.
  intros Hok Hlen. unfold Step1.simulate_vector.
  destruct (set_inputs_spec vec gates 0 outs) as (HL0 & _ & Hat0).
  destruct (evaluate_all_spec gates 0 (Step1.set_inputs vec 0 gates outs))
    as (HL1 & _ & Hat1).
  { intros j g Hj. by apply (inputs_first_from_spec gates 0 Hok j g). }
  { cbn. lia. }
  cbn. split; [congruence |]. intros r g Hr.
  specialize (Hat1 r g Hr). cbn in Hat1. rewrite Hat1.
  case_decide as Hk; [| done].
  specialize (Hat0 r g Hr). cbn in Hat0. rewrite Hat0.
  - by rewrite decide_True.
  - apply lookup_lt_Some in Hr. lia.
Qed.

Lemma simulate_vector_stateless gates vec outs outs' :
  inputs_first gates = true ->
  length outs = length gates -> length outs' = length gates ->
  Step1.simulate_vector gates vec outs = Step1.simulate_vector gates vec outs'.
Proof.
  intros Hok Hlen Hlen'.
  destruct (simulate_vector_inputs_first gates vec outs Hok Hlen)
    as [HL Hat].
  destruct (simulate_vector_inputs_first gates vec outs' Hok Hlen')
    as [HL' Hat'].
  cbv zeta in *.
  set (res := Step1.simulate_vector gates vec outs) in *.
  set (res' := Step1.simulate_vector gates vec outs') in *.
  assert (Heq : forall n r, (r < n)%nat -> (r < length gates)%nat ->
                  res !!! r = res' !!! r).
  { induction n as [| n IH]; intros r Hr Hrn; [lia |].
    destruct (lookup_lt_is_Some_2 gates r Hrn) as [g Hg].
    rewrite (Hat r g Hg), (Hat' r g Hg). case_decide; [done |].
    f_equal.
    pose proof (inputs_first_from_spec gates 0 Hok r g Hg) as Hin.
    apply (map_lookup_ext _ _ _ r Hin). intros i Hi. apply IH; lia. }
  apply list_eq. intros r.
  destruct (decide (r < length gates)%nat) as [Hr | Hr].
  - rewrite !list_lookup_lookup_total_lt by lia. f_equal.
    by apply (Heq (S r)); [lia |].
  - rewrite !lookup_ge_None_2 by lia. done.
Qed.

(** X16: on a netlist whose gates are declared after their inputs, the
    zero-delay simulator keeps no state from one test vector to the next:
    the snapshot logged for a vector is the one the freshly loaded
    circuit gives for that vector alone. *)
Theorem X16_snapshots_depend_on_their_vector gates tvs outs :
  inputs_first gates = true -> length outs = length gates ->
  (Step1.run_simulation_for_vectors gates tvs outs).1
  = map (fun tv : Z * gmap Z Logic =>
           (tv.1, Step1.simulate_vector gates tv.2
                    (Step1.initial_outputs gates))) tvs.
Proof.
  intros Hok. revert outs.
  induction tvs as [| [t vec] tvs IH]; intros outs Hlen; [done |].
  cbn [Step1.run_simulation_for_vectors map fst snd].
  destruct (simulate_vector_inputs_first gates vec outs Hok Hlen)
    as [HL _]. cbv zeta in HL.
  specialize (IH _ HL).
  destruct (Step1.run_simulation_for_vectors gates tvs
              (Step1.simulate_vector gates vec outs)) as [log final].
  cbn in IH |- *. rewrite IH. f_equal. f_equal.
  apply simulate_vector_stateless; [done | done |].
  apply length_replicate.
Qed.

Lemma X16_snapshots_depend_on_their_vector_witness :
  (Step1.run_simulation_for_vectors and_netlist
     [(0, vector_11); (4, vector_01)] [L1; L1; L1]).1
  = [(0, [L1; L1; L1]); (4, [L0; L1; L0])].
Proof.
  rewrite (X16_snapshots_depend_on_their_vector and_netlist
             [(0, vector_11); (4, vector_01)] [L1; L1; L1]
             eq_refl eq_refl).
  vm_compute. reflexivity.
Defined.

(** ** A returned pattern is a test *)

Section EvalSound.
Variables (val : nat -> DValue) (good bad : nat -> bool) (ins : list nat).
Hypothesis Hin : forall i, i ∈ ins -> sound_value (val i) (good i) (bad i).

Lemma sound_at v g b :
  v ∈ map val ins -> pair_of v = Some (g, b) ->
  exists i, i ∈ ins /\ good i = g /\ bad i = b.
Proof.
  intros Hv Hp. apply list_elem_of_In, in_map_iff in Hv as (i & <- & Hi).
  apply list_elem_of_In in Hi. exists i. split; [done |].
  specialize (Hin i Hi _ Hp). by injection Hin as <- <-.
Qed.

Lemma forallb_map_true (f : nat -> bool) :
  (forall i, i ∈ ins -> f i = true) -> forallb id (map f ins) = true.
Proof.
  intros H. apply forallb_forall. intros b Hb.
  apply in_map_iff in Hb as (i & <- & Hi). apply H.
  by apply list_elem_of_In.
Qed.

Lemma forallb_map_false (f : nat -> bool) i :
  i ∈ ins -> f i = false -> forallb id (map f ins) = false.
Proof.
  intros Hi Hf. apply not_true_is_false. intros H.
  assert (Hb : id (f i) = true).
  { apply (proj1 (forallb_forall _ _) H (f i)), in_map.
    by apply list_elem_of_In. }
  unfold id in Hb. congruence.
Qed.

Lemma existsb_map_true (f : nat -> bool) i :
  i ∈ ins -> f i = true -> existsb id (map f ins) = true.
Proof.
  intros Hi Hf. apply existsb_exists. exists (f i). split; [| done].
  apply in_map. by apply list_elem_of_In.
Qed.

Lemma existsb_map_false (f : nat -> bool) :
  (forall i, i ∈ ins -> f i = false) -> existsb id (map f ins) = false.
Proof.
  intros H. apply not_true_is_false. intros Hex.
  apply existsb_exists in Hex as (b & Hb & Hid).
  apply in_map_iff in Hb as (i & <- & Hi).
  rewrite H in Hid; [discriminate Hid |]. by apply list_elem_of_In.
Qed.

Lemma all_in_at allowed i :
  Step3.all_in allowed (map val ins) = true -> i ∈ ins -> val i ∈ allowed.
Proof.
  intros H Hi. unfold Step3.all_in in H.
  apply py_in_true.
  apply (proj1 (forallb_forall _ _) H (val i)), in_map.
  by apply list_elem_of_In.
Qed.

Lemma evaluate_and_sound hx hu hz :
  sound_value (Step3.evaluate_and (map val ins) hx hu hz)
    (forallb id (map good ins)) (forallb id (map bad ins)).
Proof.
  unfold Step3.evaluate_and. intros p.
  destruct (hz || hu); [discriminate |].
  destruct (py_in V0 (map val ins)) eqn:E0.
  { apply py_in_true in E0.
    destruct (sound_at V0 false false E0 eq_refl) as (i & Hi & Hg & Hb).
    rewrite (forallb_map_false good i Hi Hg),
      (forallb_map_false bad i Hi Hb). by intros [= <-]. }
  destruct hx; [discriminate |].
  destruct (py_in VD (map val ins)) eqn:ED;
    destruct (py_in VDbar (map val ins)) eqn:EDb; cbn [andb].
  - apply py_in_true in ED, EDb.
    destruct (sound_at VD true false ED eq_refl) as (i & Hi & _ & Hb).
    destruct (sound_at VDbar false true EDb eq_refl) as (j & Hj & Hg & _).
    rewrite (forallb_map_false good j Hj Hg),
      (forallb_map_false bad i Hi Hb). by intros [= <-].
  - destruct (Step3.all_in [V1; VD] (map val ins)) eqn:Eall.
    + apply py_in_true in ED.
      destruct (sound_at VD true false ED eq_refl) as (i & Hi & _ & Hb).
      rewrite (forallb_map_false bad i Hi Hb), forallb_map_true.
      * by intros [= <-].
      * intros j Hj. pose proof (all_in_at _ j Eall Hj) as Hv.
        apply elem_of_cons in Hv as [Hv | Hv];
          [| apply list_elem_of_singleton in Hv];
          specialize (Hin j Hj); rewrite Hv in Hin;
          by injection (Hin _ eq_refl).
    + destruct (forallb _ _) eqn:E1; [| discriminate].
      rewrite !forallb_map_true; [by intros [= <-] | |];
        intros j Hj;
        pose proof (proj1 (forallb_forall _ _) E1 (val j)) as Hv;
        apply bool_decide_eq_true in Hv;
        try (apply in_map; by apply list_elem_of_In);
        specialize (Hin j Hj); rewrite Hv in Hin;
        by injection (Hin _ eq_refl).
  - destruct (Step3.all_in [V1; VDbar] (map val ins)) eqn:Eall.
    + apply py_in_true in EDb.
      destruct (sound_at VDbar false true EDb eq_refl)
        as (i & Hi & Hg & _).
      rewrite (forallb_map_false good i Hi Hg), forallb_map_true.
      * by intros [= <-].
      * intros j Hj. pose proof (all_in_at _ j Eall Hj) as Hv.
        apply elem_of_cons in Hv as [Hv | Hv];
          [| apply list_elem_of_singleton in Hv];
          specialize (Hin j Hj); rewrite Hv in Hin;
          by injection (Hin _ eq_refl).
    + destruct (forallb _ _) eqn:E1; [| discriminate].
      rewrite !forallb_map_true; [by intros [= <-] | |];
        intros j Hj;
        pose proof (proj1 (forallb_forall _ _) E1 (val j)) as Hv;
        apply bool_decide_eq_true in Hv;
        try (apply in_map; by apply list_elem_of_In);
        specialize (Hin j Hj); rewrite Hv in Hin;
        by injection (Hin _ eq_refl).
  - destruct (forallb _ _) eqn:E1; [| discriminate].
    rewrite !forallb_map_true; [by intros [= <-] | |];
      intros j Hj;
      pose proof (proj1 (forallb_forall _ _) E1 (val j)) as Hv;
      apply bool_decide_eq_true in Hv;
      try (apply in_map; by apply list_elem_of_In);
      specialize (Hin j Hj); rewrite Hv in Hin;
      by injection (Hin _ eq_refl).
Qed.

End EvalSound.

Section EvalSoundOr.
Variables (val : nat -> DValue) (good bad : nat -> bool) (ins : list nat).
Hypothesis Hin : forall i, i ∈ ins -> sound_value (val i) (good i) (bad i).

Lemma sound_known i v g b :
  i ∈ ins -> val i = v -> pair_of v = Some (g, b) ->
  good i = g /\ bad i = b.
Proof.
  intros Hi Hv Hp. specialize (Hin i Hi). rewrite Hv in Hin.
  by injection (Hin _ Hp) as <- <-.
Qed.

Lemma all_zero_at i :
  forallb (fun v => bool_decide (v = V0)) (map val ins) = true ->
  i ∈ ins -> val i = V0.
Proof.
  intros H Hi.
  apply (bool_decide_eq_true_1 (val i = V0)).
  apply (proj1 (forallb_forall _ _) H (val i)), in_map.
  by apply list_elem_of_In.
Qed.

Lemma evaluate_or_sound hx hu hz :
  sound_value (Step3.evaluate_or (map val ins) hx hu hz)
    (existsb id (map good ins)) (existsb id (map bad ins)).
Proof.
  unfold Step3.evaluate_or. intros p.
  destruct (hz || hu); [discriminate |].
  destruct (py_in V1 (map val ins)) eqn:E1.
  { apply py_in_true in E1.
    destruct (sound_at val good bad ins Hin V1 true true E1 eq_refl)
      as (i & Hi & Hg & Hb).
    rewrite (existsb_map_true ins good i Hi Hg),
      (existsb_map_true ins bad i Hi Hb). by intros [= <-]. }
  destruct hx; [discriminate |].
  destruct (py_in VD (map val ins)) eqn:ED;
    destruct (py_in VDbar (map val ins)) eqn:EDb; cbn [andb].
  - apply py_in_true in ED, EDb.
    destruct (sound_at val good bad ins Hin VD true false ED eq_refl)
      as (i & Hi & Hg & _).
    destruct (sound_at val good bad ins Hin VDbar false true EDb eq_refl)
      as (j & Hj & _ & Hb).
    rewrite (existsb_map_true ins good i Hi Hg),
      (existsb_map_true ins bad j Hj Hb). by intros [= <-].
  - destruct (Step3.all_in [V0; VD] (map val ins)) eqn:Eall.
    + apply py_in_true in ED.
      destruct (sound_at val good bad ins Hin VD true false ED eq_refl)
        as (i & Hi & Hg & _).
      rewrite (existsb_map_true ins good i Hi Hg), existsb_map_false.
      * by intros [= <-].
      * intros j Hj. pose proof (all_in_at val ins _ j Eall Hj) as Hv.
        apply elem_of_cons in Hv as [Hv | Hv];
          [| apply list_elem_of_singleton in Hv];
          by destruct (sound_known j _ _ _ Hj Hv eq_refl).
    + destruct (forallb _ _) eqn:E0; [| discriminate].
      rewrite !existsb_map_false; [by intros [= <-] | |];
        intros j Hj;
        by destruct (sound_known j _ _ _ Hj (all_zero_at j E0 Hj) eq_refl).
  - destruct (Step3.all_in [V0; VDbar] (map val ins)) eqn:Eall.
    + apply py_in_true in EDb.
      destruct (sound_at val good bad ins Hin VDbar false true EDb eq_refl)
        as (i & Hi & _ & Hb).
      rewrite (existsb_map_true ins bad i Hi Hb), existsb_map_false.
      * by intros [= <-].
      * intros j Hj. pose proof (all_in_at val ins _ j Eall Hj) as Hv.
        apply elem_of_cons in Hv as [Hv | Hv];
          [| apply list_elem_of_singleton in Hv];
          by destruct (sound_known j _ _ _ Hj Hv eq_refl).
    + destruct (forallb _ _) eqn:E0; [| discriminate].
      rewrite !existsb_map_false; [by intros [= <-] | |];
        intros j Hj;
        by destruct (sound_known j _ _ _ Hj (all_zero_at j E0 Hj) eq_refl).
  - destruct (forallb _ _) eqn:E0; [| discriminate].
    rewrite !existsb_map_false; [by intros [= <-] | |];
      intros j Hj;
      by destruct (sound_known j _ _ _ Hj (all_zero_at j E0 Hj) eq_refl).
Qed.

(** The value [evaluate_not] returns for a one-element list. *)
Lemma evaluate_not_sound v g b hx hu hz out :
  sound_value v g b ->
  Step3.evaluate_not [v] hx hu hz = Some out ->
  sound_value out (negb g) (negb b).
Proof.
  intros Hv [= <-] p. destruct (hz || hu); [discriminate |].
  destruct v; try discriminate; intros [= <-];
    by injection (Hv _ eq_refl) as <- <-.
Qed.

(** The value a gate computes from the values of its inputs, before the
    fault injection. *)
Lemma gate_value_sound k o hx hu hz out :
  k <> Kinpt -> py_in k [Kxor; Kxnor; Kother] = false ->
  match k with
  | Kinpt => Some o
  | Kand => Some (Step3.evaluate_and (map val ins) hx hu hz)
  | Kor => Some (Step3.evaluate_or (map val ins) hx hu hz)
  | Kxor => Some (Step3.evaluate_xor (map val ins) hx hu hz)
  | Knot => Step3.evaluate_not (map val ins) hx hu hz
  | Kbuf => Step3.evaluate_buf (map val ins) hx hu hz
  | Knand => Step3.evaluate_nand (map val ins) hx hu hz
  | Knor => Step3.evaluate_nor (map val ins) hx hu hz
  | Kxnor => Step3.evaluate_xnor (map val ins) hx hu hz
  | Kfanout => Step3.evaluate_fanout (map val ins) hx hu hz
  | Kother => Some VX
  end = Some out ->
  sound_value out (boolean_function k (map good ins))
    (boolean_function k (map bad ins)).
Proof.
  intros Hne Hk H. destruct k; try discriminate Hk; try done;
    cbn [boolean_function].
  - injection H as <-. apply (evaluate_and_sound val good bad ins Hin).
  - injection H as <-. apply evaluate_or_sound.
  - eapply (evaluate_not_sound _ _ _ hx hu hz); [| exact H].
    apply (evaluate_and_sound val good bad ins Hin).
  - eapply (evaluate_not_sound _ _ _ hx hu hz); [| exact H]. apply evaluate_or_sound.
  - destruct ins as [| i ins']; [discriminate H |]. cbn [map head default].
    change (Step3.evaluate_not (val i :: map val ins') hx hu hz)
      with (Step3.evaluate_not [val i] hx hu hz) in H.
    eapply (evaluate_not_sound _ _ _ hx hu hz); [| exact H]. apply Hin. by left.
  - destruct ins as [| i ins']; [discriminate H |]. cbn in H |- *.
    injection H as <-. apply Hin. by left.
  - destruct ins as [| i ins']; [discriminate H |]. cbn in H |- *.
    injection H as <-. apply Hin. by left.
Qed.

End EvalSoundOr.

(** [imply] ends in a store that a pass over the gates leaves as it is, and
    then every single gate leaves it as it is. *)
Lemma imply_stable c fuel : forall st st',
  Step3.imply c fuel st = Ok st' -> Step3.evaluate_pass c st' = Some st'.
Proof.
  induction fuel as [| fuel IH]; intros st st' H; [discriminate H |].
  cbn [Step3.imply] in H.
  destruct (Step3.evaluate_pass c st) as [st1 |] eqn:Hpass;
    [| discriminate H]. cbn in H.
  case_decide as Hchg; [by eapply IH |]. injection H as <-.
  destruct (evaluate_pass_frame c st st1 Hpass) as ([HL Ho] & Hout & _).
  assert (Hsame : st1 = st).
  { apply lookup_total_eq; [done |]. intros r.
    destruct (Ho r) as (? & ? & ? & ? & ?).
    apply GateState_eq; try done.
    destruct (decide (r ∈ Step3.values c)) as [Hr | Hr];
      [| by apply Hout].
    unfold Step3.outputs_of in Hchg.
    apply (map_eq_elem _ _ _ r Hchg). by apply sorted_gates_elem. }
  by rewrite Hsame in Hpass |- *.
Qed.

Lemma alter_same_at (f : Step3.GateState -> Step3.GateState) (r : nat)
    (st : list Step3.GateState) :
  alter f r st !!! r = st !!! r -> alter f r st = st.
Proof.
  intros H. destruct (decide (r < length st)%nat) as [Hlt | Hge].
  - apply alter_fixed. rewrite list_lookup_total_alter in H.
    by rewrite decide_True in H.
  - apply list_eq. intros i. rewrite list_lookup_alter.
    case_decide as Hi; [| done]. subst i.
    by rewrite lookup_ge_None_2 by lia.
Qed.

Lemma gates_fixed c l : forall st,
  NoDup l ->
  Step3.for_each (fun g s => Step3.d_algebra_evaluate (Step3.gate_of c g) g s)
    l st = Some st ->
  forall g, g ∈ l ->
    Step3.d_algebra_evaluate (Step3.gate_of c g) g st = Some st.
Proof.
  induction l as [| x l IH]; intros st Hnd H g Hg.
  { destruct (proj1 (elem_of_nil _) Hg). }
  apply NoDup_cons in Hnd as [Hx Hnd]. cbn in H.
  destruct (Step3.d_algebra_evaluate (Step3.gate_of c x) x st)
    as [s1 |] eqn:Hstep; [| discriminate H]. cbn in H.
  assert (Hkeep : st !!! x = s1 !!! x).
  { revert H.
    apply (for_each_inv (fun s => s !!! x = s1 !!! x) (fun y => y ∈ l));
      [| by apply Forall_forall | done].
    intros y s s' Hy Hs Hb.
    apply d_algebra_evaluate_spec in Hb as (out & -> & _).
    rewrite list_lookup_total_alter_ne; [done |]. by intros ->. }
  assert (Hs1 : s1 = st).
  { pose proof Hstep as Hsp.
    apply d_algebra_evaluate_spec in Hsp as (out & -> & _).
    by apply alter_same_at. }
  subst s1. apply elem_of_cons in Hg as [-> | Hg]; [done |].
  by apply IH.
Qed.

Lemma consumers_first_NoDup c l : consumers_first c l = true -> NoDup l.
Proof.
  induction l as [| x l IH]; intros H; [apply NoDup_nil_2 |].
  apply consumers_first_cons in H as (_ & Hl & H).
  apply NoDup_cons. split; [| by apply IH].
  intros Hx. by destruct (Hl x Hx).
Qed.

Lemma consumers_first_app c l1 l2 :
  consumers_first c (l1 ++ l2) = true ->
  consumers_first c l2 = true /\
  forall y z, y ∈ l1 -> z ∈ l2 -> y ∉ inputs (Step3.gate_of c z).
Proof.
  induction l1 as [| x l1 IH]; intros H.
  { split; [done |]. intros y z Hy. destruct (proj1 (elem_of_nil _) Hy). }
  cbn [app] in H. apply consumers_first_cons in H as (_ & Hl & H).
  destruct (IH H) as [H2 Hall]. split; [done |].
  intros y z Hy Hz. apply elem_of_cons in Hy as [-> | Hy]; [| by apply Hall].
  apply (Hl z). apply elem_of_app. by right.
Qed.

Lemma pass_fixed_each c st :
  consumers_first c (rev (Step3.values c)) = true ->
  Step3.evaluate_pass c st = Some st ->
  forall g, g ∈ Step3.values c ->
    Step3.d_algebra_evaluate (Step3.gate_of c g) g st = Some st.
Proof.
  intros Hord Hpass g Hg.
  apply (gates_fixed c (Step3.sorted_gates c)); [| done |].
  - unfold Step3.sorted_gates. rewrite sorted_by_perm.
    apply consumers_first_NoDup in Hord.
    by rewrite <- Permutation_rev in Hord.
  - by apply sorted_gates_elem.
Qed.

(** The inputs of a gate of the map come before it in the map. *)
Lemma inputs_earlier c l1 x l2 i :
  Step3.values c = l1 ++ x :: l2 ->
  consumers_first c (rev (Step3.values c)) = true ->
  i ∈ Step3.values c -> i ∈ inputs (Step3.gate_of c x) ->
  i ∈ l1 /\ x ∉ l1.
Proof.
  intros Hv Hord Hi Hin. rewrite Hv in Hord, Hi.
  rewrite rev_app_distr in Hord. cbn [rev] in Hord.
  rewrite <- app_assoc in Hord. cbn [app] in Hord.
  apply consumers_first_app in Hord as [Hord Hlater].
  apply consumers_first_cons in Hord as (Hself & Hl & _).
  split.
  - apply elem_of_app in Hi as [Hi | Hi]; [done |].
    apply elem_of_cons in Hi as [-> | Hi]; [done |].
    destruct (Hlater i x); [by apply elem_of_rev | by left | done].
  - intros Hx. by destruct (Hl x); [apply elem_of_rev |].
Qed.

(** *** Primary inputs never carry a stray D *)

Lemma d_algebra_clean c g st st' :
  Step3.d_algebra_evaluate (Step3.gate_of c g) g st = Some st' ->
  pi_clean c st -> pi_clean c st'.
Proof.
  intros H Hc r Hr Hk.
  apply d_algebra_evaluate_spec in H as (out & -> & Hinpt).
  rewrite list_lookup_total_alter.
  case_decide as Hd; [| by apply Hc]. destruct Hd as [-> Hlt].
  specialize (Hinpt Hk). subst out.
  specialize (Hc r Hr Hk). unfold Step3.inject_fault.
  destruct (st !!! r) as [o f fv c0 c1 co]. cbn in *.
  destruct f; [| done].
  destruct fv, o; cbn; split; intros; try done; tauto.
Qed.

Lemma evaluate_pass_clean c st st' :
  Step3.evaluate_pass c st = Some st' -> pi_clean c st -> pi_clean c st'.
Proof.
  intros H Hc. revert H.
  apply (for_each_inv (pi_clean c) (fun _ => True));
    [| by apply Forall_forall | done].
  intros g s s' _ Hs Hb. by eapply d_algebra_clean.
Qed.

Lemma imply_clean c fuel : forall st st',
  Step3.imply c fuel st = Ok st' -> pi_clean c st -> pi_clean c st'.
Proof.
  induction fuel as [| fuel IH]; intros st st' H Hc; [discriminate H |].
  cbn [Step3.imply] in H.
  destruct (Step3.evaluate_pass c st) as [st1 |] eqn:Hpass;
    [| discriminate H]. cbn in H.
  pose proof (evaluate_pass_clean c st st1 Hpass Hc) as Hc1.
  case_decide; [by eapply IH | by injection H as <-].
Qed.

Lemma assign_clean c tpi v st :
  Step3.is_D v = false -> pi_clean c st ->
  pi_clean c (Step3.assign tpi v st).
Proof.
  intros Hv Hc r Hr Hk. unfold Step3.assign.
  rewrite list_lookup_total_alter.
  case_decide as Hd; [| by apply Hc]. cbn.
  split; intros ->; discriminate Hv.
Qed.

Lemma opposite_not_D v : Step3.is_D (Step3.oppositeVal v) = false.
Proof. by destruct v. Qed.

Lemma get_objective_value c fuel st p og ov p1 :
  Step3.get_objective c fuel st p = Ok (og, ov, p1) ->
  Step3.is_D ov = false.
Proof.
  unfold Step3.get_objective. intros H.
  destruct (Step3.fault_gate p) as [fg |]; [| discriminate H]. cbn in H.
  destruct (negb _).
  - destruct (py_in _ _); injection H as <- <- <-; [done |].
    apply opposite_not_D.
  - result_bind H. destruct a as [| g0 gs]; [by injection H as <- <- <- |].
    destruct (filter _ _); injection H as <- <- <-; [done |].
    by destruct (gate_type _).
Qed.

Lemma backtrace_value c fuel : forall st g v pi v',
  Step3.backtrace c fuel st g v = Ok (pi, v') ->
  Step3.is_D v = false -> Step3.is_D v' = false.
Proof.
  induction fuel as [| fuel IH]; intros st g v pi v' H Hv;
    [discriminate H |].
  cbn [Step3.backtrace] in H.
  case_decide; [by injection H as <- <- |].
  unfold Step3.backtrace_step in H. cbv zeta in H.
  destruct (if Step3.check_imply_gate _ _ then _ else _) as [t |];
    [| discriminate H].
  apply IH in H; [done |].
  destruct (Step3.inversion _); [apply opposite_not_D | done].
Qed.

(** [podem_recursive] keeps the primary inputs clean, and answers true
    in the store it started from or in one that [imply] returned. *)
Lemma podem_recursive_state c fuel : forall st p st' p' found,
  Step3.podem_recursive c fuel st p = Ok (st', p', found) ->
  pi_clean c st ->
  pi_clean c st' /\
  (found = true -> st' = st \/ Step3.evaluate_pass c st' = Some st').
Proof.
  induction fuel as [| fuel IH]; intros st p st' p' found H Hc;
    [discriminate H |].
  cbn [Step3.podem_recursive] in H.
  destruct (Step3.success c st) eqn:Hs.
  { injection H as <- <- <-. split; [done | by left]. }
  result_bind H. destruct a as [[og ov] p1]. cbn in H. rename E into Hobj.
  destruct og as [og |];
    [| injection H as <- <- <-; split; [done | discriminate]].
  result_bind H. destruct a as [tpi tv]. cbn in H. rename E into Hbt.
  result_bind H. rename a into st1. rename E into Hi1.
  result_bind H. destruct a as [[st2 p2] found2]. cbn in H.
  rename E into Hrec2.
  pose proof (get_objective_value _ _ _ _ _ _ _ Hobj) as Hov.
  pose proof (backtrace_value _ _ _ _ _ _ _ Hbt Hov) as Htv.
  pose proof (imply_clean _ _ _ _ Hi1 (assign_clean c tpi tv st Htv Hc))
    as Hc1.
  destruct (IH _ _ _ _ _ Hrec2 Hc1) as [Hc2 Hf2].
  destruct found2.
  { injection H as <- <- <-. split; [done |]. intros _. right.
    destruct (Hf2 eq_refl) as [-> | Hfix]; [by eapply imply_stable | done]. }
  result_bind H. rename a into st3. rename E into Hi3.
  result_bind H. destruct a as [[st4 p4] found4]. cbn in H.
  rename E into Hrec4.
  pose proof (imply_clean _ _ _ _ Hi3
                (assign_clean c tpi _ st2 (opposite_not_D tv) Hc2)) as Hc3.
  destruct (IH _ _ _ _ _ Hrec4 Hc3) as [Hc4 Hf4].
  destruct found4.
  { injection H as <- <- <-. split; [done |]. intros _. right.
    destruct (Hf4 eq_refl) as [-> | Hfix]; [by eapply imply_stable | done]. }
  result_bind H. injection H as <- <- <-. split; [| discriminate].
  by apply (imply_clean _ _ _ _ E), (assign_clean c tpi VX st4).
Qed.

(** *** The values of a stable store are those of the two circuits *)

Lemma combinational_spec c :
  combinational c = true ->
  consumers_first c (rev (Step3.values c)) = true /\
  (forall r, r ∈ Step3.values c ->
     (forall i, i ∈ inputs (Step3.gate_of c r) -> i ∈ Step3.values c) /\
     py_in (gate_type (Step3.gate_of c r)) [Kxor; Kxnor; Kother] = false /\
     (gate_type (Step3.gate_of c r) = Kinpt ->
      r ∈ Step3.primary_inputs c)) /\
  (forall po, po ∈ Step3.primary_outputs c -> po ∈ Step3.values c).
Proof.
  unfold combinational. intros H.
  apply andb_true_iff in H as [H Hpo]. apply andb_true_iff in H as [Hord Hg].
  split; [done |]. split.
  - intros r Hr. apply list_elem_of_In in Hr.
    pose proof (proj1 (forallb_forall _ _) Hg r Hr) as Hr'. cbv zeta in Hr'.
    apply andb_true_iff in Hr' as [Hr' Hpi].
    apply andb_true_iff in Hr' as [Hin Hk].
    split; [| split].
    + intros i Hi. apply list_elem_of_In in Hi.
      by apply py_in_true, (proj1 (forallb_forall _ _) Hin i).
    + by apply negb_true_iff.
    + intros Hinpt. apply orb_true_iff in Hpi as [Hpi | Hpi].
      * apply negb_true_iff, bool_decide_eq_false in Hpi. done.
      * by apply py_in_true.
  - intros po Hin. apply list_elem_of_In in Hin.
    by apply py_in_true, (proj1 (forallb_forall _ _) Hpo po).
Qed.

Lemma simulates_spec c fg stuck good bad :
  simulates c fg stuck good bad = true ->
  forall r, r ∈ Step3.values c ->
    (gate_type (Step3.gate_of c r) <> Kinpt ->
     good r = boolean_function (gate_type (Step3.gate_of c r))
                (map good (inputs (Step3.gate_of c r)))) /\
    bad r = (if decide (r = fg) then stuck
             else if decide (gate_type (Step3.gate_of c r) = Kinpt)
                  then good r
                  else boolean_function (gate_type (Step3.gate_of c r))
                         (map bad (inputs (Step3.gate_of c r)))).
Proof.
  unfold simulates. intros H r Hr. apply list_elem_of_In in Hr.
  pose proof (proj1 (forallb_forall _ _) H r Hr) as Hr'. cbv zeta in Hr'.
  apply andb_true_iff in Hr' as [Hg Hb]. split.
  - intros Hk. apply orb_true_iff in Hg as [Hg | Hg].
    + by apply bool_decide_eq_true in Hg.
    + by apply eqb_prop.
  - by apply eqb_prop.
Qed.

Lemma zip_map_elem {A B} (f : A -> B) (l : list A) x :
  x ∈ l -> In (x, f x) (zip l (map f l)).
Proof.
  induction l as [| y l IH]; intros Hx.
  - destruct (proj1 (elem_of_nil _) Hx).
  - apply elem_of_cons in Hx as [-> | Hx]; cbn; [by left | right; auto].
Qed.

Lemma applies_spec c st good r :
  applies c (Step3.test_vector_of c st) good = true ->
  r ∈ Step3.primary_inputs c ->
  match Step3.pattern_value (Step3.output (st !!! r)) with
  | V0 => good r = false
  | V1 => good r = true
  | _ => True
  end.
Proof.
  unfold applies, Step3.test_vector_of. intros H Hr.
  pose proof (proj1 (forallb_forall _ _) H _
                (zip_map_elem
                   (fun g => Step3.pattern_value (Step3.output (st !!! g)))
                   _ r Hr)) as Hrv.
  cbn in Hrv.
  destruct (Step3.pattern_value _); try done.
  by apply negb_true_iff.
Qed.

Lemma fixed_point_sound c st fg stuck good bad :
  combinational c = true ->
  simulates c fg stuck good bad = true ->
  (forall g, g ∈ Step3.values c ->
     Step3.d_algebra_evaluate (Step3.gate_of c g) g st = Some st) ->
  (forall r, r ∈ Step3.values c -> r <> fg ->
     Step3.faulty (st !!! r) = false) ->
  ((fg < length st)%nat ->
   Step3.faulty (st !!! fg) = true /\
   Step3.fault_value (st !!! fg) = if stuck then V1 else V0) ->
  (forall r, r ∈ Step3.values c ->
     gate_type (Step3.gate_of c r) = Kinpt ->
     sound_value (Step3.output (st !!! r)) (good r) (bad r)) ->
  forall r, r ∈ Step3.values c ->
    sound_value (Step3.output (st !!! r)) (good r) (bad r).
Proof.
  intros Hcomb Hsim Hfix Hnf Hf Hpi.
  destruct (combinational_spec c Hcomb) as (Hord & Hgates & _).
  assert (Hpre : forall l1 l2, Step3.values c = l1 ++ l2 ->
            forall r, r ∈ l1 ->
              sound_value (Step3.output (st !!! r)) (good r) (bad r) /\
              (fg ∉ l1 -> good r = bad r)).
  { induction l1 as [| x l1 IH] using rev_ind; intros l2 Hv r Hr.
    { destruct (proj1 (elem_of_nil _) Hr). }
    rewrite <- app_assoc in Hv. cbn [app] in Hv.
    specialize (IH _ Hv).
    apply elem_of_app in Hr as [Hr | Hr].
    { destruct (IH r Hr) as [Hs Hq]. split; [done |]. intros Hfg.
      apply Hq. intros Hin. apply Hfg, elem_of_app. by left. }
    apply list_elem_of_singleton in Hr. subst r.
    assert (Hx : x ∈ Step3.values c).
    { rewrite Hv. apply elem_of_app. right. by left. }
    destruct (Hgates x Hx) as (Hclosed & Hkind & _).
    destruct (simulates_spec c fg stuck good bad Hsim x Hx)
      as [Hgood Hbad].
    assert (Hins : forall i, i ∈ inputs (Step3.gate_of c x) ->
              i ∈ l1 /\ x ∉ l1).
    { intros i Hi. apply (inputs_earlier c l1 x l2 i); auto. }
    destruct (decide (gate_type (Step3.gate_of c x) = Kinpt)) as [Hk | Hk].
    { split; [by apply Hpi |]. intros Hfg. rewrite Hbad.
      rewrite decide_False; [done |].
      intros ->. apply Hfg, elem_of_app. right. by left. }
    specialize (Hgood Hk).
    assert (Hsound : forall i, i ∈ inputs (Step3.gate_of c x) ->
              sound_value (Step3.output (st !!! i)) (good i) (bad i)).
    { intros i Hi. destruct (Hins i Hi) as [Hi1 _].
      by destruct (IH i Hi1). }
    split.
    - destruct (decide (x < length st)%nat) as [Hlt | Hge]; cycle 1.
      { intros p Hp.
        rewrite list_lookup_total_alt, lookup_ge_None_2 in Hp by lia.
        discriminate Hp. }
      pose proof (Hfix x Hx) as Hstep.
      unfold Step3.d_algebra_evaluate in Hstep. cbv zeta in Hstep.
      match type of Hstep with
      | context [mbind _ ?m] => destruct m as [a |] eqn:E
      end; [| discriminate Hstep].
      cbn in Hstep. injection Hstep as Hst.
      assert (Hout : Step3.output (st !!! x)
                     = Step3.inject_fault (st !!! x) a).
      { rewrite <- Hst at 1. rewrite list_lookup_total_alter.
        by rewrite decide_True. }
      pose proof (gate_value_sound (fun i => Step3.output (st !!! i))
                    good bad _ Hsound _ _ _ _ _ _ Hk Hkind E) as Hval.
      rewrite Hout. unfold Step3.inject_fault.
      destruct (decide (x = fg)) as [-> | Hne].
      + destruct (Hf Hlt) as [Hfl Hfv]. rewrite Hfl, Hfv.
        rewrite Hbad, Hgood.
        assert (Heq : map good (inputs (Step3.gate_of c fg))
                      = map bad (inputs (Step3.gate_of c fg))).
        { apply map_ext_in. intros i Hi. apply list_elem_of_In in Hi.
          destruct (Hins i Hi) as [Hi1 Hfg1]. by apply (IH i Hi1). }
        rewrite Heq in Hval |- *.
        clear -Hval. intros p Hp.
        destruct stuck, a; vm_compute in Hp; try discriminate Hp;
          injection Hp as <-; pose proof (Hval _ eq_refl); congruence.
      + rewrite (Hnf x Hx Hne). by rewrite Hbad, Hgood.
    - intros Hfg. rewrite Hbad.
      rewrite decide_False.
      + rewrite Hgood. f_equal. apply map_ext_in. intros i Hi.
        apply list_elem_of_In in Hi. destruct (Hins i Hi) as [Hi1 _].
        apply (IH i Hi1). intros Hin. apply Hfg, elem_of_app. by left.
      + intros ->. apply Hfg, elem_of_app. right. by left. }
  intros r Hr. apply (Hpre (Step3.values c) []); [by rewrite app_nil_r | done].
Qed.

Lemma podem_init_output c st r :
  r ∈ Step3.values c ->
  Step3.output (Step3.podem_init c st !!! r) = VX \/
  Step3.output (Step3.podem_init c st !!! r) = VU.
Proof.
  unfold Step3.podem_init.
  induction (Step3.values c) as [| g gs IH] using rev_ind; intros Hr.
  { destruct (proj1 (elem_of_nil _) Hr). }
  rewrite foldl_app. cbn [foldl].
  rewrite list_lookup_total_alter. case_decide as Hd; [by left |].
  apply elem_of_app in Hr as [Hr | Hr]; [by apply IH |].
  apply list_elem_of_singleton in Hr. subst r. right.
  assert (Hge : ~ (g < length
                     (foldl (fun s g0 =>
                               alter (Step3.set_output_field VX) g0 s)
                        st gs))%nat) by tauto.
  by rewrite list_lookup_total_alt, lookup_ge_None_2 by lia.
Qed.

(** X17: a pattern that [generate_test_vector] returns is a test for the
    fault.  On a netlist of and, or, nand, nor, not, buf, fanout and inpt
    gates listed after their inputs, with no gate marked faulty
    beforehand: whenever the primary inputs take the values of the pattern
    where it holds 0 or 1 (and any values where it holds X), some primary
    output differs between the fault-free circuit and the circuit whose
    gate [fg] is stuck at the given value. *)
Theorem X17_returned_pattern_detects_the_fault
    c fuel st nm sv st' tv fg good bad :
  combinational c = true ->
  forallb (fun r => negb (Step3.faulty (st !!! r))) (Step3.values c) = true ->
  Step3.generate_test_vector c fuel st (nm, sv) = Ok (st', Some tv) ->
  Step3.dict_get nm (Step3.gates c) = Some fg ->
  simulates c fg (bool_decide (sv = 1)) good bad = true ->
  applies c tv good = true ->
  exists po, po ∈ Step3.primary_outputs c /\ good po <> bad po.
Proof.
  intros Hcomb Hnof Hgen Hfg Hsim Happ.
  destruct (combinational_spec c Hcomb) as (Hord & Hgates & Hpos).
  unfold Step3.generate_test_vector in Hgen. cbn [fst snd] in Hgen.
  rewrite Hfg in Hgen. cbn in Hgen.
  result_bind Hgen. destruct a as [[st3 p3] found]. cbn in Hgen.
  destruct found; [| discriminate Hgen]. injection Hgen as <- <-.
  rewrite test_vector_alter_fault in Happ. rename E into Hrec.
  set (svV := if decide (sv = 1) then V1 else V0) in *.
  set (st2 := alter (Step3.set_fault true svV) fg (Step3.podem_init c st))
    in *.
  assert (Hfgv : fg ∈ Step3.values c).
  { apply dict_get_elem in Hfg. unfold Step3.values.
    apply list_elem_of_fmap. by exists (nm, fg). }
  assert (Hout2 : forall r, r ∈ Step3.values c ->
            Step3.is_D (Step3.output (st2 !!! r)) = false).
  { intros r Hr. unfold st2.
    rewrite (lookup_alter_field Step3.output) by done.
    by destruct (podem_init_output c st r Hr) as [-> | ->]. }
  assert (Hc2 : pi_clean c st2).
  { intros r Hr _. specialize (Hout2 r Hr).
    split; intros Ho; rewrite Ho in Hout2; discriminate Hout2. }
  destruct (podem_recursive_state c fuel _ _ _ _ _ Hrec Hc2)
    as [Hc3 Hfound].
  pose proof (podem_recursive_success c fuel _ _ _ _ Hrec) as Hs3.
  assert (Hpass : Step3.evaluate_pass c st3 = Some st3).
  { destruct (Hfound eq_refl) as [Heq | Hpass]; [| done]. exfalso.
    rewrite Heq in Hs3. unfold Step3.success in Hs3.
    apply existsb_exists in Hs3 as (po & Hpo & HD).
    apply list_elem_of_In in Hpo. rewrite (Hout2 po) in HD by auto.
    discriminate HD. }
  pose proof (pass_fixed_each c st3 Hord Hpass) as Hfix.
  destruct (podem_recursive_frame c fuel _ _ _ _ _ Hrec) as [HL3 Ho3].
  destruct (podem_init_frame c st) as [HLi Hoi].
  assert (Hnf : forall r, r ∈ Step3.values c -> r <> fg ->
            Step3.faulty (st3 !!! r) = false).
  { intros r Hr Hne. destruct (Ho3 r) as (-> & _). unfold st2.
    rewrite list_lookup_total_alter_ne by done.
    destruct (Hoi r) as (-> & _). apply list_elem_of_In in Hr.
    by apply negb_true_iff, (proj1 (forallb_forall _ _) Hnof r). }
  assert (Hf : (fg < length st3)%nat ->
            Step3.faulty (st3 !!! fg) = true /\
            Step3.fault_value (st3 !!! fg)
            = if bool_decide (sv = 1) then V1 else V0).
  { intros Hlt. destruct (Ho3 fg) as (-> & -> & _). unfold st2.
    rewrite list_lookup_total_alter.
    rewrite decide_True
      by (split; [done |]; rewrite HL3 in Hlt; unfold st2 in Hlt;
          by rewrite length_alter in Hlt).
    cbn. split; [done |]. unfold svV. by case_bool_decide; case_decide. }
  assert (Hpi : forall r, r ∈ Step3.values c ->
            gate_type (Step3.gate_of c r) = Kinpt ->
            sound_value (Step3.output (st3 !!! r)) (good r) (bad r)).
  { intros r Hr Hk p Hp.
    destruct (decide (r < length st3)%nat) as [Hlt | Hge]; cycle 1.
    { rewrite list_lookup_total_alt, lookup_ge_None_2 in Hp by lia.
      discriminate Hp. }
    destruct (Hgates r Hr) as (_ & _ & Hrin). specialize (Hrin Hk).
    pose proof (applies_spec c st3 good r Happ Hrin) as Hpat.
    destruct (simulates_spec c fg _ good bad Hsim r Hr) as [_ Hbad].
    rewrite (decide_True (P := gate_type _ = Kinpt)) in Hbad by done.
    destruct (Hc3 r Hr Hk) as [HD HDb].
    pose proof (Hfix r Hr) as Hstep.
    apply d_algebra_evaluate_spec in Hstep as (out & Hst & Hinpt).
    specialize (Hinpt Hk). subst out.
    assert (Hinj : Step3.output (st3 !!! r)
                   = Step3.inject_fault (st3 !!! r)
                       (Step3.output (st3 !!! r))).
    { rewrite Hst at 1. rewrite list_lookup_total_alter.
      by rewrite decide_True. }
    unfold Step3.inject_fault in Hinj.
    destruct (decide (r = fg)) as [-> | Hne].
    - destruct (Hf Hlt) as [Hfl Hfv]. rewrite Hfl, Hfv in Hinj.
      rewrite Hfv in HD, HDb. clear -Hinj HD HDb Hpat Hbad Hp.
      destruct (bool_decide (sv = 1));
        destruct (Step3.output (st3 !!! fg));
        try discriminate Hp; cbn in Hp, Hpat; injection Hp as <-;
        try (vm_compute in Hinj; discriminate Hinj);
        try (destruct (HD eq_refl) as [_ Hx]; discriminate Hx);
        try (destruct (HDb eq_refl) as [_ Hx]; discriminate Hx);
        congruence.
    - rewrite (Hnf r Hr Hne) in HD, HDb.
      clear -HD HDb Hpat Hbad Hp.
      destruct (Step3.output (st3 !!! r));
        try discriminate Hp; cbn in Hp, Hpat; injection Hp as <-;
        try (destruct (HD eq_refl) as [Hx _]; discriminate Hx);
        try (destruct (HDb eq_refl) as [Hx _]; discriminate Hx);
        congruence. }
  pose proof (fixed_point_sound c st3 fg _ good bad Hcomb Hsim Hfix Hnf Hf
                Hpi) as Hsound.
  unfold Step3.success in Hs3.
  apply existsb_exists in Hs3 as (po & Hpo & HD).
  apply list_elem_of_In in Hpo. exists po. split; [done |].
  specialize (Hsound po (Hpos po Hpo)).
  destruct (Step3.output (st3 !!! po)); try discriminate HD;
    pose proof (Hsound _ eq_refl); congruence.
Qed.

Lemma X17_returned_pattern_detects_the_fault_witness :
  exists po, po ∈ Step3.primary_outputs c17 /\ c17_good po <> c17_bad po.
Proof.
  eapply (X17_returned_pattern_detects_the_fault c17 60 c17_measured
            "10" 1 _ [V1; VX; V1; V1; VX] 7%nat c17_good c17_bad).
  - vm_compute. reflexivity.
  - vm_compute. reflexivity.
  - vm_compute. reflexivity.
  - vm_compute. reflexivity.
  - vm_compute. reflexivity.
  - vm_compute. reflexivity.
Defined.

(** ** The event-driven run applies every test vector *)

Lemma drain_fires gates t fuel : forall st st',
  Step2.drain fuel gates t st = Some st' ->
  exists acts, st' = run_steps gates acts st /\ stimuli_of acts = [].
Proof.
  induction fuel as [| fuel IH]; intros st st' H; [done |].
  cbn in H.
  destruct (Step2.timing_queue st) as [| [[t' a] x] q] eqn:Hq.
  - injection H as <-. by exists [].
  - destruct (decide (t' = t)) as [-> | Hne];
      [| injection H as <-; by exists []].
    destruct (IH _ _ H) as (acts & -> & Hs). exists (Fire :: acts).
    split; [| done]. unfold run_steps. cbn. by rewrite Hq.
Qed.

Lemma stimuli_of_app a1 a2 :
  stimuli_of (a1 ++ a2) = stimuli_of a1 ++ stimuli_of a2.
Proof. unfold stimuli_of. apply omap_app. Qed.

Lemma run_simulation_stimuli gates fuel : forall tvs st st',
  Step2.run_simulation_for_vectors fuel gates tvs st = Some st' ->
  Step2.timing_queue st' = [] /\
  exists acts, st' = run_steps gates acts st /\ stimuli_of acts = tvs.
Proof.
  induction fuel as [| fuel IH]; intros tvs st st' H; [done |].
  cbn in H.
  destruct (Step2.next_time tvs st) as [now |] eqn:Hnext; cycle 1.
  { injection H as <-. unfold Step2.next_time in Hnext.
    destruct tvs as [| [nt vec] rest].
    - destruct (Step2.timing_queue st) as [| [[qt a] x] q]; [| done].
      split; [done |]. by exists [].
    - by destruct (Step2.timing_queue st) as [| [[qt a] x] q]. }
  assert (Hhead : exists acts rest,
            (match tvs with
             | (nt, vec) :: rest =>
                 if decide (now = nt)
                 then (Step2.apply_vector gates vec now 0 gates st, rest)
                 else (st, tvs)
             | [] => (st, [])
             end) = (run_steps gates acts st, rest)
            /\ tvs = stimuli_of acts ++ rest).
  { destruct tvs as [| [nt vec] rest]; [by exists [], [] |].
    destruct (decide (now = nt)) as [-> | Hne].
    - by exists [Stimulus nt vec], rest.
    - by exists [], ((nt, vec) :: rest). }
  destruct Hhead as (acts1 & rest & Hhead & Htvs). rewrite Hhead in H.
  destruct (Step2.drain fuel gates now (run_steps gates acts1 st))
    as [st2 |] eqn:Hd; [| done].
  destruct (drain_fires _ _ _ _ _ Hd) as (acts2 & -> & Hs2).
  destruct (IH _ _ _ H) as (Hq & acts3 & -> & Hs3).
  split; [done |].
  exists (acts1 ++ acts2 ++ acts3). split.
  - unfold run_steps. by rewrite !foldl_app.
  - by rewrite !stimuli_of_app, Hs2, Hs3, Htvs.
Qed.

Lemma stimulus_value_last acts a : forall v0,
  stimulus_value acts a v0
  = foldl (fun v (tv : Z * gmap Z Logic) => default v (tv.2 !! a)) v0
      (stimuli_of acts).
Proof.
  induction acts as [| [t vec |] acts IH]; intros v0; cbn; [done | |];
    apply IH.
Qed.

(** X18: when the event-driven [run_simulation_for_vectors] ends, every
    test vector has been applied, in the order of the list and whatever
    their time stamps: a primary input holds the value of the last vector
    that names its address (U if none does), and the timing queue is
    empty. *)
Theorem X18_run_applies_every_vector gates fuel tvs st r g :
  Step2.run_simulation_for_vectors fuel gates tvs
    (Step2.initial_state gates) = Some st ->
  gates !! r = Some g -> gate_type g = Kinpt ->
  Step2.outs st !!! r = last_stimulus tvs (address g) /\
  Step2.timing_queue st = [].
Proof.
  intros Hrun Hr Hk.
  destruct (run_simulation_stimuli _ _ _ _ _ Hrun)
    as (Hq & acts & -> & Hs).
  split; [| done].
  destruct (run_steps_inputs gates acts r g Hr Hk _
              (initial_state_idle gates)) as [_ ->].
  rewrite stimulus_value_last, Hs. unfold last_stimulus. f_equal.
  unfold Step2.initial_state. cbn. by apply replicate_lookup_total.
Qed.

Lemma X18_run_applies_every_vector_witness :
  exists st,
    Step2.run_simulation_for_vectors 20 glitch
      [(5, {[ 1 := L1 ]}); (0, {[ 1 := L0 ]})]
      (Step2.initial_state glitch) = Some st /\
    Step2.outs st !!! 0%nat = L0.
Proof.
  destruct (Step2.run_simulation_for_vectors 20 glitch
              [(5, {[ 1 := L1 ]}); (0, {[ 1 := L0 ]})]
              (Step2.initial_state glitch)) as [st |] eqn:H.
  - exists st. split; [reflexivity |].
    exact (proj1 (X18_run_applies_every_vector glitch 20 _ st 0%nat _
                    H eq_refl eq_refl)).
  - vm_compute in H. discriminate H.
Defined.

(** ** The table of the event-driven run *)

Lemma heappush_queue lb x q :
  lb ≤ x.1.1 -> queue_from lb q ->
  queue_from lb (Step2.heappush Step2.timing_le x q).
Proof.
  intros Hx [Hs Hall]. split; [| by rewrite heappush_perm; constructor].
  clear Hall. induction Hs as [| y q Hs IH Hy]; cbn.
  { repeat constructor. }
  destruct (Step2.timing_le x y) eqn:Hle.
  - constructor; [by constructor |]. constructor.
    + unfold Step2.timing_le in Hle.
      apply orb_true_iff in Hle as [Hle | Hle].
      * apply bool_decide_eq_true in Hle. lia.
      * apply andb_true_iff in Hle as [Hle _].
        apply bool_decide_eq_true in Hle. lia.
    + eapply Forall_impl; [exact Hy |]. cbn. intros z Hz.
      unfold Step2.timing_le in Hle.
      apply orb_true_iff in Hle as [Hle | Hle].
      * apply bool_decide_eq_true in Hle. lia.
      * apply andb_true_iff in Hle as [Hle _].
        apply bool_decide_eq_true in Hle. lia.
  - constructor; [exact IH |]. rewrite heappush_perm. constructor; [| done].
    unfold Step2.timing_le in Hle.
    apply orb_false_iff in Hle as [Hlt Heq].
    apply bool_decide_eq_false in Hlt. lia.
Qed.

Lemma delays_ok_spec gates j g :
  delays_ok gates = true -> gates !! j = Some g -> 0 ≤ delay g.
Proof.
  intros H Hj. apply list_elem_of_lookup_2, list_elem_of_In in Hj.
  pose proof (proj1 (forallb_forall _ _) H g Hj) as Hd.
  by apply bool_decide_eq_true in Hd.
Qed.

Lemma schedule_fanouts_queue gates x t lb st :
  delays_ok gates = true -> lb ≤ t ->
  queue_from lb (Step2.timing_queue st) ->
  queue_from lb (Step2.timing_queue (Step2.schedule_fanouts x t 0 gates st)).
Proof.
  intros Hd Ht Hq.
  apply (schedule_fanouts_ind
           (fun _ s => queue_from lb (Step2.timing_queue s))
           x t gates 0 st); [done |].
  intros j g s Hj Hs. destruct (py_in x (inputs g)); [| done].
  cbn. rewrite evaluate_queue. apply heappush_queue; [| done]. cbn.
  pose proof (delays_ok_spec gates j g Hd Hj). lia.
Qed.

Lemma apply_vector_queue gates vec t lb st :
  delays_ok gates = true -> lb ≤ t ->
  queue_from lb (Step2.timing_queue st) ->
  queue_from lb (Step2.timing_queue (Step2.apply_vector gates vec t 0 gates st)).
Proof.
  intros Hd Ht Hq.
  apply (apply_vector_ind
           (fun _ s => queue_from lb (Step2.timing_queue s))
           gates vec t gates 0 st); [done |].
  intros j g s Hj Hs.
  destruct (if decide (gate_type g = Kinpt) then vec !! address g else None);
    [| done].
  case_decide; [| done]. by apply schedule_fanouts_queue.
Qed.

Lemma process_event_queue gates t x lb st :
  delays_ok gates = true -> lb ≤ t ->
  queue_from lb (Step2.timing_queue st) ->
  queue_from lb (Step2.timing_queue (Step2.process_event gates t x st)).
Proof.
  intros Hd Ht Hq. unfold Step2.process_event.
  apply schedule_fanouts_queue; [done | done |].
  unfold Step2.update_output. by destruct (Step2.pop_due _ _).
Qed.

Lemma drain_queue gates t fuel : forall st st',
  Step2.drain fuel gates t st = Some st' ->
  delays_ok gates = true ->
  queue_from t (Step2.timing_queue st) ->
  queue_from (t + 1) (Step2.timing_queue st').
Proof.
  induction fuel as [| fuel IH]; intros st st' H Hd Hq; [done |].
  cbn in H.
  destruct (Step2.timing_queue st) as [| [[t' a] x] q] eqn:Hqueue.
  { injection H as <-. rewrite Hqueue. split; constructor. }
  destruct Hq as [Hs Hall].
  apply StronglySorted_inv in Hs as [Hs Hhd].
  apply Forall_cons in Hall as [Ht' Hall]. cbn in Ht'.
  destruct (decide (t' = t)) as [-> | Hne].
  - apply (IH _ _ H Hd). apply process_event_queue; [done | lia |].
    unfold Step2.pop_timing. cbn. rewrite Hqueue. by split.
  - injection H as <-. rewrite Hqueue. split; [by constructor |].
    constructor; [cbn; lia |].
    eapply Forall_impl; [exact Hhd |]. cbn. intros z Hz. lia.
Qed.

Lemma dict_get_is_Some {V} (k : Z) (d : list (Z * V)) :
  k ∈ d.*1 -> is_Some (Step3.dict_get k d).
Proof.
  induction d as [| [k0 v0] d IH]; cbn; intros Hk.
  - destruct (proj1 (elem_of_nil _) Hk).
  - destruct (decide (k0 = k)); [by eexists |].
    apply elem_of_cons in Hk as [-> | Hk]; [done | by apply IH].
Qed.

Lemma seqZ_snoc t0 n : 0 ≤ n -> seqZ t0 (n + 1) = seqZ t0 n ++ [t0 + n].
Proof.
  intros Hn. rewrite seqZ_app by lia. by f_equal.
Qed.

Lemma fill_gap_keys t0 (n : nat) :
  forall first (d : list (Z * list Logic)),
  t0 < first -> d.*1 = seqZ t0 (first - t0) ->
  exists d',
    Step3.for_each
      (fun t (d : list (Z * list Logic)) =>
         v ← Step3.dict_get (t - 1) d; Some (Step3.dict_set t v d))
      (seqZ first (Z.of_nat n)) d = Some d' /\
    d'.*1 = seqZ t0 (first + Z.of_nat n - t0).
Proof.
  induction n as [| n IH]; intros first d Hlt Hkeys.
  { exists d. split; [done |]. rewrite Hkeys. f_equal. lia. }
  rewrite seqZ_cons by lia. cbn [Step3.for_each].
  destruct (dict_get_is_Some (first - 1) d) as [v Hv].
  { rewrite Hkeys. apply elem_of_seqZ. lia. }
  rewrite Hv. cbn.
  rewrite dict_set_fresh by (rewrite Hkeys, elem_of_seqZ; lia).
  replace (Z.pred (Z.of_nat (S n))) with (Z.of_nat n) by lia.
  destruct (IH (Z.succ first) (d ++ [(first, v)])) as (d' & Hd' & Hk').
  { lia. }
  { rewrite fmap_app, Hkeys. cbn.
    replace (Z.succ first - t0) with (first - t0 + 1) by lia.
    rewrite seqZ_snoc by lia. do 2 f_equal. lia. }
  exists d'. split; [done |]. rewrite Hk'. f_equal. lia.
Qed.

Lemma log_results_ok t0 t st snapshot lg :
  0 ≤ t0 -> Step2Log.last_logged_time lg < t ->
  (lg = Step2Log.empty_log /\ t = t0) \/ log_ok t0 snapshot lg ->
  exists lg',
    Step2Log.log_results t st lg = Some lg' /\
    Step2Log.last_logged_time lg' = t /\
    log_ok t0 (Step2.outs st) lg'.
Proof.
  intros H0 Hlt Hlg. unfold Step2Log.log_results.
  rewrite decide_False by lia.
  assert (Hd : exists d,
            (if decide (Step2Log.last_logged_time lg ≠ -1
                        /\ Step2Log.last_logged_time lg + 1 < t)
             then Step2Log.fill_gap (Step2Log.last_logged_time lg + 1) t
                    (Step2Log.all_outputs lg)
             else Some (Step2Log.all_outputs lg)) = Some d /\
            d.*1 = seqZ t0 (t - t0) /\ t0 ≤ t).
  { destruct Hlg as [[-> ->] | (Hle & Hkeys & _)].
    - cbn. rewrite decide_False by tauto. exists []. split; [done |].
      split; [| lia]. by rewrite seqZ_nil by lia.
    - case_decide as Hgap.
      + unfold Step2Log.fill_gap.
        destruct (fill_gap_keys t0
                    (Z.to_nat (t - (Step2Log.last_logged_time lg + 1)))
                    (Step2Log.last_logged_time lg + 1)
                    (Step2Log.all_outputs lg)) as (d & Hd & Hk).
        { lia. }
        { rewrite Hkeys. f_equal. lia. }
        rewrite Z2Nat.id in Hd, Hk by lia.
        exists d. split; [done |]. split; [| lia]. rewrite Hk. f_equal. lia.
      + exists (Step2Log.all_outputs lg). split; [done |]. split; [| lia].
        rewrite Hkeys. f_equal. lia. }
  destruct Hd as (d & -> & Hk & Hle). cbn. eexists. split; [done |].
  split; [done |]. unfold log_ok. cbn. split; [done |]. split.
  - rewrite dict_set_fresh by (rewrite Hk, elem_of_seqZ; lia).
    rewrite fmap_app, Hk. cbn. rewrite seqZ_snoc by lia. do 2 f_equal. lia.
  - apply dict_get_set_eq.
Qed.

Lemma queue_from_head lb t q :
  queue_from lb q ->
  match q with
  | [] => True
  | x :: _ => t ≤ x.1.1
  end ->
  queue_from t q.
Proof.
  intros [Hs _] Hhd. split; [done |].
  destruct q as [| x q]; [constructor |].
  apply StronglySorted_inv in Hs as [_ Hall].
  constructor; [done |].
  eapply Forall_impl; [exact Hall |]. cbn. intros z Hz. lia.
Qed.

Lemma run_logged gates t0 fuel :
  delays_ok gates = true -> 0 ≤ t0 ->
  forall tvs st lg st',
    Step2.run_simulation_for_vectors fuel gates tvs st = Some st' ->
    increasing_from (Step2Log.last_logged_time lg) tvs = true ->
    queue_from (Step2Log.last_logged_time lg + 1) (Step2.timing_queue st) ->
    (lg = Step2Log.empty_log /\ Step2.timing_queue st = [] /\
     exists vec rest, tvs = (t0, vec) :: rest) \/
    log_ok t0 (Step2.outs st) lg ->
    exists lg',
      Step2Log.run_simulation_for_vectors fuel gates tvs st lg
      = Some (st', lg') /\
      log_ok t0 (Step2.outs st') lg'.
Proof.
  intros Hd H0.
  induction fuel as [| fuel IH]; intros tvs st lg st' Hrun Hinc Hq Hlg;
    [done |].
  cbn [Step2.run_simulation_for_vectors] in Hrun.
  cbn [Step2Log.run_simulation_for_vectors].
  destruct (Step2.next_time tvs st) as [now |] eqn:Hnext; cycle 1.
  { injection Hrun as <-. exists lg. split; [done |].
    destruct Hlg as [(_ & _ & vec & rest & ->) | Hlg]; [| done].
    unfold Step2.next_time in Hnext.
    by destruct (Step2.timing_queue st) as [| [[? ?] ?] ?]. }
  set (pair := match tvs with
               | (nt, vec) :: rest =>
                   if decide (now = nt)
                   then (Step2.apply_vector gates vec now 0 gates st, rest)
                   else (st, tvs)
               | [] => (st, [])
               end) in *.
  assert (Hnow : Step2Log.last_logged_time lg < now /\
                 queue_from now (Step2.timing_queue pair.1) /\
                 increasing_from now pair.2 = true /\
                 (lg = Step2Log.empty_log -> now = t0)).
  { unfold Step2.next_time in Hnext. subst pair.
    destruct tvs as [| [nt vec] rest].
    - destruct (Step2.timing_queue st) as [| [[qt a] x] q] eqn:Hqueue;
        [done |].
      injection Hnext as <-. cbn [fst snd]. rewrite Hqueue.
      destruct Hq as [Hs Hall]. pose proof Hall as Hall'.
      apply Forall_cons in Hall' as [Hqt _]. cbn in Hqt.
      split; [lia |]. split; [| split; [done |]].
      + apply (queue_from_head (Step2Log.last_logged_time lg + 1));
          [by split | cbn; lia].
      + intros ->. destruct Hlg as [(_ & Hq0 & _) | (Hle & _)];
          [done | cbn in Hle; lia].
    - cbn [increasing_from] in Hinc.
      apply andb_true_iff in Hinc as [Hnt Hrest].
      apply bool_decide_eq_true in Hnt.
      assert (Ht0 : lg = Step2Log.empty_log -> nt = t0 /\
                      Step2.timing_queue st = []).
      { intros ->. destruct Hlg as [(_ & Hq0 & v & r & [= -> _ _]) | (Hle & _)];
          [done | cbn in Hle; lia]. }
      destruct (Step2.timing_queue st) as [| [[qt a] x] q] eqn:Hqueue.
      + injection Hnext as <-. rewrite decide_True by done. cbn [fst snd].
        split; [done |]. split; [| split; [done |]].
        * apply apply_vector_queue; [done | lia |]. rewrite Hqueue.
          split; constructor.
        * intros Hl. by destruct (Ht0 Hl).
      + injection Hnext as <-.
        destruct Hq as [Hs Hall]. pose proof Hall as Hall'.
        apply Forall_cons in Hall' as [Hqt _]. cbn in Hqt.
        assert (Hqn : queue_from (Z.min nt qt) (Step2.timing_queue st)).
        { rewrite Hqueue.
          apply (queue_from_head (Step2Log.last_logged_time lg + 1));
            [by split | cbn; lia]. }
        split; [lia |]. split; [| split].
        * case_decide; cbn [fst]; [| done].
          apply apply_vector_queue; [done | lia | done].
        * case_decide as Hmin; cbn [snd]; [by rewrite Hmin |].
          cbn [increasing_from]. apply andb_true_iff. split; [| done].
          apply bool_decide_eq_true. lia.
        * intros Hl. by destruct (Ht0 Hl). }
  destruct pair as [st1 rest]. cbn [fst snd] in Hnow.
  destruct Hnow as (Hlt & Hq1 & Hinc1 & Hfirst).
  destruct (Step2.drain fuel gates now st1) as [st2 |] eqn:Hdrain;
    [| done].
  pose proof (drain_queue gates now fuel st1 st2 Hdrain Hd Hq1) as Hq2.
  destruct (log_results_ok t0 now st2 (Step2.outs st) lg H0 Hlt)
    as (lg2 & -> & Hlast & Hok).
  { destruct Hlg as [(Hl & _) | Hlg]; [left | by right].
    split; [done |]. by apply Hfirst. }
  cbn. apply IH; try done.
  - by rewrite Hlast.
  - by rewrite Hlast.
  - by right.
Qed.

(** X19: for gates with delays of at least 0 and test vectors whose time
    stamps increase from a first stamp of at least 0, the logging block
    never raises, and when the run ends the table has exactly one column
    for every integer time from the first stamp to the last time handled,
    in increasing order, the last column holding the final outputs. *)
Theorem X19_table_has_a_column_per_time_unit gates fuel t0 vec tvs st :
  delays_ok gates = true ->
  increasing_from (-1) ((t0, vec) :: tvs) = true ->
  Step2.run_simulation_for_vectors fuel gates ((t0, vec) :: tvs)
    (Step2.initial_state gates) = Some st ->
  exists lg,
    Step2Log.run_simulation_for_vectors fuel gates ((t0, vec) :: tvs)
      (Step2.initial_state gates) Step2Log.empty_log = Some (st, lg) /\
    (Step2Log.all_outputs lg).*1
    = seqZ t0 (Step2Log.last_logged_time lg - t0 + 1) /\
    t0 ≤ Step2Log.last_logged_time lg /\
    Step3.dict_get (Step2Log.last_logged_time lg) (Step2Log.all_outputs lg)
    = Some (Step2.outs st).
Proof.
  intros Hd Hinc Hrun.
  assert (H0 : 0 ≤ t0).
  { cbn in Hinc. apply andb_true_iff in Hinc as [Hlt _].
    apply bool_decide_eq_true in Hlt. lia. }
  destruct (run_logged gates t0 fuel Hd H0 _ _ Step2Log.empty_log _ Hrun)
    as (lg & Hlog & Hle & Hkeys & Hlast).
  - done.
  - split; constructor.
  - left. split; [done |]. split; [done |]. by exists vec, tvs.
  - exists lg. by repeat split.
Qed.

Lemma X19_table_has_a_column_per_time_unit_witness :
  exists st lg,
    Step2Log.run_simulation_for_vectors 20 glitch
      [(0, {[ 1 := L0 ]}); (5, {[ 1 := L1 ]})]
      (Step2.initial_state glitch) Step2Log.empty_log = Some (st, lg) /\
    (Step2Log.all_outputs lg).*1
    = seqZ 0 (Step2Log.last_logged_time lg - 0 + 1).
Proof.
  destruct (Step2.run_simulation_for_vectors 20 glitch
              [(0, {[ 1 := L0 ]}); (5, {[ 1 := L1 ]})]
              (Step2.initial_state glitch)) as [st |] eqn:H.
  - destruct (X19_table_has_a_column_per_time_unit glitch 20 0
                {[ 1 := L0 ]} [(5, {[ 1 := L1 ]})] st
                eq_refl eq_refl H) as (lg & Hlog & Hkeys & _).
    by exists st, lg.
  - vm_compute in H. discriminate H.
Defined.

(** ** [imply] stops *)

Lemma d_algebra_evaluate_output g r st :
  Step3.d_algebra_evaluate g r st
  = v ← gate_output g (st !!! r)
          (map (fun i => Step3.output (st !!! i)) (inputs g));
    Some (alter (Step3.set_output_field v) r st).
Proof.
  unfold Step3.d_algebra_evaluate, gate_output. cbv zeta.
  by destruct (match gate_type g with Kinpt => _ | _ => _ end).
Qed.

Lemma inject_fault_twice own o out :
  Step3.inject_fault (Step3.set_output_field o own)
    (Step3.inject_fault own out)
  = Step3.inject_fault own out.
Proof.
  unfold Step3.inject_fault. cbn. destruct (Step3.faulty own); [| done].
  by destruct (Step3.fault_value own), out.
Qed.

Section Passes.
Variable c : Step3.Circuit.

Let body (g : nat) (s : list Step3.GateState) :=
  Step3.d_algebra_evaluate (Step3.gate_of c g) g s.

Lemma body_frame l s s' :
  Step3.for_each body l s = Some s' ->
  length s' = length s /\
  (forall r, r ∉ l -> s' !!! r = s !!! r) /\
  (forall r, Step3.set_output_field VX (s' !!! r)
             = Step3.set_output_field VX (s !!! r)).
Proof.
  apply (for_each_inv
           (fun t => length t = length s /\
                     (forall r, r ∉ l -> t !!! r = s !!! r) /\
                     (forall r, Step3.set_output_field VX (t !!! r)
                                = Step3.set_output_field VX (s !!! r)))
           (fun g => g ∈ l)); [| by apply Forall_forall | done].
  intros g t t' Hg (HL & Hout & Hfl) Hb. unfold body in Hb.
  apply d_algebra_evaluate_spec in Hb as (out & -> & _).
  split; [by rewrite length_alter |]. split.
  - intros r Hr. rewrite list_lookup_total_alter_ne; [by apply Hout |].
    by intros ->.
  - intros r. rewrite <- Hfl. rewrite list_lookup_total_alter.
    case_decide as Hd; [| done]. by destruct Hd as [-> _].
Qed.

(** The output a pass leaves at gate [x] is computed from the state of
    [x] before the pass and, for each input, its output before or after
    the pass. *)
Lemma pass_mid l : forall s s' x,
  Step3.for_each body l s = Some s' -> NoDup l -> x ∈ l ->
  (x < length s)%nat ->
  exists vs,
    Forall2 (fun i v => v = Step3.output (s !!! i)
                        \/ v = Step3.output (s' !!! i))
      (inputs (Step3.gate_of c x)) vs /\
    gate_output (Step3.gate_of c x) (s !!! x) vs
    = Some (Step3.output (s' !!! x)).
Proof.
  induction l as [| y l IH]; intros s s' x H Hnd Hx Hlt.
  { destruct (proj1 (elem_of_nil _) Hx). }
  apply NoDup_cons in Hnd as [Hy Hnd]. cbn in H.
  destruct (body y s) as [s1 |] eqn:Hstep; [| discriminate H]. cbn in H.
  destruct (body_frame l s1 s' H) as (HL & Hout & _).
  unfold body in Hstep. rewrite d_algebra_evaluate_output in Hstep.
  destruct (gate_output (Step3.gate_of c y) (s !!! y) _) as [v |] eqn:Hv;
    [| discriminate Hstep].
  cbn in Hstep. injection Hstep as <-.
  destruct (decide (x = y)) as [-> | Hne].
  - eexists. split; [| rewrite Hv; f_equal].
    + apply Forall2_fmap_r, Forall_Forall2_diag, Forall_forall.
      intros i _. by left.
    + rewrite (Hout y Hy), list_lookup_total_alter.
      by rewrite decide_True.
  - apply elem_of_cons in Hx as [-> | Hx]; [done |].
    destruct (IH _ s' x H Hnd Hx) as (vs & Hvs & Hg).
    { by rewrite length_alter. }
    rewrite list_lookup_total_alter_ne in Hg by done.
    exists vs. split; [| done].
    eapply Forall2_impl; [exact Hvs |]. cbn. intros i w [-> | ->];
      [| by right].
    destruct (decide (i = y)) as [-> | Hi].
    + right. by rewrite (Hout y Hy).
    + left. by rewrite list_lookup_total_alter_ne.
Qed.

Lemma mid_values (f g : nat -> DValue) ins vs :
  Forall2 (fun i v => v = f i \/ v = g i) ins vs ->
  (forall i, i ∈ ins -> f i = g i) ->
  vs = map g ins.
Proof.
  induction 1 as [| i v ins vs Hv _ IH]; intros Heq; [done |].
  cbn. f_equal.
  - destruct Hv as [-> | ->]; [apply Heq; by left | done].
  - apply IH. intros j Hj. apply Heq. by right.
Qed.

Hypothesis Hord : consumers_first c (rev (Step3.values c)) = true.

Lemma sorted_gates_NoDup : NoDup (Step3.sorted_gates c).
Proof.
  unfold Step3.sorted_gates. rewrite sorted_by_perm.
  apply consumers_first_NoDup in Hord.
  by rewrite <- Permutation_rev in Hord.
Qed.

(** Two passes in a row over inputs that did not move leave the same
    output. *)
Lemma pass_repeats s0 s1 s2 x :
  Step3.evaluate_pass c s0 = Some s1 ->
  Step3.evaluate_pass c s1 = Some s2 ->
  x ∈ Step3.values c ->
  (forall i, i ∈ inputs (Step3.gate_of c x) ->
     Step3.output (s0 !!! i) = Step3.output (s1 !!! i) /\
     Step3.output (s1 !!! i) = Step3.output (s2 !!! i)) ->
  Step3.output (s2 !!! x) = Step3.output (s1 !!! x).
Proof.
  intros H01 H12 Hx Hins.
  destruct (body_frame _ _ _ H01) as (HL1 & _ & Hfl1).
  destruct (body_frame _ _ _ H12) as (HL2 & _ & _).
  destruct (decide (x < length s0)%nat) as [Hlt | Hge]; cycle 1.
  { by rewrite !list_lookup_total_alt, !lookup_ge_None_2 by lia. }
  apply sorted_gates_elem in Hx.
  destruct (pass_mid _ _ _ x H01 sorted_gates_NoDup Hx Hlt)
    as (vs1 & Hvs1 & Hg1).
  destruct (pass_mid _ _ _ x H12 sorted_gates_NoDup Hx)
    as (vs2 & Hvs2 & Hg2); [lia |].
  apply mid_values in Hvs1; [| intros i Hi; by destruct (Hins i Hi)].
  apply mid_values in Hvs2; [| intros i Hi; by destruct (Hins i Hi)].
  assert (Hvs : vs2 = vs1).
  { rewrite Hvs1, Hvs2. apply map_ext_in. intros i Hi.
    apply list_elem_of_In in Hi. by destruct (Hins i Hi) as [_ <-]. }
  rewrite Hvs in Hg2. clear Hvs1 Hvs2 Hvs.
  specialize (Hfl1 x).
  destruct (s0 !!! x) as [o0 f fv c0 c1 co].
  destruct (s1 !!! x) as [o1 f' fv' c0' c1' co'].
  cbn in Hfl1. injection Hfl1 as -> -> -> -> ->.
  cbn [Step3.output].
  set (o2 := Step3.output (s2 !!! x)) in *. clearbody o2.
  unfold gate_output, Step3.inject_fault in Hg1, Hg2.
  cbv zeta in Hg1, Hg2. cbn in Hg1, Hg2.
  destruct (gate_type (Step3.gate_of c x)) eqn:Hk; cbn in Hg1, Hg2;
    try congruence.
  - destruct f; [| congruence].
    destruct fv, o0; vm_compute in Hg1; injection Hg1 as <-;
      vm_compute in Hg2; congruence.
Qed.

End Passes.

Lemma passes_snoc c k : forall s,
  passes c (S k) s = passes c k s ≫= Step3.evaluate_pass c.
Proof.
  induction k as [| k IH]; intros s.
  - cbn. by destruct (Step3.evaluate_pass c s).
  - change (passes c (S (S k)) s)
      with (Step3.evaluate_pass c s ≫= passes c (S k)).
    cbn [passes]. destruct (Step3.evaluate_pass c s) as [s1 |]; [| done].
    cbn. apply IH.
Qed.

Lemma passes_add c j : forall m s,
  passes c (j + m) s = passes c j s ≫= passes c m.
Proof.
  induction j as [| j IH]; intros m s; [done |].
  cbn [Nat.add passes].
  destruct (Step3.evaluate_pass c s) as [s1 |]; [| done]. cbn. apply IH.
Qed.

Lemma passes_frame c k : forall s s',
  passes c k s = Some s' ->
  forall r, r ∉ Step3.values c ->
    Step3.output (s' !!! r) = Step3.output (s !!! r).
Proof.
  induction k as [| k IH]; intros s s' H r Hr; cbn in H.
  { by injection H as <-. }
  destruct (Step3.evaluate_pass c s) as [s1 |] eqn:Hp; [| discriminate H].
  cbn in H. rewrite (IH _ _ H r Hr).
  by destruct (evaluate_pass_frame c s s1 Hp) as (_ & -> & _).
Qed.

Lemma pass_total c s :
  unary_ok c = true -> exists s', Step3.evaluate_pass c s = Some s'.
Proof.
  intros Hu. unfold Step3.evaluate_pass.
  destruct (for_each_total (fun g => g ∈ Step3.values c) (fun _ => True)
              (fun g t => Step3.d_algebra_evaluate (Step3.gate_of c g) g t)
              (Step3.sorted_gates c) s) as (s' & Hs' & _); [| | done | eauto].
  - intros g t Hg _. apply list_elem_of_In in Hg.
    pose proof (proj1 (forallb_forall _ _) Hu g Hg) as Hg'.
    rewrite d_algebra_evaluate_output. unfold gate_output. cbv zeta.
    cbv beta in Hg'.
    destruct (inputs (Step3.gate_of c g)) as [| i ins] eqn:Ein;
      destruct (gate_type (Step3.gate_of c g)) eqn:Ek; cbn; eauto;
      vm_compute in Hg'; discriminate Hg'.
  - apply Forall_forall. intros g Hg. by apply sorted_gates_elem.
Qed.

Lemma passes_total c k : forall s,
  unary_ok c = true -> exists s', passes c k s = Some s'.
Proof.
  induction k as [| k IH]; intros s Hu; [by exists s |].
  cbn. destruct (pass_total c s Hu) as [s1 ->]. cbn. by apply IH.
Qed.

Lemma at_rest_pass c E a b :
  at_rest c E a -> Step3.evaluate_pass c a = Some b -> at_rest c E b.
Proof.
  intros Ha Hp m st' Hm x Hx.
  rewrite (Ha (S m) st'), (Ha 1%nat b); try done.
  - cbn. by rewrite Hp.
  - cbn. by rewrite Hp.
Qed.

Lemma at_rest_passes c E j : forall a t,
  at_rest c E a -> passes c j a = Some t -> at_rest c E t.
Proof.
  induction j as [| j IH]; intros a t Ha H; cbn in H.
  { by injection H as <-. }
  destruct (Step3.evaluate_pass c a) as [a1 |] eqn:Hp; [| discriminate H].
  cbn in H. eapply IH; [| exact H]. by eapply at_rest_pass.
Qed.

(** After as many passes as the map has gates before it, a gate keeps its
    output. *)
Lemma prefix_at_rest c :
  consumers_first c (rev (Step3.values c)) = true ->
  forall l1 l2, Step3.values c = l1 ++ l2 ->
    forall s a, passes c (length l1) s = Some a -> at_rest c l1 a.
Proof.
  intros Hord.
  induction l1 as [| x l IH] using rev_ind; intros l2 Hv s a Hs.
  { intros m b _ y Hy. destruct (proj1 (elem_of_nil _) Hy). }
  rewrite <- app_assoc in Hv. cbn [app] in Hv.
  rewrite length_app, Nat.add_1_r, passes_snoc in Hs.
  destruct (passes c (length l) s) as [a0 |] eqn:Ha0; [| discriminate Hs].
  cbn in Hs. pose proof (IH _ Hv s a0 Ha0) as Hrest0.
  pose proof (at_rest_pass c l a0 a Hrest0 Hs) as Hrest.
  assert (Hx : x ∈ Step3.values c).
  { rewrite Hv. apply elem_of_app. right. by left. }
  assert (Hfixed : forall j t, passes c j a0 = Some t ->
            forall i, i ∈ inputs (Step3.gate_of c x) ->
              Step3.output (t !!! i) = Step3.output (a0 !!! i)).
  { intros j t Ht i Hi.
    destruct (decide (i ∈ Step3.values c)) as [Hiv | Hiv].
    - destruct (inputs_earlier c l x l2 i Hv Hord Hiv Hi) as [Hil _].
      by apply (Hrest0 j t Ht).
    - by apply (passes_frame c j a0 t Ht). }
  assert (Hstep : forall m b0 b, passes c m a = Some b0 ->
            Step3.evaluate_pass c b0 = Some b ->
            Step3.output (b !!! x) = Step3.output (b0 !!! x)).
  { intros m b0 b Hb0 Hb.
    assert (Hpred : exists j p, passes c j a0 = Some p /\
                      Step3.evaluate_pass c p = Some b0).
    { destruct m as [| m].
      - injection Hb0 as <-. by exists 0%nat, a0.
      - rewrite passes_snoc in Hb0.
        destruct (passes c m a) as [p |] eqn:Hp; [| discriminate Hb0].
        exists (S m), p. split; [| done]. cbn. by rewrite Hs. }
    destruct Hpred as (j & p & Hp & Hpb0).
    assert (Hd0 : passes c (S j) a0 = Some b0).
    { rewrite passes_snoc, Hp. done. }
    assert (Hd1 : passes c (S (S j)) a0 = Some b).
    { rewrite passes_snoc, Hd0. done. }
    apply (pass_repeats c Hord p b0 b x Hpb0 Hb Hx).
    intros i Hi.
    rewrite (Hfixed _ _ Hp i Hi), (Hfixed _ _ Hd0 i Hi),
      (Hfixed _ _ Hd1 i Hi). done. }
  intros m b Hm y Hy. apply elem_of_app in Hy as [Hy | Hy];
    [by apply (Hrest m b Hm) |].
  apply list_elem_of_singleton in Hy. subst y.
  revert b Hm. induction m as [| m IHm]; intros b Hm.
  { by injection Hm as <-. }
  rewrite passes_snoc in Hm.
  destruct (passes c m a) as [b0 |] eqn:Hb0; [| discriminate Hm].
  cbn in Hm. rewrite (Hstep m b0 b Hb0 Hm). by apply IHm.
Qed.

Lemma imply_returns c k : forall fuel s a,
  unary_ok c = true -> (k < fuel)%nat ->
  passes c k s = Some a -> at_rest c (Step3.values c) a ->
  exists st', Step3.imply c fuel s = Ok st'.
Proof.
  induction k as [| k IH]; intros fuel s a Hu Hk Hp Ha;
    (destruct fuel as [| fuel]; [lia |]); cbn [Step3.imply].
  - injection Hp as <-. destruct (pass_total c s Hu) as [s1 Hs1].
    rewrite Hs1. cbn. rewrite decide_False; [by eexists |].
    intros Hne. apply Hne. unfold Step3.outputs_of.
    apply map_ext_in. intros x Hx.
    apply (Ha 1%nat s1); [cbn; by rewrite Hs1 |].
    by apply sorted_gates_elem, list_elem_of_In.
  - cbn in Hp.
    destruct (Step3.evaluate_pass c s) as [s1 |]; [| discriminate Hp].
    cbn in Hp |- *. case_decide; [| by eexists].
    apply (IH fuel s1 a); [done | lia | done | done].
Qed.

(** X20: on a netlist whose map lists every gate after its inputs and
    whose not, buf and fanout gates have an input, [imply] stops: from any
    store it returns after at most one pass per gate of the map and one
    more. *)
Theorem X20_imply_stops c fuel st :
  consumers_first c (rev (Step3.values c)) = true ->
  unary_ok c = true ->
  (length (Step3.values c) < fuel)%nat ->
  exists st', Step3.imply c fuel st = Ok st'.
Proof.
  intros Hord Hu Hfuel.
  destruct (passes_total c (length (Step3.values c)) st Hu) as [a Ha].
  apply (imply_returns c (length (Step3.values c)) fuel st a);
    [done | done | done |].
  apply (prefix_at_rest c Hord (Step3.values c) [] (eq_sym (app_nil_r _))
           st a Ha).
Qed.

Lemma X20_imply_stops_witness :
  exists st',
    Step3.imply c17 18 (Step3.assign 0%nat V1 c17_measured) = Ok st'.
Proof.
  apply (X20_imply_stops c17 18 (Step3.assign 0%nat V1 c17_measured)).
  - vm_compute. reflexivity.
  - vm_compute. reflexivity.
  - vm_compute. lia.
Defined.

(** ** The search ends *)

Lemma podem_shape_spec c :
  podem_shape c = true ->
  consumers_first c (rev (Step3.values c)) = true /\
  unary_ok c = true /\
  forall r, r ∈ Step3.values c ->
    (forall i, i ∈ inputs (Step3.gate_of c r) -> i ∈ Step3.values c) /\
    gate_type (Step3.gate_of c r) <> Kother /\
    (gate_type (Step3.gate_of c r) = Kinpt ->
     inputs (Step3.gate_of c r) = []).
Proof.
  unfold podem_shape. intros H.
  apply andb_true_iff in H as [H Hg]. apply andb_true_iff in H as [Hord Hu].
  split; [done |]. split; [done |].
  intros r Hr. apply list_elem_of_In in Hr.
  pose proof (proj1 (forallb_forall _ _) Hg r Hr) as Hr'. cbv zeta in Hr'.
  apply andb_true_iff in Hr' as [Hr' Hpi].
  apply andb_true_iff in Hr' as [Hin Hk].
  split; [| split].
  - intros i Hi. apply list_elem_of_In in Hi.
    by apply py_in_true, (proj1 (forallb_forall _ _) Hin i).
  - by apply negb_true_iff, bool_decide_eq_false in Hk.
  - intros Hinpt. apply orb_true_iff in Hpi as [Hpi | Hpi].
    + apply negb_true_iff, bool_decide_eq_false in Hpi. done.
    + by apply bool_decide_eq_true in Hpi.
Qed.

Lemma filter_shrinks {A} (P Q : A -> Prop)
    `{forall x, Decision (P x)} `{forall x, Decision (Q x)} (l : list A) :
  (forall x, x ∈ l -> Q x -> P x) ->
  (length (filter Q l) <= length (filter P l))%nat /\
  forall y, y ∈ l -> P y -> ~ Q y ->
    (length (filter Q l) < length (filter P l))%nat.
Proof.
  induction l as [| x l IH]; intros Hsub.
  { split; [done |]. intros y Hy. destruct (proj1 (elem_of_nil _) Hy). }
  destruct IH as [Hle Hlt].
  { intros y Hy. apply Hsub. by right. }
  rewrite !filter_cons.
  destruct (decide (Q x)) as [HQ | HQ].
  - rewrite decide_True by (apply Hsub; [by left | done]). cbn.
    split; [lia |]. intros y Hy HP HnQ.
    apply elem_of_cons in Hy as [-> | Hy]; [done |].
    specialize (Hlt y Hy HP HnQ). lia.
  - destruct (decide (P x)) as [HP | HP]; cbn.
    + split; [lia |]. intros; lia.
    + split; [lia |]. intros y Hy HPy HnQ.
      apply elem_of_cons in Hy as [-> | Hy]; [done |]. eauto.
Qed.

Lemma closed_kept_refl c st : closed_kept c st st.
Proof. by intros r. Qed.

Lemma closed_kept_trans c s1 s2 s3 :
  closed_kept c s1 s2 -> closed_kept c s2 s3 -> closed_kept c s1 s3.
Proof. intros H12 H23 r Hr Hx. by apply H23, H12. Qed.

Lemma open_inputs_count c st st' :
  closed_kept c st st' ->
  (length (open_inputs c st') <= length (open_inputs c st))%nat /\
  forall y, y ∈ map_inputs c -> Step3.output (st !!! y) = VX ->
    Step3.output (st' !!! y) <> VX ->
    (length (open_inputs c st') < length (open_inputs c st))%nat.
Proof.
  intros Hk. unfold open_inputs.
  apply (filter_shrinks (fun r => Step3.output (st !!! r) = VX)
           (fun r => Step3.output (st' !!! r) = VX)).
  intros r Hr HX. destruct (decide (Step3.output (st !!! r) = VX)); [done |].
  by destruct (Hk r Hr).
Qed.

Lemma inject_fault_domain own out :
  out ∈ [VX; V0; V1; VD; VDbar] ->
  Step3.inject_fault own out ∈ [VX; V0; V1; VD; VDbar] /\
  (out <> VX -> Step3.inject_fault own out <> VX).
Proof.
  intros Hout. unfold Step3.inject_fault.
  destruct (Step3.faulty own); [| done].
  destruct (bool_decide _ && bool_decide _).
  { split; [| done]. do 4 right. by left. }
  destruct (bool_decide _ && bool_decide _); [| done].
  split; [| done]. do 3 right. by left.
Qed.

Lemma map_inputs_spec c r :
  r ∈ map_inputs c <->
  r ∈ Step3.values c /\ gate_type (Step3.gate_of c r) = Kinpt.
Proof. unfold map_inputs. rewrite list_elem_of_filter. tauto. Qed.

Lemma d_algebra_search c fg p g st st' :
  Step3.d_algebra_evaluate (Step3.gate_of c g) g st = Some st' ->
  (search_inv c fg st p -> search_inv c fg st' p) /\
  ((forall r, r ∈ map_inputs c ->
      Step3.output (st !!! r) ∈ [VX; V0; V1; VD; VDbar]) ->
   closed_kept c st st').
Proof.
  intros H. apply d_algebra_evaluate_spec in H as (out & -> & Hinpt).
  split.
  - intros (Hp & Hfg & Hfv & Hrange & Hdom).
    split; [done |]. split; [done |]. split; [| split].
    + by rewrite (lookup_alter_field Step3.fault_value).
    + by rewrite length_alter.
    + intros r Hr. rewrite list_lookup_total_alter.
      case_decide as Hd; [| by apply Hdom]. destruct Hd as [-> _]. cbn.
      apply map_inputs_spec in Hr as [Hrv Hk]. rewrite (Hinpt Hk).
      apply inject_fault_domain, Hdom. by apply map_inputs_spec.
  - intros Hdom r Hr HX. rewrite list_lookup_total_alter.
    case_decide as Hd; [| done]. destruct Hd as [-> _]. cbn.
    pose proof Hr as Hr'. apply map_inputs_spec in Hr' as [Hrv Hk].
    rewrite (Hinpt Hk). by apply inject_fault_domain; [apply Hdom |].
Qed.

Lemma evaluate_pass_search c fg p st st' :
  Step3.evaluate_pass c st = Some st' -> search_inv c fg st p ->
  search_inv c fg st' p /\ closed_kept c st st'.
Proof.
  intros H Hinv. revert H.
  apply (for_each_inv
           (fun s => search_inv c fg s p /\ closed_kept c st s)
           (fun _ => True)); [| by apply Forall_forall |].
  - intros g s s' _ [Hs Hk] Hb.
    destruct (d_algebra_search c fg p g s s' Hb) as [Hi Hc].
    split; [by apply Hi |].
    eapply closed_kept_trans; [exact Hk |]. apply Hc.
    by destruct Hs as (_ & _ & _ & _ & Hdom).
  - split; [done | apply closed_kept_refl].
Qed.

Lemma imply_search c fg p fuel : forall st st',
  Step3.imply c fuel st = Ok st' -> search_inv c fg st p ->
  search_inv c fg st' p /\ closed_kept c st st'.
Proof.
  induction fuel as [| fuel IH]; intros st st' H Hinv; [discriminate H |].
  cbn [Step3.imply] in H.
  destruct (Step3.evaluate_pass c st) as [st1 |] eqn:Hpass;
    [| discriminate H]. cbn in H.
  destruct (evaluate_pass_search c fg p st st1 Hpass Hinv) as [H1 Hk1].
  case_decide; [| by injection H as <-].
  destruct (IH _ _ H H1) as [H2 Hk2]. split; [done |].
  by eapply closed_kept_trans.
Qed.

Lemma assign_search c fg p tpi v st :
  v ∈ [VX; V0; V1] -> search_inv c fg st p ->
  search_inv c fg (Step3.assign tpi v st) p.
Proof.
  intros Hv (Hp & Hfg & Hfv & Hrange & Hdom). unfold Step3.assign.
  split; [done |]. split; [done |]. split; [| split].
  - by rewrite (lookup_alter_field Step3.fault_value).
  - by rewrite length_alter.
  - intros r Hr. rewrite list_lookup_total_alter.
    case_decide as Hd; [| by apply Hdom]. cbn.
    apply elem_of_cons in Hv as [-> | Hv]; [by left |].
    apply elem_of_cons in Hv as [-> | Hv]; [right; by left |].
    apply list_elem_of_singleton in Hv. subst v. do 2 right. by left.
Qed.

Lemma assign_closed c tpi v st :
  v <> VX -> closed_kept c st (Step3.assign tpi v st).
Proof.
  intros Hv r Hr HX. unfold Step3.assign. rewrite list_lookup_total_alter.
  by case_decide.
Qed.

Lemma assign_other tpi v st r :
  r <> tpi ->
  Step3.output (Step3.assign tpi v st !!! r) = Step3.output (st !!! r).
Proof.
  intros Hne. unfold Step3.assign.
  by rewrite list_lookup_total_alter_ne.
Qed.

Lemma assign_self tpi v st :
  (tpi < length st)%nat ->
  Step3.output (Step3.assign tpi v st !!! tpi) = v.
Proof.
  intros Hlt. unfold Step3.assign. rewrite list_lookup_total_alter.
  by rewrite decide_True.
Qed.

Lemma frontier_objective c fuel st act fgo og ov p1 :
  podem_shape c = true ->
  (frontier ← Step3.generate_d_frontier c fuel st;
   let p2 := Step3.mkPodem act frontier fgo in
   match frontier with
   | [] => Ok (None, VX, p2)
   | g0 :: gs =>
       let g := Step3.min_by_CO st g0 gs in
       match filter (fun inp => Step3.output (st !!! inp) = VX)
               (inputs (Step3.gate_of c g)) with
       | inp :: _ =>
           Ok (Some inp,
               Step3.non_controlling_value
                 (gate_type (Step3.gate_of c g)), p2)
       | [] => Ok (None, VX, p2)
       end
   end) = Ok (Some og, ov, p1) ->
  og ∈ Step3.values c /\ ov ∈ [V0; V1] /\
  Step3.output (st !!! og) = VX /\ Step3.fault_gate p1 = fgo.
Proof.
  intros Hshape H.
  destruct (podem_shape_spec c Hshape) as (_ & _ & Hgates).
  rewrite generate_d_frontier_first_candidate in H.
  unfold first_candidate in H.
  destruct (d_candidates c st) as [| g cs] eqn:Hcand; [discriminate H |].
  destruct (Step3.x_path_check c fuel st g) as [[|] | |];
    try discriminate H.
  cbn [mbind Result_bind] in H. cbv zeta in H.
  cbn [Step3.min_by_CO foldl] in H.
  assert (Hg : g ∈ d_candidates c st) by (rewrite Hcand; by left).
  apply list_elem_of_filter in Hg as [[HX HD] Hgv].
  destruct (Hgates g Hgv) as (Hclosed & Hother & Hnoin).
  destruct (filter (fun inp => Step3.output (st !!! inp) = VX)
              (inputs (Step3.gate_of c g))) as [| inp rest] eqn:Hf;
    [discriminate H |].
  injection H as <- <- <-.
  assert (Hinp : inp ∈ filter (fun inp => Step3.output (st !!! inp) = VX)
                   (inputs (Step3.gate_of c g)))
    by (rewrite Hf; by left).
  apply list_elem_of_filter in Hinp as [HinpX Hinp].
  split; [by apply Hclosed |]. split; [| split; [done | done]].
  destruct (gate_type (Step3.gate_of c g)) eqn:Hk; cbn;
    try (by left); try (right; by left); try done.
  rewrite (Hnoin eq_refl) in Hinp. destruct (proj1 (elem_of_nil _) Hinp).
Qed.

(** The objective of [get_objective]: a gate of the map, asked to take 0
    or 1; where it is a primary input, one that is still at X. *)
Lemma get_objective_open c fuel st p fg og ov p1 :
  podem_shape c = true -> search_inv c fg st p ->
  Step3.get_objective c fuel st p = Ok (Some og, ov, p1) ->
  og ∈ Step3.values c /\ ov ∈ [V0; V1] /\
  (gate_type (Step3.gate_of c og) = Kinpt ->
   Step3.output (st !!! og) = VX) /\
  Step3.fault_gate p1 = Some fg.
Proof.
  intros Hshape (Hp & Hfg & Hfv & Hrange & Hdom) H.
  unfold Step3.get_objective in H. rewrite Hp in H.
  cbn [or_raise mbind Result_bind] in H. cbv zeta in H.
  destruct (Step3.is_D (Step3.output (st !!! fg))) eqn:HisD.
  - cbn [Step3.fault_is_activated negb Step3.fault_gate Step3.D_Frontier]
      in H.
    destruct (frontier_objective c fuel st _ _ og ov p1 Hshape H)
      as (? & ? & ? & ?).
      split; [done |]. split; [done |]. split; [by intros _ | congruence].
  - destruct (Step3.fault_is_activated p) eqn:Hact; cbn [negb] in H.
    + destruct (frontier_objective c fuel st _ _ og ov p1 Hshape H)
        as (? & ? & ? & ?).
      split; [done |]. split; [done |]. split; [by intros _ | congruence].
    + destruct (py_in (Step3.output (st !!! fg)) [V1; V0]) eqn:Hbin;
        [discriminate H |].
      injection H as <- <- <-. split; [done |]. split; [| split; [| done]].
      * apply elem_of_cons in Hfv as [-> | Hfv]; [right; by left |].
        apply list_elem_of_singleton in Hfv. rewrite Hfv. by left.
      * intros Hk.
        assert (Hfgi : fg ∈ map_inputs c) by (by apply map_inputs_spec).
        specialize (Hdom fg Hfgi). apply py_in_false in Hbin.
        destruct (Step3.output (st !!! fg)); try done;
          try (exfalso; apply Hbin; by left);
          try (exfalso; apply Hbin; right; by left);
          exfalso; clear -Hdom;
          repeat (apply elem_of_cons in Hdom as [Hdom | Hdom];
                  [discriminate Hdom |]);
          by apply elem_of_nil in Hdom.
Qed.

Lemma x_path_check_total c st gate fuel :
  (S (length (Step3.values c)) * S (length (Step3.values c)) + 2
   <= fuel)%nat ->
  exists b, Step3.x_path_check c fuel st gate = Ok b.
Proof.
  intros Hfuel. unfold Step3.x_path_check.
  apply (x_path_loop_total c st gate fuel [] [gate]).
  - apply Forall_cons. split; [by left | done].
  - cbn [length].
    assert (length (unvisited c gate [])
            <= S (length (Step3.values c)))%nat.
    { unfold unvisited.
      transitivity (length (remove_dups (gate :: Step3.values c))).
      - apply submseteq_length, NoDup_submseteq.
        + apply NoDup_list_difference, NoDup_remove_dups.
        + intros x Hx. by apply list_elem_of_difference in Hx as [Hx _].
      - transitivity (length (gate :: Step3.values c)); [| done].
        apply submseteq_length, NoDup_submseteq;
          [apply NoDup_remove_dups |].
        intros x Hx. by apply elem_of_remove_dups. }
    set (N := length (Step3.values c)) in *.
    assert (length (unvisited c gate []) * S N <= S N * S N)%nat
      by (by apply Nat.mul_le_mono_r).
    lia.
Qed.

Lemma get_objective_ends c fuel st p :
  (S (length (Step3.values c)) * S (length (Step3.values c)) + 2
   <= fuel)%nat ->
  Step3.get_objective c fuel st p <> OutOfFuel.
Proof.
  intros Hfuel. unfold Step3.get_objective.
  destruct (Step3.fault_gate p) as [fg |]; [| done].
  cbn [or_raise mbind Result_bind]. cbv zeta.
  assert (Hfr : forall act fgo,
            (frontier ← Step3.generate_d_frontier c fuel st;
             let p2 := Step3.mkPodem act frontier fgo in
             match frontier with
             | [] => Ok (None, VX, p2)
             | g0 :: gs =>
                 let g := Step3.min_by_CO st g0 gs in
                 match filter (fun inp => Step3.output (st !!! inp) = VX)
                         (inputs (Step3.gate_of c g)) with
                 | inp :: _ =>
                     Ok (Some inp,
                         Step3.non_controlling_value
                           (gate_type (Step3.gate_of c g)), p2)
                 | [] => Ok (None, VX, p2)
                 end
             end) <> OutOfFuel).
  { intros act fgo. rewrite generate_d_frontier_first_candidate.
    unfold first_candidate.
    destruct (d_candidates c st) as [| g cs]; [done |].
    destruct (x_path_check_total c st g fuel Hfuel) as [b ->].
    cbn [mbind Result_bind]. cbv zeta.
    destruct b; [| done]. cbn [Step3.min_by_CO foldl].
    by destruct (filter _ _). }
  destruct (Step3.is_D (Step3.output (st !!! fg)));
    cbn [Step3.fault_is_activated negb]; [apply Hfr |].
  destruct (Step3.fault_is_activated p); cbn [negb]; [apply Hfr |].
  by destruct (py_in _ _).
Qed.

Lemma get_objective_fault_gate c fuel st p og ov p1 :
  Step3.get_objective c fuel st p = Ok (og, ov, p1) ->
  Step3.fault_gate p1 = Step3.fault_gate p.
Proof.
  unfold Step3.get_objective. intros H.
  destruct (Step3.fault_gate p) as [fg |] eqn:Hp; [| discriminate H].
  cbn [or_raise mbind Result_bind] in H. cbv zeta in H.
  destruct (negb _) eqn:Hact.
  - destruct (py_in _ _); injection H as <- <- <-;
      by destruct (Step3.is_D _).
  - destruct (Step3.generate_d_frontier c fuel st) as [fr | |];
      try discriminate H.
    cbn [mbind Result_bind] in H. cbv zeta in H.
    destruct fr as [| g0 gs]; [injection H as <- <- <- |
      destruct (filter _ _); injection H as <- <- <-];
      cbn; by destruct (Step3.is_D _).
Qed.

Lemma search_inv_podem c fg st p p1 :
  Step3.fault_gate p1 = Step3.fault_gate p ->
  search_inv c fg st p -> search_inv c fg st p1.
Proof. intros Hp (H & ?). split; [congruence | done]. Qed.

Lemma opposite_binary v : v ∈ [V0; V1] -> Step3.oppositeVal v ∈ [V0; V1].
Proof.
  intros Hv. apply elem_of_cons in Hv as [-> | Hv]; [right; by left |].
  apply list_elem_of_singleton in Hv. subst v. by left.
Qed.

Lemma binary_assignable v : v ∈ [V0; V1] -> v ∈ [VX; V0; V1] /\ v <> VX.
Proof.
  intros Hv. apply elem_of_cons in Hv as [-> | Hv];
    [split; [right; by left | done] |].
  apply list_elem_of_singleton in Hv. subst v.
  split; [do 2 right; by left | done].
Qed.

Lemma backtrace_step_child c st g v t tv :
  Step3.backtrace_step c st g v = (Some t, tv) ->
  t ∈ X_children c st g /\
  tv = (if Step3.inversion (gate_type (Step3.gate_of c g))
        then Step3.oppositeVal v else v).
Proof.
  unfold Step3.backtrace_step. intros Hstep. injection Hstep as Hstep <-.
  split; [| done].
  pose proof (get_hardest_spec c st v g) as Hh.
  pose proof (get_easiest_spec c st v g) as He.
  destruct (Step3.check_imply_gate _ _).
  - rewrite Hstep in Hh. by destruct Hh.
  - rewrite Hstep in He. by destruct He.
Qed.

(** The input [backtrace] hands back for such an objective is a primary
    input of the map still at X, with 0 or 1 to assign. *)
Lemma backtrace_open c st fuel : forall g v pi v',
  podem_shape c = true -> g ∈ Step3.values c -> v ∈ [V0; V1] ->
  (gate_type (Step3.gate_of c g) = Kinpt -> Step3.output (st !!! g) = VX) ->
  Step3.backtrace c fuel st g v = Ok (pi, v') ->
  pi ∈ map_inputs c /\ Step3.output (st !!! pi) = VX /\ v' ∈ [V0; V1].
Proof.
  induction fuel as [| fuel IH]; intros g v pi v' Hshape Hg Hv HX H;
    [discriminate H |].
  destruct (podem_shape_spec c Hshape) as (_ & _ & Hgates).
  cbn [Step3.backtrace] in H.
  destruct (decide (gate_type (Step3.gate_of c g) = Kinpt)) as [Hk | Hk].
  { injection H as <- <-. split; [by apply map_inputs_spec |]. auto. }
  destruct (Step3.backtrace_step c st g v) as [[t |] tv] eqn:Hstep;
    [| discriminate H].
  apply backtrace_step_child in Hstep as [Ht ->].
  apply list_elem_of_filter in Ht as [HtX Hin].
  destruct (Hgates g Hg) as (Hclosed & _).
  eapply (IH t _ pi v' Hshape); [by apply Hclosed | | done | exact H].
  destruct (Step3.inversion _); [by apply opposite_binary | done].
Qed.

Lemma backtrace_ends c st fuel : forall l1 g l2 v,
  podem_shape c = true -> Step3.values c = l1 ++ g :: l2 ->
  (length l1 < fuel)%nat ->
  Step3.backtrace c fuel st g v <> OutOfFuel.
Proof.
  induction fuel as [| fuel IH]; intros l1 g l2 v Hshape Hv Hlen; [lia |].
  destruct (podem_shape_spec c Hshape) as (Hord & _ & Hgates).
  cbn [Step3.backtrace]. case_decide; [done |].
  destruct (Step3.backtrace_step c st g v) as [[t |] tv] eqn:Hstep;
    [| done].
  apply backtrace_step_child in Hstep as [Ht _].
  apply list_elem_of_filter in Ht as [_ Hin].
  assert (Hg : g ∈ Step3.values c).
  { rewrite Hv. apply elem_of_app. right. by left. }
  destruct (Hgates g Hg) as (Hclosed & _).
  destruct (inputs_earlier c l1 g l2 t Hv Hord (Hclosed t Hin) Hin)
    as [Ht1 _].
  apply list_elem_of_split in Ht1 as (a & b & ->).
  apply (IH a t (b ++ g :: l2)); [done | |].
  - rewrite Hv. by rewrite <- app_assoc.
  - rewrite length_app in Hlen. cbn in Hlen. lia.
Qed.

Lemma imply_total c fuel st :
  consumers_first c (rev (Step3.values c)) = true ->
  unary_ok c = true ->
  (length (Step3.values c) < fuel)%nat ->
  exists st', Step3.imply c fuel st = Ok st'.
Proof.
  intros Hord Hu Hfuel.
  destruct (passes_total c (length (Step3.values c)) st Hu) as [a Ha].
  apply (imply_returns c (length (Step3.values c)) fuel st a);
    [done | done | done |].
  apply (prefix_at_rest c Hord (Step3.values c) [] (eq_sym (app_nil_r _))
           st a Ha).
Qed.

(** A decision of [podem_recursive]: 0 or 1 for a primary input of the
    map that is still at X. *)
Lemma decision_open c fuel st p fg og ov p1 tpi tv :
  podem_shape c = true -> search_inv c fg st p ->
  Step3.get_objective c fuel st p = Ok (Some og, ov, p1) ->
  Step3.backtrace c fuel st og ov = Ok (tpi, tv) ->
  tpi ∈ map_inputs c /\ Step3.output (st !!! tpi) = VX /\
  tv ∈ [V0; V1] /\ (tpi < length st)%nat.
Proof.
  intros Hshape Hinv Hobj Hbt.
  destruct (get_objective_open c fuel st p fg og ov p1 Hshape Hinv Hobj)
    as (Hog & Hov & HogX & _).
  destruct (backtrace_open c st fuel og ov tpi tv Hshape Hog Hov HogX Hbt)
    as (Htpi & HX & Htv).
  split; [done |]. split; [done |]. split; [done |].
  destruct Hinv as (_ & _ & _ & Hrange & _).
  apply map_inputs_spec in Htpi as [Htpi _].
  by apply (proj1 (Forall_forall _ _) Hrange).
Qed.

Lemma assign_X_closed c tpi st0 st :
  Step3.output (st0 !!! tpi) = VX ->
  closed_kept c st0 st -> closed_kept c st0 (Step3.assign tpi VX st).
Proof.
  intros HX Hk r Hr Hne. rewrite assign_other; [by apply Hk |].
  by intros ->.
Qed.

Lemma podem_keeps c fg fuel : forall st p st' p' found,
  podem_shape c = true ->
  Step3.podem_recursive c fuel st p = Ok (st', p', found) ->
  search_inv c fg st p ->
  search_inv c fg st' p' /\ closed_kept c st st'.
Proof.
  induction fuel as [| fuel IH]; intros st p st' p' found Hshape H Hinv;
    [discriminate H |].
  cbn [Step3.podem_recursive] in H.
  destruct (Step3.success c st) eqn:Hs.
  { injection H as <- <- <-. split; [done | apply closed_kept_refl]. }
  destruct (Step3.get_objective c fuel st p) as [[[og ov] p1] | |] eqn:Hobj;
    try discriminate H.
  cbn [mbind Result_bind] in H.
  pose proof (search_inv_podem c fg st p p1
                (get_objective_fault_gate _ _ _ _ _ _ _ Hobj) Hinv) as Hinv1.
  destruct og as [og |];
    [| injection H as <- <- <-; split; [done | apply closed_kept_refl]].
  destruct (Step3.backtrace c fuel st og ov) as [[tpi tv] | |] eqn:Hbt;
    try discriminate H.
  cbn [mbind Result_bind] in H.
  destruct (decision_open c fuel st p fg og ov p1 tpi tv Hshape Hinv Hobj Hbt)
    as (Htpi & HX & Htv & Hlt).
  destruct (binary_assignable tv Htv) as [Htv3 HtvX].
  destruct (binary_assignable _ (opposite_binary tv Htv)) as [Hop3 HopX].
  destruct (Step3.imply c fuel (Step3.assign tpi tv st)) as [st1 | |] eqn:Hi1;
    try discriminate H.
  cbn [mbind Result_bind] in H.
  destruct (imply_search c fg p1 fuel _ _ Hi1
              (assign_search c fg p1 tpi tv st Htv3 Hinv1)) as [Hinv1' Hk1].
  destruct (Step3.podem_recursive c fuel st1 p1)
    as [[[st2 p2] found2] | |] eqn:Hrec2; try discriminate H.
  cbn [mbind Result_bind] in H.
  destruct (IH _ _ _ _ _ Hshape Hrec2 Hinv1') as [Hinv2 Hk2].
  assert (Hk02 : closed_kept c st st2).
  { eapply closed_kept_trans; [apply (assign_closed c tpi tv st HtvX) |].
    by eapply closed_kept_trans. }
  destruct found2; [by injection H as <- <- <- |].
  destruct (Step3.imply c fuel
              (Step3.assign tpi (Step3.oppositeVal tv) st2))
    as [st3 | |] eqn:Hi3; try discriminate H.
  cbn [mbind Result_bind] in H.
  destruct (imply_search c fg p2 fuel _ _ Hi3
              (assign_search c fg p2 tpi _ st2 Hop3 Hinv2)) as [Hinv3 Hk3].
  destruct (Step3.podem_recursive c fuel st3 p2)
    as [[[st4 p4] found4] | |] eqn:Hrec4; try discriminate H.
  cbn [mbind Result_bind] in H.
  destruct (IH _ _ _ _ _ Hshape Hrec4 Hinv3) as [Hinv4 Hk4].
  assert (Hk04 : closed_kept c st st4).
  { eapply closed_kept_trans; [exact Hk02 |].
    eapply closed_kept_trans; [apply (assign_closed c tpi _ st2 HopX) |].
    by eapply closed_kept_trans. }
  destruct found4; [by injection H as <- <- <- |].
  destruct (Step3.imply c fuel (Step3.assign tpi VX st4))
    as [st5 | |] eqn:Hi5; try discriminate H.
  cbn [mbind Result_bind] in H. injection H as <- <- <-.
  destruct (imply_search c fg p4 fuel _ _ Hi5
              (assign_search c fg p4 tpi VX st4 ltac:(by left) Hinv4))
    as [Hinv5 Hk5].
  split; [done |].
  eapply closed_kept_trans; [| exact Hk5]. by apply assign_X_closed.
Qed.

(** With [mu] primary inputs still at X, [podem_recursive] recurses at
    most [mu] deep. *)
Lemma podem_ends c fg mu : forall fuel st p,
  podem_shape c = true -> search_inv c fg st p ->
  (length (open_inputs c st) <= mu)%nat ->
  (S (length (Step3.values c)) * S (length (Step3.values c)) + 2 + mu
   < fuel)%nat ->
  Step3.podem_recursive c fuel st p <> OutOfFuel.
Proof.
  induction mu as [| mu IH]; intros fuel st p Hshape Hinv Hopen Hfuel;
    (destruct fuel as [| fuel]; [lia |]);
    destruct (podem_shape_spec c Hshape) as (Hord & Hu & _);
    cbn [Step3.podem_recursive];
    (destruct (Step3.success c st); [done |]);
    pose proof (get_objective_ends c fuel st p ltac:(lia)) as Hoe;
    (destruct (Step3.get_objective c fuel st p)
       as [[[og ov] p1] | |] eqn:Hobj; [| done | done]);
    cbn [mbind Result_bind];
    (destruct og as [og |]; [| done]);
    pose proof (search_inv_podem c fg st p p1
                  (get_objective_fault_gate _ _ _ _ _ _ _ Hobj) Hinv)
      as Hinv1;
    (assert (Hbe : Step3.backtrace c fuel st og ov <> OutOfFuel);
     [ destruct (get_objective_open c fuel st p fg og ov p1 Hshape Hinv Hobj)
         as (Hog & _);
       apply list_elem_of_split in Hog as (l1 & l2 & Hsplit);
       apply (backtrace_ends c st fuel l1 og l2 ov Hshape Hsplit);
       rewrite Hsplit, length_app in Hfuel; cbn in Hfuel; lia |]);
    (destruct (Step3.backtrace c fuel st og ov) as [[tpi tv] | |] eqn:Hbt;
       [| done | done]);
    cbn [mbind Result_bind];
    destruct (decision_open c fuel st p fg og ov p1 tpi tv
                Hshape Hinv Hobj Hbt) as (Htpi & HX & Htv & Hlt).
  { exfalso. assert (Hin : tpi ∈ open_inputs c st).
    { unfold open_inputs. by apply list_elem_of_filter. }
    destruct (open_inputs c st); [by apply elem_of_nil in Hin |].
    cbn in Hopen. lia. }
  destruct (binary_assignable tv Htv) as [Htv3 HtvX].
  destruct (binary_assignable _ (opposite_binary tv Htv)) as [Hop3 HopX].
  assert (Himp : forall s, exists s', Step3.imply c fuel s = Ok s').
  { intros s. apply imply_total; [done | done | lia]. }
  destruct (Himp (Step3.assign tpi tv st)) as [st1 Hi1]. rewrite Hi1.
  cbn [mbind Result_bind].
  destruct (imply_search c fg p1 fuel _ _ Hi1
              (assign_search c fg p1 tpi tv st Htv3 Hinv1)) as [Hinv1' Hk1].
  assert (Hk01 : closed_kept c st st1).
  { eapply closed_kept_trans; [apply (assign_closed c tpi tv st HtvX) |].
    done. }
  assert (Hopen1 : (length (open_inputs c st1) <= mu)%nat).
  { destruct (open_inputs_count c st st1 Hk01) as [_ Hlt1].
    specialize (Hlt1 tpi Htpi HX). cut
      (length (open_inputs c st1) < length (open_inputs c st))%nat; [lia |].
    apply Hlt1. apply (Hk1 tpi Htpi). by rewrite assign_self. }
  pose proof (IH fuel st1 p1 Hshape Hinv1' Hopen1 ltac:(lia)) as Hrec1.
  destruct (Step3.podem_recursive c fuel st1 p1)
    as [[[st2 p2] found2] | |] eqn:Hrec2; [| done | done].
  cbn [mbind Result_bind].
  destruct (podem_keeps c fg fuel _ _ _ _ _ Hshape Hrec2 Hinv1')
    as [Hinv2 Hk2].
  destruct found2; [done |].
  destruct (Himp (Step3.assign tpi (Step3.oppositeVal tv) st2))
    as [st3 Hi3]. rewrite Hi3. cbn [mbind Result_bind].
  destruct (imply_search c fg p2 fuel _ _ Hi3
              (assign_search c fg p2 tpi _ st2 Hop3 Hinv2)) as [Hinv3 Hk3].
  assert (Hk03 : closed_kept c st st3).
  { eapply closed_kept_trans; [exact Hk01 |].
    eapply closed_kept_trans; [exact Hk2 |].
    eapply closed_kept_trans; [apply (assign_closed c tpi _ st2 HopX) |].
    done. }
  assert (Hopen3 : (length (open_inputs c st3) <= mu)%nat).
  { destruct (open_inputs_count c st st3 Hk03) as [_ Hlt3].
    specialize (Hlt3 tpi Htpi HX). cut
      (length (open_inputs c st3) < length (open_inputs c st))%nat; [lia |].
    apply Hlt3. apply (Hk3 tpi Htpi). rewrite assign_self; [done |].
    destruct Hinv2 as (_ & _ & _ & Hrange & _).
    apply map_inputs_spec in Htpi as [Htpi _].
    by apply (proj1 (Forall_forall _ _) Hrange). }
  pose proof (IH fuel st3 p2 Hshape Hinv3 Hopen3 ltac:(lia)) as Hrec3.
  destruct (Step3.podem_recursive c fuel st3 p2)
    as [[[st4 p4] found4] | |] eqn:Hrec4; [| done | done].
  cbn [mbind Result_bind]. destruct found4; [done |].
  destruct (Himp (Step3.assign tpi VX st4)) as [st5 ->]. done.
Qed.

Lemma podem_init_open c st r :
  r ∈ Step3.values c -> (r < length st)%nat ->
  Step3.output (Step3.podem_init c st !!! r) = VX.
Proof.
  intros Hr Hlt. destruct (podem_init_output c st r Hr) as [-> | HU];
    [done |].
  exfalso. revert HU. unfold Step3.podem_init.
  induction (Step3.values c) as [| g gs IH] using rev_ind.
  { destruct (proj1 (elem_of_nil _) Hr). }
  rewrite foldl_app. cbn [foldl]. rewrite list_lookup_total_alter.
  assert (HL : length (foldl (fun s g0 =>
                                alter (Step3.set_output_field VX) g0 s)
                         st gs) = length st).
  { clear. induction gs as [| x gs IH] using rev_ind; [done |].
    rewrite foldl_app. cbn. by rewrite length_alter. }
  case_decide as Hd; [done |].
  apply elem_of_app in Hr as [Hr | Hr]; [by apply IH |].
  apply list_elem_of_singleton in Hr. subst r. intros _. apply Hd.
  split; [done | lia].
Qed.

(** X21: on a netlist whose map lists every gate after its inputs (gates
    of the map), with an input on every not, buf and fanout gate, none on
    the gates of kind inpt and no gate of an unknown kind,
    [generate_test_vector] comes to an end, with an answer or an
    exception: the recursion of [podem_recursive] is at most as deep as
    there are primary inputs, since every decision gives 0 or 1 to a
    primary input that was at X. *)
Theorem X21_the_search_ends c fuel st fault :
  podem_shape c = true ->
  forallb (fun r => bool_decide (r < length st)%nat) (Step3.values c)
  = true ->
  (S (length (Step3.values c)) * S (length (Step3.values c)) + 3
   + length (map_inputs c) <= fuel)%nat ->
  Step3.generate_test_vector c fuel st fault <> OutOfFuel.
Proof.
  intros Hshape Hrange Hfuel. unfold Step3.generate_test_vector.
  destruct (Step3.dict_get fault.1 (Step3.gates c)) as [fg |] eqn:Hfg;
    [| done].
  cbn [or_raise mbind Result_bind]. cbv zeta.
  set (sv := if decide (fault.2 = 1) then V1 else V0).
  set (st2 := alter (Step3.set_fault true sv) fg (Step3.podem_init c st)).
  assert (HR : forall r, r ∈ Step3.values c -> (r < length st)%nat).
  { intros r Hr. apply list_elem_of_In in Hr.
    pose proof (proj1 (forallb_forall _ _) Hrange r Hr) as Hlt.
    by apply bool_decide_eq_true in Hlt. }
  assert (Hfgv : fg ∈ Step3.values c).
  { apply dict_get_elem in Hfg. unfold Step3.values.
    apply list_elem_of_fmap. by exists (fault.1, fg). }
  destruct (podem_init_frame c st) as [HLi _].
  assert (Hinv : search_inv c fg st2 (Step3.mkPodem false [] (Some fg))).
  { split; [done |]. split; [done |]. split; [| split].
    - unfold st2. rewrite list_lookup_total_alter.
      rewrite decide_True by (split; [done |]; rewrite HLi; by apply HR).
      cbn. unfold sv. case_decide; [right; by left | by left].
    - apply Forall_forall. intros r Hr. unfold st2.
      rewrite length_alter, HLi. by apply HR.
    - intros r Hr. apply map_inputs_spec in Hr as [Hr _]. unfold st2.
      rewrite (lookup_alter_field Step3.output) by done.
      rewrite podem_init_open by auto. by left. }
  assert (Hopen : (length (open_inputs c st2)
                   <= length (map_inputs c))%nat).
  { unfold open_inputs. apply length_filter. }
  pose proof (podem_ends c fg _ fuel st2 _ Hshape Hinv Hopen ltac:(lia))
    as Hend.
  by destruct (Step3.podem_recursive c fuel st2 _) as [[[st3 p3] found] | |].
Qed.

Lemma X21_the_search_ends_witness :
  Step3.generate_test_vector c17 332 c17_measured ("10", 1) <> OutOfFuel.
Proof.
  apply (X21_the_search_ends c17 332 c17_measured ("10", 1)).
  - vm_compute. reflexivity.
  - vm_compute. reflexivity.
  - vm_compute. lia.
Defined.

(** ** The event-driven run ends *)

Lemma two_pow_pos (k : nat) : (1 <= 2 ^ k)%nat.
Proof. induction k as [| k IH]; cbn; lia. Qed.

Section EventRunEnds.
Variable gates : list Gate.
Hypothesis Hfirst : inputs_first gates = true.

Let n := length gates.
Let W (st : Step2.State) : nat := queue_weight n (Step2.timing_queue st).

Lemma first_consumer_later x r :
  (r < n)%nat -> consumes gates x r -> (x < r)%nat.
Proof.
  intros Hr Hc. unfold consumes in Hc.
  destruct (lookup_lt_is_Some_2 gates r Hr) as [g Hg].
  rewrite (list_lookup_total_correct _ _ _ Hg) in Hc.
  pose proof (inputs_first_from_spec gates 0 Hfirst r g Hg) as Hin.
  by apply (proj1 (Forall_forall _ _) Hin).
Qed.

Lemma consumers_weigh_less t x idx :
  (idx <= n)%nat ->
  (sum_list_with (weight n)
     (entry_of gates t <$> filter (consumes gates x) (seq 0 idx))
   + 2 * 2 ^ (n - Nat.max idx (S x)) <= 2 * 2 ^ (n - S x))%nat.
Proof.
  induction idx as [| idx IH]; intros Hidx.
  { cbn [seq filter fmap list_fmap sum_list_with].
    rewrite filter_nil. cbn. lia. }
  specialize (IH ltac:(lia)).
  rewrite seq_S, filter_app, fmap_app, sum_list_with_app. cbn [Nat.add].
  rewrite filter_cons, filter_nil.
  destruct (decide (consumes gates x idx)) as [Hc | Hc].
  - pose proof (first_consumer_later x idx ltac:(lia) Hc) as Hlt.
    cbn [fmap list_fmap sum_list_with].
    change (weight n (entry_of gates t idx)) with (2 ^ (n - idx))%nat.
    rewrite Nat.max_l in IH by lia. rewrite Nat.max_l by lia.
    replace (n - idx)%nat with (S (n - S idx)) in * by lia.
    rewrite Nat.pow_succ_r' in *. lia.
  - cbn [fmap list_fmap sum_list_with].
    destruct (decide (idx <= x)%nat) as [Hle | Hgt].
    + rewrite Nat.max_r in IH by lia. rewrite Nat.max_r by lia. lia.
    + rewrite Nat.max_l in IH by lia. rewrite Nat.max_l by lia.
      replace (n - idx)%nat with (S (n - S idx)) in * by lia.
      rewrite Nat.pow_succ_r' in *. lia.
Qed.

Lemma schedule_fanouts_pushes x t st :
  Step2.timing_queue (Step2.schedule_fanouts x t 0 gates st) ≡ₚ
  (entry_of gates t <$> filter (consumes gates x) (seq 0 n))
  ++ Step2.timing_queue st.
Proof.
  apply (schedule_fanouts_ind
           (fun idx s =>
              Step2.timing_queue s ≡ₚ
              (entry_of gates t <$> filter (consumes gates x) (seq 0 idx))
              ++ Step2.timing_queue st)
           x t gates 0 st); [done |].
  intros j g s Hj Hq. cbn [Nat.add].
  pose proof (list_lookup_total_correct _ _ _ Hj) as Hgj.
  rewrite seq_S, filter_app, filter_cons, filter_nil. cbn [Nat.add].
  destruct (py_in x (inputs g)) eqn:Hin.
  - apply py_in_true in Hin.
    unfold Step2.push_timing. cbn [Step2.timing_queue].
    rewrite heappush_perm, evaluate_queue, Hq.
    rewrite decide_True by (unfold consumes; by rewrite Hgj).
    rewrite fmap_app. cbn [fmap list_fmap].
    unfold entry_of at 3. rewrite Hgj.
    rewrite <- app_assoc. cbn. apply Permutation_middle.
  - apply py_in_false in Hin.
    rewrite decide_False by (unfold consumes; by rewrite Hgj).
    by rewrite app_nil_r.
Qed.

(** What [schedule_fanouts] adds for gate [x] weighs less than one entry
    for [x]. *)
Lemma schedule_fanouts_weight x t st :
  (W (Step2.schedule_fanouts x t 0 gates st) + 1
   <= W st + 2 ^ (n - x))%nat.
Proof.
  unfold W, queue_weight. rewrite schedule_fanouts_pushes.
  rewrite sum_list_with_app.
  pose proof (consumers_weigh_less t x n ltac:(lia)) as Hw.
  pose proof (two_pow_pos (n - Nat.max n (S x))).
  destruct (decide (x < n)%nat) as [Hx | Hx].
  - replace (n - x)%nat with (S (n - S x)) by lia.
    rewrite Nat.pow_succ_r'. lia.
  - rewrite Nat.max_r in Hw by lia. pose proof (two_pow_pos (n - x)). lia.
Qed.

Lemma process_event_weight t x st :
  (W (Step2.process_event gates t x st) + 1 <= W st + 2 ^ (n - x))%nat.
Proof.
  unfold Step2.process_event.
  etransitivity; [apply schedule_fanouts_weight |].
  apply Nat.add_le_mono_r. unfold W, Step2.update_output.
  by destruct (Step2.pop_due _ _).
Qed.

Lemma drain_total t fuel : forall st,
  (W st < fuel)%nat ->
  exists st',
    Step2.drain fuel gates t st = Some st' /\
    (W st' <= W st)%nat /\
    (forall a x q, Step2.timing_queue st = (t, a, x) :: q ->
       (W st' < W st)%nat).
Proof.
  induction fuel as [| fuel IH]; intros st Hfuel; [lia |].
  cbn [Step2.drain].
  destruct (Step2.timing_queue st) as [| [[t' a] x] q] eqn:Hq.
  { exists st. by repeat split. }
  destruct (decide (t' = t)) as [-> | Hne]; cycle 1.
  { exists st. split; [done |]. split; [done |].
    intros a' x' q' [= ? _ _ _]. done. }
  assert (Hpop : (W (Step2.pop_timing st) + 2 ^ (n - x) = W st)%nat).
  { unfold W, Step2.pop_timing, queue_weight. cbn. rewrite Hq. cbn.
    unfold weight at 2. cbn. lia. }
  pose proof (process_event_weight t x (Step2.pop_timing st)) as Hpe.
  destruct (IH (Step2.process_event gates t x (Step2.pop_timing st))
              ltac:(lia)) as (st' & Hd & Hle & _).
  exists st'. split; [done |]. split; [lia |]. intros; lia.
Qed.

Lemma apply_vector_weight vec t st :
  (W (Step2.apply_vector gates vec t 0 gates st) <= W st + n * 2 ^ n)%nat.
Proof.
  apply (apply_vector_ind
           (fun idx s => (W s <= W st + idx * 2 ^ n)%nat)
           gates vec t gates 0 st); [lia |].
  intros j g s Hj Hs. cbn [Nat.add].
  destruct (if decide (gate_type g = Kinpt) then vec !! address g else None);
    [| lia].
  case_decide; [| lia].
  pose proof (schedule_fanouts_weight j t (Step2.set_output j l s)) as Hw.
  assert (Hset : W (Step2.set_output j l s) = W s) by done.
  assert (Hpow : (2 ^ (n - j) <= 2 ^ n)%nat)
    by (apply Nat.pow_le_mono_r; lia).
  lia.
Qed.

Lemma run_total fuel : forall tvs st,
  (W st + length tvs * S (n * 2 ^ n) + S (n * 2 ^ n) < fuel)%nat ->
  exists st', Step2.run_simulation_for_vectors fuel gates tvs st = Some st'.
Proof.
  induction fuel as [| fuel IH]; intros tvs st Hfuel; [lia |].
  cbn [Step2.run_simulation_for_vectors].
  destruct (Step2.next_time tvs st) as [now |] eqn:Hnext; [| by eexists].
  set (K := (n * 2 ^ n)%nat) in *.
  unfold Step2.next_time in Hnext.
  destruct tvs as [| [nt vec] rest].
  - destruct (Step2.timing_queue st) as [| [[qt a] x] q] eqn:Hq; [done |].
    injection Hnext as <-.
    destruct (drain_total qt fuel st ltac:(cbn in Hfuel; lia))
      as (st2 & -> & _ & Hlt).
    specialize (Hlt a x q Hq). apply IH. cbn in Hfuel |- *. lia.
  - cbn [length] in Hfuel.
    destruct (decide (now = nt)) as [-> | Hne].
    + pose proof (apply_vector_weight vec nt st) as Hav. fold K in Hav.
      destruct (drain_total nt fuel
                  (Step2.apply_vector gates vec nt 0 gates st)
                  ltac:(lia)) as (st2 & -> & Hle & _).
      apply IH. lia.
    + destruct (Step2.timing_queue st) as [| [[qt a] x] q] eqn:Hq;
        [by injection Hnext as <- |].
      injection Hnext as <-.
      assert (Hmin : Z.min nt qt = qt) by lia.
      destruct (drain_total (Z.min nt qt) fuel st ltac:(lia))
        as (st2 & -> & _ & Hlt).
      rewrite Hmin in Hlt. specialize (Hlt a x q Hq).
      apply IH. cbn [length]. lia.
Qed.

End EventRunEnds.

(** X22: on a netlist whose gates are declared after their inputs, the
    event-driven [run_simulation_for_vectors] comes to an end for every
    list of test vectors and every choice of delays: each entry taken from
    the timing queue adds entries for later gates only, so that, for [n]
    gates and [k] vectors, [(k + 1) * (n * 2^n + 1)] turns of its loops
    suffice. *)
Theorem X22_event_driven_run_ends gates tvs fuel :
  inputs_first gates = true ->
  (S (length tvs) * S (length gates * 2 ^ length gates) < fuel)%nat ->
  exists st,
    Step2.run_simulation_for_vectors fuel gates tvs
      (Step2.initial_state gates) = Some st.
Proof.
  intros Hfirst Hfuel. apply (run_total gates Hfirst).
  unfold Step2.initial_state, queue_weight. cbn. lia.
Qed.

Lemma X22_event_driven_run_ends_witness :
  exists st,
    Step2.run_simulation_for_vectors 100 glitch
      [(0, {[ 1 := L0 ]}); (5, {[ 1 := L1 ]})]
      (Step2.initial_state glitch) = Some st.
Proof.
  apply (X22_event_driven_run_ends glitch
           [(0, {[ 1 := L0 ]}); (5, {[ 1 := L1 ]})] 100).
  - vm_compute. reflexivity.
  - vm_compute. lia.
Defined.
